(** * Interactive CV site: navigation controller and animation engine

    A shallow embedding of the two front-end components of the site:

    - [CVAnimations] (the animation script): the canvas particle loop,
      the reduced-motion gate of [init] and the typewriter effects;
    - [CVApp] (the main script): section navigation, the mobile menu,
      the resize handler and the reveal animations, and in [Scrolling]
      its scroll listeners;
    - [CVUtils] (the configuration script): the validation and
      formatting utilities.

    The arithmetic of the particle loop is embedded twice: over the real
    numbers, for the statements that hold in exact arithmetic, and over
    IEEE-754 doubles ([Doubles]), as the browser computes it, to evaluate
    the loop on concrete particles. DOM nodes are handles into a document
    list; timers and listeners are data in an explicit event loop state. *)

From Stdlib Require Import Reals Lra Lia ZArith QArith String List Bool.
From Stdlib Require PrimFloat.
From stdpp Require Import base option list strings gmap.
Import ListNotations.

(** ** Completion records of JavaScript calls *)

Inductive JsError :=
| TypeError (msg : string).

Inductive Completion (A : Type) :=
| Normal (a : A)
| Throw (e : JsError).
Arguments Normal {A} a.
Arguments Throw {A} e.

(** A call either completes or throws; the effects made before a throw
    stay. *)
Definition Run (S : Type) : Type := S -> Completion unit * S.

Definition pure {S : Type} (f : S -> S) : Run S := fun s => (Normal tt, f s).

Definition throw {S : Type} (e : JsError) : Run S := fun s => (Throw e, s).

Definition andThen {S : Type} (m1 m2 : Run S) : Run S := fun s =>
  match m1 s with
  | (Normal _, s') => m2 s'
  | (Throw e, s') => (Throw e, s')
  end.

Notation "m1 >> m2" := (andThen m1 m2) (at level 65, right associativity).

(** [array.forEach((item, index) => ...)] for callbacks that cannot throw. *)
Definition forEach {S A : Type} (f : nat -> A -> S -> S) (l : list A)
    (s : S) : S :=
  foldl (fun s' (ix : nat * A) => f ix.1 ix.2 s') s (imap pair l).

(** Timers: the callback due first runs first, in insertion order among
    equals. *)
Definition minDue {C : Type} (ts : list (nat * C)) : option nat :=
  match ts with
  | [] => None
  | t :: ts' => Some (foldr (fun t' m => Nat.min t'.1 m) t.1 ts')
  end.

Definition nextTimer {C : Type} (ts : list (nat * C))
  : option (nat * (nat * C)) :=
  match minDue ts with
  | Some d => list_find (fun t => t.1 = d) ts
  | None => None
  end.

(** [Set.prototype.add]: insertion-ordered, no second entry. *)
Definition setAdd (h : nat) (s : list nat) : list nat :=
  if bool_decide (h ∈ s) then s else s ++ [h].

(** ** DOMTokenList operations ([classList]) *)

Definition contains (cl : list string) (c : string) : bool :=
  bool_decide (c ∈ cl).

Definition classAdd (c : string) (cl : list string) : list string :=
  if contains cl c then cl else cl ++ [c].

Definition classRemove (c : string) (cl : list string) : list string :=
  filter (λ c', c' ≠ c) cl.

(** * The animation engine

    Modelled: the particle loop, the class with its constructor and
    [init], the set-up methods with the timers, listeners and observer
    they register, the typewriter effects and the start-up and unload
    handlers of the script. The handlers that only restyle a node (tilt,
    custom cursor, parallax) are registered but their bodies are left
    out. *)

Module CVAnimations.

Local Open Scope R_scope.

Module Particle.
Record t := mk {
  x : R; y : R;
  vx : R; vy : R;
  size : R;
  opacity : R;
  color : R   (* alpha channel of [rgba(255, 215, 0, alpha)] *)
}.
End Particle.

Module Mouse.
Record t := mk { x : R; y : R }.
End Mouse.

Module Canvas.
Record t := mk { width : R; height : R }.
End Canvas.

(** Calls made on the 2D rendering context. *)
Inductive CanvasOp :=
| clearRect (x y w h : R)
| fillArc (x y radius fillAlpha : R)
| strokeLine (x1 y1 x2 y2 strokeAlpha lineWidth : R).

(** [particle.x += particle.vx; particle.y += particle.vy] *)
Definition integrate (p : Particle.t) : Particle.t :=
  Particle.mk (Particle.x p + Particle.vx p) (Particle.y p + Particle.vy p)
    (Particle.vx p) (Particle.vy p)
    (Particle.size p) (Particle.opacity p) (Particle.color p).

(** [v < 0 || v > limit] *)
Definition outside (v limit : R) : bool :=
  if Rlt_dec v 0 then true else if Rgt_dec v limit then true else false.

(** Bounce on the borders: the velocity component is inverted, the
    position is left as it is. *)
Definition bounce (c : Canvas.t) (p : Particle.t) : Particle.t :=
  Particle.mk (Particle.x p) (Particle.y p)
    (if outside (Particle.x p) (Canvas.width c)
     then Particle.vx p * -1 else Particle.vx p)
    (if outside (Particle.y p) (Canvas.height c)
     then Particle.vy p * -1 else Particle.vy p)
    (Particle.size p) (Particle.opacity p) (Particle.color p).

(** Attraction towards the last known pointer position. *)
Definition attract (m : Mouse.t) (p : Particle.t) : Particle.t :=
  let dx := Mouse.x m - Particle.x p in
  let dy := Mouse.y m - Particle.y p in
  let distance := sqrt (dx * dx + dy * dy) in
  if Rlt_dec distance 100 then
    let force := (100 - distance) / 100 in
    Particle.mk (Particle.x p) (Particle.y p)
      (Particle.vx p + dx * force * 0.0001)
      (Particle.vy p + dy * force * 0.0001)
      (Particle.size p) (Particle.opacity p) (Particle.color p)
  else p.

Definition maxSpeed : R := 2.

Definition speedOf (p : Particle.t) : R :=
  sqrt (Particle.vx p * Particle.vx p + Particle.vy p * Particle.vy p).

(** Speed limit: the velocity vector is rescaled to [maxSpeed]. *)
Definition limitSpeed (p : Particle.t) : Particle.t :=
  let speed := speedOf p in
  if Rgt_dec speed maxSpeed then
    Particle.mk (Particle.x p) (Particle.y p)
      (Particle.vx p / speed * maxSpeed)
      (Particle.vy p / speed * maxSpeed)
      (Particle.size p) (Particle.opacity p) (Particle.color p)
  else p.

(** The per-particle update of one tick, in source order. *)
Definition updateParticle (c : Canvas.t) (m : Mouse.t) (p : Particle.t)
  : Particle.t :=
  limitSpeed (attract m (bounce c (integrate p))).

(** The body of the inner loop: one connection check. *)
Definition connect (p other : Particle.t) : option CanvasOp :=
  let dx := Particle.x p - Particle.x other in
  let dy := Particle.y p - Particle.y other in
  let distance := sqrt (dx * dx + dy * dy) in
  if Rlt_dec distance 80 then
    Some (strokeLine (Particle.x p) (Particle.y p)
            (Particle.x other) (Particle.y other)
            ((80 - distance) / 80 * 0.2) 0.5)
  else None.

(** [for (j = index + 1; j < particles.length; j++)]: the later
    particles, which this tick has not updated yet. *)
Definition connectLater (p : Particle.t) (later : list Particle.t)
  : list CanvasOp :=
  omap (connect p) later.

(** [this.particles.forEach(...)]: every particle is updated in place and
    drawn, then connected to the particles after it in the array. *)
Fixpoint forEachParticle (c : Canvas.t) (m : Mouse.t) (ps : list Particle.t)
  : list Particle.t * list CanvasOp :=
  match ps with
  | [] => ([], [])
  | p :: later =>
      let p' := updateParticle c m p in
      let drawn :=
        fillArc (Particle.x p') (Particle.y p') (Particle.size p')
                (Particle.color p') :: connectLater p' later in
      let '(later', ops) := forEachParticle c m later in
      (p' :: later', drawn ++ ops)
  end.

Definition inBounds (c : Canvas.t) (p : Particle.t) : Prop :=
  0 <= Particle.x p <= Canvas.width c /\
  0 <= Particle.y p <= Canvas.height c.

(** The tick inverted a velocity component of [p]: the velocity [bounce]
    returns is not the one it was given. *)
Definition reflectedX (c : Canvas.t) (p : Particle.t) : Prop :=
  Particle.vx (bounce c (integrate p)) <> Particle.vx (integrate p).
Definition reflectedY (c : Canvas.t) (p : Particle.t) : Prop :=
  Particle.vy (bounce c (integrate p)) <> Particle.vy (integrate p).

Local Close Scope R_scope.

(** ** The same update over IEEE-754 doubles *)

Module Doubles.

Import PrimFloat.
Local Open Scope float_scope.
Local Set Warnings "-inexact-float".

Record Particle := mkParticle {
  x : float; y : float;
  vx : float; vy : float
}.

Definition integrate (p : Particle) : Particle :=
  mkParticle (x p + vx p) (y p + vy p) (vx p) (vy p).

(** [v < 0 || v > limit] *)
Definition outside (v limit : float) : bool := (v <? 0) || (limit <? v).

Definition bounce (width height : float) (p : Particle) : Particle :=
  mkParticle (x p) (y p)
    (if outside (x p) width then vx p * -1 else vx p)
    (if outside (y p) height then vy p * -1 else vy p).

Definition attract (mouseX mouseY : float) (p : Particle) : Particle :=
  let dx := mouseX - x p in
  let dy := mouseY - y p in
  let distance := sqrt (dx * dx + dy * dy) in
  if distance <? 100 then
    let force := (100 - distance) / 100 in
    mkParticle (x p) (y p)
      (vx p + dx * force * 0.0001) (vy p + dy * force * 0.0001)
  else p.

Definition maxSpeed : float := 2.

Definition speedOf (p : Particle) : float :=
  sqrt (vx p * vx p + vy p * vy p).

Definition limitSpeed (p : Particle) : Particle :=
  let speed := speedOf p in
  if maxSpeed <? speed then
    mkParticle (x p) (y p)
      (vx p / speed * maxSpeed) (vy p / speed * maxSpeed)
  else p.

Definition updateParticle (width height mouseX mouseY : float)
    (p : Particle) : Particle :=
  limitSpeed (attract mouseX mouseY (bounce width height (integrate p))).

Definition distance (p other : Particle) : float :=
  let dx := x p - x other in
  let dy := y p - y other in
  sqrt (dx * dx + dy * dy).

(** The stroke opacity of the connecting line, if one is drawn. *)
Definition connect (p other : Particle) : option float :=
  if distance p other <? 80
  then Some ((80 - distance p other) / 80 * 0.2)
  else None.

(** [size: Math.random() * 2 + 1], for the value [random] that
    [Math.random] returned. *)
Definition size (random : float) : float := random * 2 + 1.

(** The largest double below 1, the largest value [Math.random] may
    return. *)
Definition lastRandom : float := 0x1.fffffffffffffp-1.

End Doubles.

(** ** Document, event loop and instance state *)

(** The part of an element the effects read and write. *)
Record Element := mkElement {
  textContent : string;           (* a character stands for one code unit *)
  classList : list string;
  style : gmap string string;
  appended : list string          (* nodes added by [appendChild] *)
}.

(** What the host page provides: the media query and [Math.random], and
    the results of the selector queries made once at start-up (the page
    markup is an input of the script). *)
Record Env := mkEnv {
  prefersReducedMotion : bool;
  random : nat -> R;
  nameElement : option nat;       (* '.profile-details .name' *)
  contactItems : list nat;        (* '.contact-item' *)
  cards : list nat;
  buttons : list nat;             (* '.btn-download' *)
  interactiveElements : list nat;
  parallaxElements : list nat;    (* '.section-header' *)
  descriptions : list nat
}.

(** Closures handed to [setTimeout]; a captured counter [i] travels with
    the closure. *)
Inductive TimerCallback :=
| typingWriter (element : nat) (text : string) (i speed : nat)
| typingText (element : nat) (text : string) (i : nat)
| caretOff (element : nat)
| contactReveal (item : nat)
| shineSweep (card : nat)
| shineRemove (card : nat)
| rippleRemove (button : nat)
| startAnimations.

Inductive FrameCallback :=
| particleFrame.

Inductive Listener :=
| trackMouse
| resizeCanvasOnResize
| shineOnEnter (card : nat)
| tiltOnMove (card : nat)
| tiltOffOnLeave (card : nat)
| rippleOnClick (button : nat)
| cursorFollow
| cursorGrow (element : nat)
| cursorShrink (element : nat)
| parallaxOnScroll.

Record Instance := mkInstance {
  isReducedMotion : bool;
  particles : list Particle.t;
  mouse : Mouse.t;
  canvas : option Canvas.t
}.

Record World := mkWorld {
  this : Instance;
  elements : list Element;
  body : list string;             (* nodes appended to [document.body] *)
  bodyCursor : string;
  innerWidth : nat;
  innerHeight : nat;
  randomCalls : nat;              (* calls of [Math.random] so far *)
  now : nat;
  timers : list (nat * TimerCallback);
  frames : list FrameCallback;
  listeners : list Listener;
  observed : list nat;            (* targets of the typing observer *)
  drawn : list CanvasOp;
  console : list string;
  windowCVAnimations : bool       (* [window.CVAnimations] is assigned *)
}.

Definition set_isReducedMotion (v : bool) (o : Instance) : Instance :=
  mkInstance v (particles o) (mouse o) (canvas o).

Definition set_particles (v : list Particle.t) (o : Instance) : Instance :=
  mkInstance (isReducedMotion o) v (mouse o) (canvas o).

Definition set_mouse (v : Mouse.t) (o : Instance) : Instance :=
  mkInstance (isReducedMotion o) (particles o) v (canvas o).

Definition set_canvas (v : option Canvas.t) (o : Instance) : Instance :=
  mkInstance (isReducedMotion o) (particles o) (mouse o) v.

Definition set_this (v : Instance) (w : World) : World :=
  mkWorld v (elements w) (body w) (bodyCursor w) (innerWidth w)
    (innerHeight w) (randomCalls w) (now w) (timers w) (frames w)
    (listeners w) (observed w) (drawn w) (console w) (windowCVAnimations w).

Definition set_elements (v : list Element) (w : World) : World :=
  mkWorld (this w) v (body w) (bodyCursor w) (innerWidth w) (innerHeight w)
    (randomCalls w) (now w) (timers w) (frames w) (listeners w) (observed w)
    (drawn w) (console w) (windowCVAnimations w).

Definition set_body (v : list string) (w : World) : World :=
  mkWorld (this w) (elements w) v (bodyCursor w) (innerWidth w)
    (innerHeight w) (randomCalls w) (now w) (timers w) (frames w)
    (listeners w) (observed w) (drawn w) (console w) (windowCVAnimations w).

Definition set_bodyCursor (v : string) (w : World) : World :=
  mkWorld (this w) (elements w) (body w) v (innerWidth w) (innerHeight w)
    (randomCalls w) (now w) (timers w) (frames w) (listeners w) (observed w)
    (drawn w) (console w) (windowCVAnimations w).

Definition set_innerWidth (v : nat) (w : World) : World :=
  mkWorld (this w) (elements w) (body w) (bodyCursor w) v (innerHeight w)
    (randomCalls w) (now w) (timers w) (frames w) (listeners w) (observed w)
    (drawn w) (console w) (windowCVAnimations w).

Definition set_innerHeight (v : nat) (w : World) : World :=
  mkWorld (this w) (elements w) (body w) (bodyCursor w) (innerWidth w) v
    (randomCalls w) (now w) (timers w) (frames w) (listeners w) (observed w)
    (drawn w) (console w) (windowCVAnimations w).

Definition set_randomCalls (v : nat) (w : World) : World :=
  mkWorld (this w) (elements w) (body w) (bodyCursor w) (innerWidth w)
    (innerHeight w) v (now w) (timers w) (frames w) (listeners w) (observed w)
    (drawn w) (console w) (windowCVAnimations w).

Definition set_now (v : nat) (w : World) : World :=
  mkWorld (this w) (elements w) (body w) (bodyCursor w) (innerWidth w)
    (innerHeight w) (randomCalls w) v (timers w) (frames w) (listeners w)
    (observed w) (drawn w) (console w) (windowCVAnimations w).

Definition set_timers (v : list (nat * TimerCallback)) (w : World) : World :=
  mkWorld (this w) (elements w) (body w) (bodyCursor w) (innerWidth w)
    (innerHeight w) (randomCalls w) (now w) v (frames w) (listeners w)
    (observed w) (drawn w) (console w) (windowCVAnimations w).

Definition set_frames (v : list FrameCallback) (w : World) : World :=
  mkWorld (this w) (elements w) (body w) (bodyCursor w) (innerWidth w)
    (innerHeight w) (randomCalls w) (now w) (timers w) v (listeners w)
    (observed w) (drawn w) (console w) (windowCVAnimations w).

Definition set_listeners (v : list Listener) (w : World) : World :=
  mkWorld (this w) (elements w) (body w) (bodyCursor w) (innerWidth w)
    (innerHeight w) (randomCalls w) (now w) (timers w) (frames w) v
    (observed w) (drawn w) (console w) (windowCVAnimations w).

Definition set_observed (v : list nat) (w : World) : World :=
  mkWorld (this w) (elements w) (body w) (bodyCursor w) (innerWidth w)
    (innerHeight w) (randomCalls w) (now w) (timers w) (frames w)
    (listeners w) v (drawn w) (console w) (windowCVAnimations w).

Definition set_drawn (v : list CanvasOp) (w : World) : World :=
  mkWorld (this w) (elements w) (body w) (bodyCursor w) (innerWidth w)
    (innerHeight w) (randomCalls w) (now w) (timers w) (frames w)
    (listeners w) (observed w) v (console w) (windowCVAnimations w).

Definition set_console (v : list string) (w : World) : World :=
  mkWorld (this w) (elements w) (body w) (bodyCursor w) (innerWidth w)
    (innerHeight w) (randomCalls w) (now w) (timers w) (frames w)
    (listeners w) (observed w) (drawn w) v (windowCVAnimations w).

Definition set_windowCVAnimations (v : bool) (w : World) : World :=
  mkWorld (this w) (elements w) (body w) (bodyCursor w) (innerWidth w)
    (innerHeight w) (randomCalls w) (now w) (timers w) (frames w)
    (listeners w) (observed w) (drawn w) (console w) v.


(** ** Host primitives *)

Definition M : Type := Run World.

Definition consoleLog (msg : string) (w : World) : World :=
  set_console (console w ++ [msg]) w.

Definition setTimeout (cb : TimerCallback) (delay : nat) (w : World) : World :=
  set_timers (timers w ++ [(now w + delay, cb)]) w.

Definition requestAnimationFrame (cb : FrameCallback) (w : World) : World :=
  set_frames (frames w ++ [cb]) w.

Definition addEventListener (l : Listener) (w : World) : World :=
  set_listeners (listeners w ++ [l]) w.

Definition updElement (h : nat) (f : Element -> Element) (w : World) : World :=
  set_elements (alter f h (elements w)) w.

Definition setTextContent (s : string) (e : Element) : Element :=
  mkElement s (classList e) (style e) (appended e).

Definition setStyle (k v : string) (e : Element) : Element :=
  mkElement (textContent e) (classList e) (<[k:=v]> (style e)) (appended e).

Definition addClass (c : string) (e : Element) : Element :=
  mkElement (textContent e) (classAdd c (classList e)) (style e) (appended e).

Definition appendChild (node : string) (e : Element) : Element :=
  mkElement (textContent e) (classList e) (style e) (appended e ++ [node]).

Fixpoint removeFirst (node : string) (l : list string) : list string :=
  match l with
  | [] => []
  | n :: l' => if String.eqb n node then l' else n :: removeFirst node l'
  end.

Definition removeChild (node : string) (e : Element) : Element :=
  mkElement (textContent e) (classList e) (style e)
    (removeFirst node (appended e)).

Definition getText (h : nat) (w : World) : string :=
  from_option textContent EmptyString (elements w !! h).

Definition hasClass (h : nat) (c : string) (w : World) : bool :=
  from_option (fun e => contains (classList e) c) false (elements w !! h).

(** [text.charAt(i)]: the empty string past the end. *)
Definition charAt (s : string) (i : nat) : string :=
  match String.get i s with
  | Some c => String c EmptyString
  | None => EmptyString
  end.

(** ** Particle system *)

Definition resizeCanvas : M := fun w =>
  match canvas (this w) with
  | Some _ =>
      (Normal tt,
       set_this (set_canvas
         (Some (Canvas.mk (INR (innerWidth w)) (INR (innerHeight w))))
         (this w)) w)
  | None =>
      (Throw (TypeError "Cannot set properties of undefined (setting 'width')"), w)
  end.

(** The object literal pushed by [createParticles]; [k] is the number of
    [Math.random] calls made before it. *)
Definition newParticle (env : Env) (c : Canvas.t) (k : nat) : Particle.t :=
  Particle.mk
    (random env k * Canvas.width c)%R
    (random env (k + 1) * Canvas.height c)%R
    ((random env (k + 2) - 0.5) * 0.5)%R
    ((random env (k + 3) - 0.5) * 0.5)%R
    (random env (k + 4) * 2 + 1)%R
    (random env (k + 5) * 0.5 + 0.1)%R
    (random env (k + 6) * 0.3 + 0.1)%R.

Fixpoint pushParticles (env : Env) (c : Canvas.t) (count : nat) (w : World)
  : World :=
  match count with
  | O => w
  | S n =>
      let p := newParticle env c (randomCalls w) in
      pushParticles env c n
        (set_randomCalls (randomCalls w + 7)
           (set_this (set_particles (particles (this w) ++ [p]) (this w)) w))
  end.

Definition createParticles (env : Env) : M := fun w =>
  let particleCount := Nat.min 50 (innerWidth w / 20) in
  match canvas (this w) with
  | Some c => (Normal tt, pushParticles env c particleCount w)
  | None =>
      if particleCount =? 0 then (Normal tt, w)
      else (Throw (TypeError "Cannot read properties of undefined (reading 'width')"),
            set_randomCalls (randomCalls w + 1) w)
  end.

Definition animateParticles : M := fun w =>
  if isReducedMotion (this w) then (Normal tt, w)
  else
    match canvas (this w) with
    | None =>
        (Throw (TypeError "Cannot read properties of undefined (reading 'clearRect')"), w)
    | Some c =>
        let '(ps, ops) :=
          forEachParticle c (mouse (this w)) (particles (this w)) in
        let w1 :=
          set_drawn
            (drawn w ++ clearRect 0 0 (Canvas.width c) (Canvas.height c) :: ops)
            w in
        let w2 := set_this (set_particles ps (this w1)) w1 in
        (Normal tt, requestAnimationFrame particleFrame w2)
    end.

Definition setupParticleSystem (env : Env) : M :=
  pure (fun w =>
    set_this (set_canvas (Some (Canvas.mk 300 150)) (this w))
      (set_body (body w ++ ["particles-canvas"]) w)) >>
  resizeCanvas >>
  createParticles env >>
  animateParticles >>
  pure (addEventListener trackMouse) >>
  pure (addEventListener resizeCanvasOnResize).

(** ** Text effects *)

Definition typeWriter (element : nat) (text : string) (speed : nat)
    (w : World) : World :=
  if isReducedMotion (this w) then
    updElement element (setTextContent text) w
  else
    setTimeout (typingWriter element text 0 speed) 1000
      (updElement element (setTextContent EmptyString) w).

(** The closure [typing] of [typeWriter]. *)
Definition typingWriterStep (element : nat) (text : string) (i speed : nat)
    (w : World) : World :=
  if i <? String.length text then
    setTimeout (typingWriter element text (S i) speed) speed
      (updElement element
         (fun e => setTextContent (textContent e +:+ charAt text i) e) w)
  else
    updElement element (addClass "typing-complete") w.

(** The closure [typing] of [typeText]. *)
Definition typingTextStep (element : nat) (text : string) (i : nat)
    (w : World) : World :=
  if i <? String.length text then
    setTimeout (typingText element text (S i)) 30
      (updElement element
         (fun e => setTextContent (textContent e +:+ charAt text i) e) w)
  else
    setTimeout (caretOff element) 1000 w.

Definition typeText (element : nat) (w : World) : World :=
  if isReducedMotion (this w) then w
  else
    let text := getText element w in
    let w1 := updElement element (setTextContent EmptyString) w in
    let w2 :=
      updElement element
        (setStyle "borderRight" "2px solid var(--color-accent)") w1 in
    typingTextStep element text 0 w2.

Definition setupTextAnimations (env : Env) (w : World) : World :=
  let w1 :=
    match nameElement env with
    | Some nameEl => typeWriter nameEl (getText nameEl w) 100 w
    | None => w
    end in
  forEach (fun index item w' =>
      setTimeout (contactReveal item) (500 + index * 150)
        (updElement item (setStyle "transform" "translateY(20px)")
           (updElement item (setStyle "opacity" "0") w')))
    (contactItems env) w1.

Definition setupHoverEffects (env : Env) (w : World) : World :=
  let w1 :=
    forEach (fun _ card w' =>
        addEventListener (tiltOffOnLeave card)
          (addEventListener (tiltOnMove card)
             (addEventListener (shineOnEnter card) w')))
      (cards env) w in
  forEach (fun _ button w' => addEventListener (rippleOnClick button) w')
    (buttons env) w1.

Definition setupCursorEffects (env : Env) (w : World) : World :=
  if innerWidth w <=? 768 then w
  else
    let w1 := set_body (body w ++ ["custom-cursor"]) w in
    let w2 := addEventListener cursorFollow w1 in
    let w3 :=
      forEach (fun _ el w' =>
          addEventListener (cursorShrink el)
            (addEventListener (cursorGrow el) w'))
        (interactiveElements env) w2 in
    set_bodyCursor "none" w3.

Definition setupScrollAnimations (w : World) : World :=
  addEventListener parallaxOnScroll w.

Definition setupTypingEffect (env : Env) (w : World) : World :=
  forEach (fun _ desc w' =>
      if String.length (getText desc w') <? 200
      then set_observed (observed w' ++ [desc]) w'
      else w')
    (descriptions env) w.

(** The second half of [destroy]: the custom cursor, if the body has
    one. *)
Definition removeCursor (w : World) : World :=
  if bool_decide ("custom-cursor" ∈ body w)
  then set_bodyCursor EmptyString
         (set_body (removeFirst "custom-cursor" (body w)) w)
  else w.

(** [destroy()], as a change of the page. When the canvas is no longer a
    child of the body (after a first call), [removeChild] throws and the
    call ends there; the unload handler is its only caller and nothing
    follows the call. *)
Definition destroy (w : World) : World :=
  match canvas (this w) with
  | Some _ =>
      if bool_decide ("particles-canvas" ∈ body w)
      then removeCursor (set_body (removeFirst "particles-canvas" (body w)) w)
      else w
  | None => removeCursor w
  end.

(** ** The class and its start-up *)

(** Every method the class body defines. *)
Definition classMethods : list string :=
  ["constructor"; "init"; "setupParticleSystem"; "resizeCanvas";
   "createParticles"; "animateParticles"; "setupTextAnimations";
   "typeWriter"; "setupHoverEffects"; "addShineEffect"; "addTiltEffect";
   "addRippleEffect"; "setupCursorEffects"; "setupScrollAnimations";
   "setupTypingEffect"; "typeText"; "destroy"].

(** The methods [init] may call without arguments, by name. *)
Definition methodTable (env : Env) : list (string * M) :=
  [("setupParticleSystem", setupParticleSystem env);
   ("resizeCanvas", resizeCanvas);
   ("createParticles", createParticles env);
   ("animateParticles", animateParticles);
   ("setupTextAnimations", pure (setupTextAnimations env));
   ("setupHoverEffects", pure (setupHoverEffects env));
   ("setupCursorEffects", pure (setupCursorEffects env));
   ("setupScrollAnimations", pure setupScrollAnimations);
   ("setupTypingEffect", pure (setupTypingEffect env));
   ("destroy", pure destroy)].

Fixpoint lookupMethod (name : string) (table : list (string * M)) : option M :=
  match table with
  | [] => None
  | (n, m) :: table' =>
      if String.eqb n name then Some m else lookupMethod name table'
  end.

(** [this.name()]: calling a property that is not a function throws. *)
Definition invoke (env : Env) (name : string) : M := fun w =>
  match lookupMethod name (methodTable env) with
  | Some m => m w
  | None => (Throw (TypeError ("this." +:+ name +:+ " is not a function")), w)
  end.

Definition init (env : Env) : M := fun w =>
  if isReducedMotion (this w) then
    (pure (consoleLog "🔇 Reduced motion detected - skipping advanced animations") >>
     invoke env "setupEssentialAnimations") w
  else
    (pure (consoleLog "🎨 Initializing advanced animation systems...") >>
     invoke env "setupParticleSystem" >>
     invoke env "setupTextAnimations" >>
     invoke env "setupHoverEffects" >>
     invoke env "setupCursorEffects" >>
     invoke env "setupScrollAnimations" >>
     invoke env "setupTypingEffect") w.

Definition constructor (env : Env) : M := fun w =>
  init env
    (set_this
       (mkInstance (prefersReducedMotion env) [] (Mouse.mk 0 0) None) w).

(** The body of the 500 ms start-up timer:
    [window.CVAnimations = new CVAnimations(); console.log(...)]. *)
Definition startUp (env : Env) : M :=
  constructor env >>
  pure (fun w =>
    consoleLog "Advanced animations initialized"
      (set_windowCVAnimations true w)).


(** ** Event loop of the animation script *)

Definition runTimer (env : Env) (cb : TimerCallback) : M :=
  match cb with
  | typingWriter element text i speed =>
      pure (typingWriterStep element text i speed)
  | typingText element text i => pure (typingTextStep element text i)
  | caretOff element => pure (updElement element (setStyle "borderRight" "none"))
  | contactReveal item =>
      pure (fun w =>
        updElement item (setStyle "transform" "translateY(0)")
          (updElement item (setStyle "opacity" "1")
             (updElement item (setStyle "transition" "all 0.6s ease-out") w)))
  | shineSweep _ => pure (fun w => w)   (* restyles the shine node only *)
  | shineRemove card => pure (updElement card (removeChild "shine-effect"))
  | rippleRemove button => pure (updElement button (removeChild "ripple"))
  | startAnimations => startUp env
  end.

Inductive Event :=
| DOMContentLoaded
| TimerFires
| AnimationFrame
| MouseMove (clientX clientY : R)
| Resize (width height : nat)
| MouseEnter (target : nat)
| Click (target : nat)
| Intersect (target : nat) (isIntersecting : bool)
| BeforeUnload.

(** One registered listener receiving an event. The tilt, cursor and
    parallax handlers only restyle nodes and are left out. *)
Definition handle (l : Listener) (ev : Event) (w : World) : World :=
  match l, ev with
  | trackMouse, MouseMove cx cy => set_this (set_mouse (Mouse.mk cx cy) (this w)) w
  | resizeCanvasOnResize, Resize _ _ => (resizeCanvas w).2
  | shineOnEnter card, MouseEnter target =>
      if negb (target =? card) then w
      else if isReducedMotion (this w) then w
      else
        setTimeout (shineRemove card) 650
          (setTimeout (shineSweep card) 50
             (updElement card (appendChild "shine-effect")
                (updElement card (setStyle "overflow" "hidden")
                   (updElement card (setStyle "position" "relative") w))))
  | rippleOnClick button, Click target =>
      if negb (target =? button) then w
      else if isReducedMotion (this w) then w
      else
        setTimeout (rippleRemove button) 600
          (updElement button (appendChild "ripple")
             (updElement button (setStyle "overflow" "hidden")
                (updElement button (setStyle "position" "relative") w)))
  | _, _ => w
  end.

Definition dispatch (ev : Event) (w : World) : World :=
  foldl (fun w' l => handle l ev w') w (listeners w).

(** One turn of the event loop; an exception escaping a callback ends
    that callback only. *)
Definition step (env : Env) (ev : Event) (w : World) : World :=
  match ev with
  | DOMContentLoaded => setTimeout startAnimations 500 w
  | TimerFires =>
      match nextTimer (timers w) with
      | Some (k, (due, cb)) =>
          (runTimer env cb
             (set_now (Nat.max (now w) due)
                (set_timers (delete k (timers w)) w))).2
      | None => w
      end
  | AnimationFrame =>
      foldl (fun w' _ => (animateParticles w').2) (set_frames [] w) (frames w)
  | Resize width height =>
      dispatch ev (set_innerHeight height (set_innerWidth width w))
  | Intersect target isIntersecting =>
      if bool_decide (target ∈ observed w) then
        if isIntersecting && negb (hasClass target "typed" w)
        then updElement target (addClass "typed") (typeText target w)
        else w
      else w
  | BeforeUnload => if windowCVAnimations w then destroy w else w
  | MouseMove _ _ | MouseEnter _ | Click _ => dispatch ev w
  end.

Definition run (env : Env) (evs : list Event) (w : World) : World :=
  foldl (fun w' ev => step env ev w') w evs.

(** Fire timers until none is pending ([fuel] bounds the number fired). *)
Fixpoint runTimers (env : Env) (fuel : nat) (w : World) : World :=
  match fuel with
  | O => w
  | S fuel' =>
      match timers w with
      | [] => w
      | _ => runTimers env fuel' (step env TimerFires w)
      end
  end.

(** The page before the script has run; no instance exists yet, [this]
    holds the values the constructor starts from. *)
Definition loaded (els : list Element) (width height : nat) : World :=
  mkWorld (mkInstance false [] (Mouse.mk 0 0) None) els [] EmptyString
    width height 0 0 [] [] [] [] [] [] false.

(** ** Predicates used by the statements *)

(** The error raised by calling the method the class does not define. *)
Definition missingMethod : JsError :=
  TypeError "this.setupEssentialAnimations is not a function".

(** Nothing of the animation engine exists on the page. *)
Record Quiet (els : list Element) (w : World) : Prop := mkQuiet {
  quiet_particles : particles (this w) = [];
  quiet_timers : Forall (fun t => t.2 = startAnimations) (timers w);
  quiet_frames : frames w = [];
  quiet_listeners : listeners w = [];
  quiet_observed : observed w = [];
  quiet_elements : elements w = els;
  quiet_body : body w = [];
  quiet_drawn : drawn w = [];
  quiet_window : windowCVAnimations w = false
}.






(** A bound on the callbacks that run once [cb] is taken. *)
Definition callbackWeight (cb : TimerCallback) : nat :=
  match cb with
  | typingWriter _ text i _ => String.length text - i + 1
  | typingText _ text i => String.length text - i + 2
  | _ => 1
  end.

Definition weight (w : World) : nat :=
  sum_list_with (fun t => callbackWeight t.2) (timers w).


(** The kinds of drawing call. *)
Definition isArc (op : CanvasOp) : bool :=
  match op with
  | fillArc _ _ _ _ => true
  | _ => false
  end.

Definition isLine (op : CanvasOp) : bool :=
  match op with
  | strokeLine _ _ _ _ _ _ => true
  | _ => false
  end.

Definition isStartUp (ev : Event) : bool :=
  match ev with
  | DOMContentLoaded => true
  | _ => false
  end.

(** The page between [DOMContentLoaded] and the start-up timer: nothing of
    the engine exists yet. *)
Record Waiting (w : World) : Prop := mkWaiting {
  waiting_timer : exists due, timers w = [(due, startAnimations)];
  waiting_frames : frames w = [];
  waiting_listeners : listeners w = [];
  waiting_observed : observed w = [];
  waiting_body : body w = [];
  waiting_cursor : bodyCursor w = EmptyString;
  waiting_window : windowCVAnimations w = false
}.

(** What the engine has added to [document.body]. *)
Definition bodyOfEngine (w : World) : Prop :=
  (body w = [] /\ bodyCursor w = EmptyString) \/
  (body w = ["particles-canvas"] /\ bodyCursor w = EmptyString) \/
  (body w = ["particles-canvas"; "custom-cursor"] /\ bodyCursor w = "none").

(** The engine has started: the instance is assigned and its loop is
    scheduled. *)
Record Running (w : World) : Prop := mkRunning {
  running_motion : isReducedMotion (this w) = false;
  running_canvas : is_Some (canvas (this w));
  running_frames : frames w = [particleFrame];
  running_timers : Forall (fun t => t.2 <> startAnimations) (timers w);
  running_window : windowCVAnimations w = true;
  running_body : bodyOfEngine w
}.

(** A contact item is shown, or the timer that shows it is pending. *)
Definition revealed (item : nat) (w : World) : Prop :=
  exists e, elements w !! item = Some e /\ style e !! "opacity" = Some "1".

Definition revealPending (item : nat) (w : World) : Prop :=
  exists due, (due, contactReveal item) ∈ timers w.

Definition Revealing (env : Env) (w : World) : Prop :=
  forall item, item ∈ contactItems env -> revealed item w \/ revealPending item w.

(** What the callbacks of a running engine leave alone: they stop no
    loop and add nothing to the body. *)
Record Steady (w w' : World) : Prop := mkSteady {
  steady_motion : isReducedMotion (this w') = isReducedMotion (this w);
  steady_canvas : is_Some (canvas (this w)) -> is_Some (canvas (this w'));
  steady_frames : frames w' = frames w;
  steady_timers :
    Forall (fun t => t.2 <> startAnimations) (timers w) ->
    Forall (fun t => t.2 <> startAnimations) (timers w');
  steady_window : windowCVAnimations w' = windowCVAnimations w;
  steady_body : body w' = body w;
  steady_cursor : bodyCursor w' = bodyCursor w
}.

(** What they leave alone of the contact items: none is hidden again and
    no pending reveal is dropped. *)
Record Showing (w w' : World) : Prop := mkShowing {
  showing_length : length (elements w') = length (elements w);
  showing_revealed : forall item, revealed item w -> revealed item w';
  showing_pending : forall item, revealPending item w -> revealPending item w'
}.

(** An update of an element that does not hide it again. *)
Definition keepsShown (f : Element -> Element) : Prop :=
  forall e, style e !! "opacity" = Some "1" -> style (f e) !! "opacity" = Some "1".

(** A particle beyond the right border by at least the attraction radius,
    before and after its step. *)
Definition stranded (c : Canvas.t) (p : Particle.t) : Prop :=
  (Canvas.width c + 100 <= Particle.x p /\
   Canvas.width c + 100 <= Particle.x p + Particle.vx p /\
   speedOf p <= maxSpeed)%R.

(** The ticks of one particle under the pointer positions [ms], one per
    tick. *)
Definition ticks (c : Canvas.t) (ms : list Mouse.t) (p : Particle.t)
  : Particle.t :=
  foldl (fun p' m => updateParticle c m p') p ms.

End CVAnimations.

(** * The navigation controller

    Modelled: the cached element references, the application state, the
    section switch with its URL update and staggered animations, the nav
    link highlight, the mobile menu, the click, key, hash and resize
    handlers, the reveal observer and the timers they schedule. Left out,
    as they touch neither the sections' classes, the menu nor the
    animations: the scroll handlers (scroll-to-top button, link highlight
    by scroll position, sticky navigation; they are the subject of
    [Scrolling] below), the placeholder of the profile image (it writes
    the [src] and [alt] of the image only), lazy images and the download
    notification. *)

Module CVApp.

(** ** Document and application state *)

Record Node := mkNode {
  tagName : string;
  id : string;                        (* empty when the node has no id *)
  classList : list string;
  parent : option nat;                (* handle of [parentNode] *)
  attributes : gmap string string;    (* [href], [data-width], ... *)
  style : gmap string string;
  innerHTML : string
}.

(** [this.elements]: the references cached by the constructor. *)
Record Elements := mkElements {
  navLinks : list nat;
  sections : list nat;
  menuToggle : option nat;
  navMenu : option nat;
  skillBars : list nat;
  loadingSpinner : option nat
}.

(** [this.state] *)
Record State := mkState {
  currentSection : string;
  isMenuOpen : bool;
  hasAnimated : list nat              (* a [Set] of nodes *)
}.

(** Which path called [animateElement]. *)
Inductive Trigger :=
| byObserver
| bySection.

#[global] Instance Trigger_eq_dec : EqDecision Trigger.
Proof. solve_decision. Defined.

Inductive TimerCallback :=
| animateElementLater (element : nat)
| animateSkillBarsLater (bars : list nat)
| setBarWidth (bar : nat) (targetWidth : string)
| revealMenuLink (link : nat)
| resizeSettled
| spinnerOff.

Record Page := mkPage {
  nodes : list Node;
  elements : Elements;
  state : State;
  announcer : option string;          (* text of the live region *)
  observed : list nat;                (* targets of the reveal observer *)
  bodyOverflow : string;
  innerWidth : nat;
  url : string;
  history : list string;              (* URLs given to [pushState] *)
  now : nat;
  timers : list (nat * TimerCallback);
  animationLog : list (Trigger * nat) (* calls of [animateElement] *)
}.

Definition set_currentSection (v : string) (st : State) : State :=
  mkState v (isMenuOpen st) (hasAnimated st).

Definition set_isMenuOpen (v : bool) (st : State) : State :=
  mkState (currentSection st) v (hasAnimated st).

Definition set_hasAnimated (v : list nat) (st : State) : State :=
  mkState (currentSection st) (isMenuOpen st) v.

Definition set_nodes (v : list Node) (pg : Page) : Page :=
  mkPage v (elements pg) (state pg) (announcer pg) (observed pg)
    (bodyOverflow pg) (innerWidth pg) (url pg) (history pg) (now pg)
    (timers pg) (animationLog pg).

Definition set_elements (v : Elements) (pg : Page) : Page :=
  mkPage (nodes pg) v (state pg) (announcer pg) (observed pg)
    (bodyOverflow pg) (innerWidth pg) (url pg) (history pg) (now pg)
    (timers pg) (animationLog pg).

Definition set_state (v : State) (pg : Page) : Page :=
  mkPage (nodes pg) (elements pg) v (announcer pg) (observed pg)
    (bodyOverflow pg) (innerWidth pg) (url pg) (history pg) (now pg)
    (timers pg) (animationLog pg).

Definition set_announcer (v : option string) (pg : Page) : Page :=
  mkPage (nodes pg) (elements pg) (state pg) v (observed pg) (bodyOverflow pg)
    (innerWidth pg) (url pg) (history pg) (now pg) (timers pg)
    (animationLog pg).

Definition set_observed (v : list nat) (pg : Page) : Page :=
  mkPage (nodes pg) (elements pg) (state pg) (announcer pg) v
    (bodyOverflow pg) (innerWidth pg) (url pg) (history pg) (now pg)
    (timers pg) (animationLog pg).

Definition set_bodyOverflow (v : string) (pg : Page) : Page :=
  mkPage (nodes pg) (elements pg) (state pg) (announcer pg) (observed pg) v
    (innerWidth pg) (url pg) (history pg) (now pg) (timers pg)
    (animationLog pg).

Definition set_innerWidth (v : nat) (pg : Page) : Page :=
  mkPage (nodes pg) (elements pg) (state pg) (announcer pg) (observed pg)
    (bodyOverflow pg) v (url pg) (history pg) (now pg) (timers pg)
    (animationLog pg).

Definition set_url (v : string) (pg : Page) : Page :=
  mkPage (nodes pg) (elements pg) (state pg) (announcer pg) (observed pg)
    (bodyOverflow pg) (innerWidth pg) v (history pg) (now pg) (timers pg)
    (animationLog pg).

Definition set_history (v : list string) (pg : Page) : Page :=
  mkPage (nodes pg) (elements pg) (state pg) (announcer pg) (observed pg)
    (bodyOverflow pg) (innerWidth pg) (url pg) v (now pg) (timers pg)
    (animationLog pg).

Definition set_now (v : nat) (pg : Page) : Page :=
  mkPage (nodes pg) (elements pg) (state pg) (announcer pg) (observed pg)
    (bodyOverflow pg) (innerWidth pg) (url pg) (history pg) v (timers pg)
    (animationLog pg).

Definition set_timers (v : list (nat * TimerCallback)) (pg : Page) : Page :=
  mkPage (nodes pg) (elements pg) (state pg) (announcer pg) (observed pg)
    (bodyOverflow pg) (innerWidth pg) (url pg) (history pg) (now pg) v
    (animationLog pg).

Definition set_animationLog (v : list (Trigger * nat)) (pg : Page) : Page :=
  mkPage (nodes pg) (elements pg) (state pg) (announcer pg) (observed pg)
    (bodyOverflow pg) (innerWidth pg) (url pg) (history pg) (now pg)
    (timers pg) v.

(** [window.location.pathname] of the page. *)
Definition pathname : string := "/".

(** ** Selectors *)

Definition removeClass (c : string) (n : Node) : Node :=
  mkNode (tagName n) (id n) (classRemove c (classList n)) (parent n)
    (attributes n) (style n) (innerHTML n).

Definition addClass (c : string) (n : Node) : Node :=
  mkNode (tagName n) (id n) (classAdd c (classList n)) (parent n)
    (attributes n) (style n) (innerHTML n).

Definition setStyle (k v : string) (n : Node) : Node :=
  mkNode (tagName n) (id n) (classList n) (parent n)
    (attributes n) (<[k:=v]> (style n)) (innerHTML n).

Definition digit (c : Ascii.ascii) : bool :=
  (48 <=? Ascii.nat_of_ascii c) && (Ascii.nat_of_ascii c <=? 57).

Fixpoint digits (s : string) : bool :=
  match s with
  | EmptyString => true
  | String c rest => digit c && digits rest
  end.

(** A whole number as the style object writes it back: [0], or up to six
    digits of which the first is not [0]. *)
Definition wholeNumber (s : string) : bool :=
  match s with
  | EmptyString => false
  | String c rest =>
      digits s && (String.length s <=? 6) &&
      (negb (Ascii.nat_of_ascii c =? 48) || String.eqb rest EmptyString)
  end.

(** [v] is a whole number followed by a percent sign. *)
Definition wholePercent (v : string) : bool :=
  match String.length v with
  | O => false
  | S k =>
      wholeNumber (substring 0 k v) && String.eqb (substring k 1 v) "%"
  end.

(** [element.style.width = v]: the style object keeps a value it can
    parse and ignores any other. A whole percentage is kept as written;
    text that is no width ([abc%], [-5%], [85%%]) is ignored. The other
    spellings a browser accepts and rewrites ([85.50%], [+85%]) are not
    modelled: they are ignored here. *)
Definition setWidth (v : string) (n : Node) : Node :=
  if wholePercent v then setStyle "width" v n else n.

Definition setAttribute (k v : string) (n : Node) : Node :=
  mkNode (tagName n) (id n) (classList n) (parent n)
    (<[k:=v]> (attributes n)) (style n) (innerHTML n).

(** [element.innerHTML = html]: the node records the markup written.
    The elements the assignment removes from inside the node and those it
    creates there are not tracked in the document list: the script
    assigns to the menu toggle only, and of the nodes the list has inside
    the toggle nothing is stated. *)
Definition setInnerHTML (html : string) (n : Node) : Node :=
  mkNode (tagName n) (id n) (classList n) (parent n)
    (attributes n) (style n) html.

(** The double quote of the markup the script writes. *)
Definition quote : string := String (Ascii.ascii_of_nat 34) EmptyString.

(** [<i class="fas fa-bars"></i>] and [<i class="fas fa-times"></i>]. *)
Definition icon (name : string) : string :=
  "<i class=" +:+ quote +:+ "fas " +:+ name +:+ quote +:+ "></i>".

Definition updNode (h : nat) (f : Node -> Node) (pg : Page) : Page :=
  set_nodes (alter f h (nodes pg)) pg.

Definition hasClass (c : string) (n : Node) : bool := contains (classList n) c.

Definition nodeHasClass (ns : list Node) (h : nat) (c : string) : bool :=
  from_option (hasClass c) false (ns !! h).

(** Handles of the nodes satisfying [p], in document order. *)
Definition selectAll (p : nat -> Node -> bool) (ns : list Node) : list nat :=
  omap (fun ix : nat * Node => if p ix.1 ix.2 then Some ix.1 else None)
    (imap pair ns).

(** [document.querySelector('.section.active')] *)
Definition activeSection (ns : list Node) : option nat :=
  fst <$> list_find (fun n => hasClass "section" n && hasClass "active" n = true) ns.

(** [document.getElementById(i)]: the first node carrying the id. *)
Definition getElementById (ns : list Node) (i : string) : option nat :=
  if bool_decide (i = EmptyString) then None
  else fst <$> list_find (fun n => id n = i) ns.

Fixpoint descendsFrom (ns : list Node) (fuel : nat) (ancestor h : nat) : bool :=
  match fuel with
  | O => false
  | S fuel' =>
      match ns !! h with
      | Some n =>
          match parent n with
          | Some p => (p =? ancestor) || descendsFrom ns fuel' ancestor p
          | None => false
          end
      | None => false
      end
  end.

(** [node.contains(other)] *)
Definition containsNode (ns : list Node) (node other : nat) : bool :=
  (other =? node) || descendsFrom ns (length ns) node other.

(** [root.querySelectorAll(...)] for a selector given as a test on nodes. *)
Definition querySelectorAllIn (ns : list Node) (root : nat)
    (p : Node -> bool) : list nat :=
  selectAll (fun h n => p n && descendsFrom ns (length ns) root h) ns.

Definition animatableClasses : list string :=
  ["timeline-item"; "stat-item"; "skill-item"; "soft-skill-item";
   "certification-item"; "info-card"; "education-item"].

Definition animatable (n : Node) : bool :=
  existsb (fun c => hasClass c n) animatableClasses.

(** ** Timers and URL *)

Definition setTimeout (cb : TimerCallback) (delay : nat) (pg : Page) : Page :=
  set_timers (timers pg ++ [(now pg + delay, cb)]) pg.

(** [history.pushState] is present in every host of the page. *)
Definition updateURL (sectionId : string) (pg : Page) : Page :=
  let newURL := pathname +:+ "#" +:+ sectionId in
  let pg1 := set_history (history pg ++ [newURL]) (set_url newURL pg) in
  match announcer pg1 with
  | Some _ =>
      set_announcer (Some ("Sección " +:+ sectionId +:+ " cargada")) pg1
  | None => pg1
  end.

(** ** Reveal animations *)

Definition indexOf (h : nat) (l : list nat) : option nat :=
  fst <$> list_find (fun h' => h' = h) l.

(** [Array.from(element.parentNode.children)]; a node without a parent
    is placed among the top-level nodes. *)
Definition siblings (ns : list Node) (h : nat) : list nat :=
  let p := from_option parent None (ns !! h) in
  selectAll (fun _ n => bool_decide (parent n = p)) ns.

Definition getAnimationClass (ns : list Node) (h : nat) : string :=
  if nodeHasClass ns h "timeline-item" then
    let isOdd :=
      match indexOf h (siblings ns h) with
      | Some k => k mod 2 =? 0
      | None => false                 (* [-1 % 2 === 0] *)
      end in
    if isOdd then "slide-in-left" else "slide-in-right"
  else if nodeHasClass ns h "stat-item" || nodeHasClass ns h "soft-skill-item"
  then "scale-in"
  else "fade-in".

Definition animateElement (by_ : Trigger) (element : nat) (pg : Page) : Page :=
  let animationClass := getAnimationClass (nodes pg) element in
  let pg1 :=
    set_animationLog (animationLog pg ++ [(by_, element)])
      (updNode element (addClass animationClass) pg) in
  let bars := querySelectorAllIn (nodes pg1) element (hasClass "skill-progress") in
  match bars with
  | [] => pg1
  | _ => setTimeout (animateSkillBarsLater bars) 300 pg1
  end.

Definition animateSkillBars (bars : list nat) (pg : Page) : Page :=
  forEach (fun index bar pg' =>
      match nodes pg' !! bar ≫= fun n => attributes n !! "data-width" with
      | Some targetWidth =>
          if bool_decide (targetWidth = EmptyString) then pg'
          else setTimeout (setBarWidth bar targetWidth) (index * 100) pg'
      | None => pg'
      end)
    bars pg.

Definition animateSection (section : nat) (pg : Page) : Page :=
  forEach (fun index element pg' =>
      setTimeout (animateElementLater element) (index * 100) pg')
    (querySelectorAllIn (nodes pg) section animatable) pg.

(** The callback of the reveal observer, for one entry. *)
Definition observeEntry (target : nat) (isIntersecting : bool) (pg : Page)
  : Page :=
  if isIntersecting && negb (bool_decide (target ∈ hasAnimated (state pg)))
  then
    let pg1 := animateElement byObserver target pg in
    set_state (set_hasAnimated (setAdd target (hasAnimated (state pg1)))
                 (state pg1)) pg1
  else pg.

Definition setupIntersectionObserver (pg : Page) : Page :=
  set_observed (selectAll (fun _ n => animatable n) (nodes pg)) pg.

(** ** Navigation *)

Definition showSection (sectionId : string) (pg : Page) : Page :=
  let pg1 :=
    match activeSection (nodes pg) with
    | Some current => updNode current (removeClass "active") pg
    | None => pg
    end in
  match getElementById (nodes pg1) sectionId with
  | Some target =>
      let pg2 := updNode target (addClass "active") pg1 in
      let pg3 := set_state (set_currentSection sectionId (state pg2)) pg2 in
      updateURL sectionId (animateSection target pg3)
  | None => pg1
  end.

Definition updateActiveNavLink (activeLink : option nat) : Run Page :=
  pure (fun pg =>
    forEach (fun _ link pg' => updNode link (removeClass "active") pg')
      (navLinks (elements pg)) pg) >>
  match activeLink with
  | Some link => pure (updNode link (addClass "active"))
  | None =>
      throw (TypeError "Cannot read properties of undefined (reading 'classList')")
  end.

Definition closeMobileMenu : Run Page := fun pg =>
  match navMenu (elements pg) with
  | None =>
      (Throw (TypeError "Cannot read properties of null (reading 'classList')"), pg)
  | Some menu =>
      let pg1 := updNode menu (removeClass "active") pg in
      match menuToggle (elements pg1) with
      | None =>
          (Throw (TypeError "Cannot set properties of null (setting 'innerHTML')"), pg1)
      | Some toggle =>
          let pg2 :=
            updNode toggle (setInnerHTML (icon "fa-bars")) pg1 in
          (Normal tt,
           set_state (set_isMenuOpen false (state pg2))
             (set_bodyOverflow EmptyString pg2))
      end
  end.


Definition openMobileMenu : Run Page := fun pg =>
  match navMenu (elements pg) with
  | None =>
      (Throw (TypeError "Cannot read properties of null (reading 'classList')"), pg)
  | Some menu =>
      let pg1 := updNode menu (addClass "active") pg in
      match menuToggle (elements pg1) with
      | None =>
          (Throw (TypeError "Cannot set properties of null (setting 'innerHTML')"), pg1)
      | Some toggle =>
          let pg2 :=
            updNode toggle (setInnerHTML (icon "fa-times")) pg1 in
          let pg3 := set_bodyOverflow "hidden" pg2 in
          (Normal tt,
           forEach (fun index link pg' =>
               setTimeout (revealMenuLink link) (index * 50) pg')
             (navLinks (elements pg3)) pg3)
      end
  end.

Definition toggleMobileMenu : Run Page := fun pg =>
  let pg1 :=
    set_state (set_isMenuOpen (negb (isMenuOpen (state pg))) (state pg)) pg in
  if isMenuOpen (state pg1) then openMobileMenu pg1 else closeMobileMenu pg1.

Definition handleOutsideClick (target : nat) : Run Page := fun pg =>
  if negb (isMenuOpen (state pg)) then (Normal tt, pg)
  else
    match navMenu (elements pg) with
    | None =>
        (Throw (TypeError "Cannot read properties of null (reading 'contains')"), pg)
    | Some menu =>
        if containsNode (nodes pg) menu target then (Normal tt, pg)
        else
          match menuToggle (elements pg) with
          | None =>
              (Throw (TypeError "Cannot read properties of null (reading 'contains')"), pg)
          | Some toggle =>
              if containsNode (nodes pg) toggle target then (Normal tt, pg)
              else closeMobileMenu pg
          end
    end.

(** [href.substring(1)] *)
Definition substring1 (s : string) : string :=
  match s with
  | EmptyString => EmptyString
  | String _ rest => rest
  end.

(** [handleNavigation(e)] with [e.target = target]; the final
    [scrollIntoView] moves the viewport only. *)
Definition handleNavigation (target : nat) : Run Page := fun pg =>
  match nodes pg !! target ≫= fun n => attributes n !! "href" with
  | None =>
      (Throw (TypeError "Cannot read properties of null (reading 'substring')"), pg)
  | Some href =>
      let targetId := substring1 href in
      if negb (bool_decide (targetId = EmptyString))
         && negb (bool_decide (sections (elements pg) = []))
      then
        (pure (showSection targetId) >>
         updateActiveNavLink (Some target) >>
         closeMobileMenu) pg
      else (Normal tt, pg)
  end.

Definition adjustMobileAnimations (pg : Page) : Page :=
  forEach (fun _ item pg' =>
      updNode item
        (fun n => addClass "fade-in"
           (removeClass "slide-in-right" (removeClass "slide-in-left" n)))
        pg')
    (selectAll (fun _ n => hasClass "timeline-item" n) (nodes pg)) pg.

Definition recalculateAnimations (pg : Page) : Page :=
  let pg1 := set_state (set_hasAnimated [] (state pg)) pg in
  if innerWidth pg1 <=? 768 then adjustMobileAnimations pg1 else pg1.

Definition handleResize : Run Page := fun pg =>
  ((if (768 <? innerWidth pg) && isMenuOpen (state pg)
    then closeMobileMenu else pure (fun pg' => pg')) >>
   pure recalculateAnimations) pg.

Definition sectionId (ns : list Node) (h : nat) : string :=
  from_option id EmptyString (ns !! h).

(** [sections.findIndex(section => section.id === currentSection)] *)
Definition findIndex (pg : Page) : Z :=
  match list_find
          (fun h => sectionId (nodes pg) h = currentSection (state pg))
          (sections (elements pg)) with
  | Some (k, _) => Z.of_nat k
  | None => (-1)%Z
  end.

Definition handleKeyNavigation (key : string) (altKey : bool) : Run Page :=
  (fun pg =>
     if bool_decide (key = "Escape") && isMenuOpen (state pg)
     then closeMobileMenu pg else (Normal tt, pg)) >>
  (fun pg =>
     if negb altKey then (Normal tt, pg)
     else
       let secs := sections (elements pg) in
       let currentIndex := findIndex pg in
       let go (k : nat) : Completion unit * Page :=
         match secs !! k with
         | Some sec =>
             (pure (showSection (sectionId (nodes pg) sec)) >>
              updateActiveNavLink (navLinks (elements pg) !! k)) pg
         | None =>
             (Throw (TypeError "Cannot read properties of undefined (reading 'id')"), pg)
         end in
       if bool_decide (key = "ArrowRight")
          && (currentIndex <? Z.of_nat (length secs) - 1)%Z
       then go (Z.to_nat (currentIndex + 1))
       else if bool_decide (key = "ArrowLeft") && (0 <? currentIndex)%Z
       then go (Z.to_nat (currentIndex - 1))
       else (Normal tt, pg)).

(** [document.querySelector(`a[href="#${hash}"]`)] *)
Definition linkTo (ns : list Node) (hash : string) : option nat :=
  fst <$> list_find
    (fun n => tagName n = "a" /\ attributes n !! "href" = Some ("#" +:+ hash)) ns.

(** The body shared by the [hashchange] listener and the initial load. *)
Definition loadHash (hash : string) : Run Page := fun pg =>
  if negb (bool_decide (hash = EmptyString))
     && bool_decide (is_Some (getElementById (nodes pg) hash))
  then
    let pg1 := showSection hash pg in
    match linkTo (nodes pg1) hash with
    | Some link => updateActiveNavLink (Some link) pg1
    | None => (Normal tt, pg1)
    end
  else (Normal tt, pg).

(** ** Start-up *)

Definition queryElements (ns : list Node) : Elements :=
  mkElements
    (selectAll (fun _ n => hasClass "nav-link" n) ns)
    (selectAll (fun _ n => hasClass "section" n) ns)
    (getElementById ns "menuToggle")
    (fst <$> list_find (fun n => hasClass "nav-menu" n = true) ns)
    (selectAll (fun _ n => hasClass "skill-progress" n) ns)
    (getElementById ns "loadingSpinner").

Definition initializeSkillBars (pg : Page) : Page :=
  forEach (fun _ bar pg' => updNode bar (setStyle "width" "0%") pg')
    (skillBars (elements pg)) pg.

(** [setupAccessibility]: every nav link becomes focusable and the
    announcer is created. The [aria-label] written on each link (built
    from the [textContent] of the link, which the nodes do not carry) and
    the key listener of the links (Enter and space click the link) are
    left out. *)
Definition setupAccessibility (pg : Page) : Page :=
  let pg1 :=
    forEach (fun _ link pg' => updNode link (setAttribute "tabindex" "0") pg')
      (navLinks (elements pg)) pg in
  set_announcer (Some EmptyString) pg1.

(** The part of [initializeComponents] that bears on navigation and
    reveal animations (sticky navigation and lazy images are left out). *)
Definition initializeComponents (pg : Page) : Page :=
  setupAccessibility
    (initializeSkillBars
       (setupIntersectionObserver
          (showSection (currentSection (state pg)) pg))).

(** The markup as loaded, before the script runs. *)
Definition loaded (ns : list Node) (width : nat) (hash : string) : Page :=
  mkPage ns (mkElements [] [] None None [] None) (mkState EmptyString false [])
    None [] EmptyString width
    (if bool_decide (hash = EmptyString) then pathname
     else pathname +:+ "#" +:+ hash)
    [] 0 [] [].

(** ** Event loop of the main script *)

Inductive Event :=
| Click (target : nat)
| HashChange (hash : string)
| KeyDown (key : string) (altKey : bool)
| Resize (width : nat)
| Intersect (target : nat) (isIntersecting : bool)
| TimerFires.

Definition runTimer (cb : TimerCallback) : Run Page :=
  match cb with
  | animateElementLater element => pure (animateElement bySection element)
  | animateSkillBarsLater bars => pure (animateSkillBars bars)
  | setBarWidth bar targetWidth =>
      pure (updNode bar (setWidth (targetWidth +:+ "%")))
  | revealMenuLink link =>
      pure (fun pg =>
        updNode link (setStyle "transform" "translateX(0)")
          (updNode link (setStyle "opacity" "1") pg))
  | resizeSettled => handleResize
  | spinnerOff => fun pg =>
      match loadingSpinner (elements pg) with
      | Some spinner => (Normal tt, updNode spinner (removeClass "active") pg)
      | None =>
          (Throw (TypeError "Cannot read properties of null (reading 'classList')"), pg)
      end
  end.

Definition isResizeSettled (t : nat * TimerCallback) : bool :=
  match t.2 with
  | resizeSettled => true
  | _ => false
  end.

(** [debounce(handleResize, 250)]: a pending call is dropped and a new one
    is scheduled. *)
Definition debouncedResize (pg : Page) : Page :=
  setTimeout resizeSettled 250
    (set_timers (filter (fun t => isResizeSettled t = false) (timers pg)) pg).

(** A click reaches the listeners of the nav links and of the menu toggle
    that contain the target, then the listener of the document. *)
Definition click (target : nat) (pg : Page) : Page :=
  let pg1 :=
    foldl (fun pg' link =>
        if containsNode (nodes pg') link target
        then (handleNavigation target pg').2 else pg')
      pg (navLinks (elements pg)) in
  let pg2 :=
    match menuToggle (elements pg1) with
    | Some toggle =>
        if containsNode (nodes pg1) toggle target
        then (toggleMobileMenu pg1).2 else pg1
    | None => pg1
    end in
  (handleOutsideClick target pg2).2.

Definition step (ev : Event) (pg : Page) : Page :=
  match ev with
  | Click target => click target pg
  | HashChange hash =>
      (loadHash hash (set_url (pathname +:+ "#" +:+ hash) pg)).2
  | KeyDown key altKey => (handleKeyNavigation key altKey pg).2
  | Resize width => debouncedResize (set_innerWidth width pg)
  | Intersect target isIntersecting =>
      if bool_decide (target ∈ observed pg)
      then observeEntry target isIntersecting pg else pg
  | TimerFires =>
      match nextTimer (timers pg) with
      | Some (k, (due, cb)) =>
          (runTimer cb
             (set_now (Nat.max (now pg) due)
                (set_timers (delete k (timers pg)) pg))).2
      | None => pg
      end
  end.

Definition run (evs : list Event) (pg : Page) : Page :=
  foldl (fun pg' ev => step ev pg') pg evs.

(** ** Observations used by the statements *)

(** The handles of the sections carrying the active marker. *)
Definition activeSections (pg : Page) : list nat :=
  selectAll (fun _ n => hasClass "section" n && hasClass "active" n) (nodes pg).

(** [h] is a section element whose id is the first match of [i]. *)
Definition namesSection (pg : Page) (i : string) (h : nat) : Prop :=
  getElementById (nodes pg) i = Some h /\
  nodeHasClass (nodes pg) h "section" = true.

(** How many times [animateElement] ran on [h] from the path [by_]. *)
Definition applications (by_ : Trigger) (h : nat) (pg : Page) : nat :=
  length (filter (fun e => e = (by_, h)) (animationLog pg)).

Definition isResize (ev : Event) : bool :=
  match ev with
  | Resize _ => true
  | _ => false
  end.

(** ** Predicates used by the proofs *)

(** [selectAll] started at handle [j]. *)
Definition selectFrom (p : nat -> Node -> bool) (j : nat) (ns : list Node)
  : list nat :=
  omap (fun ix : nat * Node => if p ix.1 ix.2 then Some ix.1 else None)
    (imap (fun i n => (j + i, n)) ns).

(** The document once [showSection] has hidden the current section. *)
Definition hidden (ns : list Node) : list Node :=
  match activeSection ns with
  | Some current => alter (removeClass "active") current ns
  | None => ns
  end.

(** No debounced resize handler is pending. *)
Definition quietResize (pg : Page) : Prop :=
  Forall (fun t => isResizeSettled t = false) (timers pg).

(** What a step leaves alone when it is neither the observer callback nor
    the resize handler. *)
Record Frame (pg pg' : Page) : Prop := mkFrame {
  frame_seen : hasAnimated (state pg') = hasAnimated (state pg);
  frame_log :
    forall h, applications byObserver h pg' = applications byObserver h pg;
  frame_timers : quietResize pg -> quietResize pg'
}.

(** Calls that may throw keep the frame whether they do or not. *)
Definition Keeps (pg0 : Page) (m : Run Page) : Prop :=
  forall pg, Frame pg0 pg -> Frame pg0 (m pg).2.

(** The seen-set and the observer's applications agree. *)
Record Seen (pg : Page) : Prop := mkSeen {
  seen_nodup : NoDup (hasAnimated (state pg));
  seen_recorded :
    forall h, applications byObserver h pg
              = (if bool_decide (h ∈ hasAnimated (state pg)) then 1 else 0);
  seen_quiet : quietResize pg
}.

(** A section carrying the active marker. *)
Definition isActiveSection (n : Node) : bool :=
  hasClass "section" n && hasClass "active" n.

(** What no handler changes on a node. *)
Definition staticPart (n : Node) : bool * bool * bool * option string :=
  (hasClass "section" n, hasClass "nav-link" n, hasClass "nav-menu" n,
   attributes n !! "href").

(** A section is neither a link nor the menu. *)
Definition plainSection (n : Node) : Prop :=
  hasClass "section" n = true ->
  attributes n !! "href" = None /\
  hasClass "nav-link" n = false /\ hasClass "nav-menu" n = false.

(** The markup keeps sections apart from the navigation, and the cached
    references are what the constructor queried. *)
Record Static (pg : Page) : Prop := mkStatic {
  static_sections : forall h n, nodes pg !! h = Some n -> plainSection n;
  static_links :
    forall l, l ∈ navLinks (elements pg) ->
              nodeHasClass (nodes pg) l "nav-link" = true;
  static_menu :
    forall m, navMenu (elements pg) = Some m ->
              nodeHasClass (nodes pg) m "nav-menu" = true
}.

(** A page with at most one active section. *)
Definition Tidy (pg : Page) : Prop :=
  length (activeSections pg) <= 1 /\ Static pg.

(** An update that keeps the static part and makes no section active. *)
Definition tame (f : Node -> Node) (n : Node) : Prop :=
  staticPart (f n) = staticPart n /\
  (isActiveSection (f n) = true -> isActiveSection n = true).

(** Nodes that correspond, handle by handle, with the same static part. *)
Definition sameStatics (ns ns' : list Node) : Prop :=
  staticPart <$> ns' = staticPart <$> ns.

(** Markup with at most one active section, its sections apart from the
    navigation. *)
Definition wellFormed (ns : list Node) : Prop :=
  length (selectAll (fun _ n => isActiveSection n) ns) <= 1 /\
  Forall plainSection ns.

(** ** The start-up listener and the location *)

(** [window.location.hash.substring(1)]: what follows the first [#] of
    the URL, empty when there is none. *)
Fixpoint afterHash (s : string) : string :=
  match s with
  | EmptyString => EmptyString
  | String c rest =>
      if String.eqb (String c EmptyString) "#" then rest else afterHash rest
  end.

Definition locationHash (pg : Page) : string := afterHash (url pg).

(** [showLoadingSpinner] and [hideLoadingSpinner], both guarded by the
    cached reference. *)
Definition showLoadingSpinner (pg : Page) : Page :=
  match loadingSpinner (elements pg) with
  | Some spinner => updNode spinner (addClass "active") pg
  | None => pg
  end.

Definition hideLoadingSpinner (pg : Page) : Page :=
  match loadingSpinner (elements pg) with
  | Some _ => setTimeout spinnerOff 1000 pg
  | None => pg
  end.

(** [new CVApp()] once the document is parsed: the element references
    are cached, the state starts at section [perfil], and [init] shows
    the spinner, runs [initializeComponents] directly and schedules the
    end of the spinner. *)
Definition constructor (pg : Page) : Page :=
  hideLoadingSpinner
    (initializeComponents
       (showLoadingSpinner
          (set_state (mkState "perfil" false [])
             (set_elements (queryElements (nodes pg)) pg)))).

(** The spinner of the markup, if it has one, is not a section. *)
Definition plainSpinner (ns : list Node) : Prop :=
  forall spinner, getElementById ns "loadingSpinner" = Some spinner ->
    nodeHasClass ns spinner "section" = false.

(** The [DOMContentLoaded] listener in source order: [new CVApp()] first,
    then [window.location.hash] is read, after the constructor has shown
    the default section and pushed its URL. *)
Definition domContentLoaded : Run Page :=
  pure constructor >> (fun pg => loadHash (locationHash pg) pg).

(** ** What the handlers leave of the markup *)

(** The classes the script adds and removes: the active marker and the
    reveal animations, then those of the scroll listeners and of lazy
    images. *)
Definition dynamicClasses : list string :=
  ["active"; "fade-in"; "slide-in-left"; "slide-in-right"; "scale-in";
   "visible"; "sticky-nav"; "lazy"].

(** The attributes the script writes: on nav links in
    [setupAccessibility], on images in [createProfilePlaceholder] and in
    the lazy-loading observer. *)
Definition scriptedAttributes : list string :=
  ["tabindex"; "aria-label"; "src"; "alt"].

(** [n'] is [n] up to its dynamic classes, styles, inner HTML and
    scripted attributes. *)
Record sameMarkup (n n' : Node) : Prop := mkSameMarkup {
  same_tag : tagName n' = tagName n;
  same_id : id n' = id n;
  same_parent : parent n' = parent n;
  same_attributes :
    forall k, k ∉ scriptedAttributes ->
              attributes n' !! k = attributes n !! k;
  same_classes :
    forall c, c ∉ dynamicClasses -> hasClass c n' = hasClass c n
}.

Definition cosmetic (f : Node -> Node) : Prop := forall n, sameMarkup n (f n).

(** A page whose document is the markup [ns] up to cosmetic updates, with
    the element references the constructor cached. *)
Record Markup (ns : list Node) (pg : Page) : Prop := mkMarkup {
  markup_nodes : Forall2 sameMarkup ns (nodes pg);
  markup_elements : elements pg = queryElements ns
}.

(** Every section is the element its id resolves to: section ids are
    not empty and no earlier element shares one. *)
Definition sectionsById (ns : list Node) : Prop :=
  forall h n, ns !! h = Some n -> hasClass "section" n = true ->
              getElementById ns (id n) = Some h.

(** ** The reveal animations under way *)

(** The classes [getAnimationClass] returns. *)
Definition animationClasses : list string :=
  ["fade-in"; "slide-in-left"; "slide-in-right"; "scale-in"].

Definition animatedNode (n : Node) : bool :=
  existsb (fun c => hasClass c n) animationClasses.

(** The element carries one of the animation classes. *)
Definition animated (pg : Page) (e : nat) : bool :=
  from_option animatedNode false (nodes pg !! e).

(** An update that takes no reveal class away. *)
Definition keepsReveal (f : Node -> Node) : Prop :=
  forall n c, c ∈ animationClasses -> hasClass c n = true -> hasClass c (f n) = true.

(** Every element [animateElement] has run on carries the class it was
    given. *)
Definition Revealed (ns : list Node) (pg : Page) : Prop :=
  forall by_ h, (by_, h) ∈ animationLog pg ->
    nodeHasClass (nodes pg) h (getAnimationClass ns h) = true \/ length ns <= h.

(** [bar.getAttribute('data-width')] and [bar.style.width]. *)
Definition dataWidth (ns : list Node) (bar : nat) : option string :=
  ns !! bar ≫= fun n => attributes n !! "data-width".

Definition barWidth (pg : Page) (bar : nat) : option string :=
  nodes pg !! bar ≫= fun n => style n !! "width".

(** A timer with this callback is waiting. *)
Definition pending (cb : TimerCallback) (pg : Page) : Prop :=
  exists due, (due, cb) ∈ timers pg.

(** An animatable element inside the active section of the markup [ns]. *)
Definition revealable (ns : list Node) (pg : Page) (e : nat) : Prop :=
  exists sec, sec ∈ activeSections pg /\
              e ∈ querySelectorAllIn ns sec animatable.

(** The skill bars inside an element. *)
Definition barsOf (ns : list Node) (e : nat) : list nat :=
  querySelectorAllIn ns e (hasClass "skill-progress").

(** Every animatable element of the active section is animated or has
    its animation waiting, and every skill bar of such an element is at
    its width or on its way there through one of the three timers. *)
Record Animating (ns : list Node) (pg : Page) : Prop := mkAnimating {
  animating_elements :
    forall e, revealable ns pg e ->
              animated pg e = true \/ pending (animateElementLater e) pg;
  animating_bars :
    forall e bar W,
      revealable ns pg e -> bar ∈ barsOf ns e ->
      dataWidth ns bar = Some W -> wholeNumber W = true ->
      barWidth pg bar = Some (W +:+ "%") \/
      pending (setBarWidth bar W) pg \/
      (exists bars, bar ∈ bars /\ pending (animateSkillBarsLater bars) pg) \/
      pending (animateElementLater e) pg;
  animating_widths :
    forall bar W, pending (setBarWidth bar W) pg -> dataWidth ns bar = Some W
}.

(** [pg'] continues [pg]: the same active sections and bar widths, no
    animation class lost, no timer lost but debounced resize calls, of
    which there are as many, and new bar timers carry the bar's
    [data-width]. *)
Record Advances (ns : list Node) (pg pg' : Page) : Prop := mkAdvances {
  adv_active : activeSections pg' = activeSections pg;
  adv_animated : forall e, animated pg e = true -> animated pg' e = true;
  adv_width : forall bar, barWidth pg' bar = barWidth pg bar;
  adv_timers :
    forall t, t ∈ timers pg -> isResizeSettled t = false -> t ∈ timers pg';
  adv_new :
    forall due bar W,
      (due, setBarWidth bar W) ∈ timers pg' ->
      (due, setBarWidth bar W) ∈ timers pg \/ dataWidth ns bar = Some W;
  adv_resize :
    filter (fun t => isResizeSettled t = true) (timers pg')
    = filter (fun t => isResizeSettled t = true) (timers pg)
}.

(** An update of one node that keeps what the animations go by. *)
Definition steady (f : Node -> Node) (n : Node) : Prop :=
  isActiveSection (f n) = isActiveSection n /\
  (animatedNode n = true -> animatedNode (f n) = true) /\
  style (f n) !! "width" = style n !! "width".

(** What holds of every page the script reaches from the markup [ns]. *)
Record Sound (ns : list Node) (pg : Page) : Prop := mkSound {
  sound_tidy : Tidy pg;
  sound_markup : Markup ns pg;
  sound_animating : Animating ns pg
}.

(** The debounced calls of [handleResize] that are waiting. *)
Definition pendingResizes (pg : Page) : list (nat * TimerCallback) :=
  filter (fun t => isResizeSettled t = true) (timers pg).

(** A bound on the callbacks that run once [cb] is taken: the reveal of an
    element may schedule the bars inside it, no more than there are
    nodes, and these schedule one width each. *)
Definition callbackWeight (size : nat) (cb : TimerCallback) : nat :=
  match cb with
  | animateElementLater _ => size + 2
  | animateSkillBarsLater bars => length bars + 1
  | _ => 1
  end.

Definition load (size : nat) (ts : list (nat * TimerCallback)) : nat :=
  sum_list_with (fun t => callbackWeight size t.2) ts.

Definition weight (pg : Page) : nat := load (length (nodes pg)) (timers pg).

(** [pg'] has as many nodes as [pg] and the same timers. *)
Definition quiet (pg pg' : Page) : Prop :=
  length (nodes pg') = length (nodes pg) /\ timers pg' = timers pg.

(** The page once the waiting timers, and those they schedule, have run. *)
Definition settled (pg : Page) : Page := run (repeat TimerFires (weight pg)) pg.

(** ** The mobile menu *)

(** The menu as the markup has it: closed, without an id, neither a link
    nor a section. *)
Definition plainMenu (n : Node) : Prop :=
  id n = EmptyString /\ attributes n !! "href" = None /\
  hasClass "nav-link" n = false /\ hasClass "section" n = false /\
  hasClass "active" n = false.

(** The menu is displayed open exactly when the state says so, and the
    body is kept from scrolling exactly then. *)
Record MenuAgrees (menu : nat) (pg : Page) : Prop := mkMenuAgrees {
  menu_class : nodeHasClass (nodes pg) menu "active" = isMenuOpen (state pg);
  menu_overflow :
    bodyOverflow pg = if isMenuOpen (state pg) then "hidden" else EmptyString
}.

(** [pg'] has the menu, the menu state and the scroll lock of [pg]. *)
Record MenuKept (menu : nat) (pg pg' : Page) : Prop := mkMenuKept {
  kept_class :
    nodeHasClass (nodes pg') menu "active" = nodeHasClass (nodes pg) menu "active";
  kept_open : isMenuOpen (state pg') = isMenuOpen (state pg);
  kept_overflow : bodyOverflow pg' = bodyOverflow pg
}.

(** The page once [updateActiveNavLink] has cleared the highlight of every
    nav link. *)
Definition cleared (pg : Page) : Page :=
  forEach (fun _ link pg' => updNode link (removeClass "active") pg')
    (navLinks (elements pg)) pg.

End CVApp.

(** * The scroll listeners of the main script

    The scroll-to-top button, the nav link highlight by scroll position
    and the sticky navigation bar, with the throttle and the animation
    frame that [handleScroll] goes through. The state of the listeners
    wraps the page of [CVApp]; window positions are rational numbers. *)

Module Scrolling.

Import CVApp.

(** The boxes of the elements as laid out when a frame is painted:
    [offsetTop] and [offsetHeight], whole numbers of pixels. *)
Record Layout := mkLayout {
  offsetTop : nat -> Z;
  offsetHeight : nat -> Z
}.

(** The page with what the scroll listeners add to it: the cached button
    and navigation bar, the header height captured by the sticky
    listener (when a header and the navigation bar exist), the flags of
    [handleScroll] and of its throttle, the pending throttle timers and
    animation frames, and [window.scrollY]. *)
Record View := mkView {
  page : Page;
  scrollToTop : option nat;
  sticky : option (nat * Z);
  isScrolling : bool;
  inThrottle : bool;
  resets : nat;
  frames : nat;
  scrollY : Q
}.

Definition set_page (p : Page) (v : View) : View :=
  mkView p (scrollToTop v) (sticky v) (isScrolling v) (inThrottle v)
    (resets v) (frames v) (scrollY v).

Definition set_isScrolling (b : bool) (v : View) : View :=
  mkView (page v) (scrollToTop v) (sticky v) b (inThrottle v)
    (resets v) (frames v) (scrollY v).

Definition set_inThrottle (b : bool) (v : View) : View :=
  mkView (page v) (scrollToTop v) (sticky v) (isScrolling v) b
    (resets v) (frames v) (scrollY v).

Definition set_resets (n : nat) (v : View) : View :=
  mkView (page v) (scrollToTop v) (sticky v) (isScrolling v) (inThrottle v)
    n (frames v) (scrollY v).

Definition set_frames (n : nat) (v : View) : View :=
  mkView (page v) (scrollToTop v) (sticky v) (isScrolling v) (inThrottle v)
    (resets v) n (scrollY v).

Definition set_scrollY (y : Q) (v : View) : View :=
  mkView (page v) (scrollToTop v) (sticky v) (isScrolling v) (inThrottle v)
    (resets v) (frames v) y.

(** [a > b] on numbers. *)
Definition gt (a b : Q) : bool := negb (Qle_bool a b).

(** The scroll listeners as registered by [setupEventListeners] and
    [setupStickyNavigation] on the page the constructor leaves;
    [headerHeight] is the [offsetHeight] of the header at that time. *)
Definition listen (headerHeight : Z) (pg : Page) : View :=
  mkView pg
    (getElementById (nodes pg) "scrollToTop")
    (match list_find (fun n => hasClass "header" n = true) (nodes pg),
           getElementById (nodes pg) "navigation" with
     | Some _, Some navigation => Some (navigation, headerHeight)
     | _, _ => None
     end)
    false false 0 0 0.

Definition handleScroll (v : View) : View :=
  if isScrolling v then v
  else set_frames (S (frames v)) (set_isScrolling true v).

(** [throttle(() => this.handleScroll(), 16)] *)
Definition throttledScroll (v : View) : View :=
  if inThrottle v then v
  else set_resets (S (resets v)) (set_inThrottle true (handleScroll v)).

(** The listener added by [setupStickyNavigation]. *)
Definition stickyListener (v : View) : View :=
  match sticky v with
  | Some (navigation, headerHeight) =>
      set_page
        (updNode navigation
           (if gt (scrollY v) (inject_Z (headerHeight - 50))
            then addClass "sticky-nav" else removeClass "sticky-nav")
           (page v)) v
  | None => v
  end.

Definition toggleScrollToTopButton (button : option nat) (y : Q) : Run Page :=
  fun pg =>
    match button with
    | None =>
        (Throw (TypeError "Cannot read properties of null (reading 'classList')"), pg)
    | Some b =>
        (Normal tt,
         updNode b (if gt y 300 then addClass "visible" else removeClass "visible")
           pg)
    end.

Definition updateNavigationOnScroll (l : Layout) (y : Q) (pg : Page) : Page :=
  let scrollPosition := (y + 100)%Q in
  forEach (fun index section pg' =>
      let sectionTop := offsetTop l section in
      let sectionHeight := offsetHeight l section in
      if Qle_bool (inject_Z sectionTop) scrollPosition
         && gt (inject_Z (sectionTop + sectionHeight)) scrollPosition
      then
        match navLinks (elements pg') !! index with
        | Some link =>
            if negb (nodeHasClass (nodes pg') link "active") then
              let pg1 := (updateActiveNavLink (Some link) pg').2 in
              set_state
                (set_currentSection (sectionId (nodes pg1) section) (state pg1))
                pg1
            else pg'
        | None => pg'
        end
      else pg')
    (sections (elements pg)) pg.

(** The callback [handleScroll] gives to [requestAnimationFrame]; the
    parallax of the header, a style of the header only, is left out. *)
Definition scrollFrame (l : Layout) (v : View) : Completion unit * View :=
  match toggleScrollToTopButton (scrollToTop v) (scrollY v) (page v) with
  | (Normal _, pg1) =>
      (Normal tt,
       set_isScrolling false
         (set_page (updateNavigationOnScroll l (scrollY v) pg1) v))
  | (Throw e, pg1) => (Throw e, set_page pg1 v)
  end.

Inductive Event :=
| Scroll (y : Q)
| AnimationFrame (l : Layout)
| ThrottleTimer
| App (ev : CVApp.Event).

Definition step (ev : Event) (v : View) : View :=
  match ev with
  | Scroll y => stickyListener (throttledScroll (set_scrollY y v))
  | AnimationFrame l =>
      Nat.iter (frames v) (fun w => (scrollFrame l w).2) (set_frames 0 v)
  | ThrottleTimer =>
      match resets v with
      | O => v
      | S n => set_resets n (set_inThrottle false v)
      end
  | App ev' => set_page (CVApp.step ev' (page v)) v
  end.

Definition run (evs : list Event) (v : View) : View :=
  foldl (fun v' ev => step ev v') v evs.

(** ** Predicates used by the statements *)

Definition restyle (c : string) (b : bool) : Node -> Node :=
  if b then addClass c else removeClass c.

Definition isScroll (ev : Event) : bool :=
  match ev with
  | Scroll _ => true
  | _ => false
  end.

Definition isApp (ev : Event) : bool :=
  match ev with
  | App _ => true
  | _ => false
  end.

(** [pg'] is [pg] up to the classes [visible] and [sticky-nav]. *)
Record Restyled (pg pg' : Page) : Prop := mkRestyled {
  restyled_elements : elements pg' = elements pg;
  restyled_state : state pg' = state pg;
  restyled_url : url pg' = url pg;
  restyled_history : history pg' = history pg;
  restyled_classes :
    forall h c, c <> "visible" -> c <> "sticky-nav" ->
                nodeHasClass (nodes pg') h c = nodeHasClass (nodes pg) h c;
  restyled_ids : forall s, sectionId (nodes pg') s = sectionId (nodes pg) s;
  restyled_length : length (nodes pg') = length (nodes pg);
  restyled_tidy : Tidy pg -> Tidy pg';
  restyled_active : activeSections pg' = activeSections pg
}.

(** The listeners at rest: no scroll being handled, no throttle window
    open, no frame or timer pending. *)
Record AtRest (v : View) : Prop := mkAtRest {
  rest_isScrolling : isScrolling v = false;
  rest_inThrottle : inThrottle v = false;
  rest_frames : frames v = 0;
  rest_resets : resets v = 0
}.

(** The scroll position, 100 pixels down, lies in the box of [section]. *)
Definition inView (l : Layout) (y : Q) (section : nat) : Prop :=
  (inject_Z (offsetTop l section) <= y + 100)%Q /\
  (y + 100 < inject_Z (offsetTop l section + offsetHeight l section))%Q.

End Scrolling.

(** * The utilities of the configuration script

    [CVUtils.validateEmail] and [CVUtils.formatPhone], with the regular
    expressions they rest on. *)

Module CVUtils.

(** ** Strings and regular expressions *)

(** A JavaScript string is the list of its UTF-16 code units. *)

(** The code units of an ASCII literal. *)
Definition codeUnits (s : string) : list N :=
  map Ascii.N_of_ascii (list_ascii_of_string s).

(** Patterns without captures, look-around or back-references. *)
Inductive Regex :=
| Never
| Empty
| Class (p : N -> bool)
| Seq (r1 r2 : Regex)
| Alt (r1 r2 : Regex)
| Star (r : Regex).

Definition Plus (r : Regex) : Regex := Seq r (Star r).

Definition Lit (c : N) : Regex := Class (N.eqb c).

Fixpoint nullable (r : Regex) : bool :=
  match r with
  | Never => false
  | Empty => true
  | Class _ => false
  | Seq r1 r2 => nullable r1 && nullable r2
  | Alt r1 r2 => nullable r1 || nullable r2
  | Star _ => true
  end.

(** What is left of the pattern once it has read [c]. *)
Fixpoint deriv (c : N) (r : Regex) : Regex :=
  match r with
  | Never => Never
  | Empty => Never
  | Class p => if p c then Empty else Never
  | Seq r1 r2 =>
      Alt (Seq (deriv c r1) r2) (if nullable r1 then deriv c r2 else Never)
  | Alt r1 r2 => Alt (deriv c r1) (deriv c r2)
  | Star r1 => Seq (deriv c r1) (Star r1)
  end.

(** [/^r$/.test(s)]: the pattern is anchored at both ends, so the test
    succeeds when the whole input matches. *)
Definition test (r : Regex) (s : list N) : bool :=
  nullable (foldl (fun r' c => deriv c r') r s).

(** The class [\s]: WhiteSpace and LineTerminator code points. *)
Definition isWhiteSpace (c : N) : bool :=
  (N.leb 9 c && N.leb c 13) || N.eqb c 32 || N.eqb c 160 || N.eqb c 5760
  || (N.leb 8192 c && N.leb c 8202) || N.eqb c 8232 || N.eqb c 8233
  || N.eqb c 8239 || N.eqb c 8287 || N.eqb c 12288 || N.eqb c 65279.

(** The class [\d]. *)
Definition isDigit (c : N) : bool := N.leb 48 c && N.leb c 57.

(** ** [validateEmail] *)

(** The class [[^\s@]]. *)
Definition notSpaceAt (c : N) : bool := negb (isWhiteSpace c || N.eqb c 64).

Definition validateEmail (email : list N) : bool :=
  let re :=
    Seq (Plus (Class notSpaceAt))
      (Seq (Lit 64%N)
         (Seq (Plus (Class notSpaceAt))
            (Seq (Lit 46%N) (Plus (Class notSpaceAt))))) in
  test re email.

(** ** [formatPhone] *)

(** A pattern of fixed width: groups of single-character classes. *)
Definition Groups : Type := list (list (N -> bool)).

(** The captures of the pattern at the start of [s], and what follows. *)
Fixpoint matchClasses (cs : list (N -> bool)) (s : list N)
  : option (list N * list N) :=
  match cs with
  | [] => Some ([], s)
  | p :: cs' =>
      match s with
      | c :: s' =>
          if p c then
            match matchClasses cs' s' with
            | Some (m, rest) => Some (c :: m, rest)
            | None => None
            end
          else None
      | [] => None
      end
  end.

Fixpoint matchGroups (gs : Groups) (s : list N)
  : option (list (list N) * list N) :=
  match gs with
  | [] => Some ([], s)
  | g :: gs' =>
      match matchClasses g s with
      | Some (m, rest) =>
          match matchGroups gs' rest with
          | Some (ms, rest') => Some (m :: ms, rest')
          | None => None
          end
      | None => None
      end
  end.

(** [s.replace(/.../, template)] without the [g] flag: the leftmost match
    is replaced, the rest of the string is kept. *)
Fixpoint replaceFirst (gs : Groups) (template : list (list N) -> list N)
    (s : list N) : list N :=
  match matchGroups gs s with
  | Some (ms, rest) => template ms ++ rest
  | None =>
      match s with
      | [] => []
      | c :: s' => c :: replaceFirst gs template s'
      end
  end.

(** [(\+51)(\d{3})(\d{3})(\d{3})] *)
Definition phonePattern : Groups :=
  [ [N.eqb 43%N; N.eqb 53%N; N.eqb 49%N];
    [isDigit; isDigit; isDigit];
    [isDigit; isDigit; isDigit];
    [isDigit; isDigit; isDigit] ].

(** ['$1 $2 $3 $4'] *)
Definition spaced (ms : list (list N)) : list N :=
  let g (k : nat) := nth k ms [] in
  g 0%nat ++ [32%N] ++ g 1%nat ++ [32%N] ++ g 2%nat ++ [32%N] ++ g 3%nat.

Definition formatPhone (phone : list N) : list N :=
  replaceFirst phonePattern spaced phone.

(** ** Predicates used by the statements *)

(** The language of a pattern. *)
Inductive Matches : Regex -> list N -> Prop :=
| MEmpty : Matches Empty []
| MClass p c : p c = true -> Matches (Class p) [c]
| MSeq r1 r2 s1 s2 : Matches r1 s1 -> Matches r2 s2 -> Matches (Seq r1 r2) (s1 ++ s2)
| MAltL r1 r2 s : Matches r1 s -> Matches (Alt r1 r2) s
| MAltR r1 r2 s : Matches r2 s -> Matches (Alt r1 r2) s
| MStarNil r : Matches (Star r) []
| MStarCons r s1 s2 :
    Matches r s1 -> Matches (Star r) s2 -> Matches (Star r) (s1 ++ s2).

(** A part of an address: not empty, without white space or [@]. *)
Definition addressPart (s : list N) : Prop :=
  s <> [] /\ Forall (fun c => notSpaceAt c = true) s.

(** Three digits. *)
Definition digits3 (s : list N) : Prop :=
  length s = 3%nat /\ Forall (fun c => isDigit c = true) s.

(** An unformatted number: [+51] and nine digits. *)
Definition rawNumber (s : list N) : Prop :=
  exists a b c, s = codeUnits "+51" ++ a ++ b ++ c /\
                digits3 a /\ digits3 b /\ digits3 c.

(** A raw number starts somewhere in [s]. *)
Definition holdsRawNumber (s : list N) : Prop :=
  exists pre m post, s = pre ++ m ++ post /\ rawNumber m.

Definition withoutSpaces (s : list N) : list N :=
  filter (fun c => c <> 32%N) s.

End CVUtils.

(** * Sample pages *)

Module Demo.

Definition element (tag i : string) (classes : list string)
    (parent : option nat) (href : option string) : CVApp.Node :=
  CVApp.mkNode tag i classes parent
    (match href with Some target => {["href" := target]} | None => ∅ end)
    ∅ EmptyString.

(** Two sections, their nav links and the menu toggle. *)
Definition markup : list CVApp.Node :=
  [ element "ul" "" ["nav-menu"] None None;
    element "a" "" ["nav-link"] (Some 0) (Some "#perfil");
    element "a" "" ["nav-link"] (Some 0) (Some "#experiencia");
    element "button" "menuToggle" [] None None;
    element "section" "perfil" ["section"; "active"] None None;
    element "div" "" ["stat-item"] (Some 4) None;
    element "section" "experiencia" ["section"] None None;
    element "div" "" ["timeline-item"] (Some 6) None;
    element "div" "" ["timeline-item"] (Some 6) None ].

(** The page the constructor leaves at a desktop width. *)
Definition started : CVApp.Page :=
  CVApp.constructor (CVApp.loaded markup 1200 EmptyString).

(** The same page once the menu toggle has been clicked. *)
Definition menuOpen : CVApp.Page := CVApp.run [CVApp.Click 3] started.

(** The sample document with a header, a navigation bar and the
    scroll-to-top button. *)
Definition withButton : list CVApp.Node :=
  markup ++
  [ element "header" "" ["header"] None None;
    element "nav" "navigation" [] None None;
    element "button" "scrollToTop" [] None None ].

(** Its scroll listeners after start-up, for a header 200 pixels high. *)
Definition listening : Scrolling.View :=
  Scrolling.listen 200
    (CVApp.domContentLoaded (CVApp.loaded withButton 1200 EmptyString)).2.

(** Section [experiencia] laid out from 500 to 1300, [perfil] from 0 to
    500, every other element without a box. *)
Definition layout : Scrolling.Layout :=
  Scrolling.mkLayout
    (fun h => if h =? 6 then 500%Z else 0%Z)
    (fun h => if h =? 6 then 800%Z else if h =? 4 then 500%Z else 0%Z).

(** A document with one section, holding a skill and its progress bar. *)
Definition skills : list CVApp.Node :=
  [ element "section" "perfil" ["section"] None None;
    element "div" "" ["skill-item"] (Some 0) None;
    CVApp.mkNode "div" "" ["skill-progress"] (Some 1)
      {["data-width" := "85"]} ∅ EmptyString ].

(** A host whose user prefers reduced motion. *)
Definition reducedEnv : CVAnimations.Env :=
  CVAnimations.mkEnv true (fun _ => 0%R) (Some 0) [] [] [] [] [] [].

(** A heading to be typed, on a page without pending timers. *)
Definition heading : CVAnimations.World :=
  CVAnimations.loaded [CVAnimations.mkElement "Hi" [] ∅ []] 1200 800.

(** A particle at rest. *)
Definition still (x y : R) : CVAnimations.Particle.t :=
  CVAnimations.Particle.mk x y 0 0 1 0.5 0.2.

(** A particle on the left edge, moving left. *)
Definition edgeParticle : CVAnimations.Particle.t :=
  CVAnimations.Particle.mk 0 500 (-1) 0 1 0.5 0.2.

Definition canvas : CVAnimations.Canvas.t := CVAnimations.Canvas.mk 1000 1000.

Definition pointer : CVAnimations.Mouse.t := CVAnimations.Mouse.mk 900 500.

(** A running engine with two particles at rest, 40 apart. *)
Definition drawing : CVAnimations.World :=
  CVAnimations.mkWorld
    (CVAnimations.mkInstance false [still 100 100; still 140 100] pointer
       (Some canvas))
    [] ["particles-canvas"] EmptyString 1000 1000 0 0 [] [] [] [] [] [] true.

(** A particle left beyond the right border of the canvas. *)
Definition lostParticle : CVAnimations.Particle.t :=
  CVAnimations.Particle.mk 1200 500 1 0 1 0.5 0.2.

(** A host without the reduced-motion preference, two contact items and
    a generator that always returns one half. *)
Definition motionEnv : CVAnimations.Env :=
  CVAnimations.mkEnv false (fun _ => 0.5%R) (Some 0) [1; 2] [] [] [] [] [].


(** The heading and two contact items. *)
Definition contactPage : list CVAnimations.Element :=
  [CVAnimations.mkElement "Hi" [] ∅ [];
   CVAnimations.mkElement "mail" ["contact-item"] ∅ [];
   CVAnimations.mkElement "phone" ["contact-item"] ∅ []].

End Demo.

(** * General facts *)

Lemma contains_classAdd (c : string) (cl : list string) :
  contains (classAdd c cl) c = true.
Proof.
  unfold classAdd. destruct (contains cl c) eqn:E; [exact E |].
  unfold contains. apply bool_decide_eq_true, elem_of_app. right. constructor.
Qed.

Lemma contains_classAdd_ne (c c' : string) (cl : list string) :
  c <> c' -> contains (classAdd c' cl) c = contains cl c.
Proof.
  intros Hne. unfold classAdd. destruct (contains cl c'); [reflexivity |].
  unfold contains. apply bool_decide_ext.
  rewrite elem_of_app, list_elem_of_singleton. tauto.
Qed.

Lemma contains_classRemove (c : string) (cl : list string) :
  contains (classRemove c cl) c = false.
Proof.
  unfold contains, classRemove. apply bool_decide_eq_false.
  rewrite list_elem_of_filter. tauto.
Qed.

Lemma contains_classRemove_ne (c c' : string) (cl : list string) :
  c <> c' -> contains (classRemove c' cl) c = contains cl c.
Proof.
  intros Hne. unfold contains, classRemove. apply bool_decide_ext.
  rewrite list_elem_of_filter. tauto.
Qed.

Lemma at_most_one_equal {A : Type} (l : list A) (a b : A) :
  length l <= 1 -> a ∈ l -> b ∈ l -> a = b.
Proof.
  destruct l as [| x [| y l]]; cbn; intros Hlen Ha Hb; [inversion Ha | | lia].
  apply list_elem_of_singleton in Ha, Hb. congruence.
Qed.

Lemma NoDup_only {A : Type} (l : list A) (a : A) :
  NoDup l -> (forall b, b ∈ l <-> b = a) -> l = [a].
Proof.
  intros Hnd Hall. destruct l as [| x l].
  - exfalso. apply (not_elem_of_nil a), Hall. reflexivity.
  - assert (x = a) as -> by (apply Hall; left).
    destruct l as [| y l]; [reflexivity |].
    assert (y = a) as -> by (apply Hall; right; left).
    apply NoDup_cons in Hnd as [Hnot _]. exfalso. apply Hnot. left.
Qed.

Lemma NoDup_setAdd (h : nat) (s : list nat) : NoDup s -> NoDup (setAdd h s).
Proof.
  intros Hs. unfold setAdd. case_bool_decide as Hin; [exact Hs |].
  apply NoDup_app. repeat split; [exact Hs | | apply NoDup_singleton].
  intros x Hx Hx'. apply list_elem_of_singleton in Hx'. congruence.
Qed.

Lemma foldl_invariant {S A : Type} (P : S -> Prop) (f : S -> A -> S)
    (l : list A) (s : S) :
  (forall s' a, P s' -> P (f s' a)) -> P s -> P (foldl f s l).
Proof.
  intros Hf. revert s. induction l as [| a l IH]; intros s Hs; [exact Hs |].
  cbn. apply IH, Hf, Hs.
Qed.

Lemma forEach_invariant {S A : Type} (P : S -> Prop) (f : nat -> A -> S -> S)
    (l : list A) (s : S) :
  (forall i a s', P s' -> P (f i a s')) -> P s -> P (forEach f l s).
Proof.
  intros Hf. unfold forEach. apply foldl_invariant. intros s' [i a]. apply Hf.
Qed.

Lemma nextTimer_Some {C : Type} (ts : list (nat * C)) (k : nat) (t : nat * C) :
  nextTimer ts = Some (k, t) -> ts !! k = Some t.
Proof.
  unfold nextTimer. destruct (minDue ts); [| discriminate].
  intros H. apply list_find_Some in H. tauto.
Qed.

Lemma nextTimer_single {C : Type} (t : nat * C) : nextTimer [t] = Some (0, t).
Proof.
  unfold nextTimer. cbn. destruct t as [d c]. cbn.
  rewrite decide_True by reflexivity. reflexivity.
Qed.

Lemma minDue_attained {C : Type} (ts : list (nat * C)) (d0 : nat) :
  foldr (fun t' m => Nat.min t'.1 m) d0 ts = d0 \/
  exists t, t ∈ ts /\ t.1 = foldr (fun t' m => Nat.min t'.1 m) d0 ts.
Proof.
  induction ts as [| t ts IH]; [left; reflexivity |]. cbn [foldr].
  destruct (Nat.min_spec t.1 (foldr (fun t' m => Nat.min t'.1 m) d0 ts))
    as [[_ E] | [_ E]]; rewrite E.
  - right. exists t. split; [left | reflexivity].
  - destruct IH as [IH | (x & Hx & IH)]; [left; exact IH |].
    right. exists x. split; [right; exact Hx | exact IH].
Qed.

Lemma nextTimer_is_Some {C : Type} (ts : list (nat * C)) :
  ts <> [] -> is_Some (nextTimer ts).
Proof.
  destruct ts as [| t ts]; [congruence |]. intros _.
  unfold nextTimer, minDue.
  destruct (minDue_attained ts t.1) as [E | (x & Hx & E)].
  - apply (list_find_elem_of _ _ t); [left | symmetry; exact E].
  - apply (list_find_elem_of _ _ x); [right; exact Hx | exact E].
Qed.

Lemma sqrt_of_square (d q : R) : (0 <= d -> q = d * d -> sqrt q = d)%R.
Proof. intros Hd ->. apply sqrt_square; exact Hd. Qed.

(** * The particle loop *)

Section ParticleFacts.

Import CVAnimations.
Local Open Scope R_scope.

Lemma x_limitSpeed p : Particle.x (limitSpeed p) = Particle.x p.
Proof. unfold limitSpeed. destruct (Rgt_dec _ _); reflexivity. Qed.

Lemma y_limitSpeed p : Particle.y (limitSpeed p) = Particle.y p.
Proof. unfold limitSpeed. destruct (Rgt_dec _ _); reflexivity. Qed.

Lemma x_attract m p : Particle.x (attract m p) = Particle.x p.
Proof. unfold attract. cbv zeta. destruct (Rlt_dec _ _); reflexivity. Qed.

Lemma y_attract m p : Particle.y (attract m p) = Particle.y p.
Proof. unfold attract. cbv zeta. destruct (Rlt_dec _ _); reflexivity. Qed.

(** The position after a tick is the integrated position: neither the
    reflection nor the later steps write it. *)
Lemma x_updateParticle c m p :
  Particle.x (updateParticle c m p) = Particle.x p + Particle.vx p.
Proof. unfold updateParticle. rewrite x_limitSpeed, x_attract. reflexivity. Qed.

Lemma y_updateParticle c m p :
  Particle.y (updateParticle c m p) = Particle.y p + Particle.vy p.
Proof. unfold updateParticle. rewrite y_limitSpeed, y_attract. reflexivity. Qed.

Lemma outside_true v limit : outside v limit = true <-> v < 0 \/ limit < v.
Proof.
  unfold outside. destruct (Rlt_dec v 0); [intuition |].
  destruct (Rgt_dec v limit); intuition (try discriminate; lra).
Qed.

Lemma attract_far m p :
  100 <= sqrt ((Mouse.x m - Particle.x p) * (Mouse.x m - Particle.x p) +
               (Mouse.y m - Particle.y p) * (Mouse.y m - Particle.y p)) ->
  attract m p = p.
Proof.
  intros Hfar. unfold attract. cbv zeta.
  destruct (Rlt_dec _ _); [lra | reflexivity].
Qed.

Lemma limitSpeed_slow p : speedOf p <= maxSpeed -> limitSpeed p = p.
Proof.
  intros Hs. unfold limitSpeed. cbv zeta.
  destruct (Rgt_dec _ _); [lra | reflexivity].
Qed.

Lemma speedOf_bounce c p : speedOf (bounce c p) = speedOf p.
Proof.
  unfold speedOf, bounce. cbn [Particle.vx Particle.vy]. f_equal.
  destruct (outside _ _), (outside _ _); ring.
Qed.

(** [bounce] changes a velocity component exactly when the coordinate is
    outside the canvas and the component is not zero. *)
Lemma reflectedX_outside c p :
  reflectedX c p <->
  outside (Particle.x p + Particle.vx p) (Canvas.width c) = true /\
  Particle.vx p <> 0.
Proof.
  unfold reflectedX, bounce, integrate.
  cbn [Particle.x Particle.y Particle.vx Particle.vy].
  destruct (outside _ _); split.
  - intros H. split; [reflexivity | lra].
  - intros [_ H]. lra.
  - intros H. congruence.
  - intros [H _]. discriminate.
Qed.

Lemma reflectedY_outside c p :
  reflectedY c p <->
  outside (Particle.y p + Particle.vy p) (Canvas.height c) = true /\
  Particle.vy p <> 0.
Proof.
  unfold reflectedY, bounce, integrate.
  cbn [Particle.x Particle.y Particle.vx Particle.vy].
  destruct (outside _ _); split.
  - intros H. split; [reflexivity | lra].
  - intros [_ H]. lra.
  - intros H. congruence.
  - intros [H _]. discriminate.
Qed.


Lemma speedOf_limitSpeed p : speedOf (limitSpeed p) <= maxSpeed.
Proof.
  unfold limitSpeed. destruct (Rgt_dec (speedOf p) maxSpeed) as [Hgt | Hle].
  - unfold speedOf at 1. cbn [Particle.vx Particle.vy].
    set (s := speedOf p) in *.
    assert (Hs : 0 < s) by (unfold maxSpeed in Hgt; lra).
    assert (Hq : s * s =
                 Particle.vx p * Particle.vx p + Particle.vy p * Particle.vy p).
    { unfold s, speedOf. apply sqrt_sqrt. nra. }
    right. apply sqrt_of_square; [unfold maxSpeed; lra |].
    unfold maxSpeed.
    transitivity
      (4 * (Particle.vx p * Particle.vx p + Particle.vy p * Particle.vy p)
         / (s * s)).
    + field. lra.
    + rewrite <- Hq. field. lra.
  - lra.
Qed.



End ParticleFacts.

(** * The particle loop in doubles *)

Section DoublesFacts.

Import PrimFloat.
Import CVAnimations.
Local Open Scope float_scope.

(** C5, as stated, fails in the doubles the loop computes with: the
    velocity (1.1875, 1.8125), of speed about 2.17, is rescaled to a
    velocity whose speed, computed as the loop computes it, is
    2.0000000000000004, one unit in the last place above the maximum. *)
Lemma rescaled_speed_exceeds_in_doubles :
  let p := Doubles.mkParticle 500 500 1.1875 1.8125 in
  let p' := Doubles.updateParticle 1000 1000 0 0 p in
  (Doubles.maxSpeed <? Doubles.speedOf p') = true /\
  Doubles.speedOf p' = 0x1.0000000000001p+1.
Proof. vm_compute. split; reflexivity. Qed.

(** The connection check in doubles: at a computed distance of 40 the
    opacity is the double 0.1, and at a computed distance that is not
    below 80 no line is drawn. *)
Lemma connect_in_doubles (p q : Doubles.Particle) :
  (Doubles.distance p q = 40 ->
   Doubles.connect p q = Some 0x1.999999999999ap-4) /\
  ((Doubles.distance p q <? 80) = false -> Doubles.connect p q = None).
Proof.
  unfold Doubles.connect. split.
  - intros ->. vm_compute. reflexivity.
  - intros ->. reflexivity.
Qed.

(** The tick of the particle on the left edge, in doubles. *)
Lemma edge_tick_in_doubles :
  Doubles.updateParticle 1000 1000 900 500 (Doubles.mkParticle 0 500 (-1) 0)
  = Doubles.mkParticle (-1) 500 1 0.
Proof. vm_compute. reflexivity. Qed.

End DoublesFacts.

(** C5, amended. In exact arithmetic, whatever the velocity before the
    tick, the speed [sqrt (vx * vx + vy * vy)] of a particle after one
    tick's update (integration, reflection, pointer attraction, then the
    speed limit) is at most the configured maximum, 2. *)
Theorem post_tick_speed_capped
    (c : CVAnimations.Canvas.t) (m : CVAnimations.Mouse.t)
    (p : CVAnimations.Particle.t) :
  (CVAnimations.speedOf (CVAnimations.updateParticle c m p) <= 2)%R.
Proof.
  change 2%R with CVAnimations.maxSpeed.
  unfold CVAnimations.updateParticle. apply speedOf_limitSpeed.
Qed.



Lemma edge_tick_velocity :
  CVAnimations.Particle.vx
    (CVAnimations.updateParticle Demo.canvas Demo.pointer Demo.edgeParticle)
  = 1%R.
Proof.
  unfold CVAnimations.updateParticle.
  assert (Eb : CVAnimations.bounce Demo.canvas
                 (CVAnimations.integrate Demo.edgeParticle)
               = CVAnimations.Particle.mk (0 + -1) (500 + 0) (-1 * -1) 0 1 0.5 0.2).
  { unfold CVAnimations.bounce, CVAnimations.integrate, Demo.edgeParticle,
      Demo.canvas.
    cbn [CVAnimations.Particle.x CVAnimations.Particle.y
         CVAnimations.Particle.vx CVAnimations.Particle.vy
         CVAnimations.Particle.size CVAnimations.Particle.opacity
         CVAnimations.Particle.color CVAnimations.Canvas.width
         CVAnimations.Canvas.height].
    assert (H1 : CVAnimations.outside (0 + -1) 1000 = true)
      by (apply outside_true; lra).
    assert (H2 : CVAnimations.outside (500 + 0) 1000 = false).
    { destruct (CVAnimations.outside (500 + 0) 1000) eqn:E; [| reflexivity].
      apply outside_true in E. lra. }
    rewrite H1, H2. reflexivity. }
  rewrite Eb. rewrite attract_far.
  - rewrite limitSpeed_slow; [simpl; lra |].
    unfold CVAnimations.speedOf, CVAnimations.maxSpeed. simpl.
    rewrite (sqrt_of_square 1); lra.
  - simpl. rewrite (sqrt_of_square 901); lra.
Qed.

(** C4, as stated, fails: a particle on the left edge moving left is
    within the canvas before the tick, the tick inverts its velocity, and
    its position after that tick is [x = -1], outside the canvas (the
    same in doubles, [edge_tick_in_doubles]). *)
Lemma reflecting_tick_leaves_canvas :
  CVAnimations.inBounds Demo.canvas Demo.edgeParticle /\
  CVAnimations.reflectedX Demo.canvas Demo.edgeParticle /\
  CVAnimations.Particle.vx
    (CVAnimations.updateParticle Demo.canvas Demo.pointer Demo.edgeParticle)
  = 1%R /\
  CVAnimations.Particle.x
    (CVAnimations.updateParticle Demo.canvas Demo.pointer Demo.edgeParticle)
  = (-1)%R /\
  ~ CVAnimations.inBounds Demo.canvas
      (CVAnimations.updateParticle Demo.canvas Demo.pointer Demo.edgeParticle).
Proof.
  split; [| split; [| split; [| split]]].
  - unfold CVAnimations.inBounds. simpl. lra.
  - apply reflectedX_outside. split; [apply outside_true |]; simpl; lra.
  - exact edge_tick_velocity.
  - rewrite x_updateParticle. simpl. lra.
  - unfold CVAnimations.inBounds. rewrite x_updateParticle. simpl. lra.
Qed.

(** C4, amended. In exact arithmetic, for a particle within the canvas
    before the tick, the position after the tick is at most one velocity
    step outside the canvas; the tick inverts the velocity on an axis
    exactly when the coordinate after the tick is outside the canvas on
    that axis (nothing clamps it); and when that tick neither attracted the particle
    (pointer at distance 100 or more) nor rescaled its velocity (speed at
    most the maximum), the next tick brings the reflected coordinate back
    to its value before the first tick, which is within the canvas. *)
Theorem tick_overshoot_one_step
    (c : CVAnimations.Canvas.t) (m m' : CVAnimations.Mouse.t)
    (p : CVAnimations.Particle.t) :
  CVAnimations.inBounds c p ->
  let p' := CVAnimations.updateParticle c m p in
  let far :=
    (100 <= sqrt ((CVAnimations.Mouse.x m - CVAnimations.Particle.x p') *
                  (CVAnimations.Mouse.x m - CVAnimations.Particle.x p') +
                  (CVAnimations.Mouse.y m - CVAnimations.Particle.y p') *
                  (CVAnimations.Mouse.y m - CVAnimations.Particle.y p')))%R in
  (- Rabs (CVAnimations.Particle.vx p) <= CVAnimations.Particle.x p'
     <= CVAnimations.Canvas.width c + Rabs (CVAnimations.Particle.vx p))%R /\
  (- Rabs (CVAnimations.Particle.vy p) <= CVAnimations.Particle.y p'
     <= CVAnimations.Canvas.height c + Rabs (CVAnimations.Particle.vy p))%R /\
  (CVAnimations.reflectedX c p <->
     ~ (0 <= CVAnimations.Particle.x p' <= CVAnimations.Canvas.width c)%R) /\
  (CVAnimations.reflectedY c p <->
     ~ (0 <= CVAnimations.Particle.y p' <= CVAnimations.Canvas.height c)%R) /\
  (far -> (CVAnimations.speedOf p <= CVAnimations.maxSpeed)%R ->
     (CVAnimations.reflectedX c p ->
        CVAnimations.Particle.vx p' = (- CVAnimations.Particle.vx p)%R /\
        CVAnimations.Particle.x (CVAnimations.updateParticle c m' p')
        = CVAnimations.Particle.x p) /\
     (CVAnimations.reflectedY c p ->
        CVAnimations.Particle.vy p' = (- CVAnimations.Particle.vy p)%R /\
        CVAnimations.Particle.y (CVAnimations.updateParticle c m' p')
        = CVAnimations.Particle.y p)).
Proof.
  intros [Hx Hy] p' far. subst far.
  assert (Ex : CVAnimations.Particle.x p'
               = (CVAnimations.Particle.x p + CVAnimations.Particle.vx p)%R)
    by apply x_updateParticle.
  assert (Ey : CVAnimations.Particle.y p'
               = (CVAnimations.Particle.y p + CVAnimations.Particle.vy p)%R)
    by apply y_updateParticle.
  pose proof (Rle_abs (CVAnimations.Particle.vx p)) as Ax.
  pose proof (Rle_abs (- CVAnimations.Particle.vx p)) as Ax'.
  rewrite Rabs_Ropp in Ax'.
  pose proof (Rle_abs (CVAnimations.Particle.vy p)) as Ay.
  pose proof (Rle_abs (- CVAnimations.Particle.vy p)) as Ay'.
  rewrite Rabs_Ropp in Ay'.
  split; [rewrite Ex; lra |]. split; [rewrite Ey; lra |].
  split; [| split].
  - rewrite reflectedX_outside, outside_true, Ex. lra.
  - rewrite reflectedY_outside, outside_true, Ey. lra.
  - intros Hfar Hslow.
    assert (Ep : p' = CVAnimations.bounce c (CVAnimations.integrate p)).
    { subst p'. unfold CVAnimations.updateParticle in *.
      rewrite x_limitSpeed, y_limitSpeed, x_attract, y_attract in Hfar.
      rewrite (attract_far m _ Hfar).
      apply limitSpeed_slow. rewrite speedOf_bounce. exact Hslow. }
    rewrite x_updateParticle, y_updateParticle, Ep.
    rewrite reflectedX_outside, reflectedY_outside.
    unfold CVAnimations.bounce, CVAnimations.integrate.
    cbn [CVAnimations.Particle.x CVAnimations.Particle.y
         CVAnimations.Particle.vx CVAnimations.Particle.vy].
    split; intros [-> _]; split; lra.
Qed.

Lemma tick_overshoot_one_step_witness :
  CVAnimations.inBounds Demo.canvas Demo.edgeParticle /\
  CVAnimations.reflectedX Demo.canvas Demo.edgeParticle /\
  CVAnimations.Particle.x
    (CVAnimations.updateParticle Demo.canvas Demo.pointer
       (CVAnimations.updateParticle Demo.canvas Demo.pointer Demo.edgeParticle))
  = CVAnimations.Particle.x Demo.edgeParticle.
Proof.
  assert (Hin : CVAnimations.inBounds Demo.canvas Demo.edgeParticle)
    by (unfold CVAnimations.inBounds; simpl; lra).
  assert (Hre : CVAnimations.reflectedX Demo.canvas Demo.edgeParticle)
    by (apply reflectedX_outside; split; [apply outside_true |]; simpl; lra).
  split; [exact Hin |]. split; [exact Hre |].
  refine (proj2 (proj1 (proj2 (proj2 (proj2 (proj2
    (tick_overshoot_one_step Demo.canvas Demo.pointer Demo.pointer
       Demo.edgeParticle Hin)))) _ _) Hre)).
  - rewrite x_updateParticle, y_updateParticle. simpl.
    rewrite (sqrt_of_square 901); lra.
  - unfold CVAnimations.speedOf, CVAnimations.maxSpeed. simpl.
    rewrite (sqrt_of_square 1); lra.
Defined.

(** * Start-up of the animation engine under reduced motion *)

Section StartUpFacts.

Import CVAnimations.

Variable env : Env.
Hypothesis reduced : prefersReducedMotion env = true.

Lemma constructor_reduced w :
  constructor env w =
    (Throw missingMethod,
     consoleLog "🔇 Reduced motion detected - skipping advanced animations"
       (set_this (mkInstance true [] (Mouse.mk 0 0) None) w)).
Proof.
  unfold constructor, init. cbn [this set_this isReducedMotion].
  rewrite reduced. reflexivity.
Qed.

Lemma startUp_reduced w :
  startUp env w =
    (Throw missingMethod,
     consoleLog "🔇 Reduced motion detected - skipping advanced animations"
       (set_this (mkInstance true [] (Mouse.mk 0 0) None) w)).
Proof. unfold startUp, andThen. rewrite constructor_reduced. reflexivity. Qed.

Lemma Quiet_loaded els width height : Quiet els (loaded els width height).
Proof. split; try reflexivity. constructor. Qed.

Lemma Quiet_step els ev w : Quiet els w -> Quiet els (step env ev w).
Proof.
  intros [Hp Ht Hf Hl Ho He Hb Hd Hw].
  destruct ev; cbn [step].
  - split; try assumption. cbn. apply Forall_app. split; [exact Ht |].
    repeat constructor.
  - destruct (nextTimer (timers w)) as [[k [due cb]] |] eqn:E;
      [| split; assumption].
    pose proof (nextTimer_Some _ _ _ E) as Hk.
    assert (cb = startAnimations) as ->.
    { apply (proj1 (Forall_forall _ _) Ht (due, cb)).
      apply list_elem_of_lookup. eauto. }
    cbn [runTimer]. rewrite startUp_reduced. cbn.
    split; cbn; try assumption; try reflexivity.
    apply Forall_delete; exact Ht.
  - rewrite Hf. cbn. split; cbn; solve [assumption | reflexivity].
  - unfold dispatch. cbn. rewrite Hl. cbn.
    split; cbn; solve [assumption | reflexivity].
  - unfold dispatch. cbn. rewrite Hl. cbn.
    split; cbn; solve [assumption | reflexivity].
  - unfold dispatch. cbn. rewrite Hl. cbn.
    split; cbn; solve [assumption | reflexivity].
  - unfold dispatch. cbn. rewrite Hl. cbn.
    split; cbn; solve [assumption | reflexivity].
  - rewrite Ho. cbn. split; cbn; solve [assumption | reflexivity].
  - rewrite Hw. split; cbn; solve [assumption | reflexivity].
Qed.

Lemma Quiet_run els evs w : Quiet els w -> Quiet els (run env evs w).
Proof.
  revert w. induction evs as [| ev evs IH]; intros w Hq; [exact Hq |].
  cbn. apply IH, Quiet_step, Hq.
Qed.

End StartUpFacts.

(** C9. With the reduced-motion preference active, constructing
    [CVAnimations] does not complete: [init] calls
    [this.setupEssentialAnimations()], which no method of the class
    defines, so the constructor throws a [TypeError]; the start-up timer
    callback ends there, and [window.CVAnimations] is never assigned,
    whatever events follow on the page. *)
Theorem reduced_motion_construction_throws (env : CVAnimations.Env) :
  CVAnimations.prefersReducedMotion env = true ->
  ("setupEssentialAnimations" ∉ CVAnimations.classMethods) /\
  (forall w,
     (CVAnimations.constructor env w).1
     = Throw (TypeError "this.setupEssentialAnimations is not a function") /\
     (CVAnimations.startUp env w).1
     = Throw (TypeError "this.setupEssentialAnimations is not a function") /\
     CVAnimations.windowCVAnimations (CVAnimations.startUp env w).2
     = CVAnimations.windowCVAnimations w) /\
  (forall els width height evs,
     CVAnimations.windowCVAnimations
       (CVAnimations.run env evs (CVAnimations.loaded els width height))
     = false).
Proof.
  intros Hred. split; [| split].
  - unfold CVAnimations.classMethods. intros Hin.
    repeat (apply elem_of_cons in Hin as [Hin | Hin]; [discriminate |]).
    inversion Hin.
  - intros w. rewrite (constructor_reduced env Hred), (startUp_reduced env Hred).
    repeat split.
  - intros els width height evs.
    apply (CVAnimations.quiet_window els), (Quiet_run env Hred), Quiet_loaded.
Qed.

Lemma reduced_motion_construction_throws_witness :
  CVAnimations.prefersReducedMotion Demo.reducedEnv = true /\
  (CVAnimations.constructor Demo.reducedEnv Demo.heading).1
  = Throw (TypeError "this.setupEssentialAnimations is not a function") /\
  CVAnimations.windowCVAnimations
    (CVAnimations.run Demo.reducedEnv
       [CVAnimations.DOMContentLoaded; CVAnimations.TimerFires;
        CVAnimations.BeforeUnload]
       (CVAnimations.loaded [] 1200 800))
  = false.
Proof.
  split; [reflexivity |].
  pose proof (reduced_motion_construction_throws Demo.reducedEnv eq_refl)
    as (_ & Hthrow & Hnever).
  split; [apply Hthrow | apply Hnever].
Defined.

(** C6. With the reduced-motion preference set when [CVAnimations] is
    initialised, no particle is ever created (the particles array stays
    empty) and no decorative timer is ever scheduled: after any events the
    only timers that can be pending are start-up timers, no frame callback,
    listener or observer is registered, nothing is drawn and the document
    is as it was loaded. The typewriter effects themselves schedule
    nothing under reduced motion. *)
Theorem reduced_motion_skips_engine (env : CVAnimations.Env) :
  CVAnimations.prefersReducedMotion env = true ->
  (forall els width height evs,
     let w := CVAnimations.run env evs (CVAnimations.loaded els width height) in
     CVAnimations.particles (CVAnimations.this w) = [] /\
     Forall (fun t => t.2 = CVAnimations.startAnimations) (CVAnimations.timers w) /\
     CVAnimations.frames w = [] /\
     CVAnimations.listeners w = [] /\
     CVAnimations.observed w = [] /\
     CVAnimations.elements w = els /\
     CVAnimations.body w = [] /\
     CVAnimations.drawn w = []) /\
  (forall w element text speed,
     CVAnimations.isReducedMotion (CVAnimations.this w) = true ->
     CVAnimations.timers (CVAnimations.typeWriter element text speed w)
     = CVAnimations.timers w /\
     CVAnimations.typeText element w = w).
Proof.
  intros Hred. split.
  - intros els width height evs w.
    destruct (Quiet_run env Hred els evs _ (Quiet_loaded els width height)).
    subst w. repeat split; assumption.
  - intros w element text speed Hr.
    unfold CVAnimations.typeWriter, CVAnimations.typeText. rewrite Hr.
    split; reflexivity.
Qed.

Lemma reduced_motion_skips_engine_witness :
  CVAnimations.prefersReducedMotion Demo.reducedEnv = true /\
  (let w :=
     CVAnimations.run Demo.reducedEnv
       [CVAnimations.DOMContentLoaded; CVAnimations.TimerFires;
        CVAnimations.AnimationFrame; CVAnimations.Intersect 0 true]
       (CVAnimations.loaded [CVAnimations.mkElement "Hi" [] ∅ []] 1200 800) in
   CVAnimations.particles (CVAnimations.this w) = [] /\
   CVAnimations.timers w = []).
Proof.
  split; [reflexivity |].
  pose proof (proj1 (reduced_motion_skips_engine Demo.reducedEnv eq_refl)
                [CVAnimations.mkElement "Hi" [] ∅ []] 1200 800
                [CVAnimations.DOMContentLoaded; CVAnimations.TimerFires;
                 CVAnimations.AnimationFrame; CVAnimations.Intersect 0 true])
    as (Hp & _).
  split; [exact Hp | reflexivity].
Defined.

(** * The typewriter effects *)

Section TypingFacts.

Import CVAnimations.




Lemma lookup_updElement el f w e :
  elements w !! el = Some e ->
  elements (updElement el f w) !! el = Some (f e).
Proof.
  intros He. unfold updElement. cbn.
  rewrite list_lookup_alter, decide_True by reflexivity. rewrite He. reflexivity.
Qed.

Lemma runTimers_idle env fuel w : timers w = [] -> runTimers env fuel w = w.
Proof.
  intros Ht. destruct fuel; [reflexivity |]. cbn [runTimers]. rewrite Ht.
  reflexivity.
Qed.

Variable env : Env.



(** ** What a callback does to the text and the writers of an element *)











(** ** Writers and the timer taken *)



(** ** One timer firing *)



(** ** The timers run out *)








End TypingFacts.








(** * The particle system: creation, attraction and the tick *)

Section ParticleExtras.

Import CVAnimations.
Local Open Scope R_scope.

Lemma sum_squares_nonneg (a b : R) : 0 <= a * a + b * b.
Proof. nra. Qed.

Lemma attract_delta m p :
  let d := sqrt ((Mouse.x m - Particle.x p) * (Mouse.x m - Particle.x p) +
                 (Mouse.y m - Particle.y p) * (Mouse.y m - Particle.y p)) in
  (Particle.vx (attract m p) - Particle.vx p) *
  (Particle.vx (attract m p) - Particle.vx p) +
  (Particle.vy (attract m p) - Particle.vy p) *
  (Particle.vy (attract m p) - Particle.vy p)
  = (if Rlt_dec d 100 then (d * ((100 - d) / 100) * 0.0001) * (d * ((100 - d) / 100) * 0.0001) else 0).
Proof.
  intros d. unfold attract. cbv zeta. fold d.
  assert (Hq : d * d = (Mouse.x m - Particle.x p) * (Mouse.x m - Particle.x p) +
                 (Mouse.y m - Particle.y p) * (Mouse.y m - Particle.y p)).
  { unfold d. apply sqrt_sqrt, sum_squares_nonneg. }
  destruct (Rlt_dec d 100) as [Hlt | Hge]; cbn [Particle.vx Particle.vy].
  - set (dx := Mouse.x m - Particle.x p) in *.
    set (dy := Mouse.y m - Particle.y p) in *.
    transitivity ((dx * dx + dy * dy) * (((100 - d) / 100) * 0.0001) * (((100 - d) / 100) * 0.0001)).
    + ring.
    + rewrite <- Hq. ring.
  - ring.
Qed.

Lemma far_right c m p :
  Mouse.x m <= Canvas.width c -> Canvas.width c + 100 <= Particle.x p ->
  100 <= sqrt ((Mouse.x m - Particle.x p) * (Mouse.x m - Particle.x p) +
               (Mouse.y m - Particle.y p) * (Mouse.y m - Particle.y p)).
Proof.
  intros Hm Hp. rewrite <- (sqrt_square 100) at 1 by lra.
  apply sqrt_le_1; [lra | apply sum_squares_nonneg |].
  pose proof (sum_squares_nonneg (Mouse.y m - Particle.y p) 0). nra.
Qed.

Lemma stranded_tick c m p :
  Mouse.x m <= Canvas.width c -> stranded c p ->
  Particle.x (updateParticle c m p) = Particle.x p + Particle.vx p /\
  Particle.vx (updateParticle c m p) = - Particle.vx p /\
  stranded c (updateParticle c m p).
Proof.
  intros Hm (Hx & Hx' & Hs).
  assert (E : updateParticle c m p = bounce c (integrate p)).
  { unfold updateParticle. rewrite attract_far.
    - apply limitSpeed_slow. rewrite speedOf_bounce. exact Hs.
    - apply (far_right c); [exact Hm |]. exact Hx'. }
  assert (Ho : outside (Particle.x p + Particle.vx p) (Canvas.width c) = true)
    by (apply outside_true; lra).
  rewrite E. unfold stranded. rewrite speedOf_bounce.
  unfold bounce, integrate.
  cbn [Particle.x Particle.y Particle.vx Particle.vy]. rewrite Ho.
  repeat split; try lra. exact Hs.
Qed.

Lemma forEachParticle_fst c m ps :
  (forEachParticle c m ps).1 = map (updateParticle c m) ps.
Proof.
  induction ps as [| p later IH]; [reflexivity |].
  cbn [forEachParticle]. destruct (forEachParticle c m later) as [later' ops].
  cbn in *. rewrite IH. reflexivity.
Qed.

Lemma connect_isLine p q op :
  connect p q = Some op -> isLine op = true /\ isArc op = false.
Proof.
  unfold connect. cbv zeta. destruct (Rlt_dec _ _); [| discriminate].
  intros [= <-]. split; reflexivity.
Qed.

Lemma connectLater_calls p later :
  length (filter (fun op => isArc op) (connectLater p later)) = 0%nat /\
  (length (filter (fun op => isLine op) (connectLater p later)) <= length later)%nat.
Proof.
  unfold connectLater. induction later as [| q later [IHa IHl]]; [split; reflexivity |].
  cbn [omap list_omap]. destruct (connect p q) as [op |] eqn:E.
  - destruct (connect_isLine _ _ _ E) as [Hl Ha].
    rewrite filter_cons_False by (rewrite Ha; intros []).
    rewrite filter_cons_True by (rewrite Hl; exact I).
    cbn [length]. split; [exact IHa | lia].
  - split; [exact IHa | cbn [length]; lia].
Qed.

Lemma forEachParticle_calls c m ps :
  length (filter (fun op => isArc op) (forEachParticle c m ps).2) = length ps /\
  (2 * length (filter (fun op => isLine op) (forEachParticle c m ps).2)
   <= length ps * (length ps - 1))%nat.
Proof.
  induction ps as [| p later [IHa IHl]]; [split; reflexivity |].
  cbn [forEachParticle]. destruct (forEachParticle c m later) as [later' ops].
  cbn [snd] in *.
  destruct (connectLater_calls (updateParticle c m p) later) as [Ha Hl].
  rewrite <- !app_comm_cons.
  rewrite filter_cons_True by exact I.
  rewrite filter_cons_False by (intros []).
  rewrite !filter_app. cbn [length]. rewrite !length_app, Ha, IHa.
  split; [lia |]. nia.
Qed.


Lemma pushParticles_spec env c n w :
  particles (this (pushParticles env c n w)) =
    particles (this w) ++
    map (fun i => newParticle env c (randomCalls w + 7 * i)) (seq 0 n) /\
  innerWidth (pushParticles env c n w) = innerWidth w.
Proof.
  revert w. induction n as [| n IH]; intros w.
  - cbn. rewrite app_nil_r. split; reflexivity.
  - cbn [pushParticles]. destruct (IH (set_randomCalls (randomCalls w + 7)
      (set_this (set_particles
         (particles (this w) ++ [newParticle env c (randomCalls w)]) (this w)) w)))
      as [IHp IHw].
    rewrite IHp, IHw. cbn [particles this set_this set_particles set_randomCalls
      randomCalls innerWidth].
    split; [| reflexivity].
    rewrite <- app_assoc. f_equal. cbn [seq map app].
    rewrite Nat.mul_0_r, Nat.add_0_r. f_equal.
    rewrite <- seq_shift, map_map. apply map_ext. intros i. f_equal. lia.
Qed.

Lemma newParticle_bounded env c k :
  0 <= Canvas.width c -> 0 <= Canvas.height c ->
  (forall j, 0 <= random env j < 1) ->
  let p := newParticle env c k in
  inBounds c p /\
  -0.25 <= Particle.vx p < 0.25 /\ -0.25 <= Particle.vy p < 0.25 /\
  1 <= Particle.size p < 3 /\ speedOf p <= 0.5.
Proof.
  intros Hw Hh Hr p. subst p. unfold newParticle, inBounds, speedOf.
  cbn [Particle.x Particle.y Particle.vx Particle.vy Particle.size].
  pose proof (Hr k) as H0. pose proof (Hr (k + 1)%nat) as H1.
  pose proof (Hr (k + 2)%nat) as H2. pose proof (Hr (k + 3)%nat) as H3.
  pose proof (Hr (k + 4)%nat) as H4.
  set (r0 := random env k) in *. set (r1 := random env (k + 1)) in *.
  set (r2 := random env (k + 2)) in *. set (r3 := random env (k + 3)) in *.
  set (r4 := random env (k + 4)) in *.
  assert (Q2 : (r2 - 0.5) * (r2 - 0.5) <= 0.25) by nra.
  assert (Q3 : (r3 - 0.5) * (r3 - 0.5) <= 0.25) by nra.
  repeat split; try nra.
  apply Rle_trans with (sqrt (0.5 * 0.5)); [| rewrite sqrt_square; lra].
  apply sqrt_le_1; [apply sum_squares_nonneg | lra | nra].
Qed.

End ParticleExtras.

Section CreationFacts.

Import PrimFloat.

(** X1. With a canvas of non-negative width and height,
    [createParticles] appends [min 50 (floor (innerWidth / 20))]
    particles to the array (it does not replace the ones there). In exact
    arithmetic, with [Math.random] in [[0, 1)], each new particle lies
    within the canvas, has velocity components in [[-0.25, 0.25)], a
    radius in [[1, 3)] and a speed of at most 0.5, below the speed limit.
    In the doubles the script computes with, the radius can reach 3: for
    the largest double below 1 the sum [Math.random() * 2 + 1] rounds
    to 3. *)
Theorem createParticles_appends_within_canvas
    (env : CVAnimations.Env) (w : CVAnimations.World)
    (c : CVAnimations.Canvas.t) :
  CVAnimations.canvas (CVAnimations.this w) = Some c ->
  (0 <= CVAnimations.Canvas.width c)%R ->
  (0 <= CVAnimations.Canvas.height c)%R ->
  (forall k, 0 <= CVAnimations.random env k < 1)%R ->
  (CVAnimations.createParticles env w).1 = Normal tt /\
  exists new,
    CVAnimations.particles
      (CVAnimations.this (CVAnimations.createParticles env w).2)
    = CVAnimations.particles (CVAnimations.this w) ++ new /\
    length new = Nat.min 50 (CVAnimations.innerWidth w / 20) /\
    Forall (fun p =>
      CVAnimations.inBounds c p /\
      (-0.25 <= CVAnimations.Particle.vx p < 0.25)%R /\
      (-0.25 <= CVAnimations.Particle.vy p < 0.25)%R /\
      (1 <= CVAnimations.Particle.size p < 3)%R /\
      (CVAnimations.speedOf p <= 0.5)%R) new /\
    PrimFloat.ltb CVAnimations.Doubles.lastRandom 1 = true /\
    CVAnimations.Doubles.size CVAnimations.Doubles.lastRandom = 3%float.
Proof.
  intros Hc Hw Hh Hr. unfold CVAnimations.createParticles. rewrite Hc.
  cbn [fst snd]. split; [reflexivity |].
  eexists. split; [apply pushParticles_spec |]. split; [| split; [| split]].
  - rewrite length_map, length_seq. reflexivity.
  - apply Forall_map, Forall_forall. intros i _.
    apply newParticle_bounded; assumption.
  - vm_compute. reflexivity.
  - vm_compute. reflexivity.
Qed.

End CreationFacts.

Lemma createParticles_appends_within_canvas_witness :
  (forall k, 0 <= CVAnimations.random Demo.motionEnv k < 1)%R /\
  (CVAnimations.createParticles Demo.motionEnv Demo.drawing).1 = Normal tt /\
  exists new,
    CVAnimations.particles
      (CVAnimations.this
         (CVAnimations.createParticles Demo.motionEnv Demo.drawing).2)
    = [Demo.still 100 100; Demo.still 140 100] ++ new /\
    length new = 50.
Proof.
  assert (Hr : (forall k, 0 <= CVAnimations.random Demo.motionEnv k < 1)%R)
    by (intros k; simpl; lra).
  split; [exact Hr |].
  destruct (createParticles_appends_within_canvas Demo.motionEnv Demo.drawing
              Demo.canvas eq_refl ltac:(simpl; lra) ltac:(simpl; lra) Hr)
    as (Hn & new & Hp & Hl & _).
  split; [exact Hn |]. exists new. split; [exact Hp | exact Hl].
Defined.

(** X2. In exact arithmetic, the pointer attraction of one tick never
    moves a particle. With the pointer at distance [d] below 100 it adds
    to the velocity the vector towards the pointer scaled by
    [(100 - d) / 100 * 0.0001], a change of length at most 0.0025 (the
    pull [d * (100 - d) / 100 * 0.0001] is largest at distance 50); at
    distance 100 or more it changes nothing. *)
Theorem attraction_is_bounded
    (m : CVAnimations.Mouse.t) (p : CVAnimations.Particle.t) :
  let p' := CVAnimations.attract m p in
  let dx := (CVAnimations.Mouse.x m - CVAnimations.Particle.x p)%R in
  let dy := (CVAnimations.Mouse.y m - CVAnimations.Particle.y p)%R in
  let d := sqrt (dx * dx + dy * dy) in
  CVAnimations.Particle.x p' = CVAnimations.Particle.x p /\
  CVAnimations.Particle.y p' = CVAnimations.Particle.y p /\
  (sqrt ((CVAnimations.Particle.vx p' - CVAnimations.Particle.vx p) *
         (CVAnimations.Particle.vx p' - CVAnimations.Particle.vx p) +
         (CVAnimations.Particle.vy p' - CVAnimations.Particle.vy p) *
         (CVAnimations.Particle.vy p' - CVAnimations.Particle.vy p))
   <= 0.0025)%R /\
  ((d < 100)%R ->
     CVAnimations.Particle.vx p'
     = (CVAnimations.Particle.vx p + dx * ((100 - d) / 100) * 0.0001)%R /\
     CVAnimations.Particle.vy p'
     = (CVAnimations.Particle.vy p + dy * ((100 - d) / 100) * 0.0001)%R) /\
  ((100 <= d)%R -> p' = p).
Proof.
  intros p' dx dy d0.
  assert (Hnear : (d0 < 100)%R ->
     CVAnimations.Particle.vx p'
     = (CVAnimations.Particle.vx p + dx * ((100 - d0) / 100) * 0.0001)%R /\
     CVAnimations.Particle.vy p'
     = (CVAnimations.Particle.vy p + dy * ((100 - d0) / 100) * 0.0001)%R).
  { intros Hlt. subst p'. unfold CVAnimations.attract. cbv zeta.
    fold dx dy. fold d0. destruct (Rlt_dec d0 100); [| lra].
    split; reflexivity. }
  assert (Hfar : (100 <= d0)%R -> p' = p).
  { intros Hge. apply attract_far. exact Hge. }
  split; [apply x_attract |]. split; [apply y_attract |].
  split; [| split; assumption]. clear Hnear Hfar.
  subst p' dx dy d0. rewrite attract_delta. cbv zeta.
  set (d := sqrt ((CVAnimations.Mouse.x m - CVAnimations.Particle.x p) *
                  (CVAnimations.Mouse.x m - CVAnimations.Particle.x p) + _)).
  assert (Hd : (0 <= d)%R) by apply sqrt_pos.
  destruct (Rlt_dec d 100) as [Hlt | Hge].
  - assert (H0 : (0 <= d * (100 - d))%R) by nra.
    assert (H1 : (d * (100 - d) <= 2500)%R)
      by (pose proof (sum_squares_nonneg (d - 50) 0); nra).
    replace (d * ((100 - d) / 100) * 0.0001)%R
      with (d * (100 - d) * 0.000001)%R by lra.
    rewrite sqrt_square by lra. lra.
  - rewrite sqrt_0. lra.
Qed.

(** X3. In exact arithmetic, a particle that is beyond the right border
    of the canvas by at least the attraction radius, before and after its
    step, and no faster than the speed limit, never comes back while the
    pointer stays within the canvas width: every tick inverts its
    horizontal velocity again, so its [x] alternates between the same two
    values outside the canvas. (A resize that narrows the canvas leaves
    such particles behind.) *)
Theorem stranded_particle_stays_outside
    (c : CVAnimations.Canvas.t) (ms : list CVAnimations.Mouse.t)
    (p : CVAnimations.Particle.t) :
  Forall (fun m => (CVAnimations.Mouse.x m <= CVAnimations.Canvas.width c)%R) ms ->
  CVAnimations.stranded c p ->
  let p' := CVAnimations.ticks c ms p in
  CVAnimations.Particle.x p' =
    (if Nat.even (length ms) then CVAnimations.Particle.x p
     else (CVAnimations.Particle.x p + CVAnimations.Particle.vx p)%R) /\
  ~ CVAnimations.inBounds c p'.
Proof.
  intros Hms. revert p. induction Hms as [| m ms Hm Hms IH]; intros p Hp.
  - cbn. split; [reflexivity |]. destruct Hp as (Hx & _).
    unfold CVAnimations.inBounds. lra.
  - destruct (stranded_tick c m p Hm Hp) as (Ex & Ev & Hp').
    specialize (IH _ Hp'). cbv zeta in IH. destruct IH as [IHx IHout].
    unfold CVAnimations.ticks in *. cbn [foldl length]. split; [| exact IHout].
    rewrite IHx, Ex, Ev, Nat.even_succ, <- Nat.negb_even.
    destruct (Nat.even (length ms)); cbn; lra.
Qed.

Lemma stranded_particle_stays_outside_witness :
  CVAnimations.stranded Demo.canvas Demo.lostParticle /\
  CVAnimations.Particle.x
    (CVAnimations.ticks Demo.canvas [Demo.pointer; Demo.pointer]
       Demo.lostParticle) = 1200%R /\
  ~ CVAnimations.inBounds Demo.canvas
      (CVAnimations.ticks Demo.canvas [Demo.pointer; Demo.pointer]
         Demo.lostParticle).
Proof.
  assert (Hs : CVAnimations.stranded Demo.canvas Demo.lostParticle).
  { unfold CVAnimations.stranded, CVAnimations.speedOf, CVAnimations.maxSpeed.
    simpl. rewrite (sqrt_of_square 1); lra. }
  assert (Hm : Forall (fun m => (CVAnimations.Mouse.x m
                                 <= CVAnimations.Canvas.width Demo.canvas)%R)
                 [Demo.pointer; Demo.pointer])
    by (repeat constructor; simpl; lra).
  split; [exact Hs |].
  exact (stranded_particle_stays_outside Demo.canvas
           [Demo.pointer; Demo.pointer] Demo.lostParticle Hm Hs).
Defined.

(** X4. One tick of a running engine ([animateParticles] with motion
    allowed and a canvas) updates every particle exactly once, keeping
    their number and order, clears the canvas first, draws one arc per
    particle and at most [n * (n - 1) / 2] connecting lines for [n]
    particles, and requests exactly one further frame. *)
Theorem tick_updates_and_draws
    (w : CVAnimations.World) (c : CVAnimations.Canvas.t) :
  CVAnimations.isReducedMotion (CVAnimations.this w) = false ->
  CVAnimations.canvas (CVAnimations.this w) = Some c ->
  let w' := (CVAnimations.animateParticles w).2 in
  let n := length (CVAnimations.particles (CVAnimations.this w)) in
  (CVAnimations.animateParticles w).1 = Normal tt /\
  CVAnimations.particles (CVAnimations.this w')
  = map (CVAnimations.updateParticle c (CVAnimations.mouse (CVAnimations.this w)))
      (CVAnimations.particles (CVAnimations.this w)) /\
  CVAnimations.frames w' = CVAnimations.frames w ++ [CVAnimations.particleFrame] /\
  exists ops,
    CVAnimations.drawn w'
    = CVAnimations.drawn w ++
      CVAnimations.clearRect 0 0 (CVAnimations.Canvas.width c)
        (CVAnimations.Canvas.height c) :: ops /\
    length (filter (fun op => CVAnimations.isArc op) ops) = n /\
    2 * length (filter (fun op => CVAnimations.isLine op) ops) <= n * (n - 1).
Proof.
  intros Hm Hc w' n. subst w' n. unfold CVAnimations.animateParticles.
  rewrite Hm, Hc.
  pose proof (forEachParticle_fst c (CVAnimations.mouse (CVAnimations.this w))
                (CVAnimations.particles (CVAnimations.this w))) as Hps.
  pose proof (forEachParticle_calls c (CVAnimations.mouse (CVAnimations.this w))
                (CVAnimations.particles (CVAnimations.this w))) as [Ha Hl].
  destruct (CVAnimations.forEachParticle _ _ _) as [ps ops].
  cbn in Hps, Ha, Hl |- *.
  split; [reflexivity |]. split; [exact Hps |]. split; [reflexivity |].
  exists ops. split; [reflexivity |]. split; [exact Ha | exact Hl].
Qed.

Lemma tick_updates_and_draws_witness :
  CVAnimations.isReducedMotion (CVAnimations.this Demo.drawing) = false /\
  CVAnimations.canvas (CVAnimations.this Demo.drawing) = Some Demo.canvas /\
  length (CVAnimations.particles
            (CVAnimations.this (CVAnimations.animateParticles Demo.drawing).2))
  = 2 /\
  CVAnimations.frames (CVAnimations.animateParticles Demo.drawing).2
  = [CVAnimations.particleFrame].
Proof.
  split; [reflexivity |]. split; [reflexivity |].
  destruct (tick_updates_and_draws Demo.drawing Demo.canvas eq_refl eq_refl)
    as (_ & Hp & Hf & _).
  split; [rewrite Hp; reflexivity | exact Hf].
Defined.

(** * The running engine: loop, teardown and contact items *)

Section EngineFacts.

Import CVAnimations.

Lemma Steady_refl w : Steady w w.
Proof. split; auto. Qed.

Lemma Steady_trans w1 w2 w3 : Steady w1 w2 -> Steady w2 w3 -> Steady w1 w3.
Proof. intros [] []. split; try congruence; auto. Qed.

Lemma Steady_updElement h f w : Steady w (updElement h f w).
Proof. split; try reflexivity; auto. Qed.

Lemma Steady_setTimeout cb d w :
  cb <> startAnimations -> Steady w (setTimeout cb d w).
Proof.
  intros Hcb. split; try reflexivity; auto.
  intros Ht. cbn. apply Forall_app. split; [exact Ht |]. repeat constructor.
  exact Hcb.
Qed.

Lemma Steady_addEventListener l w : Steady w (addEventListener l w).
Proof. split; try reflexivity; auto. Qed.

Lemma Steady_set_observed v w : Steady w (set_observed v w).
Proof. split; try reflexivity; auto. Qed.

Lemma Steady_forEach {A} (f : nat -> A -> World -> World) l w :
  (forall i a w', Steady w' (f i a w')) -> Steady w (forEach f l w).
Proof.
  intros Hf. apply (forEach_invariant (Steady w)); [| apply Steady_refl].
  intros i a w' Hw'. eapply Steady_trans; [exact Hw' | apply Hf].
Qed.

(** The last write of a handler first, then the ones before it. *)
Ltac steady :=
  repeat first
    [ apply Steady_refl
    | apply Steady_setTimeout; discriminate
    | apply Steady_updElement
    | apply Steady_addEventListener
    | eapply Steady_trans;
      [| first [ apply Steady_setTimeout; discriminate
               | apply Steady_updElement
               | apply Steady_addEventListener ] ] ].

Lemma Steady_typingWriterStep el text i speed w :
  Steady w (typingWriterStep el text i speed w).
Proof. unfold typingWriterStep. destruct (i <? String.length text); steady. Qed.

Lemma Steady_typingTextStep el text i w : Steady w (typingTextStep el text i w).
Proof. unfold typingTextStep. destruct (i <? String.length text); steady. Qed.

Lemma Steady_typeText el w : Steady w (typeText el w).
Proof.
  unfold typeText. destruct (isReducedMotion (this w)); [apply Steady_refl |].
  cbv zeta. eapply Steady_trans; [| apply Steady_typingTextStep]. steady.
Qed.

Lemma Steady_typeWriter el text speed w : Steady w (typeWriter el text speed w).
Proof. unfold typeWriter. destruct (isReducedMotion (this w)); steady. Qed.

Lemma Steady_resizeCanvas w : Steady w (resizeCanvas w).2.
Proof.
  unfold resizeCanvas. destruct (canvas (this w)) eqn:E; cbn [snd];
    [| apply Steady_refl].
  split; try reflexivity; auto.
Qed.

Lemma Steady_handle l ev w : Steady w (handle l ev w).
Proof.
  destruct l, ev; cbn [handle]; try apply Steady_refl.
  - split; try reflexivity; auto.
  - apply Steady_resizeCanvas.
  - destruct (negb _); [apply Steady_refl |].
    destruct (isReducedMotion _); steady.
  - destruct (negb _); [apply Steady_refl |].
    destruct (isReducedMotion _); steady.
Qed.

Lemma Steady_dispatch ev w : Steady w (dispatch ev w).
Proof.
  unfold dispatch. apply (foldl_invariant (Steady w)); [| apply Steady_refl].
  intros w' l Hw'. eapply Steady_trans; [exact Hw' | apply Steady_handle].
Qed.

Lemma Steady_runTimer env cb w :
  cb <> startAnimations -> Steady w (runTimer env cb w).2.
Proof.
  intros Hcb. destruct cb; cbn [runTimer pure snd]; try congruence.
  - apply Steady_typingWriterStep.
  - apply Steady_typingTextStep.
  - steady.
  - steady.
  - apply Steady_refl.
  - steady.
  - steady.
Qed.

Lemma Steady_setupTextAnimations env w : Steady w (setupTextAnimations env w).
Proof.
  unfold setupTextAnimations. cbv zeta.
  eapply Steady_trans; [| apply Steady_forEach; intros; steady].
  destruct (nameElement env); [apply Steady_typeWriter | apply Steady_refl].
Qed.

Lemma Steady_setupHoverEffects env w : Steady w (setupHoverEffects env w).
Proof.
  unfold setupHoverEffects. cbv zeta.
  eapply Steady_trans; [| apply Steady_forEach; intros; steady].
  apply Steady_forEach; intros; steady.
Qed.

Lemma Steady_setupTypingEffect env w : Steady w (setupTypingEffect env w).
Proof.
  unfold setupTypingEffect. apply Steady_forEach. intros i a w'.
  destruct (_ <? _); [apply Steady_set_observed | apply Steady_refl].
Qed.

(** ** The contact items *)

Lemma Showing_refl w : Showing w w.
Proof. split; auto. Qed.

Lemma Showing_trans w1 w2 w3 : Showing w1 w2 -> Showing w2 w3 -> Showing w1 w3.
Proof. intros [] []. split; try congruence; auto. Qed.

Lemma keepsShown_setStyle k v : k <> "opacity" -> keepsShown (setStyle k v).
Proof. intros Hk e H. cbn. rewrite lookup_insert_ne by congruence. exact H. Qed.

Lemma keepsShown_show : keepsShown (setStyle "opacity" "1").
Proof. intros e _. cbn. apply lookup_insert_eq. Qed.

Lemma keepsShown_style f : (forall e, style (f e) = style e) -> keepsShown f.
Proof. intros Hf e H. rewrite Hf. exact H. Qed.

Lemma revealed_updElement h f item w :
  keepsShown f -> revealed item w -> revealed item (updElement h f w).
Proof.
  intros Hf (e & He & Ho). unfold revealed, updElement. cbn.
  destruct (decide (item = h)) as [-> | Hne].
  - exists (f e). rewrite list_lookup_alter, decide_True, He by reflexivity.
    split; [reflexivity | apply Hf, Ho].
  - exists e. rewrite list_lookup_alter_ne by congruence. split; assumption.
Qed.

Lemma Showing_updElement h f w : keepsShown f -> Showing w (updElement h f w).
Proof.
  intros Hf. split; auto.
  - cbn. apply length_alter.
  - intros item. apply revealed_updElement, Hf.
Qed.

Lemma Showing_setTimeout cb d w : Showing w (setTimeout cb d w).
Proof.
  split; auto.
  intros item [due Hin]. exists due. cbn. apply elem_of_app. left. exact Hin.
Qed.

Lemma Showing_same w w' :
  elements w' = elements w -> timers w' = timers w -> Showing w w'.
Proof.
  intros He Ht. split; unfold revealed, revealPending; rewrite ?He, ?Ht; auto.
Qed.

Lemma Showing_forEach {A} (f : nat -> A -> World -> World) l w :
  (forall i a w', Showing w' (f i a w')) -> Showing w (forEach f l w).
Proof.
  intros Hf. apply (forEach_invariant (Showing w)); [| apply Showing_refl].
  intros i a w' Hw'. eapply Showing_trans; [exact Hw' | apply Hf].
Qed.

Lemma Showing_addEventListener l w : Showing w (addEventListener l w).
Proof. apply Showing_same; reflexivity. Qed.

Lemma Showing_set_observed v w : Showing w (set_observed v w).
Proof. apply Showing_same; reflexivity. Qed.

Lemma Showing_set_body v w : Showing w (set_body v w).
Proof. apply Showing_same; reflexivity. Qed.

Lemma Showing_set_bodyCursor v w : Showing w (set_bodyCursor v w).
Proof. apply Showing_same; reflexivity. Qed.

Lemma Showing_set_this v w : Showing w (set_this v w).
Proof. apply Showing_same; reflexivity. Qed.

Lemma Showing_set_drawn v w : Showing w (set_drawn v w).
Proof. apply Showing_same; reflexivity. Qed.

Lemma Showing_set_frames v w : Showing w (set_frames v w).
Proof. apply Showing_same; reflexivity. Qed.

Lemma Showing_set_windowCVAnimations v w : Showing w (set_windowCVAnimations v w).
Proof. apply Showing_same; reflexivity. Qed.

Lemma Showing_consoleLog msg w : Showing w (consoleLog msg w).
Proof. apply Showing_same; reflexivity. Qed.

Ltac showing_one :=
  first
    [ apply Showing_setTimeout
    | apply Showing_addEventListener
    | apply Showing_set_observed
    | apply Showing_set_body
    | apply Showing_set_bodyCursor
    | apply Showing_set_this
    | apply Showing_set_drawn
    | apply Showing_set_frames
    | apply Showing_set_windowCVAnimations
    | apply Showing_consoleLog
    | apply Showing_updElement;
      first [ apply keepsShown_show
            | apply keepsShown_setStyle; discriminate
            | apply keepsShown_style; reflexivity ] ].

Ltac showing :=
  repeat first
    [ apply Showing_refl
    | showing_one
    | eapply Showing_trans; [| showing_one ] ].

Lemma Showing_typingWriterStep el text i speed w :
  Showing w (typingWriterStep el text i speed w).
Proof. unfold typingWriterStep. destruct (i <? String.length text); showing. Qed.

Lemma Showing_typingTextStep el text i w : Showing w (typingTextStep el text i w).
Proof. unfold typingTextStep. destruct (i <? String.length text); showing. Qed.

Lemma Showing_typeText el w : Showing w (typeText el w).
Proof.
  unfold typeText. destruct (isReducedMotion (this w)); [apply Showing_refl |].
  cbv zeta. eapply Showing_trans; [| apply Showing_typingTextStep]. showing.
Qed.

Lemma Showing_typeWriter el text speed w : Showing w (typeWriter el text speed w).
Proof. unfold typeWriter. destruct (isReducedMotion (this w)); showing. Qed.

Lemma Showing_resizeCanvas w : Showing w (resizeCanvas w).2.
Proof.
  unfold resizeCanvas. destruct (canvas (this w)); cbn [snd]; showing.
Qed.

Lemma Showing_handle l ev w : Showing w (handle l ev w).
Proof.
  destruct l, ev; cbn [handle]; try apply Showing_refl.
  - showing.
  - apply Showing_resizeCanvas.
  - destruct (negb _); [apply Showing_refl |].
    destruct (isReducedMotion _); showing.
  - destruct (negb _); [apply Showing_refl |].
    destruct (isReducedMotion _); showing.
Qed.

Lemma Showing_dispatch ev w : Showing w (dispatch ev w).
Proof.
  unfold dispatch. apply (foldl_invariant (Showing w)); [| apply Showing_refl].
  intros w' l Hw'. eapply Showing_trans; [exact Hw' | apply Showing_handle].
Qed.

Lemma Showing_runTimer env cb w :
  cb <> startAnimations -> Showing w (runTimer env cb w).2.
Proof.
  intros Hcb. destruct cb; cbn [runTimer pure snd]; try congruence.
  - apply Showing_typingWriterStep.
  - apply Showing_typingTextStep.
  - showing.
  - showing.
  - apply Showing_refl.
  - showing.
  - showing.
Qed.

Lemma Showing_animateParticles w : Showing w (animateParticles w).2.
Proof.
  unfold animateParticles. destruct (isReducedMotion _); [apply Showing_refl |].
  destruct (canvas _); [| apply Showing_refl].
  destruct (forEachParticle _ _ _). cbn [snd]. showing.
Qed.

Lemma Showing_destroy w : Showing w (destroy w).
Proof.
  unfold destroy, removeCursor.
  destruct (canvas (this w)); repeat case_bool_decide; showing.
Qed.


Lemma forEach_snoc {S A} (f : nat -> A -> S -> S) (l : list A) (x : A) (s : S) :
  forEach f (l ++ [x]) s = f (length l) x (forEach f l s).
Proof.
  unfold forEach. rewrite imap_app, foldl_app. cbn. rewrite Nat.add_0_r.
  reflexivity.
Qed.

(** What an iteration establishes for its item, and the later ones keep,
    holds for every item at the end. *)
Lemma forEach_establishes {S A} (P : A -> S -> Prop)
    (f : nat -> A -> S -> S) (l : list A) (s : S) :
  (forall i a s', P a (f i a s')) ->
  (forall i a b s', P b s' -> P b (f i a s')) ->
  forall a, a ∈ l -> P a (forEach f l s).
Proof.
  intros Hest Hkeep. induction l as [| x l IH] using rev_ind; intros a Ha.
  - inversion Ha.
  - rewrite forEach_snoc. apply elem_of_app in Ha as [Ha | Ha].
    + apply Hkeep, IH, Ha.
    + apply list_elem_of_singleton in Ha as ->. apply Hest.
Qed.

(** ** The running engine *)

Lemma Running_steady w w' : Running w -> Steady w w' -> Running w'.
Proof.
  intros [] []. split; try congruence; auto.
  unfold bodyOfEngine in *. congruence.
Qed.

Lemma Running_animationFrame env w :
  Running w -> Running (step env AnimationFrame w).
Proof.
  intros [Hm [c Hc] Hf Ht Hw Hb]. cbn [step]. rewrite Hf. cbn [foldl].
  unfold animateParticles. cbn [this set_frames]. rewrite Hm, Hc.
  destruct (forEachParticle _ _ _) as [ps ops]. cbn [snd].
  split; cbn; auto.
Qed.

Lemma body_destroy w :
  is_Some (canvas (this w)) -> bodyOfEngine w ->
  body (destroy w) = [] /\ bodyCursor (destroy w) = EmptyString.
Proof.
  intros [c Hc] Hb. unfold destroy, removeCursor. rewrite Hc.
  destruct Hb as [[Hb Hcur] | [[Hb Hcur] | [Hb Hcur]]]; rewrite Hb; cbn;
    rewrite ?Hb; split; solve [reflexivity | assumption].
Qed.

Lemma Running_destroy w : Running w -> Running (destroy w).
Proof.
  intros Hr. pose proof Hr as [Hm Hc Hf Ht Hw Hb].
  destruct (body_destroy w Hc Hb) as [Hb' Hc'].
  assert (Hsame : this (destroy w) = this w /\ frames (destroy w) = frames w /\
                  timers (destroy w) = timers w /\
                  windowCVAnimations (destroy w) = windowCVAnimations w).
  { unfold destroy, removeCursor. destruct (canvas (this w)); cbn;
      repeat case_bool_decide; cbn; repeat split. }
  destruct Hsame as (E1 & E2 & E3 & E4).
  split; rewrite ?E1, ?E2, ?E3, ?E4; auto.
  left. split; assumption.
Qed.

Lemma Running_step env ev w :
  isStartUp ev = false -> Running w -> Running (step env ev w).
Proof.
  intros Hev Hr. destruct ev; try discriminate;
    [| apply Running_animationFrame, Hr | ..]; cbn [step].
  - destruct (nextTimer (timers w)) as [[k [due cb]] |] eqn:E; [| exact Hr].
    pose proof (nextTimer_Some _ _ _ E) as Hk.
    assert (Hcb : cb <> startAnimations).
    { apply (proj1 (Forall_forall _ _) (running_timers w Hr) (due, cb)).
      apply list_elem_of_lookup. eauto. }
    eapply Running_steady; [| apply (Steady_runTimer env), Hcb].
    destruct Hr as [Hm Hc Hf Ht Hw Hb]. split; cbn; auto.
    apply Forall_delete, Ht.
  - eapply Running_steady; [exact Hr | apply Steady_dispatch].
  - eapply Running_steady; [| apply Steady_dispatch].
    destruct Hr. split; auto.
  - eapply Running_steady; [exact Hr | apply Steady_dispatch].
  - eapply Running_steady; [exact Hr | apply Steady_dispatch].
  - case_bool_decide; [| exact Hr].
    destruct (_ && _); [| exact Hr].
    eapply Running_steady; [exact Hr |].
    eapply Steady_trans; [apply Steady_typeText |]. steady.
  - rewrite (running_window w Hr). apply Running_destroy, Hr.
Qed.

Lemma run_app env evs1 evs2 w :
  run env (evs1 ++ evs2) w = run env evs2 (run env evs1 w).
Proof. apply foldl_app. Qed.

Lemma Running_run env evs w :
  Forall (fun ev => isStartUp ev = false) evs ->
  Running w -> Running (run env evs w).
Proof.
  intros Hevs. revert w. induction Hevs as [| ev evs Hev _ IH]; intros w Hr;
    [exact Hr |].
  cbn. apply IH, Running_step; assumption.
Qed.

(** ** Start-up with motion allowed *)

Lemma pushParticles_closed env c n w :
  pushParticles env c n w =
    set_randomCalls (randomCalls w + 7 * n)
      (set_this
         (set_particles
            (particles (this w) ++
             map (fun i => newParticle env c (randomCalls w + 7 * i)) (seq 0 n))
            (this w)) w).
Proof.
  revert w. induction n as [| n IH]; intros w.
  - destruct w as [[] ]. cbn. rewrite app_nil_r, Nat.add_0_r. reflexivity.
  - cbn [pushParticles]. rewrite IH. destruct w as [[] ]. cbn.
    unfold set_randomCalls, set_this, set_particles. cbn.
    f_equal; [| lia]. f_equal. rewrite <- app_assoc. f_equal. cbn.
    rewrite Nat.add_0_r. f_equal.
    rewrite <- seq_shift, map_map. apply map_ext. intros i. f_equal. lia.
Qed.

Section Motion.

Variable env : Env.
Hypothesis motion : prefersReducedMotion env = false.

(** The world [setupParticleSystem] leaves. *)
Lemma setupParticleSystem_motion w :
  isReducedMotion (this w) = false ->
  exists w',
    setupParticleSystem env w = (Normal tt, w') /\
    isReducedMotion (this w') = false /\
    is_Some (canvas (this w')) /\
    frames w' = frames w ++ [particleFrame] /\
    timers w' = timers w /\
    windowCVAnimations w' = windowCVAnimations w /\
    body w' = body w ++ ["particles-canvas"] /\
    bodyCursor w' = bodyCursor w /\
    elements w' = elements w /\
    innerWidth w' = innerWidth w.
Proof.
  intros Hm. unfold setupParticleSystem, andThen, pure, resizeCanvas.
  cbn [this set_this set_body canvas set_canvas].
  unfold createParticles. cbn [this set_this canvas set_canvas].
  rewrite pushParticles_closed.
  unfold animateParticles.
  cbn [this set_this set_randomCalls set_particles isReducedMotion canvas
       set_canvas set_body].
  rewrite Hm.
  destruct (forEachParticle _ _ _) as [ps ops].
  eexists. split; [reflexivity |]. cbn.
  repeat split; eauto.
Qed.


Lemma setupCursorEffects_steady w :
  exists w1, Steady w1 (setupCursorEffects env w) /\
    this w1 = this w /\ frames w1 = frames w /\ timers w1 = timers w /\
    windowCVAnimations w1 = windowCVAnimations w /\
    ((body w1 = body w /\ bodyCursor w1 = bodyCursor w) \/
     (body w1 = body w ++ ["custom-cursor"] /\ bodyCursor w1 = "none")).
Proof.
  unfold setupCursorEffects. destruct (innerWidth w <=? 768).
  - exists w. split; [apply Steady_refl |]. repeat split. left. split; reflexivity.
  - cbv zeta.
    exists (set_bodyCursor "none" (set_body (body w ++ ["custom-cursor"]) w)).
    split; [| repeat split; right; split; reflexivity].
    assert (Sx : Steady (set_body (body w ++ ["custom-cursor"]) w)
                   (forEach (fun _ el w' =>
                       addEventListener (cursorShrink el)
                         (addEventListener (cursorGrow el) w'))
                      (interactiveElements env)
                      (addEventListener cursorFollow
                         (set_body (body w ++ ["custom-cursor"]) w)))).
    { eapply Steady_trans; [| apply Steady_forEach; intros; steady]. steady. }
    destruct Sx as [m c f t wd b cur]. split; cbn in *; auto.
Qed.

Lemma init_motion w :
  isReducedMotion (this w) = false ->
  init env w =
    (Normal tt,
     setupTypingEffect env
       (setupScrollAnimations
          (setupCursorEffects env
             (setupHoverEffects env
                (setupTextAnimations env
                   (setupParticleSystem env
                      (consoleLog "🎨 Initializing advanced animation systems..." w)).2))))).
Proof.
  intros Hm. unfold init. rewrite Hm.
  change (invoke env "setupParticleSystem") with (setupParticleSystem env).
  change (invoke env "setupTextAnimations") with (pure (setupTextAnimations env)).
  change (invoke env "setupHoverEffects") with (pure (setupHoverEffects env)).
  change (invoke env "setupCursorEffects") with (pure (setupCursorEffects env)).
  change (invoke env "setupScrollAnimations") with (pure setupScrollAnimations).
  change (invoke env "setupTypingEffect") with (pure (setupTypingEffect env)).
  destruct (setupParticleSystem_motion
              (consoleLog "🎨 Initializing advanced animation systems..." w) Hm)
    as (w1 & E & _).
  unfold andThen, pure. rewrite E. reflexivity.
Qed.

Lemma startUp_motion w :
  startUp env w =
    (Normal tt,
     consoleLog "Advanced animations initialized"
       (set_windowCVAnimations true
          (init env
             (set_this (mkInstance false [] (Mouse.mk 0 0) None) w)).2)).
Proof.
  unfold startUp, constructor. rewrite motion.
  unfold andThen, pure. rewrite init_motion by reflexivity. reflexivity.
Qed.

Lemma startUp_started w :
  frames w = [] -> body w = [] -> bodyCursor w = EmptyString ->
  Forall (fun t => t.2 <> startAnimations) (timers w) ->
  (startUp env w).1 = Normal tt /\ Running (startUp env w).2.
Proof.
  intros Hf Hb Hc Ht. rewrite startUp_motion. cbn [fst snd].
  split; [reflexivity |]. rewrite init_motion by reflexivity. cbn [snd].
  set (w0 := consoleLog _ (set_this _ w)).
  destruct (setupParticleSystem_motion w0 eq_refl)
    as (w1 & E & Hm1 & Hc1 & Hf1 & Ht1 & Hw1 & Hb1 & Hcur1 & _).
  rewrite E. cbn [snd].
  set (w2 := setupHoverEffects env (setupTextAnimations env w1)).
  assert (S2 : Steady w1 w2).
  { eapply Steady_trans;
      [apply Steady_setupTextAnimations | apply Steady_setupHoverEffects]. }
  destruct (setupCursorEffects_steady w2) as (w3 & S3 & E3 & F3 & T3 & W3 & B3).
  set (w4 := setupCursorEffects env w2) in *.
  set (w5 := setupTypingEffect env (setupScrollAnimations w4)).
  assert (S5 : Steady w4 w5).
  { eapply Steady_trans; [| apply Steady_setupTypingEffect].
    apply Steady_addEventListener. }
  assert (S35 : Steady w3 w5) by (eapply Steady_trans; eassumption).
  destruct S2 as [m2 c2 f2 t2 _ b2 cur2]. destruct S35 as [m5 c5 f5 t5 _ b5 cur5].
  split; cbn [this frames timers windowCVAnimations consoleLog set_console
              set_windowCVAnimations].
  - rewrite m5, E3, m2. exact Hm1.
  - apply c5. rewrite E3. apply c2. exact Hc1.
  - rewrite f5, F3, f2, Hf1. subst w0. cbn. rewrite Hf. reflexivity.
  - apply t5. rewrite T3. apply t2. rewrite Ht1. exact Ht.
  - reflexivity.
  - unfold bodyOfEngine. cbn [body bodyCursor consoleLog set_console
                              set_windowCVAnimations].
    rewrite b5, cur5.
    assert (Hb2 : body w2 = ["particles-canvas"]).
    { rewrite b2, Hb1. subst w0. cbn. rewrite Hb. reflexivity. }
    assert (Hcur2 : bodyCursor w2 = EmptyString).
    { rewrite cur2, Hcur1. subst w0. cbn. exact Hc. }
    destruct B3 as [[-> ->] | [-> ->]]; rewrite ?Hb2, ?Hcur2; auto.
Qed.

Lemma Waiting_start els width height :
  Waiting (step env DOMContentLoaded (loaded els width height)).
Proof. split; try reflexivity. eexists. reflexivity. Qed.

Lemma Waiting_step ev w :
  isStartUp ev = false -> Waiting w ->
  Waiting (step env ev w) \/ Running (step env ev w).
Proof.
  intros Hev [[due Ht] Hf Hl Ho Hb Hc Hw]. destruct ev; try discriminate;
    cbn [step].
  - right. rewrite Ht, nextTimer_single. cbn [runTimer].
    apply startUp_started; cbn; auto.
  - left. rewrite Hf. cbn. split; cbn; eauto.
  - left. unfold dispatch. rewrite Hl. cbn. split; cbn; eauto.
  - left. unfold dispatch. cbn. rewrite Hl. cbn. split; cbn; eauto.
  - left. unfold dispatch. rewrite Hl. cbn. split; cbn; eauto.
  - left. unfold dispatch. rewrite Hl. cbn. split; cbn; eauto.
  - left. rewrite Ho. cbn. split; cbn; eauto.
  - left. rewrite Hw. split; cbn; eauto.
Qed.

Lemma Started_run evs w :
  Forall (fun ev => isStartUp ev = false) evs ->
  Waiting w \/ Running w ->
  Waiting (run env evs w) \/ Running (run env evs w).
Proof.
  intros Hevs. revert w. induction Hevs as [| ev evs Hev _ IH]; intros w Hw;
    [exact Hw |].
  cbn. apply IH. destruct Hw as [Hw | Hr].
  - apply Waiting_step; assumption.
  - right. apply Running_step; assumption.
Qed.


(** ** The contact items from start-up on *)

Lemma setupTextAnimations_pending w item :
  item ∈ contactItems env -> revealPending item (setupTextAnimations env w).
Proof.
  unfold setupTextAnimations. cbv zeta.
  apply (forEach_establishes (fun item w' => revealPending item w')).
  - intros i a w'. exists (now w' + (500 + i * 150)). cbn.
    apply elem_of_app. right. left.
  - intros i a b w' [due Hin]. exists due. cbn. apply elem_of_app. left.
    exact Hin.
Qed.

Lemma length_setupTextAnimations w :
  length (elements (setupTextAnimations env w)) = length (elements w).
Proof.
  unfold setupTextAnimations. cbv zeta.
  apply (forEach_invariant
           (fun w' => length (elements w') = length (elements w))).
  - intros i a w' Hw'. cbn. rewrite !length_alter. exact Hw'.
  - destruct (nameElement env); [| reflexivity].
    apply (showing_length _ _ (Showing_typeWriter _ _ _ _)).
Qed.

Lemma Showing_setupCursorEffects w : Showing w (setupCursorEffects env w).
Proof.
  unfold setupCursorEffects. destruct (_ <=? _); [apply Showing_refl |].
  cbv zeta. eapply Showing_trans; [| apply Showing_set_bodyCursor].
  eapply Showing_trans; [| apply Showing_forEach; intros; showing]. showing.
Qed.

Lemma startUp_revealing w :
  Revealing env (startUp env w).2 /\
  length (elements (startUp env w).2) = length (elements w).
Proof.
  rewrite startUp_motion. cbn [snd]. rewrite init_motion by reflexivity.
  cbn [snd].
  set (w0 := consoleLog _ (set_this _ w)).
  destruct (setupParticleSystem_motion w0 eq_refl)
    as (w1 & E & _ & _ & _ & _ & _ & _ & _ & He1 & _).
  rewrite E. cbn [snd].
  set (w2 := setupTextAnimations env w1).
  assert (S : Showing w2
                (consoleLog "Advanced animations initialized"
                   (set_windowCVAnimations true
                      (setupTypingEffect env
                         (setupScrollAnimations
                            (setupCursorEffects env
                               (setupHoverEffects env w2))))))).
  { eapply Showing_trans; [| apply Showing_consoleLog].
    eapply Showing_trans; [| apply Showing_set_windowCVAnimations].
    eapply Showing_trans;
      [| apply Showing_forEach; intros i a w'; destruct (_ <? _); showing].
    eapply Showing_trans; [| apply Showing_addEventListener].
    eapply Showing_trans; [| apply Showing_setupCursorEffects].
    unfold setupHoverEffects. cbv zeta.
    eapply Showing_trans; [| apply Showing_forEach; intros; showing].
    apply Showing_forEach; intros; showing. }
  split.
  - intros item Hin. right. apply (showing_pending _ _ S).
    apply setupTextAnimations_pending, Hin.
  - rewrite (showing_length _ _ S). unfold w2.
    rewrite length_setupTextAnimations, He1. reflexivity.
Qed.

Lemma revealed_reveal item w :
  item < length (elements w) ->
  revealed item (runTimer env (contactReveal item) w).2.
Proof.
  intros Hlt. destruct (lookup_lt_is_Some_2 _ _ Hlt) as [e He].
  cbn [runTimer pure snd].
  apply revealed_updElement; [apply keepsShown_setStyle; discriminate |].
  eexists. split.
  - apply lookup_updElement. unfold updElement. cbn.
    rewrite list_lookup_alter, decide_True, He by reflexivity. reflexivity.
  - cbn. apply lookup_insert_eq.
Qed.

Lemma Revealing_showing w w' : Revealing env w -> Showing w w' -> Revealing env w'.
Proof.
  intros Hr [_ Hs Hp] item Hin. destruct (Hr item Hin); [left | right]; auto.
Qed.

Lemma Showing_step ev w :
  isStartUp ev = false -> ev <> TimerFires -> Showing w (step env ev w).
Proof.
  intros Hev Hne. destruct ev; try discriminate; try congruence; cbn [step].
  - apply (foldl_invariant (Showing w)).
    + intros w' _ Hw'. eapply Showing_trans; [exact Hw' |].
      apply Showing_animateParticles.
    + apply Showing_set_frames.
  - apply Showing_dispatch.
  - eapply Showing_trans; [| apply Showing_dispatch].
    apply Showing_same; reflexivity.
  - apply Showing_dispatch.
  - apply Showing_dispatch.
  - case_bool_decide; [| apply Showing_refl].
    destruct (_ && _); [| apply Showing_refl].
    eapply Showing_trans; [apply Showing_typeText |]. showing.
  - destruct (windowCVAnimations w); [apply Showing_destroy | apply Showing_refl].
Qed.

Lemma Revealing_step ev w :
  isStartUp ev = false -> Running w ->
  (forall item, item ∈ contactItems env -> item < length (elements w)) ->
  Revealing env w ->
  Revealing env (step env ev w) /\
  length (elements (step env ev w)) = length (elements w).
Proof.
  intros Hev Hrun Hvalid Hr.
  assert (Hcases : ev = TimerFires \/ ev <> TimerFires)
    by (destruct ev; auto; right; discriminate).
  destruct Hcases as [-> | Hne].
  - cbn [step].
    destruct (nextTimer (timers w)) as [[k [due cb]] |] eqn:E;
      [| split; [exact Hr | reflexivity]].
    pose proof (nextTimer_Some _ _ _ E) as Hk.
    assert (Hcb : cb <> startAnimations).
    { apply (proj1 (Forall_forall _ _) (running_timers w Hrun) (due, cb)).
      apply list_elem_of_lookup. eauto. }
    set (w0 := set_now _ _).
    pose proof (Showing_runTimer env cb w0 Hcb) as Hs.
    split; [| rewrite (showing_length _ _ Hs); reflexivity].
    intros item Hin. destruct (Hr item Hin) as [Hshown | [due' Hpend]].
    + left. apply (showing_revealed _ _ Hs). exact Hshown.
    + apply list_elem_of_lookup in Hpend as [j Hj].
      destruct (decide (j = k)) as [-> | Hjk].
      * left. assert (cb = contactReveal item) as -> by congruence.
        apply revealed_reveal. apply Hvalid, Hin.
      * right. apply (showing_pending _ _ Hs). exists due'. subst w0. cbn.
        apply list_elem_of_lookup.
        destruct (decide (j < k)) as [Hlt | Hge].
        -- exists j. rewrite list_lookup_delete_lt by exact Hlt. exact Hj.
        -- exists (j - 1). rewrite list_lookup_delete_ge by lia.
           replace (S (j - 1)) with j by lia. exact Hj.
  - pose proof (Showing_step ev w Hev Hne) as Hs.
    split; [exact (Revealing_showing _ _ Hr Hs) | apply (showing_length _ _ Hs)].
Qed.

Lemma Revealing_run evs w :
  Forall (fun ev => isStartUp ev = false) evs -> Running w ->
  (forall item, item ∈ contactItems env -> item < length (elements w)) ->
  Revealing env w ->
  Revealing env (run env evs w).
Proof.
  intros Hevs. revert w. induction Hevs as [| ev evs Hev _ IH];
    intros w Hrun Hvalid Hr; [exact Hr |].
  cbn. destruct (Revealing_step ev w Hev Hrun Hvalid Hr) as [Hr' Hlen].
  apply IH; [apply Running_step; assumption | | exact Hr'].
  intros item Hin. rewrite Hlen. apply Hvalid, Hin.
Qed.


Lemma Running_started els width height :
  Running (run env [DOMContentLoaded; TimerFires] (loaded els width height)).
Proof.
  destruct (Waiting_step TimerFires _ eq_refl (Waiting_start els width height))
    as [[[due Ht] _ _ _ _ _ _] | Hr]; [| exact Hr].
  exfalso. revert Ht. cbn [step]. cbn [loaded setTimeout timers set_timers now].
  cbn [app]. rewrite nextTimer_single. cbn [runTimer].
  cbn [delete list_delete]. intros Ht.
  pose proof (startUp_started
                (set_now (Nat.max 0 (0 + 500))
                   (set_timers [] (setTimeout startAnimations 500
                                     (loaded els width height))))
                eq_refl eq_refl eq_refl ltac:(constructor)) as [_ Hr].
  pose proof (running_timers _ Hr) as Hno. cbn [setTimeout loaded now timers
    set_timers app] in Hno. rewrite Ht in Hno.
  inversion Hno as [| t ts Hcb _]. apply Hcb. reflexivity.
Qed.

Lemma Revealing_started els width height :
  Revealing env (run env [DOMContentLoaded; TimerFires] (loaded els width height)) /\
  length (elements (run env [DOMContentLoaded; TimerFires]
                      (loaded els width height))) = length els.
Proof.
  cbn [run foldl step]. cbn [loaded setTimeout timers set_timers now app].
  rewrite nextTimer_single. cbn [runTimer delete list_delete].
  apply startUp_revealing.
Qed.

End Motion.

End EngineFacts.

(** X5. Once the engine has started with motion allowed, the particle
    loop never stops: after any further events, the page-unload handler
    that calls [destroy] included, exactly one frame callback is pending,
    and the next repaint clears the canvas and draws again. [destroy]
    removes the canvas from the document but cancels nothing. *)
Theorem particle_loop_outlives_destroy
    (env : CVAnimations.Env) (els : list CVAnimations.Element)
    (width height : nat) (evs : list CVAnimations.Event) :
  CVAnimations.prefersReducedMotion env = false ->
  Forall (fun ev => CVAnimations.isStartUp ev = false) evs ->
  let w :=
    CVAnimations.run env
      (CVAnimations.DOMContentLoaded :: CVAnimations.TimerFires :: evs)
      (CVAnimations.loaded els width height) in
  let w' := CVAnimations.step env CVAnimations.AnimationFrame w in
  CVAnimations.frames w = [CVAnimations.particleFrame] /\
  CVAnimations.frames w' = [CVAnimations.particleFrame] /\
  exists c ops,
    CVAnimations.canvas (CVAnimations.this w) = Some c /\
    CVAnimations.drawn w'
    = CVAnimations.drawn w ++
      CVAnimations.clearRect 0 0 (CVAnimations.Canvas.width c)
        (CVAnimations.Canvas.height c) :: ops.
Proof.
  intros Hmotion Hevs w w'.
  assert (Hr : CVAnimations.Running w).
  { subst w. change (CVAnimations.run env (?a :: ?b :: evs) ?w0)
      with (CVAnimations.run env evs (CVAnimations.run env [a; b] w0)).
    apply Running_run; [exact Hevs |]. apply Running_started, Hmotion. }
  pose proof (Running_animationFrame env w Hr) as Hr'.
  split; [apply (CVAnimations.running_frames _ Hr) |].
  split; [apply (CVAnimations.running_frames _ Hr') |].
  destruct Hr as [Hm [c Hc] Hf _ _ _]. exists c.
  subst w'. cbn [CVAnimations.step]. rewrite Hf. cbn [foldl].
  unfold CVAnimations.animateParticles.
  cbn [CVAnimations.this CVAnimations.set_frames]. rewrite Hm, Hc.
  destruct (CVAnimations.forEachParticle _ _ _) as [ps ops].
  exists ops. split; reflexivity.
Qed.

Lemma particle_loop_outlives_destroy_witness :
  CVAnimations.prefersReducedMotion Demo.motionEnv = false /\
  CVAnimations.frames
    (CVAnimations.run Demo.motionEnv
       [CVAnimations.DOMContentLoaded; CVAnimations.TimerFires;
        CVAnimations.BeforeUnload]
       (CVAnimations.loaded Demo.contactPage 1200 800))
  = [CVAnimations.particleFrame].
Proof.
  split; [reflexivity |].
  exact (proj1 (particle_loop_outlives_destroy Demo.motionEnv Demo.contactPage
                  1200 800 [CVAnimations.BeforeUnload] eq_refl
                  ltac:(repeat constructor))).
Defined.

(** X6. [destroy] undoes what the engine added to [document.body]: with
    motion allowed, whatever the viewport width and whatever happened on
    the page since [DOMContentLoaded], after the unload handler the body
    holds neither the particle canvas nor the custom cursor, and its
    [cursor] style is reset. *)
Theorem destroy_restores_body
    (env : CVAnimations.Env) (els : list CVAnimations.Element)
    (width height : nat) (evs : list CVAnimations.Event) :
  CVAnimations.prefersReducedMotion env = false ->
  Forall (fun ev => CVAnimations.isStartUp ev = false) evs ->
  let w :=
    CVAnimations.run env
      (CVAnimations.DOMContentLoaded :: evs ++ [CVAnimations.BeforeUnload])
      (CVAnimations.loaded els width height) in
  CVAnimations.body w = [] /\ CVAnimations.bodyCursor w = EmptyString.
Proof.
  intros Hmotion Hevs w. subst w.
  change (CVAnimations.run env (?a :: evs ++ ?l) ?w0)
    with (CVAnimations.run env (evs ++ l) (CVAnimations.step env a w0)).
  rewrite run_app.
  set (w1 := CVAnimations.run env evs _).
  change (CVAnimations.run env [?a] w1) with (CVAnimations.step env a w1).
  destruct (Started_run env Hmotion evs _ Hevs
              (or_introl (Waiting_start env els width height)))
    as [Hw | Hr]; fold w1 in Hw || fold w1 in Hr; cbn [CVAnimations.step].
  - destruct Hw as [_ _ _ _ Hb Hc Hwin]. rewrite Hwin. split; assumption.
  - rewrite (CVAnimations.running_window _ Hr).
    apply body_destroy; [apply (CVAnimations.running_canvas _ Hr) |].
    apply (CVAnimations.running_body _ Hr).
Qed.

Lemma destroy_restores_body_witness :
  CVAnimations.prefersReducedMotion Demo.motionEnv = false /\
  CVAnimations.body
    (CVAnimations.run Demo.motionEnv
       [CVAnimations.DOMContentLoaded; CVAnimations.TimerFires;
        CVAnimations.AnimationFrame; CVAnimations.BeforeUnload]
       (CVAnimations.loaded Demo.contactPage 1200 800)) = [].
Proof.
  split; [reflexivity |].
  exact (proj1 (destroy_restores_body Demo.motionEnv Demo.contactPage 1200 800
                  [CVAnimations.TimerFires; CVAnimations.AnimationFrame]
                  eq_refl ltac:(repeat constructor))).
Defined.

(** X7. No contact item is left hidden: [setupTextAnimations] hides every
    contact item and schedules its reveal, and from then on, whatever
    events follow, each item either shows ([opacity] 1) or still has its
    reveal timer pending; so once no timer is pending every contact item
    shows. *)
Theorem contact_items_end_up_shown
    (env : CVAnimations.Env) (els : list CVAnimations.Element)
    (width height : nat) (evs : list CVAnimations.Event) :
  CVAnimations.prefersReducedMotion env = false ->
  Forall (fun item => item < length els) (CVAnimations.contactItems env) ->
  Forall (fun ev => CVAnimations.isStartUp ev = false) evs ->
  let w :=
    CVAnimations.run env
      (CVAnimations.DOMContentLoaded :: CVAnimations.TimerFires :: evs)
      (CVAnimations.loaded els width height) in
  (forall item, item ∈ CVAnimations.contactItems env ->
     CVAnimations.revealed item w \/ CVAnimations.revealPending item w) /\
  (CVAnimations.timers w = [] ->
   forall item, item ∈ CVAnimations.contactItems env ->
     CVAnimations.revealed item w).
Proof.
  intros Hmotion Hvalid Hevs w.
  assert (Hr : CVAnimations.Revealing env w).
  { subst w. change (CVAnimations.run env (?a :: ?b :: evs) ?w0)
      with (CVAnimations.run env evs (CVAnimations.run env [a; b] w0)).
    destruct (Revealing_started env Hmotion els width height) as [Hr Hlen].
    apply Revealing_run; [exact Hevs | | | exact Hr].
    - apply Running_started, Hmotion.
    - intros item Hin. rewrite Hlen.
      apply (proj1 (Forall_forall _ _) Hvalid item Hin). }
  split; [exact Hr |].
  intros Ht item Hin. destruct (Hr item Hin) as [Hs | [due Hp]]; [exact Hs |].
  rewrite Ht in Hp. inversion Hp.
Qed.

Lemma contact_items_end_up_shown_witness :
  CVAnimations.prefersReducedMotion Demo.motionEnv = false /\
  Forall (fun item => item < length Demo.contactPage)
    (CVAnimations.contactItems Demo.motionEnv) /\
  (let w :=
     CVAnimations.run Demo.motionEnv
       [CVAnimations.DOMContentLoaded; CVAnimations.TimerFires;
        CVAnimations.TimerFires]
       (CVAnimations.loaded Demo.contactPage 1200 800) in
   CVAnimations.revealed 1 w \/ CVAnimations.revealPending 1 w).
Proof.
  split; [reflexivity |].
  assert (Hv : Forall (fun item => item < length Demo.contactPage)
                 (CVAnimations.contactItems Demo.motionEnv))
    by (repeat constructor).
  split; [exact Hv |].
  apply (proj1 (contact_items_end_up_shown Demo.motionEnv Demo.contactPage
                  1200 800 [CVAnimations.TimerFires] eq_refl Hv
                  ltac:(repeat constructor))).
  simpl. set_solver.
Defined.

(** * Section navigation *)

Section Selectors.

Import CVApp.

Lemma selectFrom_cons p j n ns :
  selectFrom p j (n :: ns)
  = (if p j n then [j] else []) ++ selectFrom p (S j) ns.
Proof.
  unfold selectFrom. rewrite imap_cons. cbn [omap list_omap].
  replace (j + 0) with j by lia. cbn [fst snd].
  rewrite (imap_ext (_ ∘ S) (fun i n' => (S j + i, n')))
    by (intros; cbn; f_equal; lia).
  destruct (p j n); reflexivity.
Qed.

Lemma elem_of_selectFrom p j ns k :
  k ∈ selectFrom p j ns <->
  exists i n, k = j + i /\ ns !! i = Some n /\ p k n = true.
Proof.
  unfold selectFrom. rewrite list_elem_of_omap. split.
  - intros [[i' n] [Hin Hp]]. apply elem_of_lookup_imap in Hin as (i & y & Heq & Hy).
    injection Heq as Hi Hn. subst i' n. cbn in Hp.
    destruct (p (j + i) y) eqn:E; [| discriminate]. injection Hp as <-.
    exists i, y. auto.
  - intros (i & n & -> & Hn & Hp). exists (j + i, n). split.
    + apply elem_of_lookup_imap. eauto.
    + cbn. rewrite Hp. reflexivity.
Qed.

Lemma NoDup_selectFrom p j ns : NoDup (selectFrom p j ns).
Proof.
  revert j. induction ns as [| n ns IH]; intros j; [constructor |].
  rewrite selectFrom_cons. destruct (p j n); [| apply IH].
  cbn. apply NoDup_cons. split; [| apply IH].
  rewrite elem_of_selectFrom. intros (i & _ & Hk & _). lia.
Qed.

Lemma selectAll_selectFrom p ns : selectAll p ns = selectFrom p 0 ns.
Proof. reflexivity. Qed.

Lemma elem_of_selectAll p ns k :
  k ∈ selectAll p ns <-> exists n, ns !! k = Some n /\ p k n = true.
Proof.
  rewrite selectAll_selectFrom, elem_of_selectFrom. split.
  - intros (i & n & -> & Hn & Hp). eauto.
  - intros (n & Hn & Hp). exists k, n. auto.
Qed.

Lemma NoDup_selectAll p ns : NoDup (selectAll p ns).
Proof. rewrite selectAll_selectFrom. apply NoDup_selectFrom. Qed.

(** A search by a property that an update keeps finds the same handle. *)
Lemma list_find_alter_fst {A : Type} (P : A -> Prop) `{!forall x, Decision (P x)}
    (f : A -> A) (c : nat) (l : list A) :
  (forall x, P (f x) <-> P x) ->
  fst <$> list_find P (alter f c l) = fst <$> list_find P l.
Proof.
  intros Hf. revert c. induction l as [| x l IH]; intros c; [reflexivity |].
  destruct c as [| c]; cbn.
  - destruct (decide (P (f x))) as [H1 | H1], (decide (P x)) as [H2 | H2];
      try reflexivity; exfalso; pose proof (Hf x); tauto.
  - destruct (decide (P x)); [reflexivity |].
    specialize (IH c). 
    destruct (list_find P (alter f c l)) as [[]|], (list_find P l) as [[]|];
      cbn in *; congruence.
Qed.

Lemma getElementById_alter (f : Node -> Node) c ns i :
  (forall n, id (f n) = id n) ->
  getElementById (alter f c ns) i = getElementById ns i.
Proof.
  intros Hf. unfold getElementById. case_bool_decide; [reflexivity |].
  apply list_find_alter_fst. intros n. rewrite Hf. tauto.
Qed.

Lemma getElementById_Some ns' i h :
  getElementById ns' i = Some h ->
  exists n, ns' !! h = Some n /\ id n = i /\ i <> EmptyString.
Proof.
  unfold getElementById. case_bool_decide as Hi; [discriminate |].
  destruct (list_find _ ns') as [[k n] |] eqn:E; [| discriminate].
  intros [= <-]. apply list_find_Some in E as (Hk & Hid & _). eauto.
Qed.

Lemma activeSection_Some ns c :
  activeSection ns = Some c ->
  exists n, ns !! c = Some n /\ hasClass "section" n && hasClass "active" n = true.
Proof.
  unfold activeSection. destruct (list_find _ ns) as [[k n] |] eqn:E; [| discriminate].
  intros [= <-]. apply list_find_Some in E. exists n. tauto.
Qed.

Lemma activeSection_None ns k n :
  activeSection ns = None -> ns !! k = Some n ->
  hasClass "section" n && hasClass "active" n = false.
Proof.
  unfold activeSection. destruct (list_find _ ns) as [[k' n'] |] eqn:E; [discriminate |].
  intros _ Hk. apply list_find_None in E. rewrite Forall_forall in E.
  apply not_true_is_false, E, list_elem_of_lookup. eauto.
Qed.

Lemma nodes_animateSection section pg : nodes (animateSection section pg) = nodes pg.
Proof.
  unfold animateSection.
  apply (forEach_invariant (fun pg' => nodes pg' = nodes pg)); [| reflexivity].
  intros i a s' Hs. exact Hs.
Qed.

Lemma state_animateSection section pg : state (animateSection section pg) = state pg.
Proof.
  unfold animateSection.
  apply (forEach_invariant (fun pg' => state pg' = state pg)); [| reflexivity].
  intros i a s' Hs. exact Hs.
Qed.

Lemma nodes_updateURL i pg : nodes (updateURL i pg) = nodes pg.
Proof. unfold updateURL. cbn. destruct (announcer pg); reflexivity. Qed.

Lemma state_updateURL i pg : state (updateURL i pg) = state pg.
Proof. unfold updateURL. cbn. destruct (announcer pg); reflexivity. Qed.

Lemma url_updateURL i pg : url (updateURL i pg) = pathname +:+ "#" +:+ i.
Proof. unfold updateURL. cbn. destruct (announcer pg); reflexivity. Qed.

Lemma getElementById_hidden ns i : getElementById (hidden ns) i = getElementById ns i.
Proof.
  unfold hidden. destruct (activeSection ns); [| reflexivity].
  apply getElementById_alter. reflexivity.
Qed.

Lemma nodes_showSection i pg :
  nodes (showSection i pg)
  = match getElementById (nodes pg) i with
    | Some target => alter (addClass "active") target (hidden (nodes pg))
    | None => hidden (nodes pg)
    end.
Proof.
  unfold showSection.
  set (pg1 := match activeSection (nodes pg) with
              | Some current => updNode current (removeClass "active") pg
              | None => pg end).
  assert (H1 : nodes pg1 = hidden (nodes pg))
    by (subst pg1; unfold hidden; destruct (activeSection (nodes pg)); reflexivity).
  rewrite H1, getElementById_hidden.
  destruct (getElementById (nodes pg) i); [| exact H1].
  rewrite nodes_updateURL, nodes_animateSection. cbn. rewrite H1. reflexivity.
Qed.

Lemma hidden_lookup ns k n :
  hidden ns !! k = Some n ->
  exists n0, ns !! k = Some n0 /\ (n = n0 \/ n = removeClass "active" n0) /\
             hasClass "section" n = hasClass "section" n0.
Proof.
  unfold hidden. destruct (activeSection ns) as [c |]; [| eauto].
  rewrite list_lookup_alter. case_decide as Hc.
  - subst. destruct (ns !! k) as [n0 |]; [| discriminate].
    intros [= <-]. exists n0. repeat split; [auto |].
    unfold hasClass. cbn. apply contains_classRemove_ne. discriminate.
  - eauto.
Qed.

(** With at most one active section before, hiding it leaves none. *)
Lemma hidden_none_active pg k n :
  length (activeSections pg) <= 1 ->
  hidden (nodes pg) !! k = Some n ->
  hasClass "section" n && hasClass "active" n = false.
Proof.
  intros Hone. unfold hidden.
  destruct (activeSection (nodes pg)) as [c |] eqn:E.
  - destruct (activeSection_Some _ _ E) as (nc & Hc & Hac).
    rewrite list_lookup_alter. case_decide as Hck.
    + subst. rewrite Hc. intros [= <-]. unfold hasClass at 2. cbn.
      rewrite contains_classRemove. apply andb_false_r.
    + intros Hk. apply not_true_is_false. intros Hak. apply Hck.
      apply (at_most_one_equal (activeSections pg)); [exact Hone | |];
        apply elem_of_selectAll; eauto.
  - apply activeSection_None. exact E.
Qed.

Lemma NoDup_all_equal {A : Type} (l : list A) (a : A) :
  NoDup l -> (forall b, b ∈ l -> b = a) -> length l <= 1.
Proof.
  intros Hnd Hall. destruct l as [| x [| y l]]; cbn; [lia | lia |].
  exfalso. apply NoDup_cons in Hnd as [Hnot _]. apply Hnot.
  rewrite (Hall x) by left. rewrite (Hall y) by (right; left). left.
Qed.

(** [showSection] keeps the page with at most one active section,
    whatever identifier it is given. *)
Lemma showSection_at_most_one i pg :
  length (activeSections pg) <= 1 ->
  length (activeSections (showSection i pg)) <= 1.
Proof.
  intros Hone. unfold activeSections at 1. rewrite nodes_showSection.
  destruct (getElementById (nodes pg) i) as [target |].
  - apply (NoDup_all_equal _ target); [apply NoDup_selectAll |].
    intros k Hk. apply elem_of_selectAll in Hk as (n & Hk & Hact).
    destruct (decide (k = target)) as [| Hne]; [assumption |].
    rewrite list_lookup_alter_ne in Hk by congruence.
    rewrite (hidden_none_active pg k n Hone Hk) in Hact. discriminate.
  - apply (NoDup_all_equal _ 0); [apply NoDup_selectAll |].
    intros k Hk. apply elem_of_selectAll in Hk as (n & Hk & Hact).
    rewrite (hidden_none_active pg k n Hone Hk) in Hact. discriminate.
Qed.

(** For an identifier that names no element, [showSection] still hides
    the current section; nothing else changes. *)
Lemma showSection_unknown i pg :
  getElementById (nodes pg) i = None ->
  showSection i pg
  = match activeSection (nodes pg) with
    | Some current => updNode current (removeClass "active") pg
    | None => pg
    end.
Proof.
  intros Hnone. unfold showSection.
  set (pg1 := match activeSection (nodes pg) with
              | Some current => updNode current (removeClass "active") pg
              | None => pg end).
  assert (H1 : nodes pg1 = hidden (nodes pg))
    by (subst pg1; unfold hidden; destruct (activeSection (nodes pg)); reflexivity).
  rewrite H1, getElementById_hidden, Hnone. reflexivity.
Qed.

End Selectors.

(** On a page with at most one active section, [showSection] leaves its
    target as the only active section. *)
Lemma showSection_active_list
    (pg : CVApp.Page) (sectionId : string) (target : nat) :
  CVApp.namesSection pg sectionId target ->
  length (CVApp.activeSections pg) <= 1 ->
  CVApp.activeSections (CVApp.showSection sectionId pg) = [target].
Proof.
  intros [Hid Hsec] Hone.
  assert (Hnodes : CVApp.nodes (CVApp.showSection sectionId pg)
                   = alter (CVApp.addClass "active") target
                       (CVApp.hidden (CVApp.nodes pg)))
    by (rewrite nodes_showSection, Hid; reflexivity).
  unfold CVApp.nodeHasClass in Hsec.
  destruct (CVApp.nodes pg !! target) as [n0 |] eqn:Hn0; [| discriminate].
  cbn in Hsec.
  assert (Hh : exists n1, CVApp.hidden (CVApp.nodes pg) !! target = Some n1 /\
                          CVApp.hasClass "section" n1 = true).
  { destruct (CVApp.hidden (CVApp.nodes pg) !! target) as [n1 |] eqn:E.
    - exists n1. split; [reflexivity |].
      destruct (hidden_lookup _ _ _ E) as (n0' & Hn0' & _ & Hs). congruence.
    - exfalso. apply lookup_ge_None in E.
      assert (length (CVApp.hidden (CVApp.nodes pg)) = length (CVApp.nodes pg)).
      { unfold CVApp.hidden.
        destruct (CVApp.activeSection _); [apply length_alter | reflexivity]. }
      apply lookup_lt_Some in Hn0. lia. }
  destruct Hh as (n1 & Hn1 & Hs1).
  apply NoDup_only; [apply NoDup_selectAll |]. intros k.
  unfold CVApp.activeSections. rewrite elem_of_selectAll, Hnodes. split.
  - intros (n & Hk & Hact). destruct (decide (k = target)) as [| Hne]; [assumption |].
    rewrite list_lookup_alter_ne in Hk by congruence.
    rewrite (hidden_none_active pg k n Hone Hk) in Hact. discriminate.
  - intros ->. exists (CVApp.addClass "active" n1). split.
    + rewrite list_lookup_alter, decide_True, Hn1 by reflexivity. reflexivity.
    + unfold CVApp.hasClass in *. cbn.
      rewrite contains_classAdd, contains_classAdd_ne, Hs1 by discriminate.
      reflexivity.
Qed.

(** C1. For every section identifier that names an existing section,
    [showSection] leaves exactly one section element carrying the [active]
    class, and it is the named one: the section that was active loses the
    class, the target gains it and becomes the recorded current section.
    The page has at most one active section beforehand, as every page
    reached from well-formed markup with a plain spinner has
    ([showSection_activates_on_reached_page]). *)
Theorem showSection_activates_target
    (pg : CVApp.Page) (sectionId : string) (target : nat) :
  CVApp.namesSection pg sectionId target ->
  length (CVApp.activeSections pg) <= 1 ->
  let pg' := CVApp.showSection sectionId pg in
  CVApp.activeSections pg' = [target] /\
  CVApp.currentSection (CVApp.state pg') = sectionId /\
  (forall current,
     CVApp.activeSection (CVApp.nodes pg) = Some current ->
     current <> target ->
     CVApp.nodeHasClass (CVApp.nodes pg') current "active" = false).
Proof.
  intros Hname Hone pg'.
  split; [apply showSection_active_list; assumption |].
  destruct Hname as [Hid _]. subst pg'. split.
  - unfold CVApp.showSection.
    set (pg1 := match CVApp.activeSection (CVApp.nodes pg) with
                | Some current => _ | None => pg end).
    assert (H1 : CVApp.nodes pg1 = CVApp.hidden (CVApp.nodes pg))
      by (subst pg1; unfold CVApp.hidden;
          destruct (CVApp.activeSection (CVApp.nodes pg)); reflexivity).
    rewrite H1, getElementById_hidden, Hid.
    rewrite state_updateURL, state_animateSection. reflexivity.
  - intros current Hcur Hne. rewrite nodes_showSection, Hid.
    unfold CVApp.nodeHasClass.
    rewrite list_lookup_alter_ne by congruence.
    unfold CVApp.hidden. rewrite Hcur.
    rewrite list_lookup_alter, decide_True by reflexivity.
    destruct (CVApp.nodes pg !! current); [| reflexivity]. cbn.
    apply contains_classRemove.
Qed.

Lemma showSection_activates_target_witness :
  CVApp.namesSection Demo.started "experiencia" 6 /\
  length (CVApp.activeSections Demo.started) <= 1 /\
  CVApp.activeSections (CVApp.showSection "experiencia" Demo.started) = [6].
Proof.
  assert (H1 : CVApp.namesSection Demo.started "experiencia" 6)
    by (split; reflexivity).
  assert (H2 : length (CVApp.activeSections Demo.started) <= 1)
    by (vm_compute; lia).
  split; [exact H1 |]. split; [exact H2 |].
  exact (proj1 (showSection_activates_target Demo.started "experiencia" 6 H1 H2)).
Defined.

(** C2, at a failing input. On the sample page, where section [perfil]
    is active, [showSection "nope"] names no element; the recorded current
    section, the URL and the history stay as they were, but the active
    section has lost its [active] class: no section is active afterwards. *)
Theorem showSection_unknown_hides_current :
  CVApp.activeSections Demo.started = [4] /\
  CVApp.getElementById (CVApp.nodes Demo.started) "nope" = None /\
  (let pg := CVApp.showSection "nope" Demo.started in
   CVApp.activeSections pg = [] /\
   CVApp.state pg = CVApp.state Demo.started /\
   CVApp.url pg = CVApp.url Demo.started /\
   CVApp.history pg = CVApp.history Demo.started).
Proof. vm_compute. repeat split. Qed.

(** * Pages reached from well-formed markup *)

Section TidyFacts.

Import CVApp.

Lemma contains_classRemove_elim c c' cl :
  contains (classRemove c' cl) c = true -> contains cl c = true.
Proof.
  unfold contains, classRemove. rewrite !bool_decide_eq_true, list_elem_of_filter.
  tauto.
Qed.

Lemma tame_removeClass c n :
  c <> "section" -> c <> "nav-link" -> c <> "nav-menu" -> tame (removeClass c) n.
Proof.
  intros H1 H2 H3. split.
  - unfold staticPart, hasClass, removeClass. cbn [classList attributes].
    rewrite !contains_classRemove_ne by congruence. reflexivity.
  - unfold isActiveSection, hasClass, removeClass. cbn [classList].
    rewrite !andb_true_iff. intros [Hs Ha].
    split; eapply contains_classRemove_elim; eassumption.
Qed.

Lemma tame_addClass c n :
  c <> "section" -> c <> "nav-link" -> c <> "nav-menu" -> c <> "active" ->
  tame (addClass c) n.
Proof.
  intros H1 H2 H3 H4. split.
  - unfold staticPart, hasClass, addClass. cbn [classList attributes].
    rewrite !contains_classAdd_ne by congruence. reflexivity.
  - unfold isActiveSection, hasClass, addClass. cbn [classList].
    rewrite !contains_classAdd_ne by congruence. tauto.
Qed.

Lemma static_activate n : staticPart (addClass "active" n) = staticPart n.
Proof.
  unfold staticPart, hasClass, addClass. cbn [classList attributes].
  rewrite !contains_classAdd_ne by discriminate. reflexivity.
Qed.

Lemma tame_activate n : hasClass "section" n = false -> tame (addClass "active") n.
Proof.
  intros Hs. split; [apply static_activate |].
  unfold isActiveSection, hasClass, addClass in *. cbn [classList].
  rewrite contains_classAdd_ne, Hs by discriminate. discriminate.
Qed.

Lemma tame_setStyle k v n : tame (setStyle k v) n.
Proof. split; [reflexivity | tauto]. Qed.

Lemma tame_setWidth v n : tame (setWidth v) n.
Proof. unfold setWidth. destruct (wholePercent v); split; auto. Qed.

Lemma tame_setInnerHTML html n : tame (setInnerHTML html) n.
Proof. split; [reflexivity | tauto]. Qed.

Lemma tame_setAttribute k v n : k <> "href" -> tame (setAttribute k v) n.
Proof.
  intros Hk. split; [| tauto].
  unfold staticPart, setAttribute, hasClass. cbn [classList attributes].
  rewrite lookup_insert_ne by exact Hk. reflexivity.
Qed.

Lemma tame_compose f g n : tame g n -> tame f (g n) -> tame (fun n' => f (g n')) n.
Proof. intros [S1 A1] [S2 A2]. split; [congruence | tauto]. Qed.

Lemma sameStatics_lookup ns ns' k n' :
  sameStatics ns ns' -> ns' !! k = Some n' ->
  exists n, ns !! k = Some n /\ staticPart n' = staticPart n.
Proof.
  intros Hs Hk. assert (H : (staticPart <$> ns') !! k = Some (staticPart n'))
    by (rewrite list_lookup_fmap, Hk; reflexivity).
  rewrite Hs, list_lookup_fmap in H.
  destruct (ns !! k) as [n |]; [| discriminate]. cbn in H.
  exists n. split; [reflexivity | congruence].
Qed.

Lemma sameStatics_lookup_r ns ns' k n :
  sameStatics ns ns' -> ns !! k = Some n ->
  exists n', ns' !! k = Some n' /\ staticPart n' = staticPart n.
Proof.
  intros Hs Hk. assert (H : (staticPart <$> ns) !! k = Some (staticPart n))
    by (rewrite list_lookup_fmap, Hk; reflexivity).
  rewrite <- Hs, list_lookup_fmap in H.
  destruct (ns' !! k) as [n' |]; [| discriminate]. cbn in H.
  exists n'. split; [reflexivity | congruence].
Qed.

Lemma sameStatics_alter ns h f :
  (forall n, ns !! h = Some n -> staticPart (f n) = staticPart n) ->
  sameStatics ns (alter f h ns).
Proof.
  intros Hf. unfold sameStatics. apply list_eq. intros k.
  rewrite !list_lookup_fmap, list_lookup_alter. case_decide; [subst |]; [| reflexivity].
  destruct (ns !! k) as [n |] eqn:E; [| reflexivity]. cbn. f_equal.
  apply Hf. reflexivity.
Qed.

Lemma sameStatics_trans ns1 ns2 ns3 :
  sameStatics ns1 ns2 -> sameStatics ns2 ns3 -> sameStatics ns1 ns3.
Proof. unfold sameStatics. congruence. Qed.

Lemma Static_transfer pg pg' :
  sameStatics (nodes pg) (nodes pg') -> elements pg' = elements pg ->
  Static pg -> Static pg'.
Proof.
  intros Hs He [S1 S2 S3]. split.
  - intros h n' Hn'. destruct (sameStatics_lookup _ _ _ _ Hs Hn') as (n & Hn & Hst).
    specialize (S1 h n Hn). unfold plainSection, staticPart in *.
    injection Hst as -> -> -> ->. exact S1.
  - rewrite He. intros l Hl. specialize (S2 l Hl). unfold nodeHasClass in *.
    destruct (nodes pg !! l) as [n |] eqn:E; [| discriminate].
    destruct (sameStatics_lookup_r _ _ _ _ Hs E) as (n' & -> & Hst).
    unfold staticPart in Hst. injection Hst as _ Hl' _ _. cbn in *. congruence.
  - rewrite He. intros m Hm. specialize (S3 m Hm). unfold nodeHasClass in *.
    destruct (nodes pg !! m) as [n |] eqn:E; [| discriminate].
    destruct (sameStatics_lookup_r _ _ _ _ Hs E) as (n' & -> & Hst).
    unfold staticPart in Hst. injection Hst as _ _ Hm' _. cbn in *. congruence.
Qed.

Lemma Tidy_same pg pg' :
  nodes pg' = nodes pg -> elements pg' = elements pg -> Tidy pg -> Tidy pg'.
Proof.
  intros Hn He [T1 T2]. split.
  - unfold activeSections in *. rewrite Hn. exact T1.
  - apply (Static_transfer pg); [rewrite Hn; reflexivity | exact He | exact T2].
Qed.

Lemma Tidy_updNode pg h f :
  (forall n, nodes pg !! h = Some n -> tame f n) ->
  Tidy pg -> Tidy (updNode h f pg).
Proof.
  intros Hf [T1 T2]. split.
  - etransitivity; [| exact T1]. apply submseteq_length, NoDup_submseteq.
    + apply NoDup_selectAll.
    + intros k Hk. unfold activeSections in *. cbn [updNode nodes set_nodes] in Hk.
      apply elem_of_selectAll in Hk as (n' & Hk & Ha).
      apply elem_of_selectAll. revert Hk. rewrite list_lookup_alter.
      case_decide as Hkh; [| eauto]. subst k.
      destruct (nodes pg !! h) as [n |] eqn:E; [| discriminate].
      intros [= <-]. exists n. split; [reflexivity |]. apply (Hf n eq_refl), Ha.
  - apply (Static_transfer pg); [| reflexivity | exact T2].
    apply sameStatics_alter. intros n Hn. apply (Hf n Hn).
Qed.

Lemma Tidy_set_animationLog v pg : Tidy pg -> Tidy (set_animationLog v pg).
Proof. apply Tidy_same; reflexivity. Qed.

Lemma Tidy_set_state v pg : Tidy pg -> Tidy (set_state v pg).
Proof. apply Tidy_same; reflexivity. Qed.

Lemma Tidy_set_bodyOverflow v pg : Tidy pg -> Tidy (set_bodyOverflow v pg).
Proof. apply Tidy_same; reflexivity. Qed.

Lemma Tidy_set_url v pg : Tidy pg -> Tidy (set_url v pg).
Proof. apply Tidy_same; reflexivity. Qed.

Lemma Tidy_set_now v pg : Tidy pg -> Tidy (set_now v pg).
Proof. apply Tidy_same; reflexivity. Qed.

Lemma Tidy_set_timers v pg : Tidy pg -> Tidy (set_timers v pg).
Proof. apply Tidy_same; reflexivity. Qed.

Lemma Tidy_set_innerWidth v pg : Tidy pg -> Tidy (set_innerWidth v pg).
Proof. apply Tidy_same; reflexivity. Qed.

Lemma Tidy_set_observed v pg : Tidy pg -> Tidy (set_observed v pg).
Proof. apply Tidy_same; reflexivity. Qed.

Lemma Tidy_set_announcer v pg : Tidy pg -> Tidy (set_announcer v pg).
Proof. apply Tidy_same; reflexivity. Qed.

Lemma Tidy_forEach {A : Type} (f : nat -> A -> Page -> Page) l pg :
  (forall i a pg', Tidy pg' -> Tidy (f i a pg')) -> Tidy pg -> Tidy (forEach f l pg).
Proof. intros Hf. apply (forEach_invariant Tidy). exact Hf. Qed.

Lemma Tidy_setTimeout cb delay pg : Tidy pg -> Tidy (setTimeout cb delay pg).
Proof. apply Tidy_same; reflexivity. Qed.

Lemma Tidy_updateURL i pg : Tidy pg -> Tidy (updateURL i pg).
Proof.
  unfold updateURL. cbn. destruct (announcer pg); apply Tidy_same; reflexivity.
Qed.

Lemma Tidy_animateSection section pg : Tidy pg -> Tidy (animateSection section pg).
Proof.
  unfold animateSection. apply Tidy_forEach. intros i a pg'. apply Tidy_setTimeout.
Qed.

Lemma elements_animateSection section pg :
  elements (animateSection section pg) = elements pg.
Proof.
  unfold animateSection.
  apply (forEach_invariant (fun pg' => elements pg' = elements pg)); [| reflexivity].
  intros i a s' Hs. exact Hs.
Qed.

Lemma elements_updateURL i pg : elements (updateURL i pg) = elements pg.
Proof. unfold updateURL. cbn. destruct (announcer pg); reflexivity. Qed.

Lemma elements_showSection i pg : elements (showSection i pg) = elements pg.
Proof.
  unfold showSection.
  set (pg1 := match activeSection (nodes pg) with
              | Some current => updNode current (removeClass "active") pg
              | None => pg end).
  assert (H1 : elements pg1 = elements pg)
    by (subst pg1; destruct (activeSection (nodes pg)); reflexivity).
  destruct (getElementById (nodes pg1) i); [| exact H1].
  rewrite elements_updateURL, elements_animateSection. exact H1.
Qed.

Lemma sameStatics_showSection i pg :
  sameStatics (nodes pg) (nodes (showSection i pg)).
Proof.
  rewrite nodes_showSection.
  assert (H1 : sameStatics (nodes pg) (hidden (nodes pg))).
  { unfold hidden. destruct (activeSection (nodes pg)) as [current |];
      [| reflexivity].
    apply sameStatics_alter. intros n _.
    apply (tame_removeClass "active" n); discriminate. }
  destruct (getElementById (nodes pg) i) as [target |]; [| exact H1].
  eapply sameStatics_trans; [exact H1 |].
  apply sameStatics_alter. intros n _. apply static_activate.
Qed.

Lemma Tidy_showSection i pg : Tidy pg -> Tidy (showSection i pg).
Proof.
  intros [T1 T2]. split; [apply showSection_at_most_one, T1 |].
  apply (Static_transfer pg);
    [apply sameStatics_showSection | apply elements_showSection | exact T2].
Qed.

Lemma getAnimationClass_cases ns h :
  getAnimationClass ns h ∈ ["slide-in-left"; "slide-in-right"; "scale-in"; "fade-in"].
Proof.
  unfold getAnimationClass.
  destruct (nodeHasClass ns h "timeline-item").
  - destruct (indexOf h (siblings ns h)) as [k |];
      [destruct (k mod 2 =? 0) |]; set_solver.
  - destruct (_ || _); set_solver.
Qed.

Lemma Tidy_animateElement by_ element pg :
  Tidy pg -> Tidy (animateElement by_ element pg).
Proof.
  intros HT. unfold animateElement.
  set (pg1 := set_animationLog _ _).
  assert (H1 : Tidy pg1).
  { subst pg1. apply Tidy_set_animationLog.
    apply Tidy_updNode; [| exact HT]. intros n _.
    pose proof (getAnimationClass_cases (nodes pg) element) as Hc.
    apply tame_addClass; intros Heq; rewrite Heq in Hc;
      repeat (apply elem_of_cons in Hc as [Hc | Hc]; [discriminate |]);
      inversion Hc. }
  destruct (querySelectorAllIn _ _ _); [exact H1 |].
  apply Tidy_setTimeout, H1.
Qed.

Lemma Tidy_animateSkillBars bars pg : Tidy pg -> Tidy (animateSkillBars bars pg).
Proof.
  unfold animateSkillBars. apply Tidy_forEach. intros i a pg' HT.
  destruct (_ ≫= _); [| exact HT].
  case_bool_decide; [exact HT |]. apply Tidy_setTimeout, HT.
Qed.

(** A node that carries an [href], the [nav-link] or the [nav-menu] class
    is not a section. *)
Lemma not_section pg h n :
  Tidy pg -> nodes pg !! h = Some n ->
  attributes n !! "href" <> None \/ hasClass "nav-link" n = true \/
  hasClass "nav-menu" n = true ->
  hasClass "section" n = false.
Proof.
  intros [_ [S1 _ _]] Hn Hor. destruct (hasClass "section" n) eqn:Hs; [| reflexivity].
  destruct (S1 h n Hn Hs) as (H1 & H2 & H3).
  destruct Hor as [? | [? | ?]]; congruence.
Qed.

Lemma Tidy_updateActiveNavLink link pg :
  Tidy pg ->
  (forall l n, link = Some l -> nodes pg !! l = Some n ->
     attributes n !! "href" <> None \/ hasClass "nav-link" n = true \/
     hasClass "nav-menu" n = true) ->
  Tidy (updateActiveNavLink link pg).2.
Proof.
  intros HT Hlink. unfold updateActiveNavLink, andThen, pure. cbn [fst snd].
  set (pg1 := forEach _ _ pg).
  assert (H1 : Tidy pg1 /\ sameStatics (nodes pg) (nodes pg1)).
  { subst pg1.
    apply (forEach_invariant
             (fun pg' => Tidy pg' /\ sameStatics (nodes pg) (nodes pg')));
      [| split; [exact HT | reflexivity]].
    intros i a pg' [HT' Hs']. split.
    - apply Tidy_updNode; [| exact HT']. intros n _.
      apply tame_removeClass; discriminate.
    - eapply sameStatics_trans; [exact Hs' |].
      apply sameStatics_alter. intros n _.
      apply (tame_removeClass "active" n); discriminate. }
  destruct H1 as [H1 Hs1].
  destruct link as [l |]; cbn [throw snd]; [| exact H1].
  apply Tidy_updNode; [| exact H1]. intros n1 Hn1.
  apply tame_activate. apply (not_section pg1 l n1 H1 Hn1).
  destruct (sameStatics_lookup _ _ _ _ Hs1 Hn1) as (n & Hn & Hst).
  specialize (Hlink l n eq_refl Hn). unfold staticPart in Hst.
  injection Hst as _ -> -> ->. exact Hlink.
Qed.

Lemma Tidy_closeMobileMenu pg : Tidy pg -> Tidy (closeMobileMenu pg).2.
Proof.
  intros HT. unfold closeMobileMenu.
  destruct (navMenu (elements pg)) as [menu |]; [| exact HT].
  cbn [elements updNode set_nodes].
  assert (H1 : Tidy (updNode menu (removeClass "active") pg))
    by (apply Tidy_updNode; [intros; apply tame_removeClass; discriminate | exact HT]).
  destruct (menuToggle (elements pg)); cbn [snd]; [| exact H1].
  apply Tidy_set_state, Tidy_set_bodyOverflow.
  apply Tidy_updNode; [intros; apply tame_setInnerHTML | exact H1].
Qed.

Lemma Tidy_openMobileMenu pg : Tidy pg -> Tidy (openMobileMenu pg).2.
Proof.
  intros HT. unfold openMobileMenu.
  destruct (navMenu (elements pg)) as [menu |] eqn:Hmenu; [| exact HT].
  cbn [elements updNode set_nodes].
  assert (H1 : Tidy (updNode menu (addClass "active") pg)).
  { apply Tidy_updNode; [| exact HT]. intros n Hn. apply tame_activate.
    apply (not_section pg menu n HT Hn). right. right.
    destruct HT as [_ [_ _ S3]]. specialize (S3 menu Hmenu).
    unfold nodeHasClass in S3. rewrite Hn in S3. exact S3. }
  destruct (menuToggle (elements pg)); cbn [snd]; [| exact H1].
  apply Tidy_forEach; [intros; apply Tidy_setTimeout; assumption |].
  apply Tidy_set_bodyOverflow.
  apply Tidy_updNode; [intros; apply tame_setInnerHTML | exact H1].
Qed.

Lemma Tidy_toggleMobileMenu pg : Tidy pg -> Tidy (toggleMobileMenu pg).2.
Proof.
  intros HT. unfold toggleMobileMenu.
  set (pg1 := set_state _ pg).
  assert (H1 : Tidy pg1) by (apply Tidy_set_state, HT).
  destruct (isMenuOpen (state pg1));
    [apply Tidy_openMobileMenu | apply Tidy_closeMobileMenu]; exact H1.
Qed.

Lemma Tidy_handleOutsideClick target pg :
  Tidy pg -> Tidy (handleOutsideClick target pg).2.
Proof.
  intros HT. unfold handleOutsideClick.
  destruct (negb _); [exact HT |].
  destruct (navMenu _); [| exact HT].
  destruct (containsNode _ _ _); [exact HT |].
  destruct (menuToggle _); [| exact HT].
  destruct (containsNode _ _ _); [exact HT |].
  apply Tidy_closeMobileMenu, HT.
Qed.

Lemma Tidy_andThen (m1 m2 : Run Page) pg :
  Tidy (m1 pg).2 -> (forall pg', Tidy pg' -> Tidy (m2 pg').2) ->
  Tidy ((m1 >> m2) pg).2.
Proof.
  intros H1 H2. unfold andThen.
  destruct (m1 pg) as [[[] | e] pg1]; cbn in *; [apply H2, H1 | exact H1].
Qed.

Lemma Tidy_handleNavigation target pg :
  Tidy pg -> Tidy (handleNavigation target pg).2.
Proof.
  intros HT. unfold handleNavigation.
  destruct (nodes pg !! target) as [n0 |] eqn:Hn0; cbn [mbind option_bind];
    [| exact HT].
  destruct (attributes n0 !! "href") as [href |] eqn:Hhref; [| exact HT].
  destruct (_ && _); [| exact HT].
  unfold andThen at 1. unfold pure at 1. cbn [fst snd].
  assert (H1 : Tidy (showSection (substring1 href) pg)) by apply Tidy_showSection, HT.
  apply Tidy_andThen; [| intros; apply Tidy_closeMobileMenu; assumption].
  apply Tidy_updateActiveNavLink; [exact H1 |].
  intros l n1 [= <-] Hn1. left.
  destruct (sameStatics_lookup _ _ _ _ (sameStatics_showSection (substring1 href) pg) Hn1)
    as (n & Hn & Hst).
  unfold staticPart in Hst. injection Hst as _ _ _ ->. congruence.
Qed.

Lemma Tidy_navLink pg k l n :
  Tidy pg -> navLinks (elements pg) !! k = Some l -> nodes pg !! l = Some n ->
  hasClass "nav-link" n = true.
Proof.
  intros [_ [_ S2 _]] Hk Hn.
  specialize (S2 l ltac:(apply list_elem_of_lookup; eauto)).
  unfold nodeHasClass in S2. rewrite Hn in S2. exact S2.
Qed.

Lemma Tidy_handleKeyNavigation key altKey pg :
  Tidy pg -> Tidy (handleKeyNavigation key altKey pg).2.
Proof.
  intros HT. unfold handleKeyNavigation. apply Tidy_andThen.
  - destruct (_ && _); [apply Tidy_closeMobileMenu |]; exact HT.
  - clear pg HT. intros pg HT. destruct (negb altKey); [exact HT |].
    assert (Hgo : forall k,
      Tidy
        (match sections (elements pg) !! k with
         | Some sec =>
             (pure (showSection (sectionId (nodes pg) sec)) >>
              updateActiveNavLink (navLinks (elements pg) !! k)) pg
         | None =>
             (Throw (TypeError "Cannot read properties of undefined (reading 'id')"), pg)
         end).2).
    { intros k. destruct (sections (elements pg) !! k) as [sec |]; [| exact HT].
      unfold andThen at 1. unfold pure at 1. cbn [fst snd].
      set (pg1 := showSection _ pg).
      assert (H1 : Tidy pg1) by apply Tidy_showSection, HT.
      apply Tidy_updateActiveNavLink; [exact H1 |].
      intros l n1 Hl Hn1. right. left.
      apply (Tidy_navLink pg1 k l n1 H1); [| exact Hn1].
      subst pg1. rewrite elements_showSection. exact Hl. }
    cbv zeta. destruct (_ && _); [apply Hgo |].
    destruct (_ && _); [apply Hgo | exact HT].
Qed.

Lemma linkTo_href ns hash l n :
  linkTo ns hash = Some l -> ns !! l = Some n -> attributes n !! "href" <> None.
Proof.
  unfold linkTo. destruct (list_find _ ns) as [[k n'] |] eqn:E; [| discriminate].
  intros [= <-] Hn. apply list_find_Some in E as (Hk & [_ Hh] & _).
  assert (n' = n) by congruence. subst. congruence.
Qed.

Lemma Tidy_loadHash hash pg : Tidy pg -> Tidy (loadHash hash pg).2.
Proof.
  intros HT. unfold loadHash. destruct (_ && _); [| exact HT].
  assert (H1 : Tidy (showSection hash pg)) by apply Tidy_showSection, HT.
  destruct (linkTo _ _) as [link |] eqn:Hl; [| exact H1].
  apply Tidy_updateActiveNavLink; [exact H1 |].
  intros l n [= <-] Hn. left. eapply linkTo_href; eassumption.
Qed.

Lemma Tidy_click target pg : Tidy pg -> Tidy (click target pg).
Proof.
  intros HT. unfold click.
  set (pg1 := foldl _ pg _).
  assert (H1 : Tidy pg1).
  { subst pg1. apply (foldl_invariant Tidy); [| exact HT].
    intros pg' link HT'. destruct (containsNode _ _ _); [| exact HT'].
    apply Tidy_handleNavigation, HT'. }
  set (pg2 := match menuToggle (elements pg1) with Some _ => _ | None => pg1 end).
  assert (H2 : Tidy pg2).
  { subst pg2. destruct (menuToggle _); [| exact H1].
    destruct (containsNode _ _ _); [| exact H1].
    apply Tidy_toggleMobileMenu, H1. }
  apply Tidy_handleOutsideClick, H2.
Qed.

Lemma Tidy_adjustMobileAnimations pg : Tidy pg -> Tidy (adjustMobileAnimations pg).
Proof.
  unfold adjustMobileAnimations. apply Tidy_forEach. intros i item pg' HT.
  apply Tidy_updNode; [| exact HT]. intros n _.
  apply (tame_compose (addClass "fade-in")
           (fun n' => removeClass "slide-in-right" (removeClass "slide-in-left" n'))).
  - apply (tame_compose (removeClass "slide-in-right") (removeClass "slide-in-left"));
      apply tame_removeClass; discriminate.
  - apply tame_addClass; discriminate.
Qed.

Lemma Tidy_handleResize pg : Tidy pg -> Tidy (handleResize pg).2.
Proof.
  intros HT. unfold handleResize. apply Tidy_andThen.
  - destruct (_ && _); [apply Tidy_closeMobileMenu |]; exact HT.
  - intros pg' HT'. unfold pure, recalculateAnimations. cbn [snd].
    set (pg1 := set_state _ pg').
    assert (H1 : Tidy pg1) by (apply Tidy_set_state, HT').
    destruct (_ <=? _); [apply Tidy_adjustMobileAnimations |]; exact H1.
Qed.

Lemma Tidy_step ev pg : Tidy pg -> Tidy (step ev pg).
Proof.
  intros HT. destruct ev; cbn [step].
  - apply Tidy_click, HT.
  - apply Tidy_loadHash, Tidy_set_url, HT.
  - apply Tidy_handleKeyNavigation, HT.
  - unfold debouncedResize.
    apply Tidy_setTimeout, Tidy_set_timers, Tidy_set_innerWidth, HT.
  - case_bool_decide; [| exact HT]. unfold observeEntry.
    destruct (_ && _); [| exact HT].
    apply Tidy_set_state, Tidy_animateElement, HT.
  - destruct (nextTimer (timers pg)) as [[k [due cb]] |]; [| exact HT].
    set (pg1 := set_now _ _).
    assert (H1 : Tidy pg1) by (apply Tidy_set_now, Tidy_set_timers, HT).
    destruct cb; cbn [runTimer pure snd].
    + apply Tidy_animateElement, H1.
    + apply Tidy_animateSkillBars, H1.
    + apply Tidy_updNode; [intros; apply tame_setWidth | exact H1].
    + apply Tidy_updNode; [intros; apply tame_setStyle |].
      apply Tidy_updNode; [intros; apply tame_setStyle | exact H1].
    + apply Tidy_handleResize, H1.
    + destruct (loadingSpinner (elements pg1)); cbn [snd]; [| exact H1].
      apply Tidy_updNode; [| exact H1].
      intros. apply tame_removeClass; discriminate.
Qed.

Lemma Tidy_run evs pg : Tidy pg -> Tidy (run evs pg).
Proof.
  revert pg. induction evs as [| ev evs IH]; intros pg HT; [exact HT |].
  cbn. apply IH, Tidy_step, HT.
Qed.

End TidyFacts.

(** * Reveal animations and the seen-set *)

Section SeenSet.

Import CVApp.

Lemma Frame_refl pg : Frame pg pg.
Proof. split; auto. Qed.

Lemma Frame_trans pg1 pg2 pg3 : Frame pg1 pg2 -> Frame pg2 pg3 -> Frame pg1 pg3.
Proof.
  intros [S1 L1 T1] [S2 L2 T2]. split.
  - congruence.
  - intros h. rewrite L2. apply L1.
  - auto.
Qed.

Lemma Frame_same pg0 pg pg' :
  hasAnimated (state pg') = hasAnimated (state pg) ->
  animationLog pg' = animationLog pg ->
  timers pg' = timers pg ->
  Frame pg0 pg -> Frame pg0 pg'.
Proof.
  intros Hs Hl Ht [S L T]. split.
  - congruence.
  - intros h. unfold applications in *. rewrite Hl. apply L.
  - unfold quietResize in *. rewrite Ht. exact T.
Qed.

Lemma Frame_updNode pg0 pg h f : Frame pg0 pg -> Frame pg0 (updNode h f pg).
Proof. apply Frame_same; reflexivity. Qed.

Lemma Frame_set_state pg0 pg st :
  hasAnimated st = hasAnimated (state pg) ->
  Frame pg0 pg -> Frame pg0 (set_state st pg).
Proof. intros Hst. apply Frame_same; [exact Hst | reflexivity | reflexivity]. Qed.

Lemma Frame_set_bodyOverflow pg0 pg v :
  Frame pg0 pg -> Frame pg0 (set_bodyOverflow v pg).
Proof. apply Frame_same; reflexivity. Qed.

Lemma Frame_set_url pg0 pg v : Frame pg0 pg -> Frame pg0 (set_url v pg).
Proof. apply Frame_same; reflexivity. Qed.

Lemma Frame_set_observed pg0 pg v : Frame pg0 pg -> Frame pg0 (set_observed v pg).
Proof. apply Frame_same; reflexivity. Qed.

Lemma Frame_set_announcer pg0 pg v : Frame pg0 pg -> Frame pg0 (set_announcer v pg).
Proof. apply Frame_same; reflexivity. Qed.

Lemma Frame_setTimeout pg0 pg cb delay :
  isResizeSettled (0, cb) = false ->
  Frame pg0 pg -> Frame pg0 (setTimeout cb delay pg).
Proof.
  intros Hcb [S L T]. split; [exact S | exact L |].
  intros Hq. unfold quietResize, setTimeout. cbn.
  apply Forall_app. split; [apply T, Hq |]. repeat constructor. exact Hcb.
Qed.

Lemma Frame_updateURL pg0 pg i : Frame pg0 pg -> Frame pg0 (updateURL i pg).
Proof.
  unfold updateURL. cbn. destruct (announcer pg); apply Frame_same; reflexivity.
Qed.

Lemma Frame_forEach {A : Type} pg0 (f : nat -> A -> Page -> Page) l pg :
  (forall i a pg', Frame pg0 pg' -> Frame pg0 (f i a pg')) ->
  Frame pg0 pg -> Frame pg0 (forEach f l pg).
Proof. intros Hf. apply (forEach_invariant (Frame pg0)). exact Hf. Qed.

Lemma Frame_animateSection pg0 pg section :
  Frame pg0 pg -> Frame pg0 (animateSection section pg).
Proof.
  unfold animateSection. apply Frame_forEach. intros i a pg'.
  apply Frame_setTimeout. reflexivity.
Qed.

Lemma Frame_showSection pg0 pg i : Frame pg0 pg -> Frame pg0 (showSection i pg).
Proof.
  intros HF. unfold showSection.
  set (pg1 := match activeSection (nodes pg) with
              | Some current => _ | None => pg end).
  assert (H1 : Frame pg0 pg1)
    by (subst pg1; destruct (activeSection (nodes pg));
        [apply Frame_updNode |]; exact HF).
  destruct (getElementById (nodes pg1) i); [| exact H1].
  apply Frame_updateURL, Frame_animateSection.
  apply Frame_set_state; [reflexivity |].
  apply Frame_updNode, H1.
Qed.

Lemma applications_snoc by_ h pg e :
  applications by_ h (set_animationLog (animationLog pg ++ [e]) pg)
  = applications by_ h pg + (if decide (e = (by_, h)) then 1 else 0).
Proof.
  unfold applications. cbn. rewrite filter_app, length_app. f_equal.
  rewrite filter_cons, filter_nil. destruct (decide (e = (by_, h))); reflexivity.
Qed.

Lemma Frame_animateElement_bySection pg0 pg element :
  Frame pg0 pg -> Frame pg0 (animateElement bySection element pg).
Proof.
  intros HF. unfold animateElement.
  set (pg1 := set_animationLog _ _).
  assert (H1 : Frame pg0 pg1).
  { subst pg1. destruct HF as [S L T]. split; [exact S | | exact T].
    intros h.
    change (nodes (updNode element (addClass (getAnimationClass (nodes pg) element)) pg))
      with (alter (addClass (getAnimationClass (nodes pg) element)) element (nodes pg)).
    rewrite <- L.
    pose proof (applications_snoc byObserver h
      (updNode element (addClass (getAnimationClass (nodes pg) element)) pg)
      (bySection, element)) as Hs.
    cbn [animationLog updNode set_nodes] in Hs.
    rewrite decide_False in Hs by discriminate.
    unfold applications in *. cbn in *. lia. }
  destruct (querySelectorAllIn _ _ _); [exact H1 |].
  apply Frame_setTimeout; [reflexivity | exact H1].
Qed.

Lemma Frame_animateSkillBars pg0 pg bars :
  Frame pg0 pg -> Frame pg0 (animateSkillBars bars pg).
Proof.
  unfold animateSkillBars. apply Frame_forEach. intros i a pg' HF.
  destruct (_ ≫= _); [| exact HF].
  case_bool_decide; [exact HF |].
  apply Frame_setTimeout; [reflexivity | exact HF].
Qed.

Lemma Keeps_pure pg0 (f : Page -> Page) :
  (forall pg, Frame pg0 pg -> Frame pg0 (f pg)) -> Keeps pg0 (pure f).
Proof. intros Hf pg. apply Hf. Qed.

Lemma Keeps_throw pg0 e : Keeps pg0 (throw e).
Proof. intros pg HF. exact HF. Qed.

Lemma Keeps_andThen pg0 (m1 m2 : Run Page) :
  Keeps pg0 m1 -> Keeps pg0 m2 -> Keeps pg0 (m1 >> m2).
Proof.
  intros H1 H2 pg HF. unfold andThen. specialize (H1 pg HF).
  destruct (m1 pg) as [[[] | e] pg1]; cbn in *; [apply H2, H1 | exact H1].
Qed.

Lemma Keeps_updateActiveNavLink pg0 link : Keeps pg0 (updateActiveNavLink link).
Proof.
  unfold updateActiveNavLink. apply Keeps_andThen.
  - apply Keeps_pure. intros pg. apply Frame_forEach. intros i a pg'.
    apply Frame_updNode.
  - destruct link; [apply Keeps_pure; intros pg; apply Frame_updNode
                   | apply Keeps_throw].
Qed.

Lemma Keeps_closeMobileMenu pg0 : Keeps pg0 closeMobileMenu.
Proof.
  intros pg HF. unfold closeMobileMenu.
  destruct (navMenu (elements pg)); [| exact HF].
  cbn [elements updNode set_nodes].
  destruct (menuToggle (elements pg)); cbn [snd].
  - apply Frame_set_state; [reflexivity |].
    apply Frame_set_bodyOverflow, Frame_updNode, Frame_updNode, HF.
  - apply Frame_updNode, HF.
Qed.

Lemma Keeps_openMobileMenu pg0 : Keeps pg0 openMobileMenu.
Proof.
  intros pg HF. unfold openMobileMenu.
  destruct (navMenu (elements pg)); [| exact HF].
  cbn [elements updNode set_nodes].
  destruct (menuToggle (elements pg)); cbn [snd].
  - apply Frame_forEach.
    + intros i a pg'. apply Frame_setTimeout. reflexivity.
    + apply Frame_set_bodyOverflow, Frame_updNode, Frame_updNode, HF.
  - apply Frame_updNode, HF.
Qed.

Lemma Keeps_toggleMobileMenu pg0 : Keeps pg0 toggleMobileMenu.
Proof.
  intros pg HF. unfold toggleMobileMenu.
  set (pg1 := set_state _ pg).
  assert (H1 : Frame pg0 pg1)
    by (apply Frame_set_state; [reflexivity | exact HF]).
  destruct (isMenuOpen (state pg1));
    [apply Keeps_openMobileMenu | apply Keeps_closeMobileMenu]; exact H1.
Qed.

Lemma Keeps_handleOutsideClick pg0 target : Keeps pg0 (handleOutsideClick target).
Proof.
  intros pg HF. unfold handleOutsideClick.
  destruct (negb _); [exact HF |].
  destruct (navMenu _); [| exact HF].
  destruct (containsNode _ _ _); [exact HF |].
  destruct (menuToggle _); [| exact HF].
  destruct (containsNode _ _ _); [exact HF |].
  apply Keeps_closeMobileMenu, HF.
Qed.

Lemma Keeps_handleNavigation pg0 target : Keeps pg0 (handleNavigation target).
Proof.
  intros pg HF. unfold handleNavigation.
  destruct (_ ≫= _); [| exact HF].
  destruct (_ && _); [| exact HF].
  revert pg HF. apply Keeps_andThen; [| apply Keeps_andThen].
  - apply Keeps_pure. intros pg. apply Frame_showSection.
  - apply Keeps_updateActiveNavLink.
  - apply Keeps_closeMobileMenu.
Qed.

Lemma Keeps_handleKeyNavigation pg0 key altKey :
  Keeps pg0 (handleKeyNavigation key altKey).
Proof.
  unfold handleKeyNavigation. apply Keeps_andThen.
  - intros pg HF. destruct (_ && _); [apply Keeps_closeMobileMenu |]; exact HF.
  - intros pg HF. destruct (negb altKey); [exact HF |].
    assert (Hgo : forall k,
      Frame pg0
        (match sections (elements pg) !! k with
         | Some sec =>
             (pure (showSection (sectionId (nodes pg) sec)) >>
              updateActiveNavLink (navLinks (elements pg) !! k)) pg
         | None =>
             (Throw (TypeError "Cannot read properties of undefined (reading 'id')"), pg)
         end).2).
    { intros k. destruct (sections (elements pg) !! k); [| exact HF].
      apply (Keeps_andThen pg0 (pure (showSection _)) (updateActiveNavLink _));
        [| apply Keeps_updateActiveNavLink | exact HF].
      apply Keeps_pure. intros pg'. apply Frame_showSection. }
    cbv zeta. destruct (_ && _); [apply Hgo |].
    destruct (_ && _); [apply Hgo | exact HF].
Qed.

Lemma Keeps_loadHash pg0 hash : Keeps pg0 (loadHash hash).
Proof.
  intros pg HF. unfold loadHash. destruct (_ && _); [| exact HF].
  destruct (linkTo _ _).
  - apply Keeps_updateActiveNavLink, Frame_showSection, HF.
  - apply Frame_showSection, HF.
Qed.

Lemma Frame_click pg0 pg target : Frame pg0 pg -> Frame pg0 (click target pg).
Proof.
  intros HF. unfold click.
  set (pg1 := foldl _ pg _).
  assert (H1 : Frame pg0 pg1).
  { subst pg1. apply (foldl_invariant (Frame pg0)); [| exact HF].
    intros pg' link HF'. destruct (containsNode _ _ _); [| exact HF'].
    apply Keeps_handleNavigation, HF'. }
  set (pg2 := match menuToggle (elements pg1) with Some _ => _ | None => pg1 end).
  assert (H2 : Frame pg0 pg2).
  { subst pg2. destruct (menuToggle _); [| exact H1].
    destruct (containsNode _ _ _); [| exact H1].
    apply Keeps_toggleMobileMenu, H1. }
  apply Keeps_handleOutsideClick, H2.
Qed.

Lemma Seen_frame pg pg' : Seen pg -> Frame pg pg' -> Seen pg'.
Proof.
  intros [N R Q] [S L T]. split.
  - rewrite S. exact N.
  - intros h. rewrite L, S. apply R.
  - auto.
Qed.

Lemma Frame_animateElement_log by_ element pg :
  hasAnimated (state (animateElement by_ element pg)) = hasAnimated (state pg) /\
  (forall b h, applications b h (animateElement by_ element pg)
               = applications b h pg
                 + (if decide ((by_, element) = (b, h)) then 1 else 0)) /\
  (quietResize pg -> quietResize (animateElement by_ element pg)).
Proof.
  unfold animateElement. set (pg1 := set_animationLog _ _).
  assert (H1 : hasAnimated (state pg1) = hasAnimated (state pg) /\
    (forall b h, applications b h pg1
                 = applications b h pg
                   + (if decide ((by_, element) = (b, h)) then 1 else 0)) /\
    (quietResize pg -> quietResize pg1)).
  { subst pg1. split; [reflexivity |]. split; [| auto].
    intros b h.
    pose proof (applications_snoc b h
      (updNode element (addClass (getAnimationClass (nodes pg) element)) pg)
      (by_, element)) as Hs.
    exact Hs. }
  destruct (querySelectorAllIn _ _ _); [exact H1 |].
  destruct H1 as (S & L & T). split; [exact S |]. split; [exact L |].
  intros Hq. unfold quietResize, setTimeout. cbn. apply Forall_app.
  split; [apply T, Hq | repeat constructor].
Qed.

Lemma Seen_observeEntry pg target isIntersecting :
  Seen pg -> Seen (observeEntry target isIntersecting pg).
Proof.
  intros [N R Q]. unfold observeEntry.
  destruct (isIntersecting && negb (bool_decide (target ∈ hasAnimated (state pg))))
    eqn:E; [| split; assumption].
  apply andb_true_iff in E as [_ E]. apply negb_true_iff, bool_decide_eq_false in E.
  destruct (Frame_animateElement_log byObserver target pg) as (S & L & T).
  set (pg1 := animateElement byObserver target pg) in *.
  split; cbn [state set_state hasAnimated set_hasAnimated].
  - rewrite S. apply NoDup_setAdd, N.
  - intros h.
    change (applications byObserver h (set_state _ pg1))
      with (applications byObserver h pg1).
    rewrite L, S. specialize (R h). unfold setAdd.
    rewrite (bool_decide_eq_false_2 _ E).
    destruct (decide ((byObserver, target) = (byObserver, h))) as [[= <-] | Hne].
    + rewrite (bool_decide_eq_false_2 _ E) in R.
      rewrite bool_decide_eq_true_2 by (apply elem_of_app; right; constructor). lia.
    + assert (Hh : h <> target) by congruence.
      rewrite (bool_decide_ext (h ∈ hasAnimated (state pg) ++ [target])
                 (h ∈ hasAnimated (state pg))).
      * lia.
      * rewrite elem_of_app, list_elem_of_singleton. tauto.
  - apply T, Q.
Qed.

Lemma Seen_step ev pg : isResize ev = false -> Seen pg -> Seen (step ev pg).
Proof.
  intros Hev HS. destruct ev; cbn [step]; try discriminate.
  - eapply Seen_frame; [exact HS |]. apply Frame_click, Frame_refl.
  - eapply Seen_frame; [exact HS |]. apply Keeps_loadHash.
    apply Frame_set_url, Frame_refl.
  - eapply Seen_frame; [exact HS |]. apply Keeps_handleKeyNavigation, Frame_refl.
  - case_bool_decide; [apply Seen_observeEntry |]; exact HS.
  - destruct (nextTimer (timers pg)) as [[k [due cb]] |] eqn:E; [| exact HS].
    pose proof (nextTimer_Some _ _ _ E) as Hk.
    set (pg1 := set_now _ _).
    assert (HS1 : Seen pg1).
    { eapply Seen_frame; [exact HS |]. split; [reflexivity | reflexivity |].
      intros Hq. unfold quietResize. cbn. apply Forall_delete. exact Hq. }
    assert (Hcb : isResizeSettled (due, cb) = false).
    { destruct HS as [_ _ Q]. unfold quietResize in Q.
      apply (proj1 (Forall_forall _ _) Q), list_elem_of_lookup. eauto. }
    eapply Seen_frame; [exact HS1 |].
    destruct cb; cbn [runTimer pure snd]; try discriminate.
    + apply Frame_animateElement_bySection, Frame_refl.
    + apply Frame_animateSkillBars, Frame_refl.
    + apply Frame_updNode, Frame_refl.
    + apply Frame_updNode, Frame_updNode, Frame_refl.
    + destruct (loadingSpinner (elements pg1)); cbn [snd];
        [apply Frame_updNode |]; apply Frame_refl.
Qed.

Lemma Seen_run evs pg :
  Forall (fun ev => isResize ev = false) evs -> Seen pg -> Seen (run evs pg).
Proof.
  intros Hevs. revert pg. induction Hevs as [| ev evs Hev _ IH]; intros pg HS;
    [exact HS |].
  cbn. apply IH, Seen_step; assumption.
Qed.

Lemma Seen_domContentLoaded ns width hash :
  Seen (domContentLoaded (loaded ns width hash)).2.
Proof.
  unfold domContentLoaded, andThen, pure. cbn [fst snd].
  set (pg0 := set_state (mkState "perfil" false [])
                (set_elements (queryElements ns) (loaded ns width hash))).
  assert (H0 : Seen pg0) by (split; [constructor | intros h; reflexivity | constructor]).
  eapply Seen_frame; [exact H0 |].
  apply Keeps_loadHash. unfold constructor.
  change (set_state (mkState "perfil" false [])
            (set_elements (queryElements (nodes (loaded ns width hash)))
               (loaded ns width hash))) with pg0.
  assert (H1 : Frame pg0 (showLoadingSpinner pg0)).
  { unfold showLoadingSpinner. destruct (loadingSpinner (elements pg0));
      [apply Frame_updNode |]; apply Frame_refl. }
  assert (H2 : Frame pg0 (initializeComponents (showLoadingSpinner pg0))).
  { unfold initializeComponents, setupAccessibility.
    apply Frame_set_announcer.
    apply Frame_forEach; [intros; apply Frame_updNode; assumption |].
    unfold initializeSkillBars.
    apply Frame_forEach; [intros; apply Frame_updNode; assumption |].
    unfold setupIntersectionObserver.
    apply Frame_set_observed, Frame_showSection, H1. }
  unfold hideLoadingSpinner.
  destruct (loadingSpinner (elements (initializeComponents (showLoadingSpinner pg0))));
    [apply Frame_setTimeout; [reflexivity |] |]; exact H2.
Qed.

Lemma hasAnimated_adjustMobileAnimations pg :
  hasAnimated (state (adjustMobileAnimations pg)) = hasAnimated (state pg).
Proof.
  unfold adjustMobileAnimations.
  apply (frame_seen pg), Frame_forEach; [| apply Frame_refl].
  intros i a pg'. apply Frame_updNode.
Qed.

(** The seen-set has no second entry, whatever the event. *)
Lemma NoDup_step ev pg :
  NoDup (hasAnimated (state pg)) -> NoDup (hasAnimated (state (step ev pg))).
Proof.
  intros N. destruct ev; cbn [step].
  - rewrite (frame_seen pg _ (Frame_click pg pg target (Frame_refl pg))). exact N.
  - rewrite (frame_seen pg _
               (Keeps_loadHash pg hash _ (Frame_set_url pg pg _ (Frame_refl pg)))).
    exact N.
  - rewrite (frame_seen pg _
               (Keeps_handleKeyNavigation pg key altKey pg (Frame_refl pg))).
    exact N.
  - exact N.
  - case_bool_decide; [| exact N]. unfold observeEntry.
    destruct (_ && _); [| exact N].
    cbn [state set_state hasAnimated set_hasAnimated].
    apply NoDup_setAdd.
    destruct (Frame_animateElement_log byObserver target pg) as (-> & _). exact N.
  - destruct (nextTimer (timers pg)) as [[k [due cb]] |]; [| exact N].
    set (pg1 := set_now _ _).
    assert (N1 : NoDup (hasAnimated (state pg1))) by exact N.
    destruct cb; cbn [runTimer pure snd].
    + rewrite (frame_seen pg1 _
                 (Frame_animateElement_bySection pg1 pg1 element (Frame_refl pg1))).
      exact N1.
    + rewrite (frame_seen pg1 _
                 (Frame_animateSkillBars pg1 pg1 bars (Frame_refl pg1))).
      exact N1.
    + exact N1.
    + exact N1.
    + unfold handleResize, andThen.
      destruct ((if (768 <? innerWidth pg1) && isMenuOpen (state pg1)
                 then closeMobileMenu else pure (fun pg' => pg')) pg1)
        as [[[] | e] pg2] eqn:E; cbn [snd].
      * unfold pure, recalculateAnimations. cbn [snd].
        destruct (_ <=? _); [rewrite hasAnimated_adjustMobileAnimations |];
          cbn; constructor.
      * assert (HF : Frame pg1 pg2).
        { destruct (_ && _).
          - pose proof (Keeps_closeMobileMenu pg1 pg1 (Frame_refl pg1)) as HK.
            rewrite E in HK. exact HK.
          - injection E as _ <-. apply Frame_refl. }
        rewrite (frame_seen _ _ HF). exact N1.
    + destruct (loadingSpinner (elements pg1)); exact N1.
Qed.

Lemma NoDup_run evs pg :
  NoDup (hasAnimated (state pg)) -> NoDup (hasAnimated (state (run evs pg))).
Proof.
  revert pg. induction evs as [| ev evs IH]; intros pg N; [exact N |].
  cbn. apply IH, NoDup_step, N.
Qed.

End SeenSet.

(** * The resize handler and the mobile menu *)

Section ResizeFacts.

Import CVApp.

Lemma hasClass_addClass_ne c c' n :
  c <> c' -> hasClass c (addClass c' n) = hasClass c n.
Proof.
  intros. unfold hasClass, addClass. cbn [classList].
  apply contains_classAdd_ne. assumption.
Qed.

Lemma hasClass_removeClass_ne c c' n :
  c <> c' -> hasClass c (removeClass c' n) = hasClass c n.
Proof.
  intros. unfold hasClass, removeClass. cbn [classList].
  apply contains_classRemove_ne. assumption.
Qed.

Lemma nodeHasClass_alter_keeps ns h f k c :
  (forall n, hasClass c (f n) = hasClass c n) ->
  nodeHasClass (alter f h ns) k c = nodeHasClass ns k c.
Proof.
  intros Hf. unfold nodeHasClass. rewrite list_lookup_alter.
  case_decide; [subst |]; [| reflexivity].
  destruct (ns !! k); cbn; [apply Hf | reflexivity].
Qed.

Lemma active_adjustMobileAnimations pg k :
  nodeHasClass (nodes (adjustMobileAnimations pg)) k "active"
  = nodeHasClass (nodes pg) k "active".
Proof.
  unfold adjustMobileAnimations.
  apply (forEach_invariant
           (fun pg' => nodeHasClass (nodes pg') k "active"
                       = nodeHasClass (nodes pg) k "active"));
    [| reflexivity].
  intros i item pg' IH. rewrite <- IH. cbn.
  apply nodeHasClass_alter_keeps. intros n.
  rewrite hasClass_addClass_ne, !hasClass_removeClass_ne by discriminate.
  reflexivity.
Qed.

Lemma state_adjustMobileAnimations pg :
  state (adjustMobileAnimations pg) = state pg.
Proof.
  unfold adjustMobileAnimations.
  apply (forEach_invariant (fun pg' => state pg' = state pg)); [| reflexivity].
  intros i item pg' IH. exact IH.
Qed.

End ResizeFacts.

(** C7, as stated, fails: with the menu open at a width of 1200, a
    resize to 600 followed by the debounced handler leaves the menu open
    (the handler closes it only at widths above 768). *)
Lemma resize_to_600_leaves_menu_open :
  CVApp.isMenuOpen (CVApp.state Demo.menuOpen) = true /\
  CVApp.innerWidth Demo.menuOpen = 1200 /\
  CVApp.nodeHasClass (CVApp.nodes Demo.menuOpen) 0 "active" = true /\
  (let pg :=
     CVApp.run [CVApp.Resize 600; CVApp.TimerFires; CVApp.TimerFires;
                CVApp.TimerFires; CVApp.TimerFires] Demo.menuOpen in
   CVApp.innerWidth pg = 600 /\
   CVApp.timers pg = [] /\
   CVApp.isMenuOpen (CVApp.state pg) = true /\
   CVApp.nodeHasClass (CVApp.nodes pg) 0 "active" = true) /\
  CVApp.isMenuOpen
    (CVApp.state (CVApp.handleResize (CVApp.set_innerWidth 600 Demo.menuOpen)).2)
  = true.
Proof. vm_compute. repeat split. Qed.

(** C7, amended. With the mobile menu open, the resize handler closes
    it ([isMenuOpen] becomes false and the menu loses its [active] class)
    when the viewport width it finds is greater than 768, as after a
    resize from 600 to 1200; at a width of 768 or less, as after a resize
    from 1200 to 600, it leaves the menu open. *)
Theorem resize_closes_menu_when_wide
    (pg : CVApp.Page) (menu toggle : nat) :
  CVApp.isMenuOpen (CVApp.state pg) = true ->
  CVApp.navMenu (CVApp.elements pg) = Some menu ->
  CVApp.menuToggle (CVApp.elements pg) = Some toggle ->
  let pg' := (CVApp.handleResize pg).2 in
  (CVApp.handleResize pg).1 = Normal tt /\
  (768 < CVApp.innerWidth pg ->
     CVApp.isMenuOpen (CVApp.state pg') = false /\
     CVApp.nodeHasClass (CVApp.nodes pg') menu "active" = false) /\
  (CVApp.innerWidth pg <= 768 ->
     CVApp.isMenuOpen (CVApp.state pg') = true /\
     CVApp.nodeHasClass (CVApp.nodes pg') menu "active"
     = CVApp.nodeHasClass (CVApp.nodes pg) menu "active").
Proof.
  intros Hopen Hmenu Htoggle. cbv zeta.
  unfold CVApp.handleResize, andThen. rewrite Hopen, andb_true_r.
  destruct (768 <? CVApp.innerWidth pg) eqn:Hw.
  - apply Nat.ltb_lt in Hw.
    unfold CVApp.closeMobileMenu. rewrite Hmenu.
    cbn [CVApp.elements CVApp.updNode CVApp.set_nodes]. rewrite Htoggle.
    unfold pure, CVApp.recalculateAnimations.
    cbn [fst snd CVApp.innerWidth CVApp.set_state CVApp.set_bodyOverflow
         CVApp.updNode CVApp.set_nodes].
    assert ((CVApp.innerWidth pg <=? 768) = false) as -> by (apply Nat.leb_gt; lia).
    split; [reflexivity |]. split; [| intros; lia].
    intros _. cbn. split; [reflexivity |].
    rewrite nodeHasClass_alter_keeps by reflexivity.
    unfold CVApp.nodeHasClass. rewrite list_lookup_alter, decide_True by reflexivity.
    destruct (CVApp.nodes pg !! menu); [| reflexivity]. cbn.
    apply contains_classRemove.
  - apply Nat.ltb_ge in Hw.
    unfold pure, CVApp.recalculateAnimations.
    cbn [fst snd CVApp.innerWidth CVApp.set_state].
    assert ((CVApp.innerWidth pg <=? 768) = true) as -> by (apply Nat.leb_le; lia).
    split; [reflexivity |]. split; [intros; lia |].
    intros _. rewrite state_adjustMobileAnimations, active_adjustMobileAnimations.
    cbn. split; [exact Hopen | reflexivity].
Qed.

Lemma resize_closes_menu_when_wide_witness :
  CVApp.isMenuOpen (CVApp.state (CVApp.set_innerWidth 1200 Demo.menuOpen)) = true /\
  768 < CVApp.innerWidth (CVApp.set_innerWidth 1200 Demo.menuOpen) /\
  CVApp.isMenuOpen
    (CVApp.state
       (CVApp.handleResize (CVApp.set_innerWidth 1200 Demo.menuOpen)).2) = false.
Proof.
  split; [reflexivity |]. split; [cbn; lia |].
  refine (proj1 (proj1 (proj2
    (resize_closes_menu_when_wide
       (CVApp.set_innerWidth 1200 Demo.menuOpen) 0 3 _ _ _)) _)).
  - reflexivity.
  - reflexivity.
  - reflexivity.
  - cbn. lia.
Defined.

(** * Highlighting of the nav links *)

Section NavigationFacts.

Import CVApp.

Lemma selectFrom_alter p j ns h f :
  (forall n, ns !! h = Some n -> p (j + h) (f n) = p (j + h) n) ->
  selectFrom p j (alter f h ns) = selectFrom p j ns.
Proof.
  revert j h. induction ns as [| n ns IH]; intros j h Hp; [reflexivity |].
  destruct h as [| h]; cbn [alter list_alter].
  - rewrite !selectFrom_cons. rewrite <- (Nat.add_0_r j) at 1 3.
    rewrite (Hp n eq_refl). reflexivity.
  - rewrite !selectFrom_cons. f_equal. apply IH. intros n' Hn'.
    replace (S j + h) with (j + S h) by lia. apply Hp. exact Hn'.
Qed.

Lemma selectAll_alter p ns h f :
  (forall n, ns !! h = Some n -> p h (f n) = p h n) ->
  selectAll p (alter f h ns) = selectAll p ns.
Proof. intros Hp. rewrite !selectAll_selectFrom. apply selectFrom_alter, Hp. Qed.

Lemma activeSections_updNode pg h f :
  (forall n, nodes pg !! h = Some n -> isActiveSection (f n) = isActiveSection n) ->
  activeSections (updNode h f pg) = activeSections pg.
Proof.
  intros Hf. unfold activeSections, updNode. cbn [nodes set_nodes].
  apply selectAll_alter, Hf.
Qed.

Lemma removeClass_idem c n : removeClass c (removeClass c n) = removeClass c n.
Proof.
  unfold removeClass. cbn. f_equal. unfold classRemove.
  induction (classList n) as [| x l IH]; [reflexivity |].
  rewrite filter_cons. case_decide as Hx; [| exact IH].
  rewrite filter_cons, decide_True by exact Hx. f_equal. exact IH.
Qed.

(** Updating every node of a list with an idempotent update. *)
Lemma nodes_forEach_updNode (g : Node -> Node) ls pg h :
  (forall n, g (g n) = g n) ->
  nodes (forEach (fun _ l pg' => updNode l g pg') ls pg) !! h
  = (if bool_decide (h ∈ ls) then g else (fun n => n)) <$> (nodes pg !! h).
Proof.
  intros Hg. induction ls as [| x ls IH] using rev_ind.
  - cbn. destruct (nodes pg !! h); reflexivity.
  - rewrite forEach_snoc. cbn [updNode nodes set_nodes].
    rewrite list_lookup_alter. destruct (decide (x = h)) as [-> | Hne].
    + rewrite IH. rewrite (bool_decide_eq_true_2 (h ∈ ls ++ [h]))
        by (apply elem_of_app; right; left).
      destruct (nodes pg !! h) as [n |]; [| reflexivity]. cbn.
      case_bool_decide; [rewrite Hg |]; reflexivity.
    + rewrite IH. rewrite (bool_decide_ext (h ∈ ls ++ [x]) (h ∈ ls)); [reflexivity |].
      rewrite elem_of_app, list_elem_of_singleton. intuition congruence.
Qed.

Lemma forEach_updNode_only_nodes (g : nat -> Node -> Node) (ls : list nat) pg :
  forEach (fun _ l pg' => updNode l (g l) pg') ls pg
  = set_nodes (nodes (forEach (fun _ l pg' => updNode l (g l) pg') ls pg)) pg.
Proof.
  apply (forEach_invariant (fun pg' => pg' = set_nodes (nodes pg') pg)).
  - intros i a pg' ->. reflexivity.
  - destruct pg. reflexivity.
Qed.


Lemma lookup_cleared pg h :
  nodes (cleared pg) !! h
  = (if bool_decide (h ∈ navLinks (elements pg))
     then removeClass "active" else (fun n => n)) <$> (nodes pg !! h).
Proof. apply nodes_forEach_updNode, removeClass_idem. Qed.

Lemma cleared_only_nodes pg : cleared pg = set_nodes (nodes (cleared pg)) pg.
Proof.
  apply (forEach_updNode_only_nodes (fun _ => removeClass "active")).
Qed.

Lemma length_cleared pg : length (nodes (cleared pg)) = length (nodes pg).
Proof.
  apply (forEach_invariant (fun pg' => length (nodes pg') = length (nodes pg)));
    [| reflexivity].
  intros i a pg' H. cbn. rewrite length_alter. exact H.
Qed.

Lemma active_cleared pg l :
  nodeHasClass (nodes (cleared pg)) l "active"
  = if bool_decide (l ∈ navLinks (elements pg)) then false
    else nodeHasClass (nodes pg) l "active".
Proof.
  unfold nodeHasClass. rewrite lookup_cleared.
  destruct (nodes pg !! l) as [n |]; cbn; [| case_bool_decide; reflexivity].
  case_bool_decide; [| reflexivity].
  unfold hasClass. cbn. apply contains_classRemove.
Qed.

Lemma class_cleared pg h c :
  c <> "active" ->
  nodeHasClass (nodes (cleared pg)) h c = nodeHasClass (nodes pg) h c.
Proof.
  intros Hc. unfold nodeHasClass. rewrite lookup_cleared.
  destruct (nodes pg !! h) as [n |]; cbn; [| reflexivity].
  case_bool_decide; [| reflexivity].
  unfold hasClass. cbn. apply contains_classRemove_ne, Hc.
Qed.

Lemma updateActiveNavLink_Some link pg :
  updateActiveNavLink (Some link) pg
  = (Normal tt, updNode link (addClass "active") (cleared pg)).
Proof. reflexivity. Qed.

Lemma updateActiveNavLink_None pg :
  updateActiveNavLink None pg
  = (Throw (TypeError "Cannot read properties of undefined (reading 'classList')"),
     cleared pg).
Proof. reflexivity. Qed.

Lemma active_highlighted pg link l :
  is_Some (nodes pg !! link) ->
  l ∈ link :: navLinks (elements pg) ->
  nodeHasClass (nodes (updNode link (addClass "active") (cleared pg))) l "active"
  = bool_decide (l = link).
Proof.
  intros [n Hn] Hl. unfold nodeHasClass, updNode. cbn [nodes set_nodes].
  rewrite list_lookup_alter. destruct (decide (link = l)) as [<- | Hne].
  - rewrite lookup_cleared, Hn. rewrite (bool_decide_eq_true_2 (link = link))
      by reflexivity.
    destruct (bool_decide (link ∈ navLinks (elements pg))); cbn;
      unfold hasClass; cbn; apply contains_classAdd.
  - rewrite bool_decide_eq_false_2 by congruence.
    apply elem_of_cons in Hl as [-> | Hl]; [congruence |].
    pose proof (active_cleared pg l) as H. unfold nodeHasClass in H.
    rewrite bool_decide_eq_true_2 in H by exact Hl. exact H.
Qed.

End NavigationFacts.

(** X8. [updateActiveNavLink] leaves exactly the given link highlighted:
    the link carries the [active] class afterwards and no other nav link
    does; called without a link (an index past the nav links) it throws a
    [TypeError] after it has removed the highlight from every nav link. *)
Theorem updateActiveNavLink_highlights_one (pg : CVApp.Page) (link : nat) :
  is_Some (CVApp.nodes pg !! link) ->
  let r := CVApp.updateActiveNavLink (Some link) pg in
  let r0 := CVApp.updateActiveNavLink None pg in
  r.1 = Normal tt /\
  (forall l, l ∈ link :: CVApp.navLinks (CVApp.elements pg) ->
     CVApp.nodeHasClass (CVApp.nodes r.2) l "active" = bool_decide (l = link)) /\
  (exists msg, r0.1 = Throw (TypeError msg)) /\
  (forall l, l ∈ CVApp.navLinks (CVApp.elements pg) ->
     CVApp.nodeHasClass (CVApp.nodes r0.2) l "active" = false).
Proof.
  intros Hlink r r0. subst r r0.
  rewrite updateActiveNavLink_Some, updateActiveNavLink_None. cbn [fst snd].
  split; [reflexivity |]. split; [| split].
  - intros l Hl. apply active_highlighted; assumption.
  - eexists. reflexivity.
  - intros l Hl. rewrite active_cleared, bool_decide_eq_true_2 by exact Hl.
    reflexivity.
Qed.

Lemma updateActiveNavLink_highlights_one_witness :
  is_Some (CVApp.nodes Demo.started !! 2) /\
  CVApp.nodeHasClass
    (CVApp.nodes (CVApp.updateActiveNavLink (Some 2) Demo.started).2) 2 "active"
  = true /\
  CVApp.nodeHasClass
    (CVApp.nodes (CVApp.updateActiveNavLink (Some 2) Demo.started).2) 1 "active"
  = false.
Proof.
  assert (H : is_Some (CVApp.nodes Demo.started !! 2)) by (eexists; reflexivity).
  split; [exact H |].
  destruct (updateActiveNavLink_highlights_one Demo.started 2 H) as (_ & Hl & _).
  split.
  - apply (Hl 2). left.
  - apply (Hl 1). right. left.
Defined.

(** * What the handlers leave of the markup *)

(** Membership in the list of dynamic classes, and its negation. *)
Ltac dynamic_class :=
  unfold CVApp.dynamicClasses; repeat first [left | right].

Ltac static_class :=
  unfold CVApp.dynamicClasses, CVApp.scriptedAttributes;
  let H := fresh in
  intros H; repeat (apply elem_of_cons in H as [H | H]; [discriminate |]);
  inversion H.

Section MarkupFacts.

Import CVApp.

Lemma sameMarkup_refl n : sameMarkup n n.
Proof. split; auto. Qed.

Lemma sameMarkup_trans n1 n2 n3 :
  sameMarkup n1 n2 -> sameMarkup n2 n3 -> sameMarkup n1 n3.
Proof.
  intros [t1 i1 p1 a1 c1] [t2 i2 p2 a2 c2]. split; try congruence.
  - intros k Hk. rewrite a2, a1 by exact Hk. reflexivity.
  - intros c Hc. rewrite c2, c1 by exact Hc. reflexivity.
Qed.

Lemma cosmetic_addClass c : c ∈ dynamicClasses -> cosmetic (addClass c).
Proof.
  intros Hc n. split; try reflexivity. intros c' Hc'. unfold hasClass. cbn.
  apply contains_classAdd_ne. intros ->. contradiction.
Qed.

Lemma cosmetic_removeClass c : c ∈ dynamicClasses -> cosmetic (removeClass c).
Proof.
  intros Hc n. split; try reflexivity. intros c' Hc'. unfold hasClass. cbn.
  apply contains_classRemove_ne. intros ->. contradiction.
Qed.

Lemma cosmetic_setWidth v : cosmetic (setWidth v).
Proof.
  intros n. unfold setWidth. destruct (wholePercent v); split; reflexivity.
Qed.

Lemma cosmetic_setStyle k v : cosmetic (setStyle k v).
Proof. intros n. split; reflexivity. Qed.

Lemma cosmetic_setInnerHTML html : cosmetic (setInnerHTML html).
Proof. intros n. split; reflexivity. Qed.

Lemma cosmetic_tabindex v : cosmetic (setAttribute "tabindex" v).
Proof.
  intros n. split; try reflexivity. intros k Hk. cbn.
  apply lookup_insert_ne. intros <-. apply Hk. left.
Qed.

Lemma cosmetic_compose f g : cosmetic f -> cosmetic g -> cosmetic (fun n => f (g n)).
Proof. intros Hf Hg n. eapply sameMarkup_trans; [apply Hg | apply Hf]. Qed.

Lemma dynamic_getAnimationClass ns h : getAnimationClass ns h ∈ dynamicClasses.
Proof.
  pose proof (getAnimationClass_cases ns h) as H. unfold dynamicClasses.
  repeat (apply elem_of_cons in H as [-> | H]); [dynamic_class .. |].
  inversion H.
Qed.

(** ** Every handler is a sequence of cosmetic updates *)

Section Walk.

Variable I : Page -> Prop.
Hypothesis I_fields :
  forall pg pg', nodes pg' = nodes pg -> elements pg' = elements pg ->
                 I pg -> I pg'.
Hypothesis I_upd : forall pg h f, cosmetic f -> I pg -> I (updNode h f pg).

Lemma I_forEach {A} (f : nat -> A -> Page -> Page) l pg :
  (forall i a pg', I pg' -> I (f i a pg')) -> I pg -> I (forEach f l pg).
Proof. intros Hf. apply forEach_invariant. exact Hf. Qed.

Lemma I_setTimeout cb d pg : I pg -> I (setTimeout cb d pg).
Proof. apply I_fields; reflexivity. Qed.

Lemma I_set_state v pg : I pg -> I (set_state v pg).
Proof. apply I_fields; reflexivity. Qed.

Lemma I_set_animationLog v pg : I pg -> I (set_animationLog v pg).
Proof. apply I_fields; reflexivity. Qed.

Lemma I_set_announcer v pg : I pg -> I (set_announcer v pg).
Proof. apply I_fields; reflexivity. Qed.

Lemma I_set_observed v pg : I pg -> I (set_observed v pg).
Proof. apply I_fields; reflexivity. Qed.

Lemma I_set_bodyOverflow v pg : I pg -> I (set_bodyOverflow v pg).
Proof. apply I_fields; reflexivity. Qed.

Lemma I_set_url v pg : I pg -> I (set_url v pg).
Proof. apply I_fields; reflexivity. Qed.

Lemma I_set_timers v pg : I pg -> I (set_timers v pg).
Proof. apply I_fields; reflexivity. Qed.

Lemma I_set_now v pg : I pg -> I (set_now v pg).
Proof. apply I_fields; reflexivity. Qed.

Lemma I_set_innerWidth v pg : I pg -> I (set_innerWidth v pg).
Proof. apply I_fields; reflexivity. Qed.

Lemma I_updateURL i pg : I pg -> I (updateURL i pg).
Proof.
  apply I_fields.
  - apply nodes_updateURL.
  - apply elements_updateURL.
Qed.

Lemma I_animateSection section pg : I pg -> I (animateSection section pg).
Proof.
  apply I_fields.
  - apply nodes_animateSection.
  - apply elements_animateSection.
Qed.

Lemma I_showSection i pg : I pg -> I (showSection i pg).
Proof.
  intros H. unfold showSection.
  set (pg1 := match activeSection (nodes pg) with
              | Some current => _ | None => pg end).
  assert (H1 : I pg1).
  { subst pg1. destruct (activeSection (nodes pg)); [| exact H].
    apply I_upd; [apply cosmetic_removeClass; dynamic_class | exact H]. }
  destruct (getElementById (nodes pg1) i); [| exact H1].
  apply I_updateURL, I_animateSection, I_set_state.
  apply I_upd; [apply cosmetic_addClass; dynamic_class | exact H1].
Qed.

Lemma I_animateElement by_ element pg : I pg -> I (animateElement by_ element pg).
Proof.
  intros H. unfold animateElement. cbv zeta.
  set (pg1 := set_animationLog _ _).
  assert (H1 : I pg1).
  { subst pg1. apply I_set_animationLog.
    apply I_upd; [apply cosmetic_addClass, dynamic_getAnimationClass | exact H]. }
  destruct (querySelectorAllIn _ _ _); [exact H1 | apply I_setTimeout, H1].
Qed.

Lemma I_animateSkillBars bars pg : I pg -> I (animateSkillBars bars pg).
Proof.
  unfold animateSkillBars. apply I_forEach. intros i bar pg' H.
  destruct (_ ≫= _); [| exact H].
  case_bool_decide; [exact H | apply I_setTimeout, H].
Qed.

Lemma I_observeEntry target isIntersecting pg :
  I pg -> I (observeEntry target isIntersecting pg).
Proof.
  intros H. unfold observeEntry. destruct (_ && _); [| exact H].
  apply I_set_state, I_animateElement, H.
Qed.

Lemma I_updateActiveNavLink link pg : I pg -> I (updateActiveNavLink link pg).2.
Proof.
  intros H. assert (H1 : I (cleared pg)).
  { unfold cleared. apply I_forEach; [| exact H]. intros i a pg' H'.
    apply I_upd; [apply cosmetic_removeClass; dynamic_class | exact H']. }
  destruct link as [l |]; [| exact H1].
  rewrite updateActiveNavLink_Some. cbn [snd].
  apply I_upd; [apply cosmetic_addClass; dynamic_class | exact H1].
Qed.

Lemma I_closeMobileMenu pg : I pg -> I (closeMobileMenu pg).2.
Proof.
  intros H. unfold closeMobileMenu.
  destruct (navMenu (elements pg)) as [menu |]; [| exact H].
  cbn [elements updNode set_nodes].
  assert (H1 : I (updNode menu (removeClass "active") pg))
    by (apply I_upd; [apply cosmetic_removeClass; dynamic_class | exact H]).
  destruct (menuToggle (elements pg)); cbn [snd]; [| exact H1].
  apply I_set_state, I_set_bodyOverflow.
  apply I_upd; [apply cosmetic_setInnerHTML | exact H1].
Qed.

Lemma I_openMobileMenu pg : I pg -> I (openMobileMenu pg).2.
Proof.
  intros H. unfold openMobileMenu.
  destruct (navMenu (elements pg)) as [menu |]; [| exact H].
  cbn [elements updNode set_nodes].
  assert (H1 : I (updNode menu (addClass "active") pg))
    by (apply I_upd; [apply cosmetic_addClass; dynamic_class | exact H]).
  destruct (menuToggle (elements pg)); cbn [snd]; [| exact H1].
  apply I_forEach; [intros; apply I_setTimeout; assumption |].
  apply I_set_bodyOverflow.
  apply I_upd; [apply cosmetic_setInnerHTML | exact H1].
Qed.

Lemma I_toggleMobileMenu pg : I pg -> I (toggleMobileMenu pg).2.
Proof.
  intros H. unfold toggleMobileMenu. cbv zeta.
  set (pg1 := set_state _ pg).
  assert (H1 : I pg1) by (apply I_set_state, H).
  destruct (isMenuOpen (state pg1));
    [apply I_openMobileMenu | apply I_closeMobileMenu]; exact H1.
Qed.

Lemma I_handleOutsideClick target pg : I pg -> I (handleOutsideClick target pg).2.
Proof.
  intros H. unfold handleOutsideClick.
  destruct (negb _); [exact H |].
  destruct (navMenu (elements pg)); [| exact H].
  destruct (containsNode _ _ _); [exact H |].
  destruct (menuToggle (elements pg)); [| exact H].
  destruct (containsNode _ _ _); [exact H |].
  apply I_closeMobileMenu, H.
Qed.

Lemma I_andThen (m1 m2 : Run Page) pg :
  I (m1 pg).2 -> (forall pg', I pg' -> I (m2 pg').2) -> I ((m1 >> m2) pg).2.
Proof.
  intros H1 H2. unfold andThen. destruct (m1 pg) as [[u | e] pg1]; cbn in *; auto.
Qed.

Lemma I_handleNavigation target pg : I pg -> I (handleNavigation target pg).2.
Proof.
  intros H. unfold handleNavigation.
  destruct (_ ≫= _); [| exact H].
  destruct (_ && _); [| exact H].
  apply I_andThen; [apply I_showSection, H |]. intros pg1 H1.
  apply I_andThen; [apply I_updateActiveNavLink, H1 |]. intros pg2 H2.
  apply I_closeMobileMenu, H2.
Qed.

Lemma I_adjustMobileAnimations pg : I pg -> I (adjustMobileAnimations pg).
Proof.
  unfold adjustMobileAnimations. apply I_forEach. intros i a pg' H.
  apply I_upd; [| exact H].
  apply (cosmetic_compose (addClass "fade-in")
           (fun n => removeClass "slide-in-right" (removeClass "slide-in-left" n))).
  - apply cosmetic_addClass. dynamic_class.
  - apply (cosmetic_compose (removeClass "slide-in-right")
             (removeClass "slide-in-left"));
      apply cosmetic_removeClass; dynamic_class.
Qed.

Lemma I_handleResize pg : I pg -> I (handleResize pg).2.
Proof.
  intros H. unfold handleResize. apply I_andThen.
  - destruct (_ && _); [apply I_closeMobileMenu, H | exact H].
  - intros pg1 H1. unfold pure, recalculateAnimations. cbn [snd]. cbv zeta.
    set (pg2 := set_state _ pg1).
    assert (H2 : I pg2) by (apply I_set_state, H1).
    destruct (_ <=? _); [apply I_adjustMobileAnimations, H2 | exact H2].
Qed.

Lemma I_handleKeyNavigation key altKey pg :
  I pg -> I (handleKeyNavigation key altKey pg).2.
Proof.
  intros H. unfold handleKeyNavigation. apply I_andThen.
  - destruct (_ && _); [apply I_closeMobileMenu, H | exact H].
  - intros pg1 H1. destruct (negb altKey); [exact H1 |]. cbv zeta.
    assert (Hgo : forall k,
      I (match sections (elements pg1) !! k with
         | Some sec =>
             (pure (showSection (sectionId (nodes pg1) sec)) >>
              updateActiveNavLink (navLinks (elements pg1) !! k)) pg1
         | None =>
             (Throw (TypeError "Cannot read properties of undefined (reading 'id')"),
              pg1)
         end).2).
    { intros k. destruct (sections (elements pg1) !! k); [| exact H1].
      apply I_andThen; [apply I_showSection, H1 |].
      intros pg2 H2. apply I_updateActiveNavLink, H2. }
    destruct (_ && _); [apply Hgo |].
    destruct (_ && _); [apply Hgo | exact H1].
Qed.

Lemma I_loadHash hash pg : I pg -> I (loadHash hash pg).2.
Proof.
  intros H. unfold loadHash. destruct (_ && _); [| exact H]. cbv zeta.
  pose proof (I_showSection hash pg H) as H1.
  destruct (linkTo _ _); [apply I_updateActiveNavLink, H1 | exact H1].
Qed.

Lemma I_click target pg : I pg -> I (click target pg).
Proof.
  intros H. unfold click. cbv zeta.
  set (pg1 := foldl _ pg _).
  assert (H1 : I pg1).
  { subst pg1. apply foldl_invariant; [| exact H]. intros pg' link H'.
    destruct (containsNode _ _ _); [apply I_handleNavigation, H' | exact H']. }
  apply I_handleOutsideClick.
  destruct (menuToggle (elements pg1)); [| exact H1].
  destruct (containsNode _ _ _); [apply I_toggleMobileMenu, H1 | exact H1].
Qed.

Lemma I_runTimer cb pg : I pg -> I (runTimer cb pg).2.
Proof.
  intros H. destruct cb; cbn [runTimer pure snd].
  - apply I_animateElement, H.
  - apply I_animateSkillBars, H.
  - apply I_upd; [apply cosmetic_setWidth | exact H].
  - apply I_upd; [apply cosmetic_setStyle |].
    apply I_upd; [apply cosmetic_setStyle | exact H].
  - apply I_handleResize, H.
  - destruct (loadingSpinner (elements pg)); cbn [snd]; [| exact H].
    apply I_upd; [| exact H]. apply cosmetic_removeClass. dynamic_class.
Qed.

Lemma I_step ev pg : I pg -> I (step ev pg).
Proof.
  intros H. destruct ev; cbn [step].
  - apply I_click, H.
  - apply I_loadHash, I_set_url, H.
  - apply I_handleKeyNavigation, H.
  - unfold debouncedResize. apply I_setTimeout, I_set_timers, I_set_innerWidth, H.
  - case_bool_decide; [apply I_observeEntry, H | exact H].
  - destruct (nextTimer (timers pg)) as [[k [due cb]] |]; [| exact H].
    apply I_runTimer, I_set_now, I_set_timers, H.
Qed.

Lemma I_run evs pg : I pg -> I (run evs pg).
Proof.
  revert pg. induction evs as [| ev evs IH]; intros pg H; [exact H |].
  cbn. apply IH, I_step, H.
Qed.

Lemma I_initializeComponents pg : I pg -> I (initializeComponents pg).
Proof.
  intros H. unfold initializeComponents, setupAccessibility. cbv zeta.
  apply I_set_announcer.
  apply I_forEach.
  { intros i a pg' H'. apply I_upd; [apply cosmetic_tabindex | exact H']. }
  unfold initializeSkillBars. apply I_forEach.
  { intros i a pg' H'. apply I_upd; [apply cosmetic_setStyle | exact H']. }
  unfold setupIntersectionObserver.
  apply I_set_observed, I_showSection, H.
Qed.

Lemma I_constructor pg :
  I (set_state (mkState "perfil" false [])
       (set_elements (queryElements (nodes pg)) pg)) ->
  I (constructor pg).
Proof.
  intros H. unfold constructor, hideLoadingSpinner, showLoadingSpinner.
  set (pg0 := set_state _ _) in *.
  assert (H1 : I (match loadingSpinner (elements pg0) with
                  | Some spinner => updNode spinner (addClass "active") pg0
                  | None => pg0
                  end)).
  { destruct (loadingSpinner (elements pg0)); [| exact H].
    apply I_upd; [| exact H]. apply cosmetic_addClass. dynamic_class. }
  apply I_initializeComponents in H1.
  destruct (loadingSpinner (elements (initializeComponents _)));
    [apply I_setTimeout |]; exact H1.
Qed.

End Walk.

(** ** The markup is kept *)

Lemma Forall2_sameMarkup_refl ns : Forall2 sameMarkup ns ns.
Proof. induction ns; constructor; [apply sameMarkup_refl | assumption]. Qed.

Lemma Forall2_sameMarkup_alter ns ns' h f :
  cosmetic f -> Forall2 sameMarkup ns ns' ->
  Forall2 sameMarkup ns (alter f h ns').
Proof.
  intros Hf H. revert h. induction H as [| n n' ns ns' Hn H IH]; intros h;
    [constructor |].
  destruct h as [| h]; cbn; constructor; auto.
  eapply sameMarkup_trans; [exact Hn | apply Hf].
Qed.

Lemma Markup_fields ns pg pg' :
  nodes pg' = nodes pg -> elements pg' = elements pg ->
  Markup ns pg -> Markup ns pg'.
Proof. intros Hn He [H1 H2]. split; congruence. Qed.

Lemma Markup_updNode ns pg h f :
  cosmetic f -> Markup ns pg -> Markup ns (updNode h f pg).
Proof.
  intros Hf [H1 H2]. split; [| exact H2]. cbn.
  apply Forall2_sameMarkup_alter; assumption.
Qed.

Lemma Markup_constructor ns width hash :
  Markup ns (constructor (loaded ns width hash)).
Proof.
  apply (I_constructor (Markup ns) (Markup_fields ns) (Markup_updNode ns)).
  split; [apply Forall2_sameMarkup_refl | reflexivity].
Qed.

Lemma Markup_domContentLoaded ns width hash :
  Markup ns (domContentLoaded (loaded ns width hash)).2.
Proof.
  unfold domContentLoaded.
  apply (I_andThen (Markup ns));
    [| intros pg' H'; apply (I_loadHash (Markup ns) (Markup_fields ns)
                               (Markup_updNode ns)); exact H'].
  unfold pure. cbn [snd]. apply Markup_constructor.
Qed.

Lemma Markup_reached ns width hash evs :
  Markup ns (run evs (domContentLoaded (loaded ns width hash)).2).
Proof.
  apply (I_run (Markup ns) (Markup_fields ns) (Markup_updNode ns)).
  apply Markup_domContentLoaded.
Qed.

(** What a page with the markup [ns] shares with it. *)

Lemma Markup_lookup ns pg h n :
  Markup ns pg -> ns !! h = Some n ->
  exists n', nodes pg !! h = Some n' /\ sameMarkup n n'.
Proof. intros [H _] Hn. exact (Forall2_lookup_l _ _ _ _ _ H Hn). Qed.

Lemma Markup_lookup_r ns pg h n' :
  Markup ns pg -> nodes pg !! h = Some n' ->
  exists n, ns !! h = Some n /\ sameMarkup n n'.
Proof. intros [H _] Hn. exact (Forall2_lookup_r _ _ _ _ _ H Hn). Qed.

Lemma Markup_length ns pg : Markup ns pg -> length (nodes pg) = length ns.
Proof. intros [H _]. symmetry. exact (Forall2_length _ _ _ H). Qed.

Lemma list_find_Forall2 {A B} (R : A -> B -> Prop) (P : A -> Prop) (Q : B -> Prop)
    `{!forall x, Decision (P x)} `{!forall y, Decision (Q y)} l l' :
  (forall x y, R x y -> (P x <-> Q y)) -> Forall2 R l l' ->
  fst <$> list_find P l = fst <$> list_find Q l'.
Proof.
  intros HPQ HF. induction HF as [| x y l l' Hxy HF IH]; [reflexivity |].
  cbn. destruct (decide (P x)) as [Hp | Hp], (decide (Q y)) as [Hq | Hq];
    try reflexivity.
  - exfalso. apply Hq, (HPQ x y Hxy), Hp.
  - exfalso. apply Hp, (HPQ x y Hxy), Hq.
  - destruct (list_find P l) as [[i a] |], (list_find Q l') as [[j b] |];
      cbn in *; congruence.
Qed.

Lemma Markup_getElementById ns pg i :
  Markup ns pg -> getElementById (nodes pg) i = getElementById ns i.
Proof.
  intros [H _]. unfold getElementById. case_bool_decide; [reflexivity |].
  symmetry. apply (list_find_Forall2 sameMarkup); [| exact H].
  intros n n' [_ Hid _ _ _]. rewrite Hid. reflexivity.
Qed.

Lemma Markup_linkTo ns pg hash :
  Markup ns pg -> linkTo (nodes pg) hash = linkTo ns hash.
Proof.
  intros [H _]. unfold linkTo. symmetry.
  apply (list_find_Forall2 sameMarkup); [| exact H].
  intros n n' [Ht _ _ Ha _]. rewrite Ht, Ha by static_class. reflexivity.
Qed.

Lemma Markup_class ns pg h c :
  Markup ns pg -> c ∉ dynamicClasses ->
  nodeHasClass (nodes pg) h c = nodeHasClass ns h c.
Proof.
  intros HM Hc. unfold nodeHasClass.
  destruct (ns !! h) as [n |] eqn:E.
  - destruct (Markup_lookup _ _ _ _ HM E) as (n' & -> & Hs). cbn.
    apply (same_classes _ _ Hs), Hc.
  - destruct (nodes pg !! h) as [n' |] eqn:E'; [| reflexivity].
    destruct (Markup_lookup_r _ _ _ _ HM E') as (n & Hn & _). congruence.
Qed.

Lemma Markup_href ns pg h :
  Markup ns pg ->
  (nodes pg !! h ≫= fun n => attributes n !! "href")
  = (ns !! h ≫= fun n => attributes n !! "href").
Proof.
  intros HM. destruct (ns !! h) as [n |] eqn:E.
  - destruct (Markup_lookup _ _ _ _ HM E) as (n' & -> & Hs). cbn.
    apply (same_attributes _ _ Hs). static_class.
  - destruct (nodes pg !! h) as [n' |] eqn:E'; [| reflexivity].
    destruct (Markup_lookup_r _ _ _ _ HM E') as (n & Hn & _). congruence.
Qed.

(** ** Pages reached by the start-up listener of the script *)

(** The page with the references cached and the state initialised, before
    [initializeComponents]. *)
Lemma Tidy_cached ns width hash :
  wellFormed ns ->
  Tidy (set_state (mkState "perfil" false [])
          (set_elements (queryElements ns) (loaded ns width hash))).
Proof.
  intros [W1 W2]. set (pg0 := set_state _ _).
  split; [exact W1 |]. split.
  - intros h n Hn. apply (proj1 (Forall_forall _ _) W2), list_elem_of_lookup. eauto.
  - intros l Hl.
    change (l ∈ selectAll (fun _ n => hasClass "nav-link" n) ns) in Hl.
    apply elem_of_selectAll in Hl as (n & Hn & Hc).
    unfold nodeHasClass.
    change (nodes pg0) with ns. rewrite Hn. exact Hc.
  - intros m Hm.
    change (fst <$> list_find (fun n => hasClass "nav-menu" n = true) ns = Some m)
      in Hm.
    destruct (list_find _ ns) as [[k n] |] eqn:E; [| discriminate].
    injection Hm as <-. apply list_find_Some in E as (Hk & Hc & _).
    unfold nodeHasClass.
    change (nodes pg0) with ns. rewrite Hk. exact Hc.
Qed.

(** The page once the spinner is shown. *)
Lemma Tidy_showLoadingSpinner ns width hash :
  wellFormed ns -> plainSpinner ns ->
  Tidy (showLoadingSpinner
          (set_state (mkState "perfil" false [])
             (set_elements (queryElements ns) (loaded ns width hash)))).
Proof.
  intros W P. pose proof (Tidy_cached ns width hash W) as H0.
  set (pg0 := set_state _ _) in *. unfold showLoadingSpinner.
  destruct (loadingSpinner (elements pg0)) as [spinner |] eqn:E; [| exact H0].
  apply Tidy_updNode; [| exact H0].
  intros n Hn. apply tame_activate.
  pose proof (P spinner E) as Hs. unfold nodeHasClass in Hs.
  change (nodes pg0) with ns in Hn. rewrite Hn in Hs. exact Hs.
Qed.

Lemma Tidy_constructor ns width hash :
  wellFormed ns -> plainSpinner ns -> Tidy (constructor (loaded ns width hash)).
Proof.
  intros W P. unfold constructor.
  change (nodes (loaded ns width hash)) with ns.
  pose proof (Tidy_showLoadingSpinner ns width hash W P) as H0.
  set (pg0 := showLoadingSpinner _) in *.
  assert (H1 : Tidy (initializeComponents pg0));
    [| unfold hideLoadingSpinner;
       destruct (loadingSpinner (elements (initializeComponents pg0)));
       [apply Tidy_setTimeout |]; exact H1].
  unfold initializeComponents, setupAccessibility.
  apply Tidy_set_announcer.
  apply Tidy_forEach.
  { intros i a pg' HT. apply Tidy_updNode; [| exact HT].
    intros; apply tame_setAttribute; discriminate. }
  unfold initializeSkillBars. apply Tidy_forEach.
  { intros i a pg' HT. apply Tidy_updNode; [| exact HT].
    intros; apply tame_setStyle. }
  unfold setupIntersectionObserver.
  apply Tidy_set_observed, Tidy_showSection, H0.
Qed.

Lemma Tidy_domContentLoaded ns width hash :
  wellFormed ns -> plainSpinner ns ->
  Tidy (domContentLoaded (loaded ns width hash)).2.
Proof.
  intros W P. unfold domContentLoaded.
  apply Tidy_andThen; [| intros; apply Tidy_loadHash; assumption].
  unfold pure. cbn [snd]. apply Tidy_constructor; assumption.
Qed.

Lemma Tidy_reached ns width hash evs :
  wellFormed ns -> plainSpinner ns ->
  Tidy (run evs (domContentLoaded (loaded ns width hash)).2).
Proof. intros W P. apply Tidy_run, Tidy_domContentLoaded; assumption. Qed.

End MarkupFacts.

(** On every page reached from well-formed markup whose spinner is not a
    section, at most one section is active, so [showSection] leaves
    exactly its target active. *)
Lemma showSection_activates_on_reached_page
    (ns : list CVApp.Node) (width : nat) (hash : string)
    (evs : list CVApp.Event) (sectionId : string) (target : nat) :
  CVApp.wellFormed ns ->
  CVApp.plainSpinner ns ->
  let pg := CVApp.run evs (CVApp.domContentLoaded (CVApp.loaded ns width hash)).2 in
  CVApp.namesSection pg sectionId target ->
  CVApp.activeSections (CVApp.showSection sectionId pg) = [target].
Proof.
  intros Hwf Hsp pg Hname.
  apply (showSection_active_list pg sectionId target Hname).
  apply (Tidy_reached ns width hash evs Hwf Hsp).
Qed.

(** * Switching sections *)

Section SwitchFacts.

Import CVApp.

Lemma set_nodes_same pg : set_nodes (nodes pg) pg = pg.
Proof. destruct pg. reflexivity. Qed.

Lemma animateSection_only_timers section pg :
  animateSection section pg = set_timers (timers (animateSection section pg)) pg.
Proof.
  unfold animateSection.
  apply (forEach_invariant (fun pg' => pg' = set_timers (timers pg') pg)).
  - intros i a pg' ->. reflexivity.
  - destruct pg. reflexivity.
Qed.

(** [showSection] when the id is found. *)
Lemma showSection_found i pg target :
  getElementById (nodes pg) i = Some target ->
  showSection i pg
  = updateURL i
      (animateSection target
         (set_state (set_currentSection i (state pg))
            (set_nodes (alter (addClass "active") target (hidden (nodes pg))) pg))).
Proof.
  intros Hid. unfold showSection.
  set (pg1 := match activeSection (nodes pg) with
              | Some current => _ | None => pg end).
  assert (E1 : pg1 = set_nodes (hidden (nodes pg)) pg).
  { subst pg1. unfold hidden. destruct (activeSection (nodes pg));
      [reflexivity | symmetry; apply set_nodes_same]. }
  rewrite E1. cbn [nodes set_nodes]. rewrite getElementById_hidden, Hid.
  reflexivity.
Qed.

Lemma history_updateURL i pg :
  history (updateURL i pg) = history pg ++ [pathname +:+ "#" +:+ i].
Proof. unfold updateURL. cbv zeta. destruct (announcer _); reflexivity. Qed.

Lemma announcer_updateURL i pg :
  announcer (updateURL i pg)
  = match announcer pg with
    | Some _ => Some ("Sección " +:+ i +:+ " cargada")
    | None => None
    end.
Proof.
  unfold updateURL. cbv zeta.
  change (announcer (set_history _ (set_url _ pg))) with (announcer pg).
  destruct (announcer pg) eqn:E; [reflexivity |]. cbn. exact E.
Qed.

Lemma showSection_fields i pg target :
  getElementById (nodes pg) i = Some target ->
  let pg' := showSection i pg in
  currentSection (state pg') = i /\
  isMenuOpen (state pg') = isMenuOpen (state pg) /\
  hasAnimated (state pg') = hasAnimated (state pg) /\
  url pg' = pathname +:+ "#" +:+ i /\
  history pg' = history pg ++ [pathname +:+ "#" +:+ i] /\
  announcer pg'
  = match announcer pg with
    | Some _ => Some ("Sección " +:+ i +:+ " cargada")
    | None => None
    end /\
  bodyOverflow pg' = bodyOverflow pg.
Proof.
  intros Hid pg'. subst pg'. rewrite (showSection_found i pg target Hid).
  rewrite state_updateURL, url_updateURL, history_updateURL, announcer_updateURL.
  rewrite animateSection_only_timers. cbn.
  repeat split. unfold updateURL. cbv zeta. destruct (announcer _); reflexivity.
Qed.

Lemma nodeHasClass_updNode pg h f l c :
  nodeHasClass (nodes (updNode h f pg)) l c
  = if decide (h = l)
    then from_option (fun n => hasClass c (f n)) false (nodes pg !! l)
    else nodeHasClass (nodes pg) l c.
Proof.
  unfold nodeHasClass, updNode. cbn [nodes set_nodes]. rewrite list_lookup_alter.
  destruct (decide (h = l)) as [-> |]; [| reflexivity].
  destruct (nodes pg !! l); reflexivity.
Qed.

Lemma selectFrom_pointwise p j ns ns' :
  length ns' = length ns ->
  (forall i n n', ns !! i = Some n -> ns' !! i = Some n' ->
                  p (j + i) n' = p (j + i) n) ->
  selectFrom p j ns' = selectFrom p j ns.
Proof.
  revert j ns'. induction ns as [| n ns IH]; intros j [| n' ns'] Hlen Hp;
    try discriminate; [reflexivity |].
  rewrite !selectFrom_cons. f_equal.
  - pose proof (Hp 0 n n' eq_refl eq_refl) as H0. rewrite Nat.add_0_r in H0.
    rewrite H0. reflexivity.
  - apply IH; [cbn in Hlen; lia |]. intros i m m' Hm Hm'.
    replace (S j + i) with (j + S i) by lia. apply Hp; assumption.
Qed.

Lemma selectAll_pointwise p ns ns' :
  length ns' = length ns ->
  (forall i n n', ns !! i = Some n -> ns' !! i = Some n' -> p i n' = p i n) ->
  selectAll p ns' = selectAll p ns.
Proof.
  intros Hlen Hp. rewrite !selectAll_selectFrom.
  apply selectFrom_pointwise; assumption.
Qed.


Lemma isActiveSection_keep (f : Node -> Node) n :
  hasClass "section" n = false -> hasClass "section" (f n) = false ->
  isActiveSection (f n) = isActiveSection n.
Proof. intros H1 H2. unfold isActiveSection. rewrite H1, H2. reflexivity. Qed.

Lemma closeMobileMenu_cases pg :
  match navMenu (elements pg), menuToggle (elements pg) with
  | None, _ =>
      closeMobileMenu pg
      = (Throw (TypeError "Cannot read properties of null (reading 'classList')"), pg)
  | Some menu, None =>
      closeMobileMenu pg
      = (Throw (TypeError "Cannot set properties of null (setting 'innerHTML')"),
         updNode menu (removeClass "active") pg)
  | Some menu, Some toggle =>
      closeMobileMenu pg
      = (Normal tt,
         set_state (set_isMenuOpen false (state pg))
           (set_bodyOverflow EmptyString
              (updNode toggle (setInnerHTML (icon "fa-bars"))
                 (updNode menu (removeClass "active") pg))))
  end.
Proof.
  unfold closeMobileMenu.
  destruct (navMenu (elements pg)); [| reflexivity]. cbn [elements updNode set_nodes].
  destruct (menuToggle (elements pg)); reflexivity.
Qed.

(** What [closeMobileMenu] changes of the classes: the menu loses
    [active], whether or not the call completes. *)
Lemma closeMobileMenu_class pg l c :
  nodeHasClass (nodes (closeMobileMenu pg).2) l c
  = if bool_decide (navMenu (elements pg) = Some l /\ c = "active") then false
    else nodeHasClass (nodes pg) l c.
Proof.
  pose proof (closeMobileMenu_cases pg) as E.
  destruct (navMenu (elements pg)) as [menu |] eqn:Em.
  - assert (Hmenu : nodeHasClass (nodes (updNode menu (removeClass "active") pg)) l c
                    = if bool_decide (Some menu = Some l /\ c = "active") then false
                      else nodeHasClass (nodes pg) l c).
    { rewrite nodeHasClass_updNode. destruct (decide (menu = l)) as [-> | Hne].
      - unfold nodeHasClass. destruct (nodes pg !! l) as [n |]; cbn;
          [| case_bool_decide; reflexivity].
        unfold hasClass. cbn. case_bool_decide as Hc.
        + destruct Hc as [_ ->]. apply contains_classRemove.
        + apply contains_classRemove_ne. intros ->. apply Hc. split; reflexivity.
      - rewrite bool_decide_eq_false_2; [reflexivity |]. intros [[= ?] _].
        contradiction. }
    destruct (menuToggle (elements pg)) as [toggle |]; rewrite E; cbn [snd].
    + cbn [nodes set_state set_bodyOverflow]. rewrite nodeHasClass_updNode.
      destruct (decide (toggle = l)) as [-> | Hne]; [| exact Hmenu].
      rewrite <- Hmenu. unfold nodeHasClass. destruct (_ !! l); reflexivity.
    + exact Hmenu.
  - rewrite E. cbn [snd]. rewrite bool_decide_eq_false_2; [reflexivity |].
    intros [[=] _].
Qed.

Lemma closeMobileMenu_fields pg :
  let pg' := (closeMobileMenu pg).2 in
  currentSection (state pg') = currentSection (state pg) /\
  url pg' = url pg /\ history pg' = history pg /\
  elements pg' = elements pg /\ timers pg' = timers pg /\
  announcer pg' = announcer pg.
Proof.
  pose proof (closeMobileMenu_cases pg) as E.
  destruct (navMenu (elements pg)), (menuToggle (elements pg));
    rewrite E; cbn; repeat split.
Qed.

Section Switch.

Variable ns : list Node.
Hypothesis wf : wellFormed ns.

Lemma markup_not_section pg h n :
  Markup ns pg -> ns !! h = Some n ->
  hasClass "nav-link" n = true \/ hasClass "nav-menu" n = true \/
  attributes n !! "href" <> None ->
  nodeHasClass (nodes pg) h "section" = false.
Proof.
  intros HM Hn Hk.
  rewrite (Markup_class ns pg h "section" HM) by static_class.
  unfold nodeHasClass. rewrite Hn. cbn.
  destruct (hasClass "section" n) eqn:Hs; [| reflexivity]. exfalso.
  destruct wf as [_ W2].
  assert (Hp : plainSection n).
  { apply (proj1 (Forall_forall _ _) W2), list_elem_of_lookup. eauto. }
  destruct (Hp Hs) as (H1 & H2 & H3).
  destruct Hk as [Hk | [Hk | Hk]]; congruence.
Qed.

Lemma activeSections_other pg h f n :
  Markup ns pg -> ns !! h = Some n ->
  hasClass "nav-link" n = true \/ hasClass "nav-menu" n = true \/
  attributes n !! "href" <> None ->
  cosmetic f ->
  activeSections (updNode h f pg) = activeSections pg.
Proof.
  intros HM Hn Hk Hf. apply activeSections_updNode. intros n' Hn'.
  pose proof (markup_not_section pg h n HM Hn Hk) as Hs.
  unfold nodeHasClass in Hs. rewrite Hn' in Hs. cbn in Hs.
  apply isActiveSection_keep; [exact Hs |].
  rewrite (same_classes _ _ (Hf n')) by static_class.
  exact Hs.
Qed.

Lemma navLink_markup pg l :
  Markup ns pg -> l ∈ navLinks (elements pg) ->
  exists n, ns !! l = Some n /\ hasClass "nav-link" n = true.
Proof.
  intros [_ He] Hl. rewrite He in Hl. cbn in Hl.
  apply elem_of_selectAll in Hl. exact Hl.
Qed.

Lemma Markup_cleared pg : Markup ns pg -> Markup ns (cleared pg).
Proof.
  intros HM. unfold cleared.
  apply (I_forEach (Markup ns)); [| exact HM]. intros i a pg' H'.
  apply Markup_updNode; [| exact H'].
  apply cosmetic_removeClass. dynamic_class.
Qed.

Lemma activeSections_cleared pg :
  Markup ns pg -> activeSections (cleared pg) = activeSections pg.
Proof.
  intros HM. unfold activeSections.
  apply selectAll_pointwise; [apply length_cleared |].
  intros i n n' Hn Hn'. rewrite lookup_cleared, Hn in Hn'. cbn in Hn'.
  injection Hn' as <-. case_bool_decide as Hin; [| reflexivity].
  destruct (navLink_markup pg i HM Hin) as (m & Hm & Hc).
  pose proof (markup_not_section pg i m HM Hm (or_introl Hc)) as Hs.
  unfold nodeHasClass in Hs. rewrite Hn in Hs. cbn in Hs.
  change (isActiveSection (removeClass "active" n) = isActiveSection n).
  apply isActiveSection_keep; [exact Hs |].
  unfold hasClass in *. cbn. rewrite contains_classRemove_ne by discriminate.
  exact Hs.
Qed.

Lemma activeSections_closeMobileMenu pg :
  Markup ns pg -> activeSections (closeMobileMenu pg).2 = activeSections pg.
Proof.
  intros HM. unfold activeSections.
  apply selectAll_pointwise.
  - rewrite (Markup_length ns _
               (I_closeMobileMenu (Markup ns) (Markup_fields ns)
                  (Markup_updNode ns) pg HM)).
    symmetry. apply (Markup_length ns), HM.
  - intros i n n' Hn Hn'.
    pose proof (closeMobileMenu_class pg i "section") as Hsec.
    pose proof (closeMobileMenu_class pg i "active") as Hact.
    unfold nodeHasClass in Hsec, Hact. rewrite Hn, Hn' in Hsec, Hact.
    cbn in Hsec, Hact. rewrite Hsec, Hact.
    rewrite bool_decide_eq_false_2 by (intros [_ [=]]).
    case_bool_decide as Hm; [| reflexivity]. destruct Hm as [Hm _].
    pose proof (markup_elements _ _ HM) as He. rewrite He in Hm. cbn in Hm.
    destruct (list_find _ ns) as [[k m] |] eqn:E; [| discriminate].
    injection Hm as ->. apply list_find_Some in E as (Hk & Hc & _).
    pose proof (markup_not_section pg i m HM Hk (or_intror (or_introl Hc))) as Hs.
    unfold nodeHasClass in Hs. rewrite Hn in Hs. cbn in Hs.
    rewrite Hs. reflexivity.
Qed.

(** The section switch followed by the link highlight, as the click and
    hash listeners run them. *)
Lemma switched pg i sec link n :
  Markup ns pg -> Tidy pg ->
  getElementById ns i = Some sec -> nodeHasClass ns sec "section" = true ->
  ns !! link = Some n ->
  hasClass "nav-link" n = true \/ hasClass "nav-menu" n = true \/
  attributes n !! "href" <> None ->
  let pg2 := updNode link (addClass "active") (cleared (showSection i pg)) in
  Markup ns pg2 /\ Tidy pg2 /\
  activeSections pg2 = [sec] /\
  (forall l, l ∈ link :: navLinks (elements pg) ->
     nodeHasClass (nodes pg2) l "active" = bool_decide (l = link)) /\
  state pg2 = state (showSection i pg) /\
  url pg2 = pathname +:+ "#" +:+ i /\
  history pg2 = history pg ++ [pathname +:+ "#" +:+ i] /\
  announcer pg2 = announcer (showSection i pg) /\
  bodyOverflow pg2 = bodyOverflow pg.
Proof.
  intros HM HT Hid Hsec Hn Hk pg2.
  assert (Hid' : getElementById (nodes pg) i = Some sec)
    by (rewrite (Markup_getElementById ns pg i HM); exact Hid).
  assert (Hname : namesSection pg i sec).
  { split; [exact Hid' |].
    rewrite (Markup_class ns pg sec "section" HM)
      by static_class. exact Hsec. }
  set (pg1 := showSection i pg) in *.
  assert (HM1 : Markup ns pg1)
    by (apply (I_showSection (Markup ns) (Markup_fields ns) (Markup_updNode ns)), HM).
  assert (HT1 : Tidy pg1) by (apply Tidy_showSection, HT).
  assert (HA1 : activeSections pg1 = [sec])
    by (apply showSection_active_list; [exact Hname | apply HT]).
  assert (HMc : Markup ns (cleared pg1)) by (apply Markup_cleared, HM1).
  assert (HM2 : Markup ns pg2).
  { apply Markup_updNode; [| exact HMc].
    apply cosmetic_addClass. dynamic_class. }
  assert (Hupd : (updateActiveNavLink (Some link) pg1).2 = pg2) by reflexivity.
  destruct (showSection_fields i pg sec Hid') as (_ & _ & _ & Hu & Hh & _ & Hbo).
  fold pg1 in Hu, Hh, Hbo.
  split; [exact HM2 |]. split.
  { rewrite <- Hupd. apply Tidy_updateActiveNavLink; [exact HT1 |].
    intros l n1 [= <-] Hn1.
    destruct (Markup_lookup_r ns pg1 link n1 HM1 Hn1) as (n0 & Hn0 & Hs).
    assert (n0 = n) as -> by congruence.
    destruct Hk as [Hk | [Hk | Hk]].
    - right. left.
      rewrite (same_classes _ _ Hs) by static_class.
      exact Hk.
    - right. right.
      rewrite (same_classes _ _ Hs) by static_class.
      exact Hk.
    - left. rewrite (same_attributes _ _ Hs) by static_class. exact Hk. }
  split.
  { subst pg2.
    rewrite (activeSections_other (cleared pg1) link _ n HMc Hn Hk)
      by (apply cosmetic_addClass; dynamic_class).
    rewrite (activeSections_cleared pg1 HM1). exact HA1. }
  split.
  { intros l Hl. subst pg2.
    destruct (Markup_lookup ns pg1 link n HM1 Hn) as (n1 & Hn1 & _).
    apply active_highlighted; [eauto |].
    unfold pg1. rewrite (elements_showSection i pg). exact Hl. }
  subst pg2. rewrite (cleared_only_nodes pg1). cbn.
  repeat split; assumption.
Qed.

End Switch.

End SwitchFacts.

Lemma wellFormed_markup : CVApp.wellFormed Demo.markup.
Proof.
  split; [vm_compute; lia |].
  repeat (apply Forall_cons_2;
          [intros H; vm_compute in H; try discriminate; repeat split;
           reflexivity |]).
  apply Forall_nil_2.
Qed.

Lemma plainSpinner_markup : CVApp.plainSpinner Demo.markup.
Proof. intros spinner H. vm_compute in H. discriminate. Qed.

(** X9. Apart from the content of the menu toggle, which the menu
    handlers overwrite through [innerHTML], the click, hashchange,
    keydown, resize, reveal-observer and timer handlers of the main
    script restyle the elements of the markup and never restructure
    them: on every page reached from the start-up listener, each element
    that is not inside the menu toggle still has the tag, id, parent,
    attributes (other than the four the script writes) and classes
    (other than the active marker and the animation and scroll classes)
    it was loaded with, and the element references cached by the
    constructor are what a query of the markup returns. *)
Theorem handlers_keep_markup
    (ns : list CVApp.Node) (width : nat) (hash : string)
    (evs : list CVApp.Event) (h : nat) (n : CVApp.Node) :
  ns !! h = Some n ->
  (forall toggle,
     CVApp.getElementById ns "menuToggle" = Some toggle ->
     CVApp.descendsFrom ns (length ns) toggle h = false) ->
  let pg := CVApp.run evs (CVApp.domContentLoaded (CVApp.loaded ns width hash)).2 in
  (exists n', CVApp.nodes pg !! h = Some n' /\ CVApp.sameMarkup n n') /\
  CVApp.elements pg = CVApp.queryElements ns.
Proof.
  intros Hn _ pg. pose proof (Markup_reached ns width hash evs) as HM.
  split; [exact (Markup_lookup ns pg h n HM Hn) | apply HM].
Qed.

Lemma handlers_keep_markup_witness :
  let pg := CVApp.run [CVApp.Click 3; CVApp.TimerFires; CVApp.Click 2]
              (CVApp.domContentLoaded (CVApp.loaded Demo.markup 1200 EmptyString)).2 in
  (forall toggle,
     CVApp.getElementById Demo.markup "menuToggle" = Some toggle ->
     CVApp.descendsFrom Demo.markup (length Demo.markup) toggle 7 = false) /\
  CVApp.innerHTML <$> CVApp.nodes pg !! 3 = Some (CVApp.icon "fa-bars") /\
  exists n', CVApp.nodes pg !! 7 = Some n' /\
             CVApp.sameMarkup (Demo.element "div" "" ["timeline-item"] (Some 6) None) n'.
Proof.
  cbv zeta.
  assert (H1 : Demo.markup !! 7
               = Some (Demo.element "div" "" ["timeline-item"] (Some 6) None))
    by reflexivity.
  assert (H2 : forall toggle,
            CVApp.getElementById Demo.markup "menuToggle" = Some toggle ->
            CVApp.descendsFrom Demo.markup (length Demo.markup) toggle 7 = false).
  { intros toggle H. vm_compute in H. injection H as <-.
    vm_compute. reflexivity. }
  split; [exact H2 |]. split; [vm_compute; reflexivity |].
  exact (proj1 (handlers_keep_markup Demo.markup 1200 EmptyString
                  [CVApp.Click 3; CVApp.TimerFires; CVApp.Click 2] 7 _ H1 H2)).
Defined.

(** X10. A click on a nav link switches the section. Take well-formed
    markup (at most one section marked active, no section that is also a
    nav link, the nav menu or a link) whose spinner, if any, is not a
    section, and a nav link that is not the nav menu itself and whose
    [href] is [#S], with [S] the non-empty id of a section. On any page
    the script reaches, [handleNavigation] on that link leaves that
    section as the only active one, records it as current, sets the URL
    to [#S] and leaves that link as the only highlighted nav link. With
    the menu and its toggle present the call completes and the mobile
    menu is closed; without a [.nav-menu] element the same switch
    happens but the call ends in a [TypeError]. *)
Theorem nav_click_switches_section
    (ns : list CVApp.Node) (width : nat) (hash : string)
    (evs : list CVApp.Event) (link : nat) (n : CVApp.Node)
    (S : string) (sec : nat) :
  CVApp.wellFormed ns ->
  CVApp.plainSpinner ns ->
  ns !! link = Some n ->
  CVApp.hasClass "nav-link" n = true ->
  CVApp.hasClass "nav-menu" n = false ->
  CVApp.attributes n !! "href" = Some ("#" +:+ S) ->
  S <> EmptyString ->
  CVApp.getElementById ns S = Some sec ->
  CVApp.nodeHasClass ns sec "section" = true ->
  let pg := CVApp.run evs (CVApp.domContentLoaded (CVApp.loaded ns width hash)).2 in
  let r := CVApp.handleNavigation link pg in
  CVApp.activeSections r.2 = [sec] /\
  CVApp.currentSection (CVApp.state r.2) = S /\
  CVApp.url r.2 = CVApp.pathname +:+ "#" +:+ S /\
  (forall l, l ∈ CVApp.navLinks (CVApp.elements pg) ->
     CVApp.nodeHasClass (CVApp.nodes r.2) l "active" = bool_decide (l = link)) /\
  (is_Some (CVApp.navMenu (CVApp.elements pg)) ->
   is_Some (CVApp.menuToggle (CVApp.elements pg)) ->
   r.1 = Normal tt /\ CVApp.isMenuOpen (CVApp.state r.2) = false /\
   CVApp.bodyOverflow r.2 = EmptyString) /\
  (CVApp.navMenu (CVApp.elements pg) = None ->
   exists msg, r.1 = Throw (TypeError msg)).
Proof.
  intros Hwf Hsp Hn Hlink Hmenu Hhref HS Hid Hsec pg r.
  assert (HM : CVApp.Markup ns pg) by apply Markup_reached.
  assert (HT : CVApp.Tidy pg) by (apply Tidy_reached; assumption).
  assert (Hh : (CVApp.nodes pg !! link ≫= fun n => CVApp.attributes n !! "href")
               = Some ("#" +:+ S)).
  { rewrite (Markup_href ns pg link HM), Hn. exact Hhref. }
  assert (Hsecs : CVApp.sections (CVApp.elements pg) <> []).
  { rewrite (CVApp.markup_elements _ _ HM). cbn. intros E.
    assert (Hin : sec ∈ CVApp.selectAll (fun _ n => CVApp.hasClass "section" n) ns).
    { apply elem_of_selectAll. unfold CVApp.nodeHasClass in Hsec.
      destruct (ns !! sec) as [m |]; [| discriminate]. eauto. }
    rewrite E in Hin. inversion Hin. }
  destruct (switched ns Hwf pg S sec link n HM HT Hid Hsec Hn (or_introl Hlink))
    as (HM2 & HT2 & HA2 & HL2 & Hst2 & Hu2 & Hh2 & _ & _).
  set (pg2 := CVApp.updNode link (CVApp.addClass "active")
                (CVApp.cleared (CVApp.showSection S pg))) in *.
  assert (Er : r = CVApp.closeMobileMenu pg2).
  { subst r. unfold CVApp.handleNavigation. rewrite Hh.
    cbn [CVApp.substring1 append].
    rewrite (bool_decide_eq_false_2 (S = EmptyString)) by exact HS.
    rewrite bool_decide_eq_false_2 by exact Hsecs.
    cbn [negb andb]. unfold andThen, pure.
    rewrite updateActiveNavLink_Some. reflexivity. }
  assert (He2 : CVApp.elements pg2 = CVApp.elements pg).
  { rewrite (CVApp.markup_elements _ _ HM2), (CVApp.markup_elements _ _ HM).
    reflexivity. }
  destruct (closeMobileMenu_fields pg2) as (Hc & Hu & _ & _ & _ & _).
  rewrite Er. split; [| split; [| split; [| split; [| split]]]].
  - rewrite (activeSections_closeMobileMenu ns Hwf pg2 HM2). exact HA2.
  - rewrite Hc, Hst2.
    assert (Hid' : CVApp.getElementById (CVApp.nodes pg) S = Some sec)
      by (rewrite (Markup_getElementById ns pg S HM); exact Hid).
    apply (showSection_fields S pg sec Hid').
  - rewrite Hu. exact Hu2.
  - intros l Hl. rewrite closeMobileMenu_class.
    rewrite <- (HL2 l (list_elem_of_further _ _ _ Hl)).
    case_bool_decide as Hm; [| reflexivity]. destruct Hm as [Hm _].
    rewrite (HL2 l (list_elem_of_further _ _ _ Hl)).
    symmetry. apply bool_decide_eq_false_2. intros ->.
    rewrite He2, (CVApp.markup_elements _ _ HM) in Hm. cbn in Hm.
    destruct (list_find _ ns) as [[k m] |] eqn:E; [| discriminate].
    injection Hm as ->. apply list_find_Some in E as (Hk & Hc' & _).
    congruence.
  - intros [menu Hm] [toggle Ht].
    pose proof (closeMobileMenu_cases pg2) as E.
    rewrite He2, Hm, Ht in E. rewrite E. cbn. repeat split.
  - intros Hm. pose proof (closeMobileMenu_cases pg2) as E.
    rewrite He2, Hm in E. rewrite E. eexists. reflexivity.
Qed.

Lemma nav_click_switches_section_witness :
  let pg := CVApp.run [CVApp.Click 3]
              (CVApp.domContentLoaded (CVApp.loaded Demo.markup 1200 EmptyString)).2 in
  CVApp.wellFormed Demo.markup /\
  CVApp.getElementById Demo.markup "experiencia" = Some 6 /\
  CVApp.activeSections (CVApp.handleNavigation 2 pg).2 = [6] /\
  CVApp.isMenuOpen (CVApp.state (CVApp.handleNavigation 2 pg).2) = false.
Proof.
  intros pg.
  split; [exact wellFormed_markup |]. split; [vm_compute; reflexivity |].
  assert (H1 : Demo.markup !! 2
               = Some (Demo.element "a" "" ["nav-link"] (Some 0)
                         (Some "#experiencia"))) by reflexivity.
  assert (H2 : CVApp.attributes
                 (Demo.element "a" "" ["nav-link"] (Some 0) (Some "#experiencia"))
                 !! "href" = Some ("#" +:+ "experiencia"))
    by (vm_compute; reflexivity).
  assert (H3 : CVApp.getElementById Demo.markup "experiencia" = Some 6)
    by (vm_compute; reflexivity).
  assert (H4 : CVApp.nodeHasClass Demo.markup 6 "section" = true)
    by (vm_compute; reflexivity).
  assert (H5 : "experiencia" <> EmptyString) by discriminate.
  destruct (nav_click_switches_section Demo.markup 1200 EmptyString
              [CVApp.Click 3] 2 _ "experiencia" 6 wellFormed_markup
              plainSpinner_markup H1
              eq_refl eq_refl H2 H5 H3 H4)
    as (Ha & _ & _ & _ & Hm & _).
  split; [exact Ha |].
  apply Hm; vm_compute; eexists; reflexivity.
Defined.

(** * Start-up and the location hash *)

Section LoadFacts.

Import CVApp.

Lemma class_showSection pg i l c :
  nodeHasClass (nodes pg) l "section" = false ->
  getElementById (nodes pg) i <> Some l ->
  nodeHasClass (nodes (showSection i pg)) l c = nodeHasClass (nodes pg) l c.
Proof.
  intros Hl Hne. rewrite nodes_showSection.
  assert (Hh : nodeHasClass (hidden (nodes pg)) l c = nodeHasClass (nodes pg) l c).
  { unfold hidden. destruct (activeSection (nodes pg)) as [cur |] eqn:E;
      [| reflexivity].
    destruct (activeSection_Some _ _ E) as (nc & Hc & Hac).
    unfold nodeHasClass. rewrite list_lookup_alter.
    destruct (decide (cur = l)) as [-> | Hcl]; [| reflexivity].
    unfold nodeHasClass in Hl. rewrite Hc in Hl. cbn in Hl.
    rewrite Hl in Hac. discriminate. }
  destruct (getElementById (nodes pg) i) as [target |]; [| exact Hh].
  unfold nodeHasClass. rewrite list_lookup_alter.
  destruct (decide (target = l)) as [-> | Htl]; [congruence |].
  exact Hh.
Qed.

Lemma initialize_fields pg :
  let pg' := setupAccessibility (initializeSkillBars (setupIntersectionObserver pg)) in
  state pg' = state pg /\ url pg' = url pg /\ history pg' = history pg /\
  announcer pg' = Some EmptyString /\
  activeSections pg' = activeSections pg.
Proof.
  cbv zeta. unfold setupAccessibility. cbv zeta.
  assert (Hgen : forall (g : Node -> Node) ls pg0,
            (forall n, classList (g n) = classList n) ->
            let pg1 := forEach (fun _ l pg' => updNode l g pg') ls pg0 in
            state pg1 = state pg0 /\ url pg1 = url pg0 /\
            history pg1 = history pg0 /\
            activeSections pg1 = activeSections pg0).
  { intros g ls pg0 Hg.
    apply (forEach_invariant
             (fun pg1 => state pg1 = state pg0 /\ url pg1 = url pg0 /\
                         history pg1 = history pg0 /\
                         activeSections pg1 = activeSections pg0));
      [| repeat split].
    intros i a pg1 (H1 & H2 & H3 & H4). repeat split; try assumption.
    rewrite <- H4. apply activeSections_updNode. intros n _.
    unfold isActiveSection, hasClass. rewrite Hg. reflexivity. }
  destruct (Hgen (setAttribute "tabindex" "0")
              (navLinks (elements (initializeSkillBars (setupIntersectionObserver pg))))
              (initializeSkillBars (setupIntersectionObserver pg))
              (fun n => eq_refl)) as (A1 & A2 & A3 & A4).
  destruct (Hgen (setStyle "width" "0%")
              (skillBars (elements (setupIntersectionObserver pg)))
              (setupIntersectionObserver pg)
              (fun n => eq_refl)) as (B1 & B2 & B3 & B4).
  cbn [state url history announcer set_announcer].
  unfold initializeSkillBars in *.
  repeat split; [rewrite A1, B1 | rewrite A2, B2 | rewrite A3, B3 |];
    try reflexivity.
  unfold activeSections in *. cbn [nodes set_announcer].
  rewrite A4, B4. reflexivity.
Qed.

Lemma afterHash_fragment i : afterHash (pathname +:+ "#" +:+ i) = i.
Proof. reflexivity. Qed.

(** The spinner calls of [init] touch the class of the spinner and the
    timers only. *)
Lemma fields_hideLoadingSpinner pg :
  let pg' := hideLoadingSpinner pg in
  nodes pg' = nodes pg /\ state pg' = state pg /\ url pg' = url pg /\
  history pg' = history pg /\ announcer pg' = announcer pg.
Proof.
  cbv zeta. unfold hideLoadingSpinner.
  destruct (loadingSpinner _); repeat split.
Qed.

Lemma fields_showLoadingSpinner pg :
  let pg' := showLoadingSpinner pg in
  state pg' = state pg /\ url pg' = url pg /\ history pg' = history pg /\
  announcer pg' = announcer pg /\
  (forall i, getElementById (nodes pg') i = getElementById (nodes pg) i).
Proof.
  cbv zeta. unfold showLoadingSpinner.
  destruct (loadingSpinner _); repeat split.
  intros i. apply getElementById_alter. reflexivity.
Qed.

Section Load.

Variable ns : list Node.
Hypothesis wf : wellFormed ns.

(** What the body of the hash listeners does on a page with the markup
    [ns], for the id of a section. *)
Lemma loadHash_switches pg i sec :
  Markup ns pg -> Tidy pg ->
  i <> EmptyString ->
  getElementById ns i = Some sec -> nodeHasClass ns sec "section" = true ->
  let r := loadHash i pg in
  r.1 = Normal tt /\
  activeSections r.2 = [sec] /\
  currentSection (state r.2) = i /\
  isMenuOpen (state r.2) = isMenuOpen (state pg) /\
  url r.2 = pathname +:+ "#" +:+ i /\
  history r.2 = history pg ++ [pathname +:+ "#" +:+ i] /\
  announcer r.2
  = match announcer pg with
    | Some _ => Some ("Sección " +:+ i +:+ " cargada")
    | None => None
    end /\
  (forall l, l ∈ navLinks (elements pg) ->
     nodeHasClass (nodes r.2) l "active"
     = match linkTo ns i with
       | Some link => bool_decide (l = link)
       | None => nodeHasClass (nodes pg) l "active"
       end).
Proof.
  intros HM HT Hi Hid Hsec r.
  assert (Hid' : getElementById (nodes pg) i = Some sec)
    by (rewrite (Markup_getElementById ns pg i HM); exact Hid).
  assert (HM1 : Markup ns (showSection i pg))
    by (apply (I_showSection (Markup ns) (Markup_fields ns) (Markup_updNode ns)), HM).
  assert (Hname : namesSection pg i sec).
  { split; [exact Hid' |].
    rewrite (Markup_class ns pg sec "section" HM) by static_class. exact Hsec. }
  destruct (showSection_fields i pg sec Hid') as (F1 & F2 & _ & F4 & F5 & F6 & _).
  assert (Er : r = match linkTo ns i with
                   | Some link => updateActiveNavLink (Some link) (showSection i pg)
                   | None => (Normal tt, showSection i pg)
                   end).
  { subst r. unfold loadHash.
    rewrite (bool_decide_eq_false_2 (i = EmptyString)) by exact Hi.
    rewrite bool_decide_eq_true_2 by (rewrite Hid'; eauto).
    cbn [negb andb]. rewrite (Markup_linkTo ns _ i HM1). reflexivity. }
  rewrite Er. destruct (linkTo ns i) as [link |] eqn:El.
  - assert (Hln : exists n, ns !! link = Some n /\ attributes n !! "href" <> None).
    { unfold linkTo in El.
      destruct (list_find _ ns) as [[k n] |] eqn:E; [| discriminate].
      injection El as ->. apply list_find_Some in E as (Hk & [_ Hh] & _).
      exists n. split; [exact Hk | congruence]. }
    destruct Hln as (n & Hn & Hh).
    destruct (switched ns wf pg i sec link n HM HT Hid Hsec Hn
                (or_intror (or_intror Hh)))
      as (_ & _ & HA & HL & Hst & Hu & Hhi & Han & _).
    rewrite updateActiveNavLink_Some. cbn [fst snd].
    rewrite Hst, Han. repeat split; try assumption.
    intros l Hl. apply HL. right. exact Hl.
  - cbn [fst snd]. repeat split; try assumption.
    + apply showSection_active_list; [exact Hname | apply HT].
    + intros l Hl. apply class_showSection.
      * destruct (navLink_markup ns pg l HM Hl) as (n & Hn & Hc).
        apply (markup_not_section ns wf pg l n HM Hn). left. exact Hc.
      * rewrite Hid'. intros [= <-].
        destruct (navLink_markup ns pg sec HM Hl) as (n & Hn & Hc).
        pose proof (markup_not_section ns wf pg sec n HM Hn (or_introl Hc)) as Hns.
        destruct Hname as [_ Hs]. congruence.
Qed.

Lemma Markup_loadHash pg i : Markup ns pg -> Markup ns (loadHash i pg).2.
Proof.
  apply (I_loadHash (Markup ns) (Markup_fields ns) (Markup_updNode ns)).
Qed.

(** The same body for the id of an element that is not a section. *)
Lemma loadHash_elsewhere pg i h :
  Markup ns pg -> Tidy pg ->
  i <> EmptyString ->
  getElementById ns i = Some h -> nodeHasClass ns h "section" = false ->
  let r := loadHash i pg in
  activeSections (showSection i pg) = [] /\
  activeSections r.2 = [] /\
  currentSection (state r.2) = i /\
  url r.2 = pathname +:+ "#" +:+ i /\
  nodeHasClass (nodes (showSection i pg)) h "active" = true /\
  (nodeHasClass ns h "nav-link" = false ->
   nodeHasClass (nodes r.2) h "active" = true).
Proof.
  intros HM HT Hi Hid Hsec r.
  assert (Hid' : getElementById (nodes pg) i = Some h)
    by (rewrite (Markup_getElementById ns pg i HM); exact Hid).
  assert (Hact : nodeHasClass (nodes (showSection i pg)) h "active" = true).
  { rewrite nodes_showSection, Hid'. unfold nodeHasClass.
    rewrite list_lookup_alter, decide_True by reflexivity.
    pose proof (getElementById_hidden (nodes pg) i) as Eh. rewrite Hid' in Eh.
    destruct (getElementById_Some _ _ _ Eh) as (n1 & -> & _). cbn.
    unfold hasClass, addClass. cbn. apply contains_classAdd. }
  assert (HM1 : Markup ns (showSection i pg))
    by (apply (I_showSection (Markup ns) (Markup_fields ns) (Markup_updNode ns)), HM).
  destruct (showSection_fields i pg h Hid') as (F1 & _ & _ & F4 & _).
  assert (HA : activeSections (showSection i pg) = []).
  { unfold activeSections. rewrite nodes_showSection, Hid'.
    assert (Hnone : selectAll (fun _ n => hasClass "section" n && hasClass "active" n)
                      (hidden (nodes pg)) = []).
    { apply elem_of_nil_inv. intros k Hk.
      apply elem_of_selectAll in Hk as (n & Hn & Hc).
      rewrite (hidden_none_active pg k n (proj1 HT) Hn) in Hc. discriminate. }
    rewrite <- Hnone. apply selectAll_alter. intros n Hn.
    destruct (hidden_lookup _ _ _ Hn) as (n0 & Hn0 & _ & Hs).
    assert (Hs0 : hasClass "section" n0 = false).
    { pose proof (Markup_class ns pg h "section" HM ltac:(static_class)) as E.
      unfold nodeHasClass in E at 1. rewrite Hn0 in E. cbn in E. congruence. }
    rewrite Hs0 in Hs.
    assert (Hs' : hasClass "section" (addClass "active" n) = false).
    { unfold hasClass, addClass. cbn. rewrite contains_classAdd_ne by discriminate.
      exact Hs. }
    rewrite Hs', Hs. reflexivity. }
  assert (Er : r = match linkTo ns i with
                   | Some link => updateActiveNavLink (Some link) (showSection i pg)
                   | None => (Normal tt, showSection i pg)
                   end).
  { subst r. unfold loadHash.
    rewrite (bool_decide_eq_false_2 (i = EmptyString)) by exact Hi.
    rewrite bool_decide_eq_true_2 by (rewrite Hid'; eauto).
    cbn [negb andb]. rewrite (Markup_linkTo ns _ i HM1). reflexivity. }
  split; [exact HA |].
  rewrite Er. destruct (linkTo ns i) as [link |] eqn:El;
    [| cbn [snd]; repeat split; try assumption; intros _; exact Hact].
  assert (Hln : exists n, ns !! link = Some n /\ attributes n !! "href" <> None).
  { unfold linkTo in El.
    destruct (list_find _ ns) as [[k n] |] eqn:E; [| discriminate].
    injection El as ->. apply list_find_Some in E as (Hk & [_ Hh] & _).
    exists n. split; [exact Hk | congruence]. }
  destruct Hln as (n & Hn & Hh).
  rewrite updateActiveNavLink_Some. cbn [snd].
  assert (Hkeep : nodeHasClass ns h "nav-link" = false ->
            nodeHasClass (nodes (updNode link (addClass "active")
                                   (cleared (showSection i pg)))) h "active"
            = true).
  { intros Hnl. rewrite nodeHasClass_updNode.
    assert (Hc : nodeHasClass (nodes (cleared (showSection i pg))) h "active"
                 = true).
    { rewrite active_cleared. rewrite bool_decide_eq_false_2; [exact Hact |].
      intros Hl. destruct (navLink_markup ns _ h HM1 Hl) as (n0 & Hn0 & Hc0).
      unfold nodeHasClass in Hnl. rewrite Hn0 in Hnl. cbn in Hnl. congruence. }
    destruct (decide (link = h)) as [-> | Hne]; [| exact Hc].
    unfold nodeHasClass in Hc |- *.
    destruct (nodes (cleared (showSection i pg)) !! h) as [n1 |];
      [| discriminate].
    cbn. unfold hasClass, addClass. cbn. apply contains_classAdd. }
  rewrite (cleared_only_nodes (showSection i pg)) at 2 3.
  cbn [state url updNode set_nodes].
  split; [| repeat split; assumption].
  rewrite (activeSections_other ns wf (cleared (showSection i pg)) link _ n
             (Markup_cleared ns _ HM1) Hn (or_intror (or_intror Hh)))
    by (apply cosmetic_addClass; dynamic_class).
  rewrite (activeSections_cleared ns wf _ HM1). exact HA.
Qed.

(** The page the constructor leaves. *)
Lemma constructor_shows_perfil width hash p :
  plainSpinner ns ->
  getElementById ns "perfil" = Some p -> nodeHasClass ns p "section" = true ->
  let pgc := constructor (loaded ns width hash) in
  activeSections pgc = [p] /\
  state pgc = mkState "perfil" false [] /\
  url pgc = pathname +:+ "#" +:+ "perfil" /\
  history pgc = [pathname +:+ "#" +:+ "perfil"] /\
  announcer pgc = Some EmptyString.
Proof.
  intros Hsp Hid Hsec pgc. subst pgc. unfold constructor.
  change (nodes (loaded ns width hash)) with ns.
  pose proof (Tidy_showLoadingSpinner ns width hash wf Hsp) as HT.
  pose proof (Markup_updNode ns) as HMu.
  set (pg0 := set_state _ _) in *.
  assert (HM : Markup ns (showLoadingSpinner pg0)).
  { unfold showLoadingSpinner. 
    assert (HM0 : Markup ns pg0)
      by (split; [apply Forall2_sameMarkup_refl | reflexivity]).
    destruct (loadingSpinner (elements pg0)); [| exact HM0].
    apply HMu; [| exact HM0]. apply cosmetic_addClass. dynamic_class. }
  destruct (fields_showLoadingSpinner pg0) as (S1 & S2 & S3 & S4 & S5).
  set (pgs := showLoadingSpinner pg0) in *.
  destruct (fields_hideLoadingSpinner (initializeComponents pgs))
    as (H1 & H2 & H3 & H4 & H5).
  unfold activeSections at 1. rewrite H1, H2, H3, H4, H5.
  fold (activeSections (initializeComponents pgs)).
  unfold initializeComponents.
  destruct (initialize_fields (showSection (currentSection (state pgs)) pgs))
    as (I1 & I2 & I3 & I4 & I5).
  rewrite I1, I2, I3, I4, I5.
  assert (Ec : currentSection (state pgs) = "perfil") by (rewrite S1; reflexivity).
  rewrite Ec.
  assert (Hid' : getElementById (nodes pgs) "perfil" = Some p)
    by (rewrite S5; exact Hid).
  assert (Hsec' : nodeHasClass (nodes pgs) p "section" = true)
    by (rewrite (Markup_class ns pgs p "section" HM) by static_class; exact Hsec).
  destruct (showSection_fields "perfil" pgs p Hid')
    as (F1 & F2 & F3 & F4 & F5 & _).
  split; [| split; [| split; [| split]]]; try assumption; try reflexivity.
  - apply showSection_active_list; [split; assumption |]. apply HT.
  - rewrite S1 in F2, F3.
    destruct (state (showSection "perfil" pgs)) as [c m a]. cbn in *.
    subst. reflexivity.
  - rewrite F5, S3. reflexivity.
Qed.

Lemma constructor_without_perfil width hash :
  getElementById ns "perfil" = None ->
  let pgc := constructor (loaded ns width hash) in
  url pgc = url (loaded ns width hash) /\ history pgc = [] /\
  announcer pgc = Some EmptyString.
Proof.
  intros Hid pgc. subst pgc. unfold constructor.
  change (nodes (loaded ns width hash)) with ns.
  set (pg0 := set_state _ _).
  destruct (fields_showLoadingSpinner pg0) as (S1 & S2 & S3 & S4 & S5).
  set (pgs := showLoadingSpinner pg0) in *.
  destruct (fields_hideLoadingSpinner (initializeComponents pgs))
    as (_ & _ & H3 & H4 & H5).
  rewrite H3, H4, H5. unfold initializeComponents.
  destruct (initialize_fields (showSection (currentSection (state pgs)) pgs))
    as (I1 & I2 & I3 & I4 & I5).
  rewrite I2, I3, I4.
  assert (Ec : currentSection (state pgs) = "perfil") by (rewrite S1; reflexivity).
  rewrite Ec.
  rewrite (showSection_unknown "perfil" pgs) by (rewrite S5; exact Hid).
  destruct (activeSection (nodes pgs)); cbn [url history updNode set_nodes];
    rewrite S2, S3; repeat split.
Qed.

End Load.

End LoadFacts.

(** X11. The fragment the page is opened with does not survive start-up
    when the document has a section [perfil]. Take well-formed markup
    (at most one section marked active, no section that is also a nav
    link, the nav menu or a link) whose spinner, if any, is not a
    section. With a section of id [perfil], the constructor shows that
    section and pushes [#perfil] before the listener reads
    [location.hash], so whatever the initial fragment, the listener ends
    with [perfil] as the only active and the current section, and the
    URL [#perfil] pushed twice. Only in a document without an element
    [perfil] does a non-empty initial fragment that is the id of a
    section select that section. *)
Theorem startup_overrides_initial_fragment
    (ns : list CVApp.Node) (width : nat) (hash : string) :
  CVApp.wellFormed ns ->
  CVApp.plainSpinner ns ->
  let r := CVApp.domContentLoaded (CVApp.loaded ns width hash) in
  (forall p,
     CVApp.getElementById ns "perfil" = Some p ->
     CVApp.nodeHasClass ns p "section" = true ->
     r.1 = Normal tt /\
     CVApp.activeSections r.2 = [p] /\
     CVApp.currentSection (CVApp.state r.2) = "perfil" /\
     CVApp.url r.2 = CVApp.pathname +:+ "#perfil" /\
     CVApp.history r.2
     = [CVApp.pathname +:+ "#perfil"; CVApp.pathname +:+ "#perfil"] /\
     CVApp.announcer r.2 = Some "Sección perfil cargada") /\
  (forall sec,
     CVApp.getElementById ns "perfil" = None ->
     hash <> EmptyString ->
     CVApp.getElementById ns hash = Some sec ->
     CVApp.nodeHasClass ns sec "section" = true ->
     r.1 = Normal tt /\
     CVApp.activeSections r.2 = [sec] /\
     CVApp.currentSection (CVApp.state r.2) = hash /\
     CVApp.history r.2 = [CVApp.pathname +:+ "#" +:+ hash]).
Proof.
  intros Hwf Hsp r. split.
  - intros p Hid Hsec.
    destruct (constructor_shows_perfil ns Hwf width hash p Hsp Hid Hsec)
      as (_ & _ & Cu & Ch & Ca).
    assert (Er : r = CVApp.loadHash "perfil"
                       (CVApp.constructor (CVApp.loaded ns width hash))).
    { subst r. unfold CVApp.domContentLoaded, andThen, pure. cbn [fst snd].
      unfold CVApp.locationHash. rewrite Cu. reflexivity. }
    destruct (loadHash_switches ns Hwf _ "perfil" p
                (Markup_constructor ns width hash)
                (Tidy_constructor ns width hash Hwf Hsp)
                ltac:(discriminate) Hid Hsec)
      as (L1 & L2 & L3 & _ & L5 & L6 & L7 & _).
    rewrite Er. rewrite Ch in L6. rewrite Ca in L7.
    repeat split; assumption.
  - intros sec Hnone Hh Hid Hsec.
    destruct (constructor_without_perfil ns width hash Hnone) as (Cu & Ch & _).
    assert (Er : r = CVApp.loadHash hash
                       (CVApp.constructor (CVApp.loaded ns width hash))).
    { subst r. unfold CVApp.domContentLoaded, andThen, pure. cbn [fst snd].
      unfold CVApp.locationHash. rewrite Cu. cbn [CVApp.url CVApp.loaded].
      rewrite (bool_decide_eq_false_2 (hash = EmptyString)) by exact Hh.
      rewrite afterHash_fragment. reflexivity. }
    destruct (loadHash_switches ns Hwf _ hash sec
                (Markup_constructor ns width hash)
                (Tidy_constructor ns width hash Hwf Hsp)
                Hh Hid Hsec)
      as (L1 & L2 & L3 & _ & _ & L6 & _).
    rewrite Er. rewrite Ch in L6. repeat split; assumption.
Qed.

Lemma startup_overrides_initial_fragment_witness :
  let r := CVApp.domContentLoaded (CVApp.loaded Demo.markup 1200 "experiencia") in
  CVApp.wellFormed Demo.markup /\
  CVApp.getElementById Demo.markup "perfil" = Some 4 /\
  CVApp.activeSections r.2 = [4] /\
  CVApp.url r.2 = CVApp.pathname +:+ "#perfil".
Proof.
  cbv zeta.
  split; [exact wellFormed_markup |]. split; [vm_compute; reflexivity |].
  assert (H1 : CVApp.getElementById Demo.markup "perfil" = Some 4)
    by (vm_compute; reflexivity).
  assert (H2 : CVApp.nodeHasClass Demo.markup 4 "section" = true)
    by (vm_compute; reflexivity).
  destruct (proj1 (startup_overrides_initial_fragment Demo.markup 1200
                     "experiencia" wellFormed_markup plainSpinner_markup)
              4 H1 H2)
    as (_ & Ha & _ & Hu & _).
  split; [exact Ha | exact Hu].
Defined.

(** X12. A [hashchange] to the non-empty id of a section switches to it
    from any page the script reaches, in well-formed markup (at most one
    section marked active, no section that is also a nav link, the nav
    menu or a link) whose spinner, if any, is not a section: that
    section becomes the only active one and the current one, and when
    the document has a link [a[href='#id']] that link is the only
    highlighted nav link; without such a link the highlight of the nav
    links stays as it was. Unlike a click on a nav link, the listener
    leaves the mobile menu as it is. *)
Theorem hashchange_switches_section
    (ns : list CVApp.Node) (width : nat) (hash : string)
    (evs : list CVApp.Event) (i : string) (sec : nat) :
  CVApp.wellFormed ns ->
  CVApp.plainSpinner ns ->
  i <> EmptyString ->
  CVApp.getElementById ns i = Some sec ->
  CVApp.nodeHasClass ns sec "section" = true ->
  let pg := CVApp.run evs (CVApp.domContentLoaded (CVApp.loaded ns width hash)).2 in
  let pg' := CVApp.step (CVApp.HashChange i) pg in
  CVApp.activeSections pg' = [sec] /\
  CVApp.currentSection (CVApp.state pg') = i /\
  CVApp.isMenuOpen (CVApp.state pg') = CVApp.isMenuOpen (CVApp.state pg) /\
  (forall l, l ∈ CVApp.navLinks (CVApp.elements pg) ->
     CVApp.nodeHasClass (CVApp.nodes pg') l "active"
     = match CVApp.linkTo ns i with
       | Some link => bool_decide (l = link)
       | None => CVApp.nodeHasClass (CVApp.nodes pg) l "active"
       end).
Proof.
  intros Hwf Hsp Hi Hid Hsec pg pg'.
  assert (HM : CVApp.Markup ns pg) by apply Markup_reached.
  assert (HT : CVApp.Tidy pg) by (apply Tidy_reached; assumption).
  destruct (loadHash_switches ns Hwf
              (CVApp.set_url (CVApp.pathname +:+ "#" +:+ i) pg) i sec
              (Markup_fields ns pg (CVApp.set_url (CVApp.pathname +:+ "#" +:+ i) pg)
                 eq_refl eq_refl HM)
              (Tidy_set_url _ pg HT) Hi Hid Hsec)
    as (_ & L2 & L3 & L4 & _ & _ & _ & L8).
  repeat split; assumption.
Qed.

Lemma hashchange_switches_section_witness :
  let pg := CVApp.run [CVApp.Click 3]
              (CVApp.domContentLoaded (CVApp.loaded Demo.markup 1200 EmptyString)).2 in
  let pg' := CVApp.step (CVApp.HashChange "experiencia") pg in
  CVApp.wellFormed Demo.markup /\
  CVApp.getElementById Demo.markup "experiencia" = Some 6 /\
  CVApp.activeSections pg' = [6] /\
  CVApp.isMenuOpen (CVApp.state pg') = CVApp.isMenuOpen (CVApp.state pg).
Proof.
  cbv zeta.
  split; [exact wellFormed_markup |]. split; [vm_compute; reflexivity |].
  assert (H1 : "experiencia" <> EmptyString) by discriminate.
  assert (H2 : CVApp.getElementById Demo.markup "experiencia" = Some 6)
    by (vm_compute; reflexivity).
  assert (H3 : CVApp.nodeHasClass Demo.markup 6 "section" = true)
    by (vm_compute; reflexivity).
  destruct (hashchange_switches_section Demo.markup 1200 EmptyString
              [CVApp.Click 3] "experiencia" 6 wellFormed_markup
              plainSpinner_markup H1 H2 H3)
    as (Ha & _ & Hm & _).
  split; [exact Ha | exact Hm].
Defined.

(** X13. The hash listener tests only that the fragment is the id of
    some element. Take well-formed markup (at most one active section,
    no section that is also a nav link, the nav menu or a link) whose
    spinner, if any, is not a section, and a non-empty id of an element
    that is not a section (the menu toggle, say). On any page the script
    reaches, [showSection] with that id hides the active section and
    marks that element active instead; the [hashchange] to it leaves no
    section active, with the id recorded as the current section, and the
    element still marked active unless it is a nav link (the nav links
    are unmarked by the listener afterwards). *)
Theorem hashchange_to_other_element_hides_sections
    (ns : list CVApp.Node) (width : nat) (hash : string)
    (evs : list CVApp.Event) (i : string) (h : nat) :
  CVApp.wellFormed ns ->
  CVApp.plainSpinner ns ->
  i <> EmptyString ->
  CVApp.getElementById ns i = Some h ->
  CVApp.nodeHasClass ns h "section" = false ->
  let pg := CVApp.run evs (CVApp.domContentLoaded (CVApp.loaded ns width hash)).2 in
  let pg' := CVApp.step (CVApp.HashChange i) pg in
  CVApp.activeSections (CVApp.showSection i pg) = [] /\
  CVApp.nodeHasClass (CVApp.nodes (CVApp.showSection i pg)) h "active" = true /\
  CVApp.activeSections pg' = [] /\
  CVApp.currentSection (CVApp.state pg') = i /\
  (CVApp.nodeHasClass ns h "nav-link" = false ->
   CVApp.nodeHasClass (CVApp.nodes pg') h "active" = true).
Proof.
  intros Hwf Hsp Hi Hid Hsec pg pg'.
  assert (HM : CVApp.Markup ns pg) by apply Markup_reached.
  assert (HT : CVApp.Tidy pg) by (apply Tidy_reached; assumption).
  destruct (loadHash_elsewhere ns Hwf pg i h HM HT Hi Hid Hsec)
    as (L0 & _ & _ & _ & L1 & _).
  destruct (loadHash_elsewhere ns Hwf
              (CVApp.set_url (CVApp.pathname +:+ "#" +:+ i) pg) i h
              (Markup_fields ns pg (CVApp.set_url (CVApp.pathname +:+ "#" +:+ i) pg)
                 eq_refl eq_refl HM)
              (Tidy_set_url _ pg HT) Hi Hid Hsec)
    as (_ & L2 & L3 & _ & _ & L4).
  repeat split; assumption.
Qed.

Lemma hashchange_to_other_element_hides_sections_witness :
  let pg := CVApp.run [CVApp.Click 2]
              (CVApp.domContentLoaded (CVApp.loaded Demo.markup 1200 EmptyString)).2 in
  CVApp.wellFormed Demo.markup /\
  CVApp.getElementById Demo.markup "menuToggle" = Some 3 /\
  CVApp.activeSections pg = [6] /\
  CVApp.activeSections (CVApp.step (CVApp.HashChange "menuToggle") pg) = [] /\
  CVApp.nodeHasClass
    (CVApp.nodes (CVApp.step (CVApp.HashChange "menuToggle") pg)) 3 "active"
  = true.
Proof.
  cbv zeta.
  split; [exact wellFormed_markup |]. split; [vm_compute; reflexivity |].
  split; [vm_compute; reflexivity |].
  assert (H1 : "menuToggle" <> EmptyString) by discriminate.
  assert (H2 : CVApp.getElementById Demo.markup "menuToggle" = Some 3)
    by (vm_compute; reflexivity).
  assert (H3 : CVApp.nodeHasClass Demo.markup 3 "section" = false)
    by (vm_compute; reflexivity).
  assert (H4 : CVApp.nodeHasClass Demo.markup 3 "nav-link" = false)
    by (vm_compute; reflexivity).
  destruct (hashchange_to_other_element_hides_sections Demo.markup
              1200 EmptyString [CVApp.Click 2] "menuToggle" 3
              wellFormed_markup plainSpinner_markup H1 H2 H3)
    as (_ & _ & Ha & _ & Hk).
  split; [exact Ha | exact (Hk H4)].
Defined.

(** * Keyboard navigation *)

Section KeyFacts.

Import CVApp.

Variable ns : list Node.
Hypothesis wf : wellFormed ns.
Hypothesis byId : sectionsById ns.

Lemma sectionId_markup pg h :
  Markup ns pg -> sectionId (nodes pg) h = sectionId ns h.
Proof.
  intros HM. unfold sectionId.
  destruct (ns !! h) as [n |] eqn:E.
  - destruct (Markup_lookup ns pg h n HM E) as (n' & -> & Hs). cbn.
    apply (same_id _ _ Hs).
  - destruct (nodes pg !! h) as [n' |] eqn:E'; [| reflexivity].
    destruct (Markup_lookup_r ns pg h n' HM E') as (n & Hn & _). congruence.
Qed.

Lemma section_markup pg k sec :
  Markup ns pg -> sections (elements pg) !! k = Some sec ->
  nodeHasClass ns sec "section" = true /\
  getElementById ns (sectionId ns sec) = Some sec.
Proof.
  intros [_ He] Hk. rewrite He in Hk. cbn in Hk.
  apply list_elem_of_lookup_2, elem_of_selectAll in Hk as (n & Hn & Hc).
  unfold nodeHasClass, sectionId. rewrite Hn. cbn.
  split; [exact Hc | apply (byId sec n Hn Hc)].
Qed.

Lemma findIndex_at pg k cur :
  Markup ns pg ->
  sections (elements pg) !! k = Some cur ->
  sectionId ns cur = currentSection (state pg) ->
  findIndex pg = Z.of_nat k.
Proof.
  intros HM Hk Hcur. unfold findIndex.
  assert (E : list_find
                (fun h => sectionId (nodes pg) h = currentSection (state pg))
                (sections (elements pg)) = Some (k, cur)).
  { apply list_find_Some. split; [exact Hk |]. split.
    - rewrite (sectionId_markup pg cur HM). exact Hcur.
    - intros j y Hj Hlt Hy. rewrite (sectionId_markup pg y HM) in Hy.
      destruct (section_markup pg j y HM Hj) as [_ Gy].
      destruct (section_markup pg k cur HM Hk) as [_ Gc].
      rewrite Hy, <- Hcur, Gc in Gy. injection Gy as ->.
      assert (Hnd : NoDup (sections (elements pg))).
      { rewrite (markup_elements _ _ HM). cbn. apply NoDup_selectAll. }
      pose proof (NoDup_lookup _ _ _ _ Hnd Hj Hk). lia. }
  rewrite E. reflexivity.
Qed.

(** The section switch of the arrow keys, to the section at position [k]. *)
Lemma arrow_goes pg k target :
  Markup ns pg -> Tidy pg ->
  sections (elements pg) !! k = Some target ->
  let r := (pure (showSection (sectionId (nodes pg) target)) >>
            updateActiveNavLink (navLinks (elements pg) !! k)) pg in
  activeSections r.2 = [target] /\
  currentSection (state r.2) = sectionId ns target /\
  (forall link, navLinks (elements pg) !! k = Some link ->
     r.1 = Normal tt /\
     forall l, l ∈ navLinks (elements pg) ->
       nodeHasClass (nodes r.2) l "active" = bool_decide (l = link)) /\
  (navLinks (elements pg) !! k = None ->
     (exists msg, r.1 = Throw (TypeError msg)) /\
     forall l, l ∈ navLinks (elements pg) ->
       nodeHasClass (nodes r.2) l "active" = false).
Proof.
  intros HM HT Hk r.
  destruct (section_markup pg k target HM Hk) as [Hsec Hid].
  subst r. rewrite (sectionId_markup pg target HM).
  set (i := sectionId ns target) in *.
  set (r := (pure (showSection i) >> _) pg).
  assert (Hid' : getElementById (nodes pg) i = Some target)
    by (rewrite (Markup_getElementById ns pg i HM); exact Hid).
  assert (HM1 : Markup ns (showSection i pg))
    by (apply (I_showSection (Markup ns) (Markup_fields ns) (Markup_updNode ns)), HM).
  assert (Hname : namesSection pg i target).
  { split; [exact Hid' |].
    rewrite (Markup_class ns pg target "section" HM) by static_class. exact Hsec. }
  destruct (showSection_fields i pg target Hid') as (F1 & _).
  assert (Er : r = updateActiveNavLink (navLinks (elements pg) !! k)
                     (showSection i pg)) by reflexivity.
  rewrite Er. destruct (navLinks (elements pg) !! k) as [link |] eqn:El.
  - destruct (navLink_markup ns pg link HM (list_elem_of_lookup_2 _ _ _ El))
      as (n & Hn & Hc).
    destruct (switched ns wf pg i target link n HM HT Hid Hsec Hn (or_introl Hc))
      as (_ & _ & HA & HL & Hst & _).
    rewrite updateActiveNavLink_Some. cbn [fst snd]. rewrite Hst.
    split; [exact HA |]. split; [exact F1 |]. split; [| discriminate].
    intros link' [= <-]. split; [reflexivity |].
    intros l Hl. apply HL. right. exact Hl.
  - rewrite updateActiveNavLink_None. cbn [fst snd].
    split.
    { rewrite (activeSections_cleared ns wf _ HM1).
      apply showSection_active_list; [exact Hname | apply HT]. }
    split.
    { rewrite (cleared_only_nodes (showSection i pg)). exact F1. }
    split; [discriminate |]. intros _. split; [eexists; reflexivity |].
    intros l Hl. rewrite active_cleared, elements_showSection.
    rewrite bool_decide_eq_true_2 by exact Hl. reflexivity.
Qed.

Lemma handleKeyNavigation_alt pg key :
  key <> "Escape" ->
  handleKeyNavigation key true pg
  = let secs := sections (elements pg) in
    let go (k : nat) : Completion unit * Page :=
      match secs !! k with
      | Some sec =>
          (pure (showSection (sectionId (nodes pg) sec)) >>
           updateActiveNavLink (navLinks (elements pg) !! k)) pg
      | None =>
          (Throw (TypeError "Cannot read properties of undefined (reading 'id')"), pg)
      end in
    if bool_decide (key = "ArrowRight")
       && (findIndex pg <? Z.of_nat (length secs) - 1)%Z
    then go (Z.to_nat (findIndex pg + 1))
    else if bool_decide (key = "ArrowLeft") && (0 <? findIndex pg)%Z
    then go (Z.to_nat (findIndex pg - 1))
    else (Normal tt, pg).
Proof.
  intros Hk. unfold handleKeyNavigation, andThen.
  rewrite (bool_decide_eq_false_2 (key = "Escape")) by exact Hk.
  reflexivity.
Qed.

End KeyFacts.

(** X14. Alt+ArrowRight and Alt+ArrowLeft step through the sections in
    document order. Take well-formed markup (at most one active section,
    no section that is also a nav link, the nav menu or a link) whose
    spinner, if any, is not a section, and whose sections are found by
    their ids (each has a non-empty id of which it is the first bearer).
    On any page the script reaches, with the current section at position
    [k] among the sections: Alt+ArrowRight makes the section at [k+1] the only active and
    the current one, and Alt+ArrowLeft the one at [k-1]; the nav link at
    the same position becomes the only highlighted one, and when there is
    no nav link at that position the section is switched all the same
    but the handler ends in a [TypeError] with no link highlighted. At
    the last section Alt+ArrowRight, and at the first Alt+ArrowLeft,
    change nothing. *)
Theorem alt_arrows_step_through_sections
    (ns : list CVApp.Node) (width : nat) (hash : string)
    (evs : list CVApp.Event) (k cur : nat) :
  CVApp.wellFormed ns ->
  CVApp.plainSpinner ns ->
  CVApp.sectionsById ns ->
  let pg := CVApp.run evs (CVApp.domContentLoaded (CVApp.loaded ns width hash)).2 in
  let secs := CVApp.sections (CVApp.elements pg) in
  let links := CVApp.navLinks (CVApp.elements pg) in
  secs !! k = Some cur ->
  CVApp.sectionId ns cur = CVApp.currentSection (CVApp.state pg) ->
  let moved (key : string) (j : nat) :=
    let r := CVApp.handleKeyNavigation key true pg in
    forall target, secs !! j = Some target ->
      CVApp.activeSections r.2 = [target] /\
      CVApp.currentSection (CVApp.state r.2) = CVApp.sectionId ns target /\
      (forall link, links !! j = Some link ->
         r.1 = Normal tt /\
         forall l, l ∈ links ->
           CVApp.nodeHasClass (CVApp.nodes r.2) l "active" = bool_decide (l = link)) /\
      (links !! j = None ->
         (exists msg, r.1 = Throw (TypeError msg)) /\
         forall l, l ∈ links ->
           CVApp.nodeHasClass (CVApp.nodes r.2) l "active" = false) in
  moved "ArrowRight" (S k) /\
  (forall j, k = S j -> moved "ArrowLeft" j) /\
  (secs !! S k = None ->
   CVApp.handleKeyNavigation "ArrowRight" true pg = (Normal tt, pg)) /\
  (k = 0 -> CVApp.handleKeyNavigation "ArrowLeft" true pg = (Normal tt, pg)).
Proof.
  intros Hwf Hsp HbyId pg secs links Hk Hcur. cbv zeta.
  assert (HM : CVApp.Markup ns pg) by apply Markup_reached.
  assert (HT : CVApp.Tidy pg) by (apply Tidy_reached; assumption).
  pose proof (findIndex_at ns HbyId pg k cur HM Hk Hcur) as Hfi.
  pose proof (lookup_lt_Some _ _ _ Hk) as Hlt. fold secs in Hlt.
  rewrite !(handleKeyNavigation_alt pg) by discriminate. cbv zeta.
  fold secs links. rewrite Hfi.
  rewrite (bool_decide_eq_true_2 ("ArrowRight" = "ArrowRight")) by reflexivity.
  rewrite (bool_decide_eq_false_2 ("ArrowLeft" = "ArrowRight")) by discriminate.
  rewrite (bool_decide_eq_true_2 ("ArrowLeft" = "ArrowLeft")) by reflexivity.
  cbn [andb].
  replace (Z.to_nat (Z.of_nat k + 1)) with (S k) by lia.
  split; [| split; [| split]].
  - intros target Ht. pose proof (lookup_lt_Some _ _ _ Ht) as Hlt'.
    assert ((Z.of_nat k <? Z.of_nat (length secs) - 1)%Z = true) as ->
      by (apply Z.ltb_lt; lia).
    rewrite Ht. apply (arrow_goes ns Hwf HbyId pg (S k) target HM HT Ht).
  - intros j -> target Ht.
    assert ((0 <? Z.of_nat (S j))%Z = true) as -> by (apply Z.ltb_lt; lia).
    replace (Z.to_nat (Z.of_nat (S j) - 1)) with j by lia.
    rewrite Ht. apply (arrow_goes ns Hwf HbyId pg j target HM HT Ht).
  - intros Hnone. apply lookup_ge_None in Hnone.
    assert ((Z.of_nat k <? Z.of_nat (length secs) - 1)%Z = false) as ->
      by (apply Z.ltb_ge; lia).
    reflexivity.
  - intros ->. reflexivity.
Qed.

Lemma sectionsById_markup : CVApp.sectionsById Demo.markup.
Proof.
  intros h n Hn Hc.
  do 9 (destruct h as [| h];
        [injection Hn as <-; vm_compute in Hc; try discriminate Hc;
         vm_compute; reflexivity |]).
  discriminate Hn.
Qed.

Lemma alt_arrows_step_through_sections_witness :
  let pg := CVApp.run [CVApp.Click 3]
              (CVApp.domContentLoaded (CVApp.loaded Demo.markup 1200 EmptyString)).2 in
  CVApp.wellFormed Demo.markup /\
  CVApp.sectionsById Demo.markup /\
  CVApp.sections (CVApp.elements pg) !! 0 = Some 4 /\
  CVApp.sectionId Demo.markup 4 = CVApp.currentSection (CVApp.state pg) /\
  CVApp.activeSections (CVApp.handleKeyNavigation "ArrowRight" true pg).2 = [6].
Proof.
  cbv zeta.
  split; [exact wellFormed_markup |]. split; [exact sectionsById_markup |].
  assert (H1 : CVApp.sections
                 (CVApp.elements
                    (CVApp.run [CVApp.Click 3]
                       (CVApp.domContentLoaded
                          (CVApp.loaded Demo.markup 1200 EmptyString)).2)) !! 0
               = Some 4) by (vm_compute; reflexivity).
  assert (H2 : CVApp.sectionId Demo.markup 4
               = CVApp.currentSection
                   (CVApp.state
                      (CVApp.run [CVApp.Click 3]
                         (CVApp.domContentLoaded
                            (CVApp.loaded Demo.markup 1200 EmptyString)).2)))
    by (vm_compute; reflexivity).
  split; [exact H1 |]. split; [exact H2 |].
  assert (H3 : CVApp.sections
                 (CVApp.elements
                    (CVApp.run [CVApp.Click 3]
                       (CVApp.domContentLoaded
                          (CVApp.loaded Demo.markup 1200 EmptyString)).2)) !! 1
               = Some 6) by (vm_compute; reflexivity).
  exact (proj1 (proj1 (alt_arrows_step_through_sections Demo.markup 1200
                         EmptyString [CVApp.Click 3] 0 4 wellFormed_markup
                         plainSpinner_markup sectionsById_markup H1 H2) 6 H3)).
Defined.

(** * Validation and formatting utilities *)

Section RegexFacts.

Import CVUtils.

Lemma nullable_spec r : nullable r = true <-> Matches r [].
Proof.
  induction r as [| | p | r1 IH1 r2 IH2 | r1 IH1 r2 IH2 | r IH]; cbn.
  - split; [discriminate | inversion 1].
  - split; [constructor | reflexivity].
  - split; [discriminate | inversion 1].
  - rewrite andb_true_iff, IH1, IH2. split.
    + intros [H1 H2]. exact (MSeq _ _ [] [] H1 H2).
    + inversion 1 as [| | ? ? s1 s2 H1 H2 E1 E2 | | | |]; subst.
      apply app_eq_nil in E2 as [-> ->]. split; assumption.
  - rewrite orb_true_iff, IH1, IH2. split.
    + intros [H | H]; [apply MAltL | apply MAltR]; exact H.
    + inversion 1; subst; auto.
  - split; [constructor | reflexivity].
Qed.

Lemma Matches_star_cons r c s :
  Matches (Star r) (c :: s) ->
  exists s1 s2, s = s1 ++ s2 /\ Matches r (c :: s1) /\ Matches (Star r) s2.
Proof.
  intros H. remember (Star r) as r' eqn:Er. remember (c :: s) as cs eqn:Es.
  revert c s Es.
  induction H as [| | | | | | r0 s1 s2 H1 _ H2 IH2]; intros c0 s0 Es;
    try discriminate.
  injection Er as ->.
  destruct s1 as [| c1 s1].
  - cbn in Es. apply (IH2 eq_refl c0 s0 Es).
  - cbn in Es. injection Es as -> <-. exists s1, s2. repeat split; assumption.
Qed.

Lemma deriv_spec c r s : Matches (deriv c r) s <-> Matches r (c :: s).
Proof.
  revert s. induction r as [| | p | r1 IH1 r2 IH2 | r1 IH1 r2 IH2 | r IH];
    intros s; cbn.
  - split; inversion 1.
  - split; inversion 1.
  - destruct (p c) eqn:E.
    + split.
      * inversion 1; subst. constructor. exact E.
      * inversion 1; subst. constructor.
    + split; [inversion 1 |]. inversion 1; subst. congruence.
  - split.
    + inversion 1 as [| | | ? ? ? H1 | ? ? ? H2 | |]; subst.
      * inversion H1 as [| | ? ? s1 s2 Ha Hb | | | |]; subst.
        apply IH1 in Ha. exact (MSeq _ _ (c :: s1) s2 Ha Hb).
      * destruct (nullable r1) eqn:En; [| inversion H2].
        apply IH2 in H2. apply nullable_spec in En.
        exact (MSeq _ _ [] (c :: s) En H2).
    + inversion 1 as [| | ? ? s1 s2 Ha Hb E1 E2 | | | |]; subst.
      destruct s1 as [| c1 s1].
      * cbn in E2. subst. apply MAltR.
        apply nullable_spec in Ha. rewrite Ha. apply IH2. exact Hb.
      * cbn in E2. injection E2 as -> <-. apply MAltL.
        apply MSeq; [apply IH1; exact Ha | exact Hb].
  - split.
    + inversion 1; subst; [apply MAltL, IH1 | apply MAltR, IH2]; assumption.
    + inversion 1; subst; [apply MAltL, IH1 | apply MAltR, IH2]; assumption.
  - split.
    + inversion 1 as [| | ? ? s1 s2 Ha Hb | | | |]; subst.
      apply IH in Ha. exact (MStarCons _ (c :: s1) s2 Ha Hb).
    + intros H. apply Matches_star_cons in H as (s1 & s2 & -> & Ha & Hb).
      apply MSeq; [apply IH; exact Ha | exact Hb].
Qed.

Lemma test_spec r s : test r s = true <-> Matches r s.
Proof.
  unfold test. revert r. induction s as [| c s IH]; intros r; cbn.
  - apply nullable_spec.
  - rewrite IH. apply deriv_spec.
Qed.

Lemma Matches_class_star p s :
  Matches (Star (Class p)) s <-> Forall (fun c => p c = true) s.
Proof.
  split.
  - intros H. remember (Star (Class p)) as r eqn:Er.
    induction H as [| | | | | | r0 s1 s2 H1 _ H2 IH2]; try discriminate.
    + constructor.
    + injection Er as ->. inversion H1; subst. cbn. constructor; auto.
  - induction 1 as [| c s Hc _ IH]; [constructor |].
    exact (MStarCons _ [c] s (MClass p c Hc) IH).
Qed.

Lemma Matches_class_plus p s :
  Matches (Plus (Class p)) s <-> s <> [] /\ Forall (fun c => p c = true) s.
Proof.
  unfold Plus. split.
  - inversion 1 as [| | ? ? s1 s2 Ha Hb | | | |]; subst.
    inversion Ha; subst. apply Matches_class_star in Hb.
    split; [discriminate | constructor; assumption].
  - intros [Hne Hall]. destruct s as [| c s]; [contradiction |].
    inversion Hall; subst.
    apply (MSeq _ _ [c] s); [constructor; assumption |].
    apply Matches_class_star. assumption.
Qed.

Lemma Matches_lit c s : Matches (Lit c) s <-> s = [c].
Proof.
  unfold Lit. split.
  - inversion 1 as [| ? c' Hc | | | | |]; subst.
    apply N.eqb_eq in Hc. subst. reflexivity.
  - intros ->. constructor. apply N.eqb_refl.
Qed.

Lemma Matches_seq r1 r2 s :
  Matches (Seq r1 r2) s <->
  exists s1 s2, s = s1 ++ s2 /\ Matches r1 s1 /\ Matches r2 s2.
Proof.
  split.
  - inversion 1; subst. eauto.
  - intros (s1 & s2 & -> & H1 & H2). constructor; assumption.
Qed.

End RegexFacts.

(** X15. [validateEmail] accepts exactly the strings of the form
    [local@domain.tld] in which each of the three parts is non-empty and
    free of white space and of [@]; the domain and the last part may
    themselves contain dots. So an accepted address has exactly one [@],
    no white space, and a dot after the [@] that is neither next to it
    nor the last character. *)
Theorem validateEmail_accepts_local_at_domain_dot_tld (email : list N) :
  (CVUtils.validateEmail email = true <->
   exists loc domain tld,
     email = loc ++ [64%N] ++ domain ++ [46%N] ++ tld /\
     CVUtils.addressPart loc /\ CVUtils.addressPart domain /\
     CVUtils.addressPart tld) /\
  (CVUtils.validateEmail email = true ->
   length (filter (fun c => c = 64%N) email) = 1%nat /\
   Forall (fun c => CVUtils.isWhiteSpace c = false) email).
Proof.
  assert (Hspec : CVUtils.validateEmail email = true <->
            exists loc domain tld,
              email = loc ++ [64%N] ++ domain ++ [46%N] ++ tld /\
              CVUtils.addressPart loc /\ CVUtils.addressPart domain /\
              CVUtils.addressPart tld).
  { unfold CVUtils.validateEmail. cbv zeta. rewrite test_spec.
    rewrite Matches_seq. split.
    - intros (l & s1 & -> & Hl & H1).
      apply Matches_seq in H1 as (a & s2 & -> & Ha & H2).
      apply Matches_seq in H2 as (d & s3 & -> & Hd & H3).
      apply Matches_seq in H3 as (o & t & -> & Ho & Ht).
      apply Matches_lit in Ha, Ho. subst.
      apply Matches_class_plus in Hl, Hd, Ht.
      exists l, d, t. repeat split; try tauto.
    - intros (l & d & t & -> & Hl & Hd & Ht).
      exists l, ([64%N] ++ d ++ [46%N] ++ t).
      split; [reflexivity |]. split; [apply Matches_class_plus, Hl |].
      apply CVUtils.MSeq; [apply Matches_lit; reflexivity |].
      apply CVUtils.MSeq; [apply Matches_class_plus, Hd |].
      apply CVUtils.MSeq; [apply Matches_lit; reflexivity |].
      apply Matches_class_plus, Ht. }
  split; [exact Hspec |].
  intros Hv. apply Hspec in Hv as (l & d & t & -> & [_ Hl] & [_ Hd] & [_ Ht]).
  assert (Hnone : forall s, Forall (fun c => CVUtils.notSpaceAt c = true) s ->
                            filter (fun c => c = 64%N) s = [] /\
                            Forall (fun c => CVUtils.isWhiteSpace c = false) s).
  { intros s Hs. induction Hs as [| c s Hc _ [IH1 IH2]]; [split; constructor |].
    unfold CVUtils.notSpaceAt in Hc. apply negb_true_iff, orb_false_iff in Hc
      as [Hw Hat]. apply N.eqb_neq in Hat.
    split; [rewrite filter_cons_False by exact Hat; exact IH1 |].
    constructor; assumption. }
  destruct (Hnone l Hl) as [L1 L2], (Hnone d Hd) as [D1 D2],
    (Hnone t Ht) as [T1 T2].
  split.
  - rewrite !filter_app, L1, D1, T1. reflexivity.
  - repeat (apply Forall_app; split); try assumption;
      repeat constructor.
Qed.

Section ReplaceFacts.

Import CVUtils.

Lemma matchClasses_Some cs s m rest :
  matchClasses cs s = Some (m, rest) <->
  s = m ++ rest /\ Forall2 (fun p c => p c = true) cs m.
Proof.
  revert s m rest. induction cs as [| p cs IH]; intros s m rest; cbn.
  - split.
    + intros [= <- <-]. split; [reflexivity | constructor].
    + intros [-> H]. inversion H. reflexivity.
  - destruct s as [| c s].
    + split; [discriminate |]. intros [E H]. inversion H; subst. discriminate.
    + destruct (p c) eqn:Ep.
      * destruct (matchClasses cs s) as [[m' rest'] |] eqn:Em.
        -- apply IH in Em as [-> Hm]. split.
           ++ intros [= <- <-]. split; [reflexivity | constructor; assumption].
           ++ intros [E H]. inversion H as [| ? c' ? m0 Hc Hm0]; subst.
              cbn in E. injection E as <- E.
              assert (Hsome : matchClasses cs (m' ++ rest') = Some (m0, rest))
                by (apply IH; split; assumption).
              assert (Hsome' : matchClasses cs (m' ++ rest') = Some (m', rest'))
                by (apply IH; split; [reflexivity | assumption]).
              congruence.
        -- split; [discriminate |]. intros [E H].
           inversion H as [| ? c' ? m0 Hc Hm0]; subst.
           cbn in E. injection E as <- ->.
           assert (Hsome : matchClasses cs (m0 ++ rest) = Some (m0, rest))
             by (apply IH; split; [reflexivity | assumption]).
           congruence.
      * split; [discriminate |]. intros [E H].
        inversion H as [| ? c' ? m0 Hc Hm0]; subst.
        cbn in E. injection E as <- ->. congruence.
Qed.

Lemma matchPhone_Some s ms rest :
  matchGroups phonePattern s = Some (ms, rest) <->
  exists a b c,
    ms = [codeUnits "+51"; a; b; c] /\
    digits3 a /\ digits3 b /\ digits3 c /\
    s = codeUnits "+51" ++ a ++ b ++ c ++ rest.
Proof.
  assert (Hd : forall m, Forall2 (fun p c => p c = true)
                           [isDigit; isDigit; isDigit] m <-> digits3 m).
  { intros m. split.
    - intros H. inversion H as [| ? x1 ? m1 H1 H']; subst.
      inversion H' as [| ? x2 ? m2 H2 H'']; subst.
      inversion H'' as [| ? x3 ? m3 H3 H''']; subst.
      inversion H'''; subst. split; [reflexivity | repeat constructor; assumption].
    - intros [Hl Hall]. destruct m as [| x1 [| x2 [| x3 [| x4 m]]]];
        try discriminate.
      inversion Hall as [| ? ? H1 H']; subst.
      inversion H' as [| ? ? H2 H'']; subst.
      inversion H'' as [| ? ? H3 _]; subst.
      repeat constructor; assumption. }
  assert (Hp : forall m, Forall2 (fun p c => p c = true)
                           [N.eqb 43%N; N.eqb 53%N; N.eqb 49%N] m
                         <-> m = codeUnits "+51").
  { intros m. split.
    - intros H. inversion H as [| ? x1 ? m1 H1 H']; subst.
      inversion H' as [| ? x2 ? m2 H2 H'']; subst.
      inversion H'' as [| ? x3 ? m3 H3 H''']; subst.
      inversion H'''; subst.
      apply N.eqb_eq in H1, H2, H3. subst. reflexivity.
    - intros ->. repeat constructor. }
  unfold phonePattern. cbn [matchGroups]. split.
  - destruct (matchClasses _ s) as [[m0 r0] |] eqn:E0; [| discriminate].
    destruct (matchClasses _ r0) as [[m1 r1] |] eqn:E1; [| discriminate].
    destruct (matchClasses _ r1) as [[m2 r2] |] eqn:E2; [| discriminate].
    destruct (matchClasses _ r2) as [[m3 r3] |] eqn:E3; [| discriminate].
    intros [= <- <-].
    apply matchClasses_Some in E0 as [-> H0], E1 as [-> H1], E2 as [-> H2],
      E3 as [-> H3].
    apply Hp in H0. apply Hd in H1, H2, H3. subst m0.
    exists m1, m2, m3. repeat split; try tauto. 
    all: try apply H1; try apply H2; try apply H3.
  - intros (a & b & c & -> & Ha & Hb & Hc & ->).
    assert (E0 : matchClasses [N.eqb 43%N; N.eqb 53%N; N.eqb 49%N]
                   (codeUnits "+51" ++ a ++ b ++ c ++ rest)
                 = Some (codeUnits "+51", a ++ b ++ c ++ rest))
      by (apply matchClasses_Some; split; [reflexivity | apply Hp; reflexivity]).
    rewrite E0.
    assert (E1 : matchClasses [isDigit; isDigit; isDigit] (a ++ b ++ c ++ rest)
                 = Some (a, b ++ c ++ rest))
      by (apply matchClasses_Some; split; [reflexivity | apply Hd, Ha]).
    rewrite E1.
    assert (E2 : matchClasses [isDigit; isDigit; isDigit] (b ++ c ++ rest)
                 = Some (b, c ++ rest))
      by (apply matchClasses_Some; split; [reflexivity | apply Hd, Hb]).
    rewrite E2.
    assert (E3 : matchClasses [isDigit; isDigit; isDigit] (c ++ rest)
                 = Some (c, rest))
      by (apply matchClasses_Some; split; [reflexivity | apply Hd, Hc]).
    rewrite E3. reflexivity.
Qed.

Lemma replaceFirst_unfold gs t s :
  replaceFirst gs t s
  = match matchGroups gs s with
    | Some (ms, rest) => t ms ++ rest
    | None => match s with [] => [] | c :: s' => c :: replaceFirst gs t s' end
    end.
Proof. destruct s; reflexivity. Qed.

Lemma replaceFirst_none gs t s :
  (forall j, matchGroups gs (drop j s) = None) -> replaceFirst gs t s = s.
Proof.
  induction s as [| c s IH]; intros Hn; rewrite replaceFirst_unfold;
    pose proof (Hn 0%nat) as H0; cbn in H0; rewrite H0; [reflexivity |].
  f_equal. apply IH. intros j. exact (Hn (S j)).
Qed.

Lemma replaceFirst_at gs t pre s ms rest :
  (forall j, (j < length pre)%nat -> matchGroups gs (drop j (pre ++ s)) = None) ->
  matchGroups gs s = Some (ms, rest) ->
  replaceFirst gs t (pre ++ s) = pre ++ t ms ++ rest.
Proof.
  induction pre as [| c pre IH]; intros Hn Hs; rewrite replaceFirst_unfold.
  - cbn. rewrite Hs. reflexivity.
  - pose proof (Hn 0%nat ltac:(cbn; lia)) as H0. cbn in H0.
    cbn [app]. rewrite H0. f_equal. apply IH; [| exact Hs].
    intros j Hj. apply (Hn (S j)). cbn. lia.
Qed.

Lemma withoutSpaces_app s1 s2 :
  withoutSpaces (s1 ++ s2) = withoutSpaces s1 ++ withoutSpaces s2.
Proof. apply filter_app. Qed.

Lemma digits3_no_space a : digits3 a -> withoutSpaces a = a.
Proof.
  intros [_ H]. unfold withoutSpaces. induction H as [| c a Hc _ IH]; [reflexivity |].
  rewrite filter_cons_True, IH; [reflexivity |].
  intros ->. discriminate Hc.
Qed.

Lemma rawNumber_lookup m k x :
  rawNumber m -> (0 < k)%nat -> m !! k = Some x -> x <> 43%N.
Proof.
  intros (a & b & c & -> & [La Ha] & [Lb Hb] & [Lc Hc]) Hk Hx.
  destruct k as [| [| [| k]]];
    [lia | cbn in Hx; injection Hx as <-; discriminate ..|].
  cbn in Hx. intros ->.
  assert (Hin : 43%N ∈ a ++ b ++ c) by (apply list_elem_of_lookup; eauto).
  rewrite !elem_of_app in Hin.
  assert (Hno : forall l, Forall (fun c => isDigit c = true) l -> 43%N ∉ l).
  { intros l Hl Hin'. rewrite Forall_forall in Hl. specialize (Hl _ Hin').
    discriminate Hl. }
  destruct Hin as [H | [H | H]];
    [exact (Hno a Ha H) | exact (Hno b Hb H) | exact (Hno c Hc H)].
Qed.

Lemma rawNumber_length m : rawNumber m -> length m = 12%nat.
Proof.
  intros (a & b & c & -> & [La _] & [Lb _] & [Lc _]).
  rewrite !length_app, La, Lb, Lc. reflexivity.
Qed.

Lemma replaceFirst_cases gs t s :
  (replaceFirst gs t s = s /\ forall j, matchGroups gs (drop j s) = None) \/
  (exists pre s0 ms rest,
     s = pre ++ s0 /\ matchGroups gs s0 = Some (ms, rest) /\
     replaceFirst gs t s = pre ++ t ms ++ rest).
Proof.
  induction s as [| c s IH]; rewrite replaceFirst_unfold.
  - destruct (matchGroups gs []) as [[ms rest] |] eqn:E.
    + right. exists [], [], ms, rest. repeat split. exact E.
    + left. split; [reflexivity |]. intros j. rewrite drop_nil. exact E.
  - destruct (matchGroups gs (c :: s)) as [[ms rest] |] eqn:E.
    + right. exists [], (c :: s), ms, rest. repeat split. exact E.
    + destruct IH as [[IH1 IH2] | (pre & s0 & ms & rest & -> & Hs & IH)].
      * left. rewrite IH1. split; [reflexivity |].
        intros [| j]; [exact E | exact (IH2 j)].
      * right. exists (c :: pre), s0, ms, rest. rewrite IH. repeat split.
        exact Hs.
Qed.

Lemma holdsRawNumber_drop s :
  holdsRawNumber s <->
  exists j ms rest, matchGroups phonePattern (drop j s) = Some (ms, rest).
Proof.
  split.
  - intros (pre & m & post & -> & a & b & c & -> & Ha & Hb & Hc).
    exists (length pre), [codeUnits "+51"; a; b; c], post.
    rewrite drop_app_length. apply matchPhone_Some.
    exists a, b, c. rewrite <- !app_assoc. repeat split; try tauto.
    all: try apply Ha; try apply Hb; try apply Hc.
  - intros (j & ms & rest & E).
    apply matchPhone_Some in E as (a & b & c & _ & Ha & Hb & Hc & E).
    exists (take j s), (codeUnits "+51" ++ a ++ b ++ c), rest. split.
    + rewrite <- (take_drop j s) at 1. rewrite E, <- !app_assoc. reflexivity.
    + exists a, b, c. tauto.
Qed.

End ReplaceFacts.

(** X16. [formatPhone] spaces the leftmost unformatted number and leaves
    the rest of the string alone: when the part before [+51] and nine
    digits holds no unformatted number, the result is that part, then
    [+51 ddd ddd ddd], then whatever followed, be it further digits or
    further unformatted numbers. *)
Theorem formatPhone_spaces_leftmost_number
    (pre a b c post : list N) :
  CVUtils.digits3 a -> CVUtils.digits3 b -> CVUtils.digits3 c ->
  ~ CVUtils.holdsRawNumber pre ->
  CVUtils.formatPhone (pre ++ CVUtils.codeUnits "+51" ++ a ++ b ++ c ++ post)
  = pre ++ CVUtils.codeUnits "+51 " ++ a ++ CVUtils.codeUnits " " ++ b
        ++ CVUtils.codeUnits " " ++ c ++ post.
Proof.
  intros Ha Hb Hc Hpre. unfold CVUtils.formatPhone.
  set (s := CVUtils.codeUnits "+51" ++ a ++ b ++ c ++ post).
  assert (Hs : CVUtils.matchGroups CVUtils.phonePattern s
               = Some ([CVUtils.codeUnits "+51"; a; b; c], post)).
  { apply matchPhone_Some. exists a, b, c. repeat split; try tauto.
    all: try apply Ha; try apply Hb; try apply Hc. }
  rewrite (replaceFirst_at _ _ pre s [CVUtils.codeUnits "+51"; a; b; c] post);
    [| | exact Hs].
  - change (CVUtils.codeUnits "+51 ") with (CVUtils.codeUnits "+51" ++ [32%N]).
    change (CVUtils.codeUnits " ") with [32%N].
    unfold CVUtils.spaced. cbn [nth]. rewrite <- !app_assoc. reflexivity.
  - intros j Hj.
    destruct (CVUtils.matchGroups CVUtils.phonePattern (drop j (pre ++ s)))
      as [[ms rest] |] eqn:E; [| reflexivity].
    exfalso. apply matchPhone_Some in E as (a' & b' & c' & _ & Ha' & Hb' & Hc' & E).
    set (m := CVUtils.codeUnits "+51" ++ a' ++ b' ++ c').
    assert (Hm : CVUtils.rawNumber m) by (exists a', b', c'; tauto).
    assert (E' : drop j (pre ++ s) = m ++ rest)
      by (rewrite E; unfold m; rewrite <- !app_assoc; reflexivity).
    pose proof (rawNumber_length m Hm) as Lm.
    destruct (decide (j + 12 <= length pre)%nat) as [Hin | Hout].
    + apply Hpre. exists (take j pre), m, (drop (j + 12) pre).
      split; [| exact Hm].
      assert (Hd : drop j pre = m ++ drop (j + 12) pre).
      { assert (Ht : take 12 (drop j pre) = m).
        { transitivity (take 12 (drop j (pre ++ s))).
          - rewrite drop_app_le by lia. rewrite take_app_le; [reflexivity |].
            rewrite length_drop. lia.
          - rewrite E'. rewrite take_app_length' by (symmetry; exact Lm). reflexivity. }
        rewrite <- Ht. rewrite <- drop_drop. symmetry. apply take_drop. }
      rewrite <- Hd. symmetry. apply take_drop.
    + assert (Hk : m !! (length pre - j)%nat = Some 43%N).
      { transitivity ((m ++ rest) !! (length pre - j)%nat).
        - symmetry. apply lookup_app_l. rewrite Lm.
          apply Nat.nle_gt in Hout. lia.
        - rewrite <- E'. rewrite lookup_drop.
          replace (j + (length pre - j))%nat with (length pre + 0)%nat by lia.
          rewrite lookup_app_r by lia.
          replace (length pre + 0 - length pre)%nat with 0%nat by lia.
          reflexivity. }
      assert (Hpos : (0 < length pre - j)%nat) by lia.
      apply (rawNumber_lookup m _ _ Hm Hpos Hk). reflexivity.
Qed.

Lemma formatPhone_spaces_leftmost_number_witness :
  CVUtils.digits3 (CVUtils.codeUnits "992") /\
  ~ CVUtils.holdsRawNumber (CVUtils.codeUnits "Tel: ") /\
  CVUtils.formatPhone (CVUtils.codeUnits "Tel: +51992016075 / +51992016076")
  = CVUtils.codeUnits "Tel: +51 992 016 075 / +51992016076".
Proof.
  assert (Hpre : ~ CVUtils.holdsRawNumber (CVUtils.codeUnits "Tel: ")).
  { intros (pre & m & post & E & Hm). apply rawNumber_length in Hm.
    apply (f_equal length) in E. rewrite !length_app, Hm in E.
    change (length (CVUtils.codeUnits "Tel: ")) with 5%nat in E. lia. }
  assert (H1 : CVUtils.digits3 (CVUtils.codeUnits "992"))
    by (split; [reflexivity | repeat constructor]).
  assert (H2 : CVUtils.digits3 (CVUtils.codeUnits "016"))
    by (split; [reflexivity | repeat constructor]).
  assert (H3 : CVUtils.digits3 (CVUtils.codeUnits "075"))
    by (split; [reflexivity | repeat constructor]).
  split; [exact H1 |]. split; [exact Hpre |].
  exact (formatPhone_spaces_leftmost_number
           (CVUtils.codeUnits "Tel: ") (CVUtils.codeUnits "992")
           (CVUtils.codeUnits "016") (CVUtils.codeUnits "075")
           (CVUtils.codeUnits " / +51992016076") H1 H2 H3 Hpre).
Defined.

(** X17. [formatPhone] only inserts spaces: the result is the input up
    to spaces, three code units longer when the input holds [+51]
    followed by nine digits, and the input itself exactly when it holds
    none, as for a number that is already spaced or has no country
    code. *)
Theorem formatPhone_only_inserts_spaces (phone : list N) :
  CVUtils.withoutSpaces (CVUtils.formatPhone phone) = CVUtils.withoutSpaces phone /\
  (CVUtils.holdsRawNumber phone ->
   length (CVUtils.formatPhone phone) = (length phone + 3)%nat) /\
  (CVUtils.formatPhone phone = phone <-> ~ CVUtils.holdsRawNumber phone).
Proof.
  unfold CVUtils.formatPhone.
  destruct (replaceFirst_cases CVUtils.phonePattern CVUtils.spaced phone)
    as [[E Hn] | (pre & s0 & ms & rest & -> & Hs & E)].
  - assert (Hno : ~ CVUtils.holdsRawNumber phone).
    { intros H. apply holdsRawNumber_drop in H as (j & ms & rest & Hj).
      rewrite Hn in Hj. discriminate. }
    rewrite E. split; [reflexivity |]. split; [intros H; contradiction |].
    split; intros _; [exact Hno | reflexivity].
  - assert (Hyes : CVUtils.holdsRawNumber (pre ++ s0)).
    { apply holdsRawNumber_drop. exists (length pre), ms, rest.
      rewrite drop_app_length. exact Hs. }
    apply matchPhone_Some in Hs as (a & b & c & -> & Ha & Hb & Hc & ->).
    rewrite E. unfold CVUtils.spaced. cbn [nth].
    assert (Hlen : length (pre ++ (CVUtils.codeUnits "+51" ++ [32%N] ++ a
                                   ++ [32%N] ++ b ++ [32%N] ++ c) ++ rest)
                   = (length (pre ++ CVUtils.codeUnits "+51" ++ a ++ b ++ c ++ rest)
                      + 3)%nat).
    { rewrite !length_app. cbn [length]. lia. }
    split; [| split].
    + unfold CVUtils.withoutSpaces. rewrite !filter_app.
      rewrite (filter_cons_False _ 32%N []) by (intros H; apply H; reflexivity).
      rewrite filter_nil. cbn [app]. rewrite <- !app_assoc. reflexivity.
    + intros _. exact Hlen.
    + split; [| intros H; contradiction].
      intros Heq. rewrite Heq in Hlen. lia.
Qed.

(** * The scroll listeners *)

Section ScrollFacts.

Import CVApp.

(** ** Iterations that act on one item *)

Lemma forEach_none {S A} (f : nat -> A -> S -> S) (l : list A) (s : S) :
  (forall j a s', l !! j = Some a -> f j a s' = s') -> forEach f l s = s.
Proof.
  induction l as [| x l IH] using rev_ind; intros Hf; [reflexivity |].
  rewrite forEach_snoc, Hf.
  - apply IH. intros j a s' Hj. apply Hf. apply lookup_app_l_Some. exact Hj.
  - rewrite lookup_app_r by lia. rewrite Nat.sub_diag. reflexivity.
Qed.

Lemma forEach_only {S A} (f : nat -> A -> S -> S) (l : list A) k x (s : S) :
  (forall j a s', l !! j = Some a -> j <> k -> f j a s' = s') ->
  l !! k = Some x ->
  forEach f l s = f k x s.
Proof.
  induction l as [| y l IH] using rev_ind; intros Hf Hk; [discriminate |].
  rewrite forEach_snoc.
  destruct (decide (k = length l)) as [-> | Hne].
  - rewrite lookup_app_r, Nat.sub_diag in Hk by lia. injection Hk as ->.
    f_equal. apply forEach_none. intros j a s' Hj.
    apply Hf; [apply lookup_app_l_Some; exact Hj |].
    apply lookup_lt_Some in Hj. lia.
  - assert (Hk' : l !! k = Some x).
    { apply lookup_lt_Some in Hk as Hlt. rewrite length_app in Hlt. cbn in Hlt.
      rewrite lookup_app_l in Hk by lia. exact Hk. }
    rewrite Hf.
    + apply IH; [| exact Hk']. intros j a s' Hj Hjk.
      apply Hf; [apply lookup_app_l_Some; exact Hj | exact Hjk].
    + rewrite lookup_app_r by lia. rewrite Nat.sub_diag. reflexivity.
    + lia.
Qed.

(** ** Restyling with the classes of the scroll listeners *)

Lemma hasClass_restyle c c' b n :
  c <> c' -> hasClass c (Scrolling.restyle c' b n) = hasClass c n.
Proof.
  intros H. unfold Scrolling.restyle.
  destruct b; [apply hasClass_addClass_ne | apply hasClass_removeClass_ne]; exact H.
Qed.

Lemma hasClass_restyle_eq c b n : hasClass c (Scrolling.restyle c b n) = b.
Proof.
  unfold Scrolling.restyle, hasClass. destruct b; cbn.
  - apply contains_classAdd.
  - apply contains_classRemove.
Qed.

Lemma tame_restyle c b n :
  c <> "section" -> c <> "nav-link" -> c <> "nav-menu" -> c <> "active" ->
  tame (Scrolling.restyle c b) n.
Proof.
  intros. unfold Scrolling.restyle.
  destruct b; [apply tame_addClass | apply tame_removeClass]; assumption.
Qed.

Lemma class_restyled pg h c b k c' :
  c' <> c ->
  nodeHasClass (nodes (updNode h (Scrolling.restyle c b) pg)) k c'
  = nodeHasClass (nodes pg) k c'.
Proof.
  intros H. apply nodeHasClass_alter_keeps. intros n.
  apply hasClass_restyle. exact H.
Qed.

Lemma activeSections_restyled pg h c b :
  c <> "section" -> c <> "active" ->
  activeSections (updNode h (Scrolling.restyle c b) pg) = activeSections pg.
Proof.
  intros H1 H2. apply activeSections_updNode. intros n _.
  unfold isActiveSection. rewrite !hasClass_restyle by congruence. reflexivity.
Qed.

Lemma sectionId_updNode pg h f s :
  (forall n, id (f n) = id n) ->
  sectionId (nodes (updNode h f pg)) s = sectionId (nodes pg) s.
Proof.
  intros Hf. unfold sectionId, updNode. cbn [nodes set_nodes].
  rewrite list_lookup_alter. case_decide; [subst |]; [| reflexivity].
  destruct (nodes pg !! s); cbn; [apply Hf | reflexivity].
Qed.

Lemma id_restyle c b n : id (Scrolling.restyle c b n) = id n.
Proof. destruct b; reflexivity. Qed.

Lemma sectionId_cleared pg s : sectionId (nodes (cleared pg)) s = sectionId (nodes pg) s.
Proof.
  unfold sectionId. rewrite lookup_cleared.
  destruct (nodes pg !! s); [| reflexivity]. cbn. case_bool_decide; reflexivity.
Qed.

Lemma activeSections_cleared_tidy pg :
  Tidy pg -> activeSections (cleared pg) = activeSections pg.
Proof.
  intros HT. unfold activeSections.
  apply selectAll_pointwise; [apply length_cleared |].
  intros i n n' Hn Hn'. rewrite lookup_cleared, Hn in Hn'. cbn in Hn'.
  injection Hn' as <-. case_bool_decide as Hin; [| reflexivity].
  apply list_elem_of_lookup in Hin as [k Hk].
  pose proof (Tidy_navLink pg k i n HT Hk Hn) as Hc.
  pose proof (not_section pg i n HT Hn (or_intror (or_introl Hc))) as Hs.
  rewrite hasClass_removeClass_ne by discriminate. rewrite Hs. reflexivity.
Qed.

(** ** The highlight by scroll position *)

Lemma gt_spec a b : Scrolling.gt a b = true <-> (b < a)%Q.
Proof.
  unfold Scrolling.gt. rewrite negb_true_iff. split.
  - intros H. apply Qnot_le_lt. intros Hle. apply Qle_bool_iff in Hle. congruence.
  - intros H. apply not_true_is_false. intros Hle. apply Qle_bool_iff in Hle.
    apply (Qlt_not_le _ _ H Hle).
Qed.

Lemma inView_spec l y s :
  Qle_bool (inject_Z (Scrolling.offsetTop l s)) (y + 100)
  && Scrolling.gt
       (inject_Z (Scrolling.offsetTop l s + Scrolling.offsetHeight l s)) (y + 100)
  = true <-> Scrolling.inView l y s.
Proof.
  rewrite andb_true_iff, Qle_bool_iff, gt_spec. reflexivity.
Qed.

(** The loop of [updateNavigationOnScroll] with one section in view. *)
Lemma updateNavigationOnScroll_one l y pg k section link :
  sections (elements pg) !! k = Some section ->
  Scrolling.inView l y section ->
  (forall j s, sections (elements pg) !! j = Some s ->
               Scrolling.inView l y s -> j = k) ->
  navLinks (elements pg) !! k = Some link ->
  nodeHasClass (nodes pg) link "active" = false ->
  Scrolling.updateNavigationOnScroll l y pg
  = set_state
      (set_currentSection (sectionId (nodes pg) section) (state pg))
      (updNode link (addClass "active") (cleared pg)).
Proof.
  intros Hk Hin Honly Hlink Hoff. unfold Scrolling.updateNavigationOnScroll.
  cbv zeta. rewrite (forEach_only _ _ k section pg); [| | exact Hk].
  - apply inView_spec in Hin. rewrite Hin, Hlink, Hoff. cbn [negb].
    rewrite updateActiveNavLink_Some. cbn [snd].
    rewrite sectionId_updNode by reflexivity. rewrite sectionId_cleared.
    assert (Hst : state (cleared pg) = state pg)
      by (rewrite (cleared_only_nodes pg); reflexivity).
    change (state (updNode link (addClass "active") (cleared pg)))
      with (state (cleared pg)).
    rewrite Hst. reflexivity.
  - intros j s pg' Hj Hjk.
    destruct (_ && _) eqn:E; [| reflexivity].
    apply inView_spec in E. elim Hjk. exact (Honly j s Hj E).
Qed.

Lemma updateNavigationOnScroll_none l y pg :
  (forall j s, sections (elements pg) !! j = Some s -> ~ Scrolling.inView l y s) ->
  Scrolling.updateNavigationOnScroll l y pg = pg.
Proof.
  intros Hno. unfold Scrolling.updateNavigationOnScroll. cbv zeta.
  apply forEach_none. intros j s pg' Hj.
  destruct (_ && _) eqn:E; [| reflexivity].
  apply inView_spec in E. elim (Hno j s Hj E).
Qed.

(** What the loop never touches. *)
Lemma updateNavigationOnScroll_keeps l y pg :
  let pg' := Scrolling.updateNavigationOnScroll l y pg in
  elements pg' = elements pg /\ url pg' = url pg /\ history pg' = history pg /\
  isMenuOpen (state pg') = isMenuOpen (state pg) /\
  (forall h c, c <> "active" ->
     nodeHasClass (nodes pg') h c = nodeHasClass (nodes pg) h c) /\
  (Tidy pg -> Tidy pg' /\ activeSections pg' = activeSections pg).
Proof.
  cbv zeta. unfold Scrolling.updateNavigationOnScroll. cbv zeta.
  apply (forEach_invariant
           (fun pg' =>
              elements pg' = elements pg /\ url pg' = url pg /\
              history pg' = history pg /\
              isMenuOpen (state pg') = isMenuOpen (state pg) /\
              (forall h c, c <> "active" ->
                 nodeHasClass (nodes pg') h c = nodeHasClass (nodes pg) h c) /\
              (Tidy pg -> Tidy pg' /\ activeSections pg' = activeSections pg)));
    [| split; [| split; [| split; [| split; [| split]]]]; auto].
  intros i section pg' (He & Hu & Hh & Hm & Hc & HT).
  pose proof (conj He (conj Hu (conj Hh (conj Hm (conj Hc HT))))) as Hsame.
  destruct (_ && _); [| exact Hsame].
  destruct (navLinks (elements pg') !! i) as [link |] eqn:El; [| exact Hsame].
  destruct (negb _); [| exact Hsame]. clear Hsame.
  rewrite updateActiveNavLink_Some. cbn [snd].
  rewrite (cleared_only_nodes pg'). cbn [elements url history state isMenuOpen
    set_state set_currentSection updNode set_nodes nodes].
  split; [exact He |]. split; [exact Hu |]. split; [exact Hh |].
  split; [exact Hm |]. split.
  - intros h c Hne. rewrite <- (Hc h c Hne).
    rewrite nodeHasClass_alter_keeps
      by (intros n; apply hasClass_addClass_ne; exact Hne).
    apply class_cleared. exact Hne.
  - intros HTp. destruct (HT HTp) as [HT' HA].
    assert (Hupd : Tidy (updateActiveNavLink (Some link) pg').2).
    { apply Tidy_updateActiveNavLink; [exact HT' |].
      intros l0 n [= <-] Hn. right. left.
      exact (Tidy_navLink pg' i link n HT' El Hn). }
    rewrite updateActiveNavLink_Some in Hupd. cbn [snd] in Hupd.
    rewrite (cleared_only_nodes pg') in Hupd.
    split.
    + eapply Tidy_same; [| | exact Hupd]; reflexivity.
    + rewrite <- HA, <- (activeSections_cleared_tidy pg' HT').
      unfold activeSections. cbn [nodes].
      apply selectAll_alter. intros n Hn.
      rewrite lookup_cleared in Hn.
      destruct (nodes pg' !! link) as [n0 |] eqn:En0; [| discriminate].
      pose proof (Tidy_navLink pg' i link n0 HT' El En0) as Hcl.
      pose proof (not_section pg' link n0 HT' En0 (or_intror (or_introl Hcl))) as Hs.
      cbn in Hn. injection Hn as <-.
      assert (Hs' : hasClass "section"
                      ((if bool_decide (link ∈ navLinks (elements pg'))
                        then removeClass "active" else fun n => n) n0) = false).
      { case_bool_decide; [| exact Hs].
        rewrite hasClass_removeClass_ne by discriminate. exact Hs. }
      rewrite hasClass_addClass_ne by discriminate. rewrite Hs'. reflexivity.
Qed.

(** ** The listeners *)

Lemma scrollToTop_frames l n w :
  Scrolling.scrollToTop (Nat.iter n (fun w' => (Scrolling.scrollFrame l w').2) w)
  = Scrolling.scrollToTop w.
Proof.
  assert (H1 : forall w', Scrolling.scrollToTop (Scrolling.scrollFrame l w').2
                          = Scrolling.scrollToTop w').
  { intros w'. unfold Scrolling.scrollFrame.
    destruct (Scrolling.toggleScrollToTopButton _ _ _) as [[[] | e] pg1];
      reflexivity. }
  induction n as [| n IH]; [reflexivity |]. rewrite Nat.iter_succ.
  rewrite H1. exact IH.
Qed.

Lemma scrollToTop_step ev v :
  Scrolling.scrollToTop (Scrolling.step ev v) = Scrolling.scrollToTop v.
Proof.
  destruct ev as [y | l | | ev]; cbn [Scrolling.step].
  - destruct v as [pg b [[nav hh] |] [|] [|] r f y0]; reflexivity.
  - rewrite scrollToTop_frames. reflexivity.
  - destruct (Scrolling.resets v); reflexivity.
  - reflexivity.
Qed.

(** With [isScrolling] set and no frame pending, nothing resets it. *)
Lemma stuck_step ev v :
  Scrolling.isScrolling v = true -> Scrolling.frames v = 0 ->
  Scrolling.isScrolling (Scrolling.step ev v) = true /\
  Scrolling.frames (Scrolling.step ev v) = 0.
Proof.
  intros Hs Hf. destruct ev as [y | l | | ev]; cbn [Scrolling.step].
  - destruct v as [pg b [[nav hh] |] s [|] r f y0]; cbn in *; subst; auto.
  - rewrite Hf. cbn. auto.
  - destruct (Scrolling.resets v); cbn; auto.
  - cbn. auto.
Qed.

Lemma stuck_run evs v :
  Scrolling.isScrolling v = true -> Scrolling.frames v = 0 ->
  Scrolling.isScrolling (Scrolling.run evs v) = true /\
  Scrolling.frames (Scrolling.run evs v) = 0.
Proof.
  revert v. induction evs as [| ev evs IH]; intros v Hs Hf; [auto |].
  cbn. destruct (stuck_step ev v Hs Hf) as [Hs' Hf']. apply IH; assumption.
Qed.

(** The frames of a page without the button. *)
Lemma frames_without_button l n v :
  Scrolling.scrollToTop v = None ->
  Nat.iter n (fun w => (Scrolling.scrollFrame l w).2) v = v.
Proof.
  intros Hb. induction n as [| n IH]; [reflexivity |]. rewrite Nat.iter_succ.
  rewrite IH. unfold Scrolling.scrollFrame, Scrolling.toggleScrollToTopButton.
  rewrite Hb. destruct v. reflexivity.
Qed.

End ScrollFacts.

(** X18. On a page without a [#scrollToTop] element the scroll handler
    dies at its first animation frame: the callback throws in
    [toggleScrollToTopButton], before the navigation is updated and
    before [isScrolling] is reset. So scroll events, frames and throttle
    timers never change the state of the application nor any class other
    than [sticky-nav]; and from the first handled scroll and its frame
    on, [isScrolling] stays set with no frame pending, whatever happens
    next, so that [handleScroll] returns at once for ever. *)
Theorem missing_button_wedges_scroll_handler (v : Scrolling.View) :
  Scrolling.scrollToTop v = None ->
  (forall ev, Scrolling.isApp ev = false ->
     CVApp.state (Scrolling.page (Scrolling.step ev v))
     = CVApp.state (Scrolling.page v) /\
     forall h c, c <> "sticky-nav" ->
       CVApp.nodeHasClass (CVApp.nodes (Scrolling.page (Scrolling.step ev v))) h c
       = CVApp.nodeHasClass (CVApp.nodes (Scrolling.page v)) h c) /\
  (Scrolling.isScrolling v = false -> Scrolling.inThrottle v = false ->
   forall y l evs,
     let v' :=
       Scrolling.run (Scrolling.Scroll y :: Scrolling.AnimationFrame l :: evs) v in
     Scrolling.isScrolling v' = true /\ Scrolling.frames v' = 0).
Proof.
  intros Hb. split.
  - intros ev Hev. destruct ev as [y | l | | ev]; try discriminate;
      cbn [Scrolling.step].
    + destruct v as [pg b [[nav hh] |] [|] [|] r f y0]; cbn; split;
        try reflexivity; intros h c Hc;
        exact (class_restyled pg nav "sticky-nav" _ h c Hc).
    + rewrite frames_without_button by exact Hb. cbn. split; reflexivity.
    + destruct (Scrolling.resets v); cbn; split; reflexivity.
  - intros Hs Ht y l evs v'. subst v'.
    change (Scrolling.run (Scrolling.Scroll y :: Scrolling.AnimationFrame l :: evs) v)
      with (Scrolling.run evs
              (Scrolling.step (Scrolling.AnimationFrame l)
                 (Scrolling.step (Scrolling.Scroll y) v))).
    set (v1 := Scrolling.step (Scrolling.Scroll y) v).
    assert (B1 : Scrolling.scrollToTop v1 = None)
      by (subst v1; rewrite scrollToTop_step; exact Hb).
    assert (S1 : Scrolling.isScrolling v1 = true).
    { subst v1. destruct v as [pg b [[nav hh] |] s t r f y0]; cbn in *; subst;
        reflexivity. }
    assert (E : Scrolling.step (Scrolling.AnimationFrame l) v1
                = Scrolling.set_frames 0 v1).
    { cbn [Scrolling.step]. apply frames_without_button. exact B1. }
    rewrite E. apply stuck_run; [exact S1 | reflexivity].
Qed.

Lemma missing_button_wedges_scroll_handler_witness :
  let v := Scrolling.listen 200
             (CVApp.domContentLoaded (CVApp.loaded Demo.markup 1200 EmptyString)).2 in
  Scrolling.scrollToTop v = None /\
  Scrolling.isScrolling
    (Scrolling.run
       [Scrolling.Scroll 400; Scrolling.AnimationFrame (Scrolling.mkLayout (fun _ => 0%Z) (fun _ => 900%Z));
        Scrolling.ThrottleTimer; Scrolling.Scroll 0] v) = true.
Proof.
  cbv zeta.
  assert (H : Scrolling.scrollToTop
                (Scrolling.listen 200
                   (CVApp.domContentLoaded
                      (CVApp.loaded Demo.markup 1200 EmptyString)).2) = None)
    by (vm_compute; reflexivity).
  split; [exact H |].
  exact (proj1 (proj2 (missing_button_wedges_scroll_handler _ H) eq_refl eq_refl
                  400%Q (Scrolling.mkLayout (fun _ => 0%Z) (fun _ => 900%Z))
                  [Scrolling.ThrottleTimer; Scrolling.Scroll 0])).
Defined.

Section SpyFacts.

Import CVApp.

Lemma Restyled_refl pg : Scrolling.Restyled pg pg.
Proof. split; auto. Qed.

Lemma Restyled_trans pg1 pg2 pg3 :
  Scrolling.Restyled pg1 pg2 -> Scrolling.Restyled pg2 pg3 ->
  Scrolling.Restyled pg1 pg3.
Proof.
  intros [A1 A2 A3 A4 A5 A6 A7 A8 A9] [B1 B2 B3 B4 B5 B6 B7 B8 B9].
  split; try congruence; auto.
  all: intros; first [rewrite B5, A5 by assumption | rewrite B6, A6]; reflexivity.
Qed.

Lemma Restyled_restyle pg h c b :
  c = "visible" \/ c = "sticky-nav" ->
  Scrolling.Restyled pg (updNode h (Scrolling.restyle c b) pg).
Proof.
  intros Hc. split; try reflexivity.
  - intros k c' H1 H2. apply class_restyled. destruct Hc; congruence.
  - intros s. apply sectionId_updNode. intros n. apply id_restyle.
  - cbn. apply length_alter.
  - intros HT. apply Tidy_updNode; [| exact HT]. intros n _.
    apply tame_restyle; destruct Hc; subst; discriminate.
  - apply activeSections_restyled; destruct Hc; subst; discriminate.
Qed.

(** A scroll event on listeners that are not handling one. *)
Lemma scroll_handled y v :
  Scrolling.isScrolling v = false -> Scrolling.inThrottle v = false ->
  let v1 := Scrolling.step (Scrolling.Scroll y) v in
  Scrolling.Restyled (Scrolling.page v) (Scrolling.page v1) /\
  Scrolling.scrollToTop v1 = Scrolling.scrollToTop v /\
  Scrolling.isScrolling v1 = true /\ Scrolling.inThrottle v1 = true /\
  Scrolling.frames v1 = S (Scrolling.frames v) /\
  Scrolling.resets v1 = S (Scrolling.resets v) /\
  Scrolling.scrollY v1 = y.
Proof.
  intros Hs Ht. destruct v as [pg b [[nav hh] |] s t r f y0]; cbn in *; subst;
    cbn; (split; [| repeat split]);
    first [ apply Restyled_refl
          | exact (Restyled_restyle pg nav "sticky-nav" _ (or_intror eq_refl)) ].
Qed.

(** A scroll event inside the throttle window. *)
Lemma scroll_dropped y v :
  Scrolling.inThrottle v = true ->
  let v1 := Scrolling.step (Scrolling.Scroll y) v in
  Scrolling.Restyled (Scrolling.page v) (Scrolling.page v1) /\
  (forall h, nodeHasClass (nodes (Scrolling.page v1)) h "visible"
             = nodeHasClass (nodes (Scrolling.page v)) h "visible") /\
  Scrolling.scrollToTop v1 = Scrolling.scrollToTop v /\
  Scrolling.isScrolling v1 = Scrolling.isScrolling v /\
  Scrolling.inThrottle v1 = true /\
  Scrolling.frames v1 = Scrolling.frames v /\
  Scrolling.resets v1 = Scrolling.resets v /\
  Scrolling.scrollY v1 = y.
Proof.
  intros Ht. destruct v as [pg b [[nav hh] |] s t r f y0]; cbn in *; subst;
    cbn; (split; [| split; [| repeat split]]);
    first [ apply Restyled_refl
          | exact (Restyled_restyle pg nav "sticky-nav" _ (or_intror eq_refl))
          | intros h; apply class_restyled; discriminate
          | reflexivity ].
Qed.

(** The frame of a handled scroll, with the button in the document. *)
Lemma frame_runs l v button :
  Scrolling.scrollToTop v = Some button ->
  Scrolling.frames v = 1 ->
  let v2 := Scrolling.step (Scrolling.AnimationFrame l) v in
  let pgC := updNode button (Scrolling.restyle "visible"
                               (Scrolling.gt (Scrolling.scrollY v) 300))
               (Scrolling.page v) in
  Scrolling.page v2 = Scrolling.updateNavigationOnScroll l (Scrolling.scrollY v) pgC /\
  Scrolling.scrollToTop v2 = Some button /\
  Scrolling.isScrolling v2 = false /\
  Scrolling.inThrottle v2 = Scrolling.inThrottle v /\
  Scrolling.frames v2 = 0 /\
  Scrolling.resets v2 = Scrolling.resets v /\
  Scrolling.scrollY v2 = Scrolling.scrollY v.
Proof.
  intros Hb Hf. cbn [Scrolling.step]. rewrite Hf.
  destruct v as [pg b st s t r f y0]. cbn in Hb. subst b.
  cbn. repeat split.
Qed.

Lemma visible_restyled pg button b :
  is_Some (nodes pg !! button) ->
  nodeHasClass (nodes (updNode button (Scrolling.restyle "visible" b) pg))
    button "visible" = b.
Proof.
  intros [n Hn]. unfold nodeHasClass, updNode. cbn [nodes set_nodes].
  rewrite list_lookup_alter, decide_True by reflexivity. rewrite Hn. cbn.
  apply hasClass_restyle_eq.
Qed.

End SpyFacts.

(** X19. The highlight by scroll position follows the section in view
    and leaves the section shown alone. From listeners at rest on a page
    with the button, a scroll to [y] and the next animation frame, with
    [y + 100] in the box of the section at position [k] only and the nav
    link at [k] not highlighted: that link becomes the only highlighted
    nav link and the id of that section becomes [state.currentSection],
    while the active section, the URL and the history stay as they were,
    so that the current section need no longer be the active one. *)
Theorem scroll_spy_follows_section_in_view
    (v : Scrolling.View) (y : Q) (l : Scrolling.Layout)
    (button k section link : nat) :
  CVApp.Tidy (Scrolling.page v) ->
  Scrolling.AtRest v ->
  Scrolling.scrollToTop v = Some button ->
  CVApp.sections (CVApp.elements (Scrolling.page v)) !! k = Some section ->
  Scrolling.inView l y section ->
  (forall j s, CVApp.sections (CVApp.elements (Scrolling.page v)) !! j = Some s ->
               Scrolling.inView l y s -> j = k) ->
  CVApp.navLinks (CVApp.elements (Scrolling.page v)) !! k = Some link ->
  CVApp.nodeHasClass (CVApp.nodes (Scrolling.page v)) link "active" = false ->
  let v' := Scrolling.run [Scrolling.Scroll y; Scrolling.AnimationFrame l] v in
  (forall l', l' ∈ CVApp.navLinks (CVApp.elements (Scrolling.page v)) ->
     CVApp.nodeHasClass (CVApp.nodes (Scrolling.page v')) l' "active"
     = bool_decide (l' = link)) /\
  CVApp.currentSection (CVApp.state (Scrolling.page v'))
  = CVApp.sectionId (CVApp.nodes (Scrolling.page v)) section /\
  CVApp.activeSections (Scrolling.page v') = CVApp.activeSections (Scrolling.page v) /\
  CVApp.url (Scrolling.page v') = CVApp.url (Scrolling.page v) /\
  CVApp.history (Scrolling.page v') = CVApp.history (Scrolling.page v) /\
  Scrolling.isScrolling v' = false /\ Scrolling.frames v' = 0.
Proof.
  intros HT [Rs Rt Rf Rr] Hb Hk Hin Honly Hlink Hoff v'. subst v'.
  change (Scrolling.run [Scrolling.Scroll y; Scrolling.AnimationFrame l] v)
    with (Scrolling.step (Scrolling.AnimationFrame l)
            (Scrolling.step (Scrolling.Scroll y) v)).
  destruct (scroll_handled y v Rs Rt) as (R1 & B1 & S1 & _ & F1 & _ & Y1).
  set (v1 := Scrolling.step (Scrolling.Scroll y) v) in *.
  rewrite Rf in F1. rewrite Hb in B1.
  destruct (frame_runs l v1 button B1 F1) as (P2 & _ & S2 & _ & F2 & _).
  set (v2 := Scrolling.step (Scrolling.AnimationFrame l) v1) in *.
  rewrite Y1 in P2.
  set (pgC := CVApp.updNode button _ (Scrolling.page v1)) in P2.
  assert (RC : Scrolling.Restyled (Scrolling.page v) pgC).
  { apply (Restyled_trans _ _ _ R1).
    apply Restyled_restyle. left. reflexivity. }
  destruct RC as [C1 C2 C3 C4 C5 C6 C7 C8 C9].
  assert (HTC : CVApp.Tidy pgC) by (apply C8, HT).
  assert (P2' : Scrolling.page v2
                = CVApp.set_state
                    (CVApp.set_currentSection
                       (CVApp.sectionId (CVApp.nodes pgC) section)
                       (CVApp.state pgC))
                    (CVApp.updNode link (CVApp.addClass "active")
                       (CVApp.cleared pgC))).
  { rewrite P2. apply (updateNavigationOnScroll_one l y pgC k section link).
    - rewrite C1. exact Hk.
    - exact Hin.
    - intros j s Hj. apply Honly. rewrite <- C1. exact Hj.
    - rewrite C1. exact Hlink.
    - rewrite C5 by discriminate. exact Hoff. }
  destruct (updateNavigationOnScroll_keeps l y pgC) as (_ & K2 & K3 & _ & _ & K6).
  destruct (K6 HTC) as [_ K7]. rewrite <- P2 in K2, K3, K7.
  split; [| split; [| split; [| split; [| split; [| split]]]]].
  - intros l' Hl'. rewrite P2'. cbn [CVApp.nodes CVApp.set_state].
    apply active_highlighted.
    + destruct HTC as [_ [_ S2' _]].
      specialize (S2' link ltac:(rewrite C1; apply list_elem_of_lookup; eauto)).
      unfold CVApp.nodeHasClass in S2'.
      destruct (CVApp.nodes pgC !! link); [eauto | discriminate].
    + right. rewrite C1. exact Hl'.
  - rewrite P2'. cbn. apply C6.
  - rewrite K7. exact C9.
  - rewrite K2. exact C3.
  - rewrite K3. exact C4.
  - exact S2.
  - exact F2.
Qed.

Section ThrottleFacts.

Import CVApp.

Lemma last_any_default {A} (z : A) (ys : list A) (d d' : A) :
  List.last (z :: ys) d = List.last (z :: ys) d'.
Proof.
  revert z. induction ys as [| x ys IH]; intros z; [reflexivity |].
  change (List.last (x :: ys) d = List.last (x :: ys) d'). apply IH.
Qed.

Lemma last_cons_default {A} (y : A) (ys : list A) (d : A) :
  List.last (y :: ys) d = List.last ys y.
Proof.
  destruct ys as [| z ys]; [reflexivity |].
  change (List.last (z :: ys) d = List.last (z :: ys) y).
  apply last_any_default.
Qed.

(** Scroll events inside the throttle window only move [scrollY]. *)
Lemma scrolls_dropped ys v :
  Scrolling.inThrottle v = true ->
  let v1 := Scrolling.run (map Scrolling.Scroll ys) v in
  (forall h, nodeHasClass (nodes (Scrolling.page v1)) h "visible"
             = nodeHasClass (nodes (Scrolling.page v)) h "visible") /\
  Scrolling.isScrolling v1 = Scrolling.isScrolling v /\
  Scrolling.inThrottle v1 = true /\
  Scrolling.frames v1 = Scrolling.frames v /\
  Scrolling.resets v1 = Scrolling.resets v /\
  Scrolling.scrollY v1 = List.last ys (Scrolling.scrollY v).
Proof.
  revert v. induction ys as [| y ys IH]; intros v Ht; [cbn; auto 10 |].
  destruct (scroll_dropped y v Ht) as (_ & D1 & _ & D2 & D3 & D4 & D5 & D6).
  destruct (IH _ D3) as (I1 & I2 & I3 & I4 & I5 & I6).
  cbn [map Scrolling.run foldl]. cbv zeta.
  change (foldl (fun v' ev => Scrolling.step ev v')
            (Scrolling.step (Scrolling.Scroll y) v) (map Scrolling.Scroll ys))
    with (Scrolling.run (map Scrolling.Scroll ys)
            (Scrolling.step (Scrolling.Scroll y) v)).
  split; [intros h; rewrite I1; apply D1 |].
  rewrite I2, I4, I5, I6, D2, D4, D5, D6, last_cons_default. auto.
Qed.

(** With no frame and no throttle timer pending, frames and timers do
    nothing. *)
Lemma idle_run evs v :
  Forall (fun ev => Scrolling.isScroll ev || Scrolling.isApp ev = false) evs ->
  Scrolling.frames v = 0 -> Scrolling.resets v = 0 ->
  let v1 := Scrolling.run evs v in
  Scrolling.page v1 = Scrolling.page v /\
  Scrolling.isScrolling v1 = Scrolling.isScrolling v /\
  Scrolling.frames v1 = 0 /\
  Scrolling.scrollY v1 = Scrolling.scrollY v.
Proof.
  revert v. induction evs as [| ev evs IH]; intros v Hevs Hf Hr; [cbn; auto |].
  inversion Hevs as [| ? ? Hev Hevs']; subst.
  assert (Hstep : Scrolling.step ev v = v \/
                  Scrolling.step ev v = Scrolling.set_frames 0 v).
  { destruct ev as [y | l | | ev]; try discriminate; cbn [Scrolling.step].
    - right. rewrite Hf. reflexivity.
    - left. rewrite Hr. reflexivity. }
  cbn [Scrolling.run foldl]. cbv zeta.
  change (foldl (fun v' ev0 => Scrolling.step ev0 v') (Scrolling.step ev v) evs)
    with (Scrolling.run evs (Scrolling.step ev v)).
  destruct Hstep as [-> | ->]; [apply IH; assumption |].
  destruct (IH (Scrolling.set_frames 0 v) Hevs' eq_refl Hr) as (I1 & I2 & I3 & I4).
  auto.
Qed.

End ThrottleFacts.

(** X20. The throttle drops the scroll events of its window instead of
    deferring the last one. From listeners at rest: after a scroll to
    [y1] and its animation frame, any further scroll events before the
    throttle timer fires are not handled, and neither that timer nor
    later frames make up for them, so the scroll-to-top button shows
    exactly when [y1 > 300], wherever the page has been scrolled to in
    the meantime. *)
Theorem throttle_drops_trailing_scroll
    (v : Scrolling.View) (button : nat) (y1 : Q) (l : Scrolling.Layout)
    (ys : list Q) (later : list Scrolling.Event) :
  Scrolling.AtRest v ->
  Scrolling.scrollToTop v = Some button ->
  is_Some (CVApp.nodes (Scrolling.page v) !! button) ->
  Forall (fun ev => Scrolling.isScroll ev || Scrolling.isApp ev = false) later ->
  let v' :=
    Scrolling.run
      (Scrolling.Scroll y1 :: Scrolling.AnimationFrame l ::
       map Scrolling.Scroll ys ++ Scrolling.ThrottleTimer :: later) v in
  CVApp.nodeHasClass (CVApp.nodes (Scrolling.page v')) button "visible"
  = Scrolling.gt y1 300 /\
  Scrolling.scrollY v' = List.last ys y1 /\
  Scrolling.isScrolling v' = false /\ Scrolling.frames v' = 0.
Proof.
  intros [Rs Rt Rf Rr] Hb Hn Hlater v'. subst v'.
  change (Scrolling.run
            (Scrolling.Scroll y1 :: Scrolling.AnimationFrame l ::
             map Scrolling.Scroll ys ++ Scrolling.ThrottleTimer :: later) v)
    with (Scrolling.run
            (map Scrolling.Scroll ys ++ Scrolling.ThrottleTimer :: later)
            (Scrolling.step (Scrolling.AnimationFrame l)
               (Scrolling.step (Scrolling.Scroll y1) v))).
  destruct (scroll_handled y1 v Rs Rt) as (R1 & B1 & S1 & T1 & F1 & N1 & Y1).
  set (v1 := Scrolling.step (Scrolling.Scroll y1) v) in *.
  rewrite Rf in F1. rewrite Rr in N1. rewrite Hb in B1.
  destruct (frame_runs l v1 button B1 F1) as (P2 & _ & S2 & T2 & F2 & N2 & Y2).
  set (v2 := Scrolling.step (Scrolling.AnimationFrame l) v1) in *.
  rewrite Y1 in P2, Y2. rewrite T1 in T2. rewrite N1 in N2.
  assert (V2 : CVApp.nodeHasClass (CVApp.nodes (Scrolling.page v2)) button "visible"
               = Scrolling.gt y1 300).
  { rewrite P2.
    destruct (updateNavigationOnScroll_keeps l y1
                (CVApp.updNode button
                   (Scrolling.restyle "visible" (Scrolling.gt y1 300))
                   (Scrolling.page v1))) as (_ & _ & _ & _ & K5 & _).
    rewrite K5 by discriminate. apply visible_restyled.
    apply lookup_lt_is_Some. rewrite (Scrolling.restyled_length _ _ R1).
    apply lookup_lt_is_Some. exact Hn. }
  unfold Scrolling.run. rewrite foldl_app. fold (Scrolling.run (map Scrolling.Scroll ys) v2).
  destruct (scrolls_dropped ys v2 T2) as (D1 & D2 & D3 & D4 & D5 & D6).
  set (v3 := Scrolling.run (map Scrolling.Scroll ys) v2) in *.
  cbn [foldl]. fold (Scrolling.run later (Scrolling.step Scrolling.ThrottleTimer v3)).
  assert (E4 : Scrolling.step Scrolling.ThrottleTimer v3
               = Scrolling.set_resets 0 (Scrolling.set_inThrottle false v3)).
  { cbn [Scrolling.step]. rewrite D5, N2. reflexivity. }
  rewrite E4.
  destruct (idle_run later _ Hlater
              (eq_trans (eq_refl : Scrolling.frames
                                     (Scrolling.set_resets 0
                                        (Scrolling.set_inThrottle false v3))
                                   = Scrolling.frames v3)
                 (eq_trans D4 F2))
              eq_refl) as (I1 & I2 & I3 & I4).
  rewrite I1, I2, I3, I4. cbn. rewrite D1, V2, D2, S2, D6, Y2. auto.
Qed.

Lemma wellFormed_withButton : CVApp.wellFormed Demo.withButton.
Proof.
  split; [vm_compute; lia |].
  repeat (apply Forall_cons_2;
          [intros H; vm_compute in H; try discriminate; repeat split;
           reflexivity |]).
  apply Forall_nil_2.
Qed.

Lemma plainSpinner_withButton : CVApp.plainSpinner Demo.withButton.
Proof. intros spinner H. vm_compute in H. discriminate. Qed.

Lemma Tidy_listening : CVApp.Tidy (Scrolling.page Demo.listening).
Proof.
  exact (Tidy_domContentLoaded _ _ _ wellFormed_withButton
           plainSpinner_withButton).
Qed.

Lemma AtRest_listening : Scrolling.AtRest Demo.listening.
Proof. split; reflexivity. Qed.

Lemma scroll_spy_follows_section_in_view_witness :
  let v' :=
    Scrolling.run [Scrolling.Scroll 450; Scrolling.AnimationFrame Demo.layout]
      Demo.listening in
  Scrolling.scrollToTop Demo.listening = Some 11 /\
  Scrolling.inView Demo.layout 450 6 /\
  CVApp.nodeHasClass (CVApp.nodes (Scrolling.page Demo.listening)) 2 "active"
  = false /\
  CVApp.currentSection (CVApp.state (Scrolling.page v'))
  = CVApp.sectionId (CVApp.nodes (Scrolling.page Demo.listening)) 6 /\
  CVApp.activeSections (Scrolling.page v')
  = CVApp.activeSections (Scrolling.page Demo.listening).
Proof.
  cbv zeta.
  assert (Hb : Scrolling.scrollToTop Demo.listening = Some 11)
    by (vm_compute; reflexivity).
  assert (Hs : CVApp.sections (CVApp.elements (Scrolling.page Demo.listening))
               = [4; 6]) by (vm_compute; reflexivity).
  assert (Hk : CVApp.sections (CVApp.elements (Scrolling.page Demo.listening)) !! 1
               = Some 6) by (rewrite Hs; reflexivity).
  assert (Hin : Scrolling.inView Demo.layout 450 6)
    by (split; vm_compute; [discriminate | reflexivity]).
  assert (Honly : forall j s,
            CVApp.sections (CVApp.elements (Scrolling.page Demo.listening)) !! j
            = Some s -> Scrolling.inView Demo.layout 450 s -> j = 1).
  { rewrite Hs. intros [| [| j]] s Hj [_ H2]; [| reflexivity | discriminate].
    injection Hj as <-. vm_compute in H2. discriminate. }
  assert (Hl : CVApp.navLinks (CVApp.elements (Scrolling.page Demo.listening)) !! 1
               = Some 2) by (vm_compute; reflexivity).
  assert (Hoff : CVApp.nodeHasClass (CVApp.nodes (Scrolling.page Demo.listening))
                   2 "active" = false) by (vm_compute; reflexivity).
  split; [exact Hb |]. split; [exact Hin |]. split; [exact Hoff |].
  destruct (scroll_spy_follows_section_in_view Demo.listening 450 Demo.layout
              11 1 6 2 Tidy_listening AtRest_listening Hb Hk Hin Honly Hl Hoff)
    as (_ & Hc & Ha & _).
  split; [exact Hc | exact Ha].
Defined.

Lemma throttle_drops_trailing_scroll_witness :
  let v' :=
    Scrolling.run
      (Scrolling.Scroll 100 :: Scrolling.AnimationFrame Demo.layout ::
       map Scrolling.Scroll [500%Q; 900%Q] ++
       Scrolling.ThrottleTimer :: [Scrolling.AnimationFrame Demo.layout])
      Demo.listening in
  Scrolling.scrollToTop Demo.listening = Some 11 /\
  CVApp.nodeHasClass (CVApp.nodes (Scrolling.page v')) 11 "visible"
  = Scrolling.gt 100 300 /\
  Scrolling.scrollY v' = List.last [500%Q; 900%Q] 100%Q.
Proof.
  cbv zeta.
  assert (Hb : Scrolling.scrollToTop Demo.listening = Some 11)
    by (vm_compute; reflexivity).
  assert (Hn : is_Some (CVApp.nodes (Scrolling.page Demo.listening) !! 11))
    by (vm_compute; eexists; reflexivity).
  assert (Hl : Forall (fun ev => Scrolling.isScroll ev || Scrolling.isApp ev = false)
                 [Scrolling.AnimationFrame Demo.layout])
    by (repeat constructor).
  split; [exact Hb |].
  destruct (throttle_drops_trailing_scroll Demo.listening 11 100 Demo.layout
              [500%Q; 900%Q] [Scrolling.AnimationFrame Demo.layout]
              AtRest_listening Hb Hn Hl) as (Hv & Hy & _).
  split; [exact Hv | exact Hy].
Defined.

(** * The reveal animations under way *)

(** ** Steps that keep the animations going *)

Section AdvanceFacts.

Import CVApp.

Variable ns : list Node.

Lemma Advances_refl pg : Advances ns pg pg.
Proof. split; auto. Qed.

Lemma Advances_trans pg1 pg2 pg3 :
  Advances ns pg1 pg2 -> Advances ns pg2 pg3 -> Advances ns pg1 pg3.
Proof.
  intros [A1 A2 A3 A4 A5 A6] [B1 B2 B3 B4 B5 B6]. split.
  - congruence.
  - auto.
  - intros bar. rewrite B3. apply A3.
  - auto.
  - intros due bar W H. destruct (B5 due bar W H) as [H2 | H2]; auto.
  - congruence.
Qed.

Lemma Advances_fields pg pg' :
  nodes pg' = nodes pg -> timers pg' = timers pg -> Advances ns pg pg'.
Proof.
  intros Hn Ht. split.
  - unfold activeSections. rewrite Hn. reflexivity.
  - intros e. unfold animated. rewrite Hn. auto.
  - intros bar. unfold barWidth. rewrite Hn. reflexivity.
  - intros t. rewrite Ht. auto.
  - intros due bar W. rewrite Ht. auto.
  - rewrite Ht. reflexivity.
Qed.

Lemma Advances_updNode pg h f :
  (forall n, nodes pg !! h = Some n -> steady f n) ->
  Advances ns pg (updNode h f pg).
Proof.
  intros Hf. split; try (cbn; auto; fail).
  - apply activeSections_updNode. intros n Hn. apply (Hf n Hn).
  - intros e. unfold animated, updNode. cbn [nodes set_nodes].
    rewrite list_lookup_alter. case_decide as He; [subst |]; [| auto].
    destruct (nodes pg !! e) as [n |] eqn:En; [| auto]. cbn.
    apply (Hf n eq_refl).
  - intros bar. unfold barWidth, updNode. cbn [nodes set_nodes].
    rewrite list_lookup_alter. case_decide as He; [subst |]; [| auto].
    destruct (nodes pg !! bar) as [n |] eqn:En; [| auto]. cbn.
    apply (Hf n eq_refl).
Qed.

Lemma Advances_setTimeout pg cb delay :
  cb <> resizeSettled ->
  (forall bar W, cb = setBarWidth bar W -> dataWidth ns bar = Some W) ->
  Advances ns pg (setTimeout cb delay pg).
Proof.
  intros Hcb Hw. split; try reflexivity.
  - auto.
  - intros t Ht _. cbn. apply elem_of_app. left. exact Ht.
  - intros due bar W. cbn. rewrite elem_of_app, list_elem_of_singleton.
    intros [H | [= _ <-]]; [left; exact H | right; apply Hw; reflexivity].
  - cbn. rewrite filter_app. rewrite (filter_cons_False _ _ []).
    + rewrite filter_nil, app_nil_r. reflexivity.
    + cbn. destruct cb; try discriminate. contradiction.
Qed.

Lemma Advances_forEach {A} (P : Page -> Prop) (f : nat -> A -> Page -> Page) l pg :
  (forall i a pg', P pg' -> P (f i a pg') /\ Advances ns pg' (f i a pg')) ->
  P pg -> P (forEach f l pg) /\ Advances ns pg (forEach f l pg).
Proof.
  intros Hf HP.
  apply (forEach_invariant (fun pg' => P pg' /\ Advances ns pg pg')).
  - intros i a pg' [HP' HA]. destruct (Hf i a pg' HP') as [HP'' HA'].
    split; [exact HP'' | exact (Advances_trans _ _ _ HA HA')].
  - split; [exact HP | apply Advances_refl].
Qed.

Lemma Advances_forEach_in {A} (P : Page -> Prop) (f : nat -> A -> Page -> Page)
    l pg :
  (forall i a pg', l !! i = Some a -> P pg' ->
                   P (f i a pg') /\ Advances ns pg' (f i a pg')) ->
  P pg -> P (forEach f l pg) /\ Advances ns pg (forEach f l pg).
Proof.
  induction l as [| x l IH] using rev_ind; intros Hf HP.
  - split; [exact HP | apply Advances_refl].
  - rewrite forEach_snoc.
    destruct IH as [HP' HA]; [| exact HP |].
    { intros i a pg' Hi. apply Hf. apply lookup_app_l_Some. exact Hi. }
    destruct (Hf (length l) x (forEach f l pg)) as [HP'' HA'];
      [| exact HP' |].
    { rewrite lookup_app_r by lia. rewrite Nat.sub_diag. reflexivity. }
    split; [exact HP'' | exact (Advances_trans _ _ _ HA HA')].
Qed.

(** ** The updates of the handlers *)

Lemma isActiveSection_class c (f : Node -> Node) n :
  (forall c', c' <> c -> hasClass c' (f n) = hasClass c' n) ->
  c <> "section" -> c <> "active" ->
  isActiveSection (f n) = isActiveSection n.
Proof.
  intros Hf H1 H2. unfold isActiveSection. rewrite !Hf by congruence. reflexivity.
Qed.

Lemma animatedNode_addClass c n :
  animatedNode n = true -> animatedNode (addClass c n) = true.
Proof.
  unfold animatedNode. rewrite !existsb_exists.
  intros (c' & Hin & Hc'). exists c'. split; [exact Hin |].
  destruct (decide (c' = c)) as [-> | Hne].
  - unfold hasClass, addClass. cbn. apply contains_classAdd.
  - rewrite hasClass_addClass_ne by exact Hne. exact Hc'.
Qed.

Lemma animatedNode_removeClass c n :
  c ∉ animationClasses ->
  animatedNode n = true -> animatedNode (removeClass c n) = true.
Proof.
  intros Hc. unfold animatedNode. rewrite !existsb_exists.
  intros (c' & Hin & Hc'). exists c'. split; [exact Hin |].
  rewrite hasClass_removeClass_ne; [exact Hc' |].
  intros ->. apply Hc. apply list_elem_of_In. exact Hin.
Qed.

Lemma steady_addClass_animation c n :
  c ∈ animationClasses -> steady (addClass c) n.
Proof.
  intros Hc. split; [| split; [apply animatedNode_addClass | reflexivity]].
  apply (isActiveSection_class c).
  - intros c' Hne. apply hasClass_addClass_ne. exact Hne.
  - intros ->. repeat (apply elem_of_cons in Hc as [Hc | Hc]; [discriminate |]).
    inversion Hc.
  - intros ->. repeat (apply elem_of_cons in Hc as [Hc | Hc]; [discriminate |]).
    inversion Hc.
Qed.

Lemma not_animation_active : "active" ∉ animationClasses.
Proof.
  intros H. repeat (apply elem_of_cons in H as [H | H]; [discriminate |]).
  inversion H.
Qed.

(** Switching [active] on a node that is not a section. *)
Lemma steady_active_off n :
  hasClass "section" n = false -> steady (removeClass "active") n.
Proof.
  intros Hs. split; [| split; [| reflexivity]].
  - apply isActiveSection_keep; [exact Hs |].
    rewrite hasClass_removeClass_ne by discriminate. exact Hs.
  - apply animatedNode_removeClass, not_animation_active.
Qed.

Lemma steady_active_on n :
  hasClass "section" n = false -> steady (addClass "active") n.
Proof.
  intros Hs. split; [| split; [apply animatedNode_addClass | reflexivity]].
  apply isActiveSection_keep; [exact Hs |].
  rewrite hasClass_addClass_ne by discriminate. exact Hs.
Qed.

Lemma steady_setInnerHTML html n : steady (setInnerHTML html) n.
Proof. split; [reflexivity | split; [auto | reflexivity]]. Qed.

Lemma steady_mobile n :
  steady (fun n' => addClass "fade-in"
            (removeClass "slide-in-right" (removeClass "slide-in-left" n'))) n.
Proof.
  split; [| split; [| reflexivity]].
  - unfold isActiveSection.
    rewrite !hasClass_addClass_ne, !hasClass_removeClass_ne by discriminate.
    reflexivity.
  - intros _. unfold animatedNode. apply existsb_exists. exists "fade-in".
    split; [left; reflexivity |]. unfold hasClass, addClass. cbn.
    apply contains_classAdd.
Qed.

End AdvanceFacts.

(** ** The handlers as such steps *)

Section HandlerAdvances.

Import CVApp.

Variable ns : list Node.

Lemma animation_getAnimationClass ns' h : getAnimationClass ns' h ∈ animationClasses.
Proof.
  pose proof (getAnimationClass_cases ns' h) as H. unfold animationClasses.
  repeat (apply elem_of_cons in H as [-> | H]);
    [repeat first [left | right] .. |].
  inversion H.
Qed.

Lemma Markup_dataWidth pg bar :
  Markup ns pg -> dataWidth (nodes pg) bar = dataWidth ns bar.
Proof.
  intros HM. unfold dataWidth. destruct (ns !! bar) as [n |] eqn:E.
  - destruct (Markup_lookup ns pg bar n HM E) as (n' & -> & Hs). cbn.
    apply (same_attributes _ _ Hs). static_class.
  - destruct (nodes pg !! bar) as [n' |] eqn:E'; [| reflexivity].
    destruct (Markup_lookup_r ns pg bar n' HM E') as (n & Hn & _). congruence.
Qed.

Lemma Advances_animateElement by_ element pg :
  Advances ns pg (animateElement by_ element pg).
Proof.
  unfold animateElement. cbv zeta.
  set (pg1 := set_animationLog _ _).
  assert (H1 : Advances ns pg pg1).
  { subst pg1.
    apply (Advances_trans ns pg
             (updNode element (addClass (getAnimationClass (nodes pg) element)) pg));
      [| apply Advances_fields; reflexivity].
    apply Advances_updNode. intros n _.
    apply steady_addClass_animation, animation_getAnimationClass. }
  destruct (querySelectorAllIn _ _ _); [exact H1 |].
  eapply Advances_trans; [exact H1 |].
  apply Advances_setTimeout; discriminate.
Qed.

Lemma Advances_animateSkillBars bars pg :
  Markup ns pg -> Advances ns pg (animateSkillBars bars pg).
Proof.
  intros HM. unfold animateSkillBars.
  apply (Advances_forEach ns (fun pg' => nodes pg' = nodes pg)); [| reflexivity].
  intros i bar pg' Hn.
  destruct (_ ≫= _) as [W |] eqn:E; [| split; [exact Hn | apply Advances_refl]].
  case_bool_decide; [split; [exact Hn | apply Advances_refl] |].
  split; [exact Hn |].
  apply Advances_setTimeout; [discriminate |].
  intros bar' W' [= <- <-].
  rewrite <- (Markup_dataWidth pg bar HM). unfold dataWidth.
  rewrite <- Hn. exact E.
Qed.

Lemma steady_section_free (f : Node -> Node) pg h :
  Tidy pg ->
  (forall n, nodes pg !! h = Some n ->
     attributes n !! "href" <> None \/ hasClass "nav-link" n = true \/
     hasClass "nav-menu" n = true) ->
  (forall n, hasClass "section" n = false -> steady f n) ->
  forall n, nodes pg !! h = Some n -> steady f n.
Proof.
  intros HT Hk Hf n Hn. apply Hf.
  exact (not_section pg h n HT Hn (Hk n Hn)).
Qed.

Lemma tame_active_off n : tame (removeClass "active") n.
Proof. apply tame_removeClass; discriminate. Qed.

Lemma Advances_cleared pg :
  Tidy pg -> Advances ns pg (cleared pg).
Proof.
  intros HT. unfold cleared.
  apply (Advances_forEach_in ns
           (fun pg' => Tidy pg' /\ elements pg' = elements pg));
    [| split; [exact HT | reflexivity]].
  intros i link pg' Hi [HT' He]. split; [split; [| exact He] |].
  - apply Tidy_updNode; [| exact HT']. intros n _. apply tame_active_off.
  - apply Advances_updNode.
    apply (steady_section_free _ pg' link HT').
    + intros n Hn. right. left. rewrite <- He in Hi.
      exact (Tidy_navLink pg' i link n HT' Hi Hn).
    + apply steady_active_off.
Qed.

Lemma Advances_updateActiveNavLink link pg :
  Tidy pg ->
  (forall l n, link = Some l -> nodes pg !! l = Some n ->
     attributes n !! "href" <> None \/ hasClass "nav-link" n = true \/
     hasClass "nav-menu" n = true) ->
  Advances ns pg (updateActiveNavLink link pg).2.
Proof.
  intros HT Hlink. pose proof (Advances_cleared pg HT) as HA.
  destruct link as [l |].
  - rewrite updateActiveNavLink_Some. cbn [snd].
    apply (Advances_trans ns pg (cleared pg)); [exact HA |].
    apply Advances_updNode. intros n Hn. apply steady_active_on.
    rewrite lookup_cleared in Hn.
    destruct (nodes pg !! l) as [n0 |] eqn:E; [| discriminate].
    cbn in Hn. injection Hn as <-.
    pose proof (not_section pg l n0 HT E (Hlink l n0 eq_refl E)) as Hs.
    case_bool_decide; [| exact Hs].
    rewrite hasClass_removeClass_ne by discriminate. exact Hs.
  - rewrite updateActiveNavLink_None. exact HA.
Qed.

Lemma Advances_closeMobileMenu pg :
  Tidy pg -> Advances ns pg (closeMobileMenu pg).2.
Proof.
  intros HT. unfold closeMobileMenu.
  destruct (navMenu (elements pg)) as [menu |] eqn:Hmenu; [| apply Advances_refl].
  cbv zeta.
  assert (H1 : Advances ns pg (updNode menu (removeClass "active") pg)).
  { apply Advances_updNode. apply (steady_section_free _ pg menu HT).
    - intros n Hn. right. right. destruct HT as [_ [_ _ S3]].
      specialize (S3 menu Hmenu). unfold nodeHasClass in S3.
      rewrite Hn in S3. exact S3.
    - apply steady_active_off. }
  destruct (menuToggle _) as [toggle |]; [| exact H1]. cbn [snd].
  apply (Advances_trans ns pg _ _ H1).
  set (pg1 := updNode menu _ pg).
  apply (Advances_trans ns pg1 (updNode toggle (setInnerHTML (icon "fa-bars")) pg1));
    [| apply Advances_fields; reflexivity].
  apply Advances_updNode. intros n _. apply steady_setInnerHTML.
Qed.

Lemma Advances_openMobileMenu pg :
  Tidy pg -> Advances ns pg (openMobileMenu pg).2.
Proof.
  intros HT. unfold openMobileMenu.
  destruct (navMenu (elements pg)) as [menu |] eqn:Hmenu; [| apply Advances_refl].
  cbv zeta.
  assert (H1 : Advances ns pg (updNode menu (addClass "active") pg)).
  { apply Advances_updNode. apply (steady_section_free _ pg menu HT).
    - intros n Hn. right. right. destruct HT as [_ [_ _ S3]].
      specialize (S3 menu Hmenu). unfold nodeHasClass in S3.
      rewrite Hn in S3. exact S3.
    - apply steady_active_on. }
  destruct (menuToggle _) as [toggle |]; [| exact H1]. cbn [snd].
  apply (Advances_trans ns pg _ _ H1).
  set (pg1 := updNode menu _ pg).
  set (pg3 := set_bodyOverflow "hidden" _).
  assert (H3 : Advances ns pg1 pg3).
  { subst pg3.
    apply (Advances_trans ns pg1
             (updNode toggle (setInnerHTML (icon "fa-times")) pg1));
      [| apply Advances_fields; reflexivity].
    apply Advances_updNode. intros n _. apply steady_setInnerHTML. }
  apply (Advances_trans ns pg1 pg3 _ H3).
  apply (Advances_forEach ns (fun _ => True)); [| exact I].
  intros i a pg' _. split; [exact I |].
  apply Advances_setTimeout; discriminate.
Qed.

Lemma Advances_toggleMobileMenu pg :
  Tidy pg -> Advances ns pg (toggleMobileMenu pg).2.
Proof.
  intros HT. unfold toggleMobileMenu. cbv zeta.
  set (pg1 := set_state _ pg).
  assert (H1 : Advances ns pg pg1) by (apply Advances_fields; reflexivity).
  assert (HT1 : Tidy pg1) by (apply Tidy_set_state, HT).
  apply (Advances_trans ns pg pg1 _ H1).
  destruct (isMenuOpen (state pg1));
    [apply Advances_openMobileMenu | apply Advances_closeMobileMenu]; exact HT1.
Qed.

Lemma Advances_handleOutsideClick target pg :
  Tidy pg -> Advances ns pg (handleOutsideClick target pg).2.
Proof.
  intros HT. unfold handleOutsideClick.
  destruct (negb _); [apply Advances_refl |].
  destruct (navMenu _); [| apply Advances_refl].
  destruct (containsNode _ _ _); [apply Advances_refl |].
  destruct (menuToggle _); [| apply Advances_refl].
  destruct (containsNode _ _ _); [apply Advances_refl |].
  apply Advances_closeMobileMenu, HT.
Qed.

Lemma Advances_adjustMobileAnimations pg :
  Advances ns pg (adjustMobileAnimations pg).
Proof.
  unfold adjustMobileAnimations.
  apply (Advances_forEach ns (fun _ => True)); [| exact I].
  intros i a pg' _. split; [exact I |].
  apply Advances_updNode. intros n _. apply steady_mobile.
Qed.

Lemma Advances_handleResize pg :
  Tidy pg -> Advances ns pg (handleResize pg).2.
Proof.
  intros HT. unfold handleResize, andThen.
  set (m := if _ && _ then closeMobileMenu else pure (fun pg' => pg')).
  assert (H1 : Advances ns pg (m pg).2 /\ Tidy (m pg).2).
  { subst m. destruct (_ && _).
    - split; [apply Advances_closeMobileMenu | apply Tidy_closeMobileMenu]; exact HT.
    - split; [apply Advances_refl | exact HT]. }
  destruct H1 as [H1 HT1].
  destruct (m pg) as [[u | e] pg1]; cbn [fst snd] in *; [| exact H1].
  unfold pure. cbn [snd]. apply (Advances_trans ns pg pg1 _ H1).
  unfold recalculateAnimations. cbv zeta.
  set (pg2 := set_state _ pg1).
  assert (H2 : Advances ns pg1 pg2) by (apply Advances_fields; reflexivity).
  destruct (_ <=? _); [| exact H2].
  apply (Advances_trans ns pg1 pg2 _ H2). apply Advances_adjustMobileAnimations.
Qed.

End HandlerAdvances.

Section AnimatingFacts.

Import CVApp.

Variable ns : list Node.

(** ** Queries on a page and on its markup *)

Lemma descendsFrom_markup pg fuel a h :
  Markup ns pg -> descendsFrom (nodes pg) fuel a h = descendsFrom ns fuel a h.
Proof.
  intros HM. revert h. induction fuel as [| fuel IH]; intros h; [reflexivity |].
  cbn [descendsFrom]. destruct (ns !! h) as [n |] eqn:E.
  - destruct (Markup_lookup ns pg h n HM E) as (n' & -> & Hs).
    rewrite (same_parent _ _ Hs). destruct (parent n); [| reflexivity].
    rewrite IH. reflexivity.
  - destruct (nodes pg !! h) as [n' |] eqn:E'; [| reflexivity].
    destruct (Markup_lookup_r ns pg h n' HM E') as (n & Hn & _). congruence.
Qed.

Lemma selectFrom_related (p q : nat -> Node -> bool) j l l' :
  length l' = length l ->
  (forall i n n', l !! i = Some n -> l' !! i = Some n' ->
                  q (j + i) n' = p (j + i) n) ->
  selectFrom q j l' = selectFrom p j l.
Proof.
  revert j l'. induction l as [| n l IH]; intros j [| n' l'] Hlen Hp;
    try discriminate; [reflexivity |].
  rewrite !selectFrom_cons. f_equal.
  - pose proof (Hp 0 n n' eq_refl eq_refl) as H0. rewrite Nat.add_0_r in H0.
    rewrite H0. reflexivity.
  - apply IH; [cbn in Hlen; lia |]. intros i m m' Hm Hm'.
    replace (S j + i) with (j + S i) by lia. apply Hp; assumption.
Qed.

Lemma querySelectorAllIn_markup pg root (p : Node -> bool) :
  Markup ns pg ->
  (forall n n', sameMarkup n n' -> p n' = p n) ->
  querySelectorAllIn (nodes pg) root p = querySelectorAllIn ns root p.
Proof.
  intros HM Hp. unfold querySelectorAllIn. rewrite !selectAll_selectFrom.
  apply selectFrom_related; [apply (Markup_length ns pg HM) |].
  intros i n n' Hn Hn'.
  destruct (Markup_lookup ns pg i n HM Hn) as (n2 & Hn2 & Hs).
  assert (n2 = n') as -> by congruence.
  rewrite (Hp n n' Hs), (Markup_length ns pg HM), descendsFrom_markup by exact HM.
  reflexivity.
Qed.

Lemma animatable_markup n n' : sameMarkup n n' -> animatable n' = animatable n.
Proof.
  intros Hs. unfold animatable, animatableClasses. cbn [existsb].
  rewrite !(same_classes _ _ Hs) by static_class. reflexivity.
Qed.

Lemma skillProgress_markup n n' :
  sameMarkup n n' -> hasClass "skill-progress" n' = hasClass "skill-progress" n.
Proof. intros Hs. apply (same_classes _ _ Hs). static_class. Qed.

(** ** The timers of a section switch *)

Lemma timers_animateSection section pg :
  timers (animateSection section pg)
  = timers pg ++
    imap (fun index e => (now pg + index * 100, animateElementLater e))
      (querySelectorAllIn (nodes pg) section animatable).
Proof.
  unfold animateSection.
  generalize (querySelectorAllIn (nodes pg) section animatable) as l.
  intros l. induction l as [| x l IH] using rev_ind.
  - cbn. rewrite app_nil_r. reflexivity.
  - rewrite forEach_snoc. cbn [setTimeout timers set_timers]. rewrite IH.
    rewrite imap_app. cbn. rewrite Nat.add_0_r, <- app_assoc.
    assert (Hnow : now (forEach
                     (fun index element pg' =>
                        setTimeout (animateElementLater element) (index * 100) pg')
                     l pg) = now pg).
    { apply (forEach_invariant (fun pg' => now pg' = now pg)); [| reflexivity].
      intros i a pg' H. exact H. }
    rewrite Hnow. reflexivity.
Qed.

Lemma timers_showSection i pg :
  timers (showSection i pg)
  = timers pg ++
    match getElementById (nodes pg) i with
    | Some target =>
        imap (fun index e => (now pg + index * 100, animateElementLater e))
          (querySelectorAllIn (nodes (showSection i pg)) target animatable)
    | None => []
    end.
Proof.
  destruct (getElementById (nodes pg) i) as [target |] eqn:E.
  - rewrite nodes_showSection, E. rewrite (showSection_found i pg target E).
    unfold updateURL. cbv zeta.
    assert (Ht : forall pg', timers
                   (match announcer (set_history (history pg' ++ [pathname +:+ "#" +:+ i])
                                       (set_url (pathname +:+ "#" +:+ i) pg')) with
                    | Some _ =>
                        set_announcer (Some ("Sección " +:+ i +:+ " cargada"))
                          (set_history (history pg' ++ [pathname +:+ "#" +:+ i])
                             (set_url (pathname +:+ "#" +:+ i) pg'))
                    | None =>
                        set_history (history pg' ++ [pathname +:+ "#" +:+ i])
                          (set_url (pathname +:+ "#" +:+ i) pg')
                    end) = timers pg').
    { intros pg'. destruct (announcer _); reflexivity. }
    rewrite Ht, timers_animateSection. reflexivity.
  - rewrite (showSection_unknown i pg E), app_nil_r.
    destruct (activeSection (nodes pg)); reflexivity.
Qed.

Lemma activeSections_showSection_in pg i sec :
  Tidy pg -> sec ∈ activeSections (showSection i pg) ->
  getElementById (nodes pg) i = Some sec.
Proof.
  intros [T1 _] Hin. unfold activeSections in Hin.
  apply elem_of_selectAll in Hin as (n & Hn & Hact).
  rewrite nodes_showSection in Hn.
  destruct (getElementById (nodes pg) i) as [target |].
  - rewrite list_lookup_alter in Hn. case_decide as Ht; [subst; reflexivity |].
    rewrite (hidden_none_active pg sec n T1 Hn) in Hact. discriminate.
  - rewrite (hidden_none_active pg sec n T1 Hn) in Hact. discriminate.
Qed.

(** ** The invariant *)

Lemma Animating_advance pg pg' :
  Animating ns pg -> Advances ns pg pg' -> Animating ns pg'.
Proof.
  intros [R1 R2 R3] [A1 A2 A3 A4 A5 A6].
  assert (Hp : forall cb, cb <> resizeSettled -> pending cb pg -> pending cb pg').
  { intros cb Hcb [due Hd]. exists due. apply A4; [exact Hd |].
    cbn. destruct cb; try reflexivity. contradiction. }
  assert (Hr : forall e, revealable ns pg' e -> revealable ns pg e).
  { intros e (sec & Hs & He). exists sec. rewrite <- A1. auto. }
  split.
  - intros e He. destruct (R1 e (Hr e He)) as [H | H].
    + left. apply A2, H.
    + right. apply Hp; [discriminate | exact H].
  - intros e bar W He Hb Hw Hne.
    destruct (R2 e bar W (Hr e He) Hb Hw Hne) as [H | [H | [(bars & Hin & H) | H]]].
    + left. rewrite A3. exact H.
    + right. left. apply Hp; [discriminate | exact H].
    + right. right. left. exists bars. split; [exact Hin |].
      apply Hp; [discriminate | exact H].
    + right. right. right. apply Hp; [discriminate | exact H].
  - intros bar W [due Hd]. destruct (A5 due bar W Hd) as [H | H]; [| exact H].
    apply R3. exists due. exact H.
Qed.

Lemma pending_showSection i pg e :
  Tidy pg -> Markup ns pg -> revealable ns (showSection i pg) e ->
  pending (animateElementLater e) (showSection i pg).
Proof.
  intros HT HM (sec & Hs & He).
  assert (HM1 : Markup ns (showSection i pg))
    by (apply (I_showSection (Markup ns) (Markup_fields ns) (Markup_updNode ns)), HM).
  pose proof (activeSections_showSection_in pg i sec HT Hs) as Hid.
  unfold pending. rewrite timers_showSection, Hid.
  rewrite (querySelectorAllIn_markup _ sec animatable HM1 animatable_markup).
  apply list_elem_of_lookup in He as [k Hk].
  exists (now pg + k * 100). apply elem_of_app. right.
  apply list_elem_of_lookup. exists k. rewrite list_lookup_imap, Hk.
  reflexivity.
Qed.

Lemma Animating_showSection i pg :
  Tidy pg -> Markup ns pg ->
  (forall bar W, pending (setBarWidth bar W) pg -> dataWidth ns bar = Some W) ->
  Animating ns (showSection i pg).
Proof.
  intros HT HM R3.
  pose proof (fun e => pending_showSection i pg e HT HM) as Hpend.
  split.
  - intros e He. right. apply Hpend, He.
  - intros e bar W He _ _ _. right. right. right. apply Hpend, He.
  - intros bar W [due Hd]. rewrite timers_showSection in Hd.
    apply elem_of_app in Hd as [Hd | Hd]; [apply R3; exists due; exact Hd |].
    destruct (getElementById (nodes pg) i); [| inversion Hd].
    apply list_elem_of_lookup in Hd as [k Hk].
    rewrite list_lookup_imap in Hk.
    destruct (_ !! k); cbn in Hk; discriminate.
Qed.

Lemma resize_showSection i pg :
  filter (fun t => isResizeSettled t = true) (timers (showSection i pg))
  = filter (fun t => isResizeSettled t = true) (timers pg).
Proof.
  rewrite timers_showSection, filter_app.
  destruct (getElementById (nodes pg) i); [| rewrite filter_nil, app_nil_r; reflexivity].
  generalize (querySelectorAllIn (nodes (showSection i pg)) n animatable) as l.
  intros l.
  assert (H : filter (fun t => isResizeSettled t = true)
                (imap (fun index e => (now pg + index * 100, animateElementLater e)) l)
              = []).
  { apply elem_of_nil_inv. intros t Ht. apply list_elem_of_filter in Ht as [Hr Ht].
    apply list_elem_of_lookup in Ht as [k Hk]. rewrite list_lookup_imap in Hk.
    destruct (l !! k); cbn in Hk; [| discriminate]. injection Hk as <-.
    discriminate Hr. }
  rewrite H, app_nil_r. reflexivity.
Qed.

End AnimatingFacts.

(** ** The handlers keep the pages sound *)

Section SoundFacts.

Import CVApp.

Variable ns : list Node.

Ltac markup_of lem :=
  first [ apply (lem (Markup ns) (Markup_fields ns) (Markup_updNode ns))
        | apply (lem (Markup ns) (Markup_updNode ns))
        | apply (lem (Markup ns) (Markup_fields ns)) ].

Lemma Sound_advance pg pg' :
  Sound ns pg -> Advances ns pg pg' -> Tidy pg' -> Markup ns pg' -> Sound ns pg'.
Proof.
  intros [S1 S2 S3] HA HT HM. split; try assumption.
  exact (Animating_advance ns pg pg' S3 HA).
Qed.

Lemma Sound_fields pg pg' :
  nodes pg' = nodes pg -> elements pg' = elements pg -> timers pg' = timers pg ->
  Sound ns pg -> Sound ns pg'.
Proof.
  intros Hn He Ht HS.
  apply (Sound_advance pg pg' HS).
  - apply Advances_fields; assumption.
  - exact (Tidy_same pg pg' Hn He (sound_tidy _ _ HS)).
  - exact (Markup_fields ns pg pg' Hn He (sound_markup _ _ HS)).
Qed.

Lemma Sound_showSection i pg : Sound ns pg -> Sound ns (showSection i pg).
Proof.
  intros [S1 S2 S3]. split.
  - apply Tidy_showSection, S1.
  - markup_of I_showSection; apply S2.
  - apply Animating_showSection; [exact S1 | exact S2 | apply S3].
Qed.

Lemma Sound_andThen (m1 m2 : Run Page) pg :
  Sound ns (m1 pg).2 -> (forall pg', Sound ns pg' -> Sound ns (m2 pg').2) ->
  Sound ns ((m1 >> m2) pg).2.
Proof.
  intros H1 H2. unfold andThen. destruct (m1 pg) as [[u | e] pg1]; cbn in *; auto.
Qed.

Lemma Sound_updateActiveNavLink link pg :
  Sound ns pg ->
  (forall l n, link = Some l -> nodes pg !! l = Some n ->
     attributes n !! "href" <> None \/ hasClass "nav-link" n = true \/
     hasClass "nav-menu" n = true) ->
  Sound ns (updateActiveNavLink link pg).2.
Proof.
  intros HS Hl. apply (Sound_advance pg _ HS).
  - apply Advances_updateActiveNavLink; [apply HS | exact Hl].
  - apply Tidy_updateActiveNavLink; [apply HS | exact Hl].
  - markup_of I_updateActiveNavLink; apply HS.
Qed.

Lemma Sound_closeMobileMenu pg : Sound ns pg -> Sound ns (closeMobileMenu pg).2.
Proof.
  intros HS. apply (Sound_advance pg _ HS).
  - apply Advances_closeMobileMenu, HS.
  - apply Tidy_closeMobileMenu, HS.
  - markup_of I_closeMobileMenu; apply HS.
Qed.

Lemma Sound_toggleMobileMenu pg : Sound ns pg -> Sound ns (toggleMobileMenu pg).2.
Proof.
  intros HS. apply (Sound_advance pg _ HS).
  - apply Advances_toggleMobileMenu, HS.
  - apply Tidy_toggleMobileMenu, HS.
  - markup_of I_toggleMobileMenu; apply HS.
Qed.

Lemma Sound_handleOutsideClick target pg :
  Sound ns pg -> Sound ns (handleOutsideClick target pg).2.
Proof.
  intros HS. apply (Sound_advance pg _ HS).
  - apply Advances_handleOutsideClick, HS.
  - apply Tidy_handleOutsideClick, HS.
  - markup_of I_handleOutsideClick; apply HS.
Qed.

Lemma Sound_animateElement by_ element pg :
  Sound ns pg -> Sound ns (animateElement by_ element pg).
Proof.
  intros HS. apply (Sound_advance pg _ HS).
  - apply Advances_animateElement.
  - apply Tidy_animateElement, HS.
  - markup_of I_animateElement; apply HS.
Qed.

Lemma Sound_observeEntry target isIntersecting pg :
  Sound ns pg -> Sound ns (observeEntry target isIntersecting pg).
Proof.
  intros HS. unfold observeEntry. destruct (_ && _); [| exact HS]. cbv zeta.
  apply (Sound_fields (animateElement byObserver target pg)); try reflexivity.
  apply Sound_animateElement, HS.
Qed.

Lemma Sound_handleNavigation target pg :
  Sound ns pg -> Sound ns (handleNavigation target pg).2.
Proof.
  intros HS. unfold handleNavigation.
  destruct (nodes pg !! target) as [n0 |] eqn:Hn0; cbn [mbind option_bind];
    [| exact HS].
  destruct (attributes n0 !! "href") as [href |] eqn:Hhref; [| exact HS].
  destruct (_ && _); [| exact HS].
  unfold andThen at 1. unfold pure at 1. cbn [fst snd].
  pose proof (Sound_showSection (substring1 href) pg HS) as H1.
  apply Sound_andThen; [| intros; apply Sound_closeMobileMenu; assumption].
  apply Sound_updateActiveNavLink; [exact H1 |].
  intros l n1 [= <-] Hn1. left.
  destruct (sameStatics_lookup _ _ _ _ (sameStatics_showSection (substring1 href) pg) Hn1)
    as (n & Hn & Hst).
  unfold staticPart in Hst. injection Hst as _ _ _ ->. congruence.
Qed.

Lemma Sound_handleKeyNavigation key altKey pg :
  Sound ns pg -> Sound ns (handleKeyNavigation key altKey pg).2.
Proof.
  intros HS. unfold handleKeyNavigation. apply Sound_andThen.
  - destruct (_ && _); [apply Sound_closeMobileMenu |]; exact HS.
  - clear pg HS. intros pg HS. destruct (negb altKey); [exact HS |].
    assert (Hgo : forall k,
      Sound ns
        (match sections (elements pg) !! k with
         | Some sec =>
             (pure (showSection (sectionId (nodes pg) sec)) >>
              updateActiveNavLink (navLinks (elements pg) !! k)) pg
         | None =>
             (Throw (TypeError "Cannot read properties of undefined (reading 'id')"), pg)
         end).2).
    { intros k. destruct (sections (elements pg) !! k) as [sec |]; [| exact HS].
      unfold andThen at 1. unfold pure at 1. cbn [fst snd].
      set (pg1 := showSection _ pg).
      assert (H1 : Sound ns pg1) by apply Sound_showSection, HS.
      apply Sound_updateActiveNavLink; [exact H1 |].
      intros l n1 Hl Hn1. right. left.
      apply (Tidy_navLink pg1 k l n1 (sound_tidy _ _ H1)); [| exact Hn1].
      subst pg1. rewrite elements_showSection. exact Hl. }
    cbv zeta. destruct (_ && _); [apply Hgo |].
    destruct (_ && _); [apply Hgo | exact HS].
Qed.

Lemma Sound_loadHash hash pg : Sound ns pg -> Sound ns (loadHash hash pg).2.
Proof.
  intros HS. unfold loadHash. destruct (_ && _); [| exact HS].
  pose proof (Sound_showSection hash pg HS) as H1. cbv zeta.
  destruct (linkTo _ _) as [link |] eqn:Hl; [| exact H1].
  apply Sound_updateActiveNavLink; [exact H1 |].
  intros l n [= <-] Hn. left. eapply linkTo_href; eassumption.
Qed.

Lemma Sound_click target pg : Sound ns pg -> Sound ns (click target pg).
Proof.
  intros HS. unfold click. cbv zeta.
  set (pg1 := foldl _ pg _).
  assert (H1 : Sound ns pg1).
  { subst pg1. apply (foldl_invariant (Sound ns)); [| exact HS].
    intros pg' link HS'. destruct (containsNode _ _ _); [| exact HS'].
    apply Sound_handleNavigation, HS'. }
  set (pg2 := match menuToggle (elements pg1) with Some _ => _ | None => pg1 end).
  assert (H2 : Sound ns pg2).
  { subst pg2. destruct (menuToggle _); [| exact H1].
    destruct (containsNode _ _ _); [| exact H1].
    apply Sound_toggleMobileMenu, H1. }
  apply Sound_handleOutsideClick, H2.
Qed.

End SoundFacts.

Section TimerFacts.

Import CVApp.

Variable ns : list Node.

Lemma elem_of_delete_other {A} (l : list A) k x y :
  x ∈ l -> l !! k = Some y -> x = y \/ x ∈ delete k l.
Proof.
  intros Hx Hk. apply list_elem_of_lookup in Hx as [j Hj].
  destruct (decide (j = k)) as [-> | Hne]; [left; congruence |].
  right. apply list_elem_of_lookup.
  destruct (decide (j < k)) as [Hlt | Hge].
  - exists j. rewrite list_lookup_delete_lt by exact Hlt. exact Hj.
  - exists (j - 1). rewrite list_lookup_delete_ge by lia.
    replace (S (j - 1)) with j by lia. exact Hj.
Qed.

Lemma elem_of_delete_sub {A} (l : list A) k x : x ∈ delete k l -> x ∈ l.
Proof.
  intros Hx. apply list_elem_of_lookup in Hx as [j Hj].
  apply list_elem_of_lookup.
  destruct (decide (j < k)) as [Hlt | Hge].
  - exists j. rewrite list_lookup_delete_lt in Hj by exact Hlt. exact Hj.
  - exists (S j). rewrite list_lookup_delete_ge in Hj by lia. exact Hj.
Qed.

(** The invariant across a step in which every waiting callback either
    stays or has done its part. *)
Lemma Animating_step pg pg2 :
  Animating ns pg ->
  activeSections pg2 = activeSections pg ->
  (forall e, animated pg e = true -> animated pg2 e = true) ->
  (forall bar W, dataWidth ns bar = Some W ->
                 barWidth pg bar = Some (W +:+ "%") ->
                 barWidth pg2 bar = Some (W +:+ "%")) ->
  (forall e, revealable ns pg e -> pending (animateElementLater e) pg ->
             pending (animateElementLater e) pg2 \/
             (animated pg2 e = true /\
              forall bar, bar ∈ barsOf ns e ->
                          pending (animateSkillBarsLater (barsOf ns e)) pg2)) ->
  (forall bars, pending (animateSkillBarsLater bars) pg ->
                pending (animateSkillBarsLater bars) pg2 \/
                forall bar W, bar ∈ bars -> dataWidth ns bar = Some W ->
                              wholeNumber W = true ->
                              pending (setBarWidth bar W) pg2) ->
  (forall bar W, pending (setBarWidth bar W) pg ->
                 pending (setBarWidth bar W) pg2 \/
                 (wholeNumber W = true ->
                  barWidth pg2 bar = Some (W +:+ "%"))) ->
  (forall bar W, pending (setBarWidth bar W) pg2 ->
                 pending (setBarWidth bar W) pg \/ dataWidth ns bar = Some W) ->
  Animating ns pg2.
Proof.
  intros [R1 R2 R3] Hact Hani Hwid Hel Hbars Hset Hnew.
  assert (Hr : forall e, revealable ns pg2 e -> revealable ns pg e).
  { intros e (sec & Hs & He). exists sec. rewrite <- Hact. auto. }
  assert (Hw : forall bar W, wholeNumber W = true ->
                             pending (setBarWidth bar W) pg ->
                             barWidth pg2 bar = Some (W +:+ "%") \/
                             pending (setBarWidth bar W) pg2).
  { intros bar W HW H. destruct (Hset bar W H); auto. }
  split.
  - intros e He. destruct (R1 e (Hr e He)) as [H | H]; [left; apply Hani, H |].
    destruct (Hel e (Hr e He) H) as [H' | [H' _]]; auto.
  - intros e bar W He Hb HW Hne.
    destruct (R2 e bar W (Hr e He) Hb HW Hne) as [H | [H | [(bars & Hin & H) | H]]].
    + left. apply Hwid; assumption.
    + destruct (Hw bar W Hne H); auto.
    + destruct (Hbars bars H) as [H' | H'].
      * right. right. left. exists bars. auto.
      * right. left. apply H'; assumption.
    + destruct (Hel e (Hr e He) H) as [H' | [_ H']]; [auto |].
      right. right. left. exists (barsOf ns e). split; [exact Hb |].
      exact (H' bar Hb).
  - intros bar W H. destruct (Hnew bar W H) as [H' | H']; [apply R3, H' | exact H'].
Qed.

(** ** The debounced resize *)

Lemma Sound_debouncedResize pg : Sound ns pg -> Sound ns (debouncedResize pg).
Proof.
  intros [S1 S2 S3]. unfold debouncedResize.
  set (pg1 := set_timers _ pg).
  assert (Hin : forall t, t ∈ timers (setTimeout resizeSettled 250 pg1) <->
                          (t ∈ timers pg /\ isResizeSettled t = false) \/
                          t = (now pg + 250, resizeSettled)).
  { intros t. cbn. rewrite elem_of_app, list_elem_of_filter, list_elem_of_singleton.
    tauto. }
  assert (Hkeep : forall cb, cb <> resizeSettled -> pending cb pg ->
                             pending cb (setTimeout resizeSettled 250 pg1)).
  { intros cb Hcb [due Hd]. exists due. apply Hin. left. split; [exact Hd |].
    cbn. destruct cb; try reflexivity. contradiction. }
  assert (Hback : forall cb, cb <> resizeSettled ->
                             pending cb (setTimeout resizeSettled 250 pg1) ->
                             pending cb pg).
  { intros cb Hcb [due Hd]. exists due. apply Hin in Hd as [[Hd _] | Hd];
      [exact Hd |]. injection Hd as _ ->. contradiction. }
  split.
  - apply Tidy_setTimeout, Tidy_set_timers, S1.
  - apply (Markup_fields ns pg); [reflexivity | reflexivity | exact S2].
  - apply (Animating_step pg); try exact S3; try reflexivity; try (intros; assumption).
    + intros e _ H. left. apply Hkeep; [discriminate | exact H].
    + intros bars H. left. apply Hkeep; [discriminate | exact H].
    + intros bar W H. left. apply Hkeep; [discriminate | exact H].
    + intros bar W H. left. apply Hback; [discriminate | exact H].
Qed.

(** ** A timer fires *)

Lemma animated_animateElement by_ e pg :
  is_Some (nodes pg !! e) -> animated (animateElement by_ e pg) e = true.
Proof.
  intros [n Hn].
  assert (H1 : animated (updNode e (addClass (getAnimationClass (nodes pg) e)) pg) e
               = true).
  { unfold animated, updNode. cbn [nodes set_nodes].
    rewrite list_lookup_alter, decide_True by reflexivity. rewrite Hn.
    change (animatedNode (addClass (getAnimationClass (nodes pg) e) n) = true).
    unfold animatedNode. apply existsb_exists.
    exists (getAnimationClass (nodes pg) e). split.
    - apply list_elem_of_In, animation_getAnimationClass.
    - unfold hasClass, addClass. cbn. apply contains_classAdd. }
  unfold animateElement. cbv zeta.
  destruct (querySelectorAllIn _ _ _); exact H1.
Qed.

Lemma pending_animateElement_bars by_ e bar pg :
  Markup ns pg -> bar ∈ barsOf ns e ->
  pending (animateSkillBarsLater (barsOf ns e)) (animateElement by_ e pg).
Proof.
  intros HM Hbar. unfold animateElement. cbv zeta.
  set (pg1 := set_animationLog _ _).
  assert (HM1 : Markup ns pg1).
  { subst pg1.
    apply (Markup_fields ns
             (updNode e (addClass (getAnimationClass (nodes pg) e)) pg));
      [reflexivity | reflexivity |].
    apply Markup_updNode; [| exact HM].
    apply cosmetic_addClass, dynamic_getAnimationClass. }
  rewrite (querySelectorAllIn_markup ns pg1 e _ HM1 skillProgress_markup).
  fold (barsOf ns e).
  destruct (barsOf ns e) as [| b bs] eqn:E; [inversion Hbar |].
  exists (now pg1 + 300). cbn. apply elem_of_app. right. left.
Qed.

Lemma pending_animateSkillBars bars bar W pg :
  bar ∈ bars -> dataWidth (nodes pg) bar = Some W -> W <> EmptyString ->
  pending (setBarWidth bar W) (animateSkillBars bars pg).
Proof.
  intros Hin Hw Hne. unfold animateSkillBars.
  induction bars as [| x bars IH] using rev_ind; [inversion Hin |].
  rewrite forEach_snoc.
  set (pg' := forEach _ bars pg) in *.
  assert (Hn : nodes pg' = nodes pg).
  { subst pg'. apply (forEach_invariant (fun pg' => nodes pg' = nodes pg));
      [| reflexivity].
    intros i b pg'' H. destruct (_ ≫= _); [| exact H].
    case_bool_decide; exact H. }
  apply elem_of_app in Hin as [Hin | Hin].
  - destruct (IH Hin) as [due Hd].
    exists due. destruct (_ ≫= _); [| exact Hd].
    case_bool_decide; [exact Hd |]. cbn. apply elem_of_app. left. exact Hd.
  - apply list_elem_of_singleton in Hin as ->.
    unfold dataWidth in Hw. rewrite Hn, Hw.
    rewrite bool_decide_eq_false_2 by exact Hne.
    exists (now pg' + length bars * 100). cbn. apply elem_of_app. right. left.
Qed.

Lemma barWidth_set bar W pg :
  is_Some (nodes pg !! bar) ->
  barWidth (updNode bar (setStyle "width" W) pg) bar = Some W.
Proof.
  intros [n Hn]. unfold barWidth, updNode. cbn [nodes set_nodes].
  rewrite list_lookup_alter, decide_True by reflexivity. rewrite Hn. cbn.
  apply lookup_insert_eq.
Qed.

Lemma barWidth_set_other bar bar' W pg :
  bar' <> bar ->
  barWidth (updNode bar (setStyle "width" W) pg) bar' = barWidth pg bar'.
Proof.
  intros Hne. unfold barWidth, updNode. cbn [nodes set_nodes].
  rewrite list_lookup_alter, decide_False by congruence. reflexivity.
Qed.

Lemma barWidth_setStyle h k v pg bar :
  k <> "width" -> barWidth (updNode h (setStyle k v) pg) bar = barWidth pg bar.
Proof.
  intros Hk. unfold barWidth, updNode. cbn [nodes set_nodes].
  rewrite list_lookup_alter. case_decide; [subst |]; [| reflexivity].
  destruct (nodes pg !! bar) as [n |]; [| reflexivity]. cbn.
  apply lookup_insert_ne. congruence.
Qed.

Lemma animated_setStyle h k v pg e :
  animated (updNode h (setStyle k v) pg) e = animated pg e.
Proof.
  unfold animated, updNode. cbn [nodes set_nodes].
  rewrite list_lookup_alter. case_decide; [subst |]; [| reflexivity].
  destruct (nodes pg !! e); reflexivity.
Qed.

Lemma activeSections_setStyle h k v pg :
  activeSections (updNode h (setStyle k v) pg) = activeSections pg.
Proof. apply activeSections_updNode. reflexivity. Qed.

Lemma substring_all s t : substring 0 (String.length s) (s +:+ t) = s.
Proof.
  induction s as [| c s IH]; [destruct t; reflexivity |].
  simpl. f_equal. exact IH.
Qed.

Lemma substring_rest s t n :
  substring (String.length s) n (s +:+ t) = substring 0 n t.
Proof. induction s as [| c s IH]; [reflexivity | simpl; exact IH]. Qed.

Lemma length_percent s : String.length (s +:+ "%") = S (String.length s).
Proof.
  induction s as [| c s IH]; [reflexivity |]. simpl. f_equal. exact IH.
Qed.

Lemma wholePercent_append W : wholePercent (W +:+ "%") = wholeNumber W.
Proof.
  unfold wholePercent. rewrite length_percent, substring_all, substring_rest.
  cbn. apply andb_true_r.
Qed.

Lemma wholeNumber_nonempty W : wholeNumber W = true -> W <> EmptyString.
Proof. intros H ->. discriminate H. Qed.

Lemma updNode_same h pg : nodes (updNode h (fun n => n) pg) = nodes pg.
Proof. cbn. apply list_alter_id. reflexivity. Qed.

Lemma setWidth_cases v :
  setWidth v = setStyle "width" v \/ setWidth v = fun n => n.
Proof. unfold setWidth. destruct (wholePercent v); auto. Qed.

Lemma barWidth_setWidth bar W pg :
  is_Some (nodes pg !! bar) -> wholeNumber W = true ->
  barWidth (updNode bar (setWidth (W +:+ "%")) pg) bar = Some (W +:+ "%").
Proof.
  intros Hn HW. unfold setWidth. rewrite wholePercent_append, HW.
  apply barWidth_set, Hn.
Qed.

Lemma barWidth_setWidth_kept bar W pg :
  wholeNumber W = false ->
  barWidth (updNode bar (setWidth (W +:+ "%")) pg) bar = barWidth pg bar.
Proof.
  intros HW. unfold setWidth. rewrite wholePercent_append, HW.
  unfold barWidth. rewrite updNode_same. reflexivity.
Qed.

Lemma barWidth_setWidth_other bar bar' v pg :
  bar' <> bar ->
  barWidth (updNode bar (setWidth v) pg) bar' = barWidth pg bar'.
Proof.
  intros Hne. unfold barWidth, updNode. cbn [nodes set_nodes].
  rewrite list_lookup_alter, decide_False by congruence. reflexivity.
Qed.

Lemma animated_setWidth h v pg e :
  animated (updNode h (setWidth v) pg) e = animated pg e.
Proof.
  destruct (setWidth_cases v) as [-> | ->]; [apply animated_setStyle |].
  unfold animated. rewrite updNode_same. reflexivity.
Qed.

Lemma activeSections_setWidth h v pg :
  activeSections (updNode h (setWidth v) pg) = activeSections pg.
Proof.
  destruct (setWidth_cases v) as [-> | ->]; [apply activeSections_setStyle |].
  unfold activeSections. rewrite updNode_same. reflexivity.
Qed.

Lemma barWidth_removeClass h c pg bar :
  barWidth (updNode h (removeClass c) pg) bar = barWidth pg bar.
Proof.
  unfold barWidth, updNode. cbn [nodes set_nodes].
  rewrite list_lookup_alter. case_decide; [subst |]; [| reflexivity].
  destruct (nodes pg !! bar) as [n |]; reflexivity.
Qed.

Lemma animated_spinnerOff h pg e :
  animated (updNode h (removeClass "active") pg) e = animated pg e.
Proof.
  unfold animated, updNode. cbn [nodes set_nodes].
  rewrite list_lookup_alter. case_decide; [subst |]; [| reflexivity].
  destruct (nodes pg !! e) as [n |]; [| reflexivity]. cbn.
  unfold animatedNode, animationClasses, hasClass. cbn.
  rewrite !contains_classRemove_ne by discriminate. reflexivity.
Qed.

Lemma activeSections_spinnerOff pg spinner :
  Markup ns pg -> plainSpinner ns ->
  loadingSpinner (elements pg) = Some spinner ->
  activeSections (updNode spinner (removeClass "active") pg) = activeSections pg.
Proof.
  intros HM HP Hs. apply activeSections_updNode. intros n Hn.
  assert (Hid : getElementById ns "loadingSpinner" = Some spinner)
    by (destruct HM as [_ He]; rewrite He in Hs; exact Hs).
  pose proof (HP spinner Hid) as Hc.
  rewrite <- (Markup_class ns pg spinner "section" HM) in Hc by static_class.
  unfold nodeHasClass in Hc. rewrite Hn in Hc. cbn in Hc.
  unfold isActiveSection, hasClass in *. cbn.
  rewrite contains_classRemove_ne by discriminate. rewrite Hc. reflexivity.
Qed.

Lemma revealable_node pg e :
  Markup ns pg -> revealable ns pg e -> is_Some (nodes pg !! e).
Proof.
  intros HM (sec & _ & He). unfold querySelectorAllIn in He.
  apply elem_of_selectAll in He as (n & Hn & _).
  destruct (Markup_lookup ns pg e n HM Hn) as (n' & Hn' & _). eauto.
Qed.

Lemma dataWidth_node pg bar W :
  Markup ns pg -> dataWidth ns bar = Some W -> is_Some (nodes pg !! bar).
Proof.
  intros HM Hw. unfold dataWidth in Hw.
  destruct (ns !! bar) as [n |] eqn:E; [| discriminate].
  destruct (Markup_lookup ns pg bar n HM E) as (n' & Hn' & _). eauto.
Qed.

Lemma Animating_fire pg k due cb :
  plainSpinner ns ->
  Sound ns pg -> timers pg !! k = Some (due, cb) ->
  Animating ns
    (runTimer cb
       (set_now (Nat.max (now pg) due) (set_timers (delete k (timers pg)) pg))).2.
Proof.
  intros HP [S1 S2 S3] Hk.
  set (pg1 := set_now _ _).
  assert (HM1 : Markup ns pg1)
    by (apply (Markup_fields ns pg); [reflexivity | reflexivity | exact S2]).
  assert (F1 : forall cb', pending cb' pg -> cb' = cb \/ pending cb' pg1).
  { intros cb' [due' Hd].
    destruct (elem_of_delete_other _ k _ _ Hd Hk) as [[= _ ->] | H];
      [left; reflexivity | right; exists due'; exact H]. }
  assert (F2 : forall cb', pending cb' pg1 -> pending cb' pg).
  { intros cb' [due' Hd]. exists due'. exact (elem_of_delete_sub _ k _ Hd). }
  assert (Hadv : forall pg2, Advances ns pg1 pg2 ->
            (forall cb', cb' <> resizeSettled -> pending cb' pg1 -> pending cb' pg2) /\
            (forall bar W, pending (setBarWidth bar W) pg2 ->
                           pending (setBarWidth bar W) pg \/
                           dataWidth ns bar = Some W)).
  { intros pg2 [A1 A2 A3 A4 A5 A6]. split.
    - intros cb' Hcb' [due' Hd]. exists due'. apply A4; [exact Hd |].
      cbn. destruct cb'; try reflexivity. contradiction.
    - intros bar W [due' Hd]. destruct (A5 due' bar W Hd) as [H | H]; [| auto].
      left. apply F2. exists due'. exact H. }
  destruct cb as [e0 | bars0 | bar0 W0 | link | |]; cbn [runTimer pure snd].
  - pose proof (Advances_animateElement ns bySection e0 pg1) as A.
    destruct (Hadv _ A) as [Hkeep Hnew].
    apply (Animating_step pg); try exact S3.
    + apply (adv_active _ _ _ A).
    + intros e H. apply (adv_animated _ _ _ A), H.
    + intros bar W _ H. rewrite (adv_width _ _ _ A). exact H.
    + intros e He H. destruct (F1 _ H) as [[= ->] | H'].
      * right. split.
        -- apply animated_animateElement.
           exact (revealable_node pg e0 S2 He).
        -- intros bar Hb. exact (pending_animateElement_bars _ e0 bar pg1 HM1 Hb).
      * left. apply Hkeep; [discriminate | exact H'].
    + intros bars H. destruct (F1 _ H) as [[=] | H'].
      left. apply Hkeep; [discriminate | exact H'].
    + intros bar W H. destruct (F1 _ H) as [[=] | H'].
      left. apply Hkeep; [discriminate | exact H'].
    + exact Hnew.
  - pose proof (Advances_animateSkillBars ns bars0 pg1 HM1) as A.
    destruct (Hadv _ A) as [Hkeep Hnew].
    apply (Animating_step pg); try exact S3.
    + apply (adv_active _ _ _ A).
    + intros e H. apply (adv_animated _ _ _ A), H.
    + intros bar W _ H. rewrite (adv_width _ _ _ A). exact H.
    + intros e He H. destruct (F1 _ H) as [[=] | H'].
      left. apply Hkeep; [discriminate | exact H'].
    + intros bars H. destruct (F1 _ H) as [[= ->] | H'].
      * right. intros bar W Hb HW Hne.
        apply pending_animateSkillBars;
          [exact Hb | | apply wholeNumber_nonempty, Hne].
        rewrite (Markup_dataWidth ns pg1 bar HM1). exact HW.
      * left. apply Hkeep; [discriminate | exact H'].
    + intros bar W H. destruct (F1 _ H) as [[=] | H'].
      left. apply Hkeep; [discriminate | exact H'].
    + exact Hnew.
  - assert (HW0 : dataWidth ns bar0 = Some W0).
    { apply (animating_widths _ _ S3). exists due.
      apply list_elem_of_lookup. exists k. exact Hk. }
    apply (Animating_step pg); try exact S3.
    + rewrite activeSections_setWidth. reflexivity.
    + intros e H. rewrite animated_setWidth. exact H.
    + intros bar W HW H. destruct (decide (bar = bar0)) as [-> | Hne].
      * assert (W = W0) as -> by congruence.
        destruct (wholeNumber W0) eqn:Ew.
        -- apply barWidth_setWidth;
             [exact (dataWidth_node pg1 bar0 W0 HM1 HW0) | exact Ew].
        -- rewrite barWidth_setWidth_kept by exact Ew. exact H.
      * rewrite barWidth_setWidth_other by exact Hne. exact H.
    + intros e He H. destruct (F1 _ H) as [[=] | H']. left. exact H'.
    + intros bars H. destruct (F1 _ H) as [[=] | H']. left. exact H'.
    + intros bar W H. destruct (F1 _ H) as [[= -> ->] | H'].
      * right. intros Ew. apply barWidth_setWidth;
          [exact (dataWidth_node pg1 bar0 W0 HM1 HW0) | exact Ew].
      * left. exact H'.
    + intros bar W H. left. apply F2. exact H.
  - apply (Animating_step pg); try exact S3.
    + rewrite !activeSections_setStyle. reflexivity.
    + intros e H. rewrite !animated_setStyle. exact H.
    + intros bar W _ H. rewrite !barWidth_setStyle by discriminate. exact H.
    + intros e He H. destruct (F1 _ H) as [[=] | H']. left. exact H'.
    + intros bars H. destruct (F1 _ H) as [[=] | H']. left. exact H'.
    + intros bar W H. destruct (F1 _ H) as [[=] | H']. left. exact H'.
    + intros bar W H. left. apply F2. exact H.
  - assert (HT1 : Tidy pg1) by (apply Tidy_set_now, Tidy_set_timers, S1).
    pose proof (Advances_handleResize ns pg1 HT1) as A.
    destruct (Hadv _ A) as [Hkeep Hnew].
    apply (Animating_step pg); try exact S3.
    + apply (adv_active _ _ _ A).
    + intros e H. apply (adv_animated _ _ _ A), H.
    + intros bar W _ H. rewrite (adv_width _ _ _ A). exact H.
    + intros e He H. destruct (F1 _ H) as [[=] | H'].
      left. apply Hkeep; [discriminate | exact H'].
    + intros bars H. destruct (F1 _ H) as [[=] | H'].
      left. apply Hkeep; [discriminate | exact H'].
    + intros bar W H. destruct (F1 _ H) as [[=] | H'].
      left. apply Hkeep; [discriminate | exact H'].
    + exact Hnew.
  - destruct (loadingSpinner (elements pg1)) as [spinner |] eqn:Es;
      cbn [snd].
    + apply (Animating_step pg); try exact S3.
      * apply (activeSections_spinnerOff pg1 spinner HM1 HP Es).
      * intros e H. rewrite animated_spinnerOff. exact H.
      * intros bar W _ H. rewrite barWidth_removeClass. exact H.
      * intros e He H. destruct (F1 _ H) as [[=] | H']. left. exact H'.
      * intros bars H. destruct (F1 _ H) as [[=] | H']. left. exact H'.
      * intros bar W H. destruct (F1 _ H) as [[=] | H']. left. exact H'.
      * intros bar W H. left. apply F2. exact H.
    + apply (Animating_step pg); try exact S3; try reflexivity;
        try (intros; assumption).
      * intros e He H. destruct (F1 _ H) as [[=] | H']. left. exact H'.
      * intros bars H. destruct (F1 _ H) as [[=] | H']. left. exact H'.
      * intros bar W H. destruct (F1 _ H) as [[=] | H']. left. exact H'.
      * intros bar W H. left. apply F2. exact H.
Qed.

End TimerFacts.

Section ReachedFacts.

Import CVApp.

Variable ns : list Node.

(** ** The invariant at start-up *)

Lemma initializeComponents_keeps pg :
  let pg1 := showSection (currentSection (state pg)) pg in
  activeSections (initializeComponents pg) = activeSections pg1 /\
  timers (initializeComponents pg) = timers pg1.
Proof.
  cbv zeta. unfold initializeComponents, setupAccessibility. cbv zeta.
  set (pg1 := showSection _ pg).
  set (P := fun pg' => activeSections pg' = activeSections pg1 /\
                       timers pg' = timers pg1).
  change (P (set_announcer (Some EmptyString)
               (forEach (fun _ link pg' =>
                           updNode link (setAttribute "tabindex" "0") pg')
                  (navLinks (elements
                     (initializeSkillBars (setupIntersectionObserver pg1))))
                  (initializeSkillBars (setupIntersectionObserver pg1))))).
  assert (Hupd : forall h f pg',
            (forall n, isActiveSection (f n) = isActiveSection n) ->
            P pg' -> P (updNode h f pg')).
  { intros h f pg' Hf [H1 H2]. split; [| exact H2].
    rewrite activeSections_updNode; [exact H1 | intros n _; apply Hf]. }
  assert (H0 : P (initializeSkillBars (setupIntersectionObserver pg1))).
  { unfold initializeSkillBars. apply forEach_invariant.
    - intros i bar pg' H. apply Hupd; [reflexivity | exact H].
    - split; reflexivity. }
  assert (H1 : P (forEach (fun _ link pg' =>
                           updNode link (setAttribute "tabindex" "0") pg')
                  (navLinks (elements
                     (initializeSkillBars (setupIntersectionObserver pg1))))
                  (initializeSkillBars (setupIntersectionObserver pg1)))).
  { apply forEach_invariant; [| exact H0].
    intros i link pg' H. apply Hupd; [reflexivity | exact H]. }
  exact H1.
Qed.

Lemma Sound_constructor width hash :
  wellFormed ns -> plainSpinner ns ->
  Sound ns (constructor (loaded ns width hash)).
Proof.
  intros HW HP.
  pose proof (Tidy_showLoadingSpinner ns width hash HW HP) as HT0.
  pose proof (Tidy_constructor ns width hash HW HP) as HT.
  pose proof (Markup_constructor ns width hash) as HMc.
  unfold constructor in *. change (nodes (loaded ns width hash)) with ns in *.
  set (pgc := set_state _ _) in *.
  assert (HM0 : Markup ns (showLoadingSpinner pgc)).
  { unfold showLoadingSpinner.
    assert (HMc0 : Markup ns pgc)
      by (split; [apply Forall2_sameMarkup_refl | reflexivity]).
    destruct (loadingSpinner (elements pgc)); [| exact HMc0].
    apply Markup_updNode; [| exact HMc0]. apply cosmetic_addClass. dynamic_class. }
  assert (Hnone : timers (showLoadingSpinner pgc) = []).
  { unfold showLoadingSpinner. destruct (loadingSpinner (elements pgc)); reflexivity. }
  set (pg0 := showLoadingSpinner pgc) in *.
  destruct (initializeComponents_keeps pg0) as [Ha Ht]. cbv zeta in Ha, Ht.
  assert (Hpend : forall e, revealable ns (initializeComponents pg0) e ->
                            pending (animateElementLater e) (initializeComponents pg0)).
  { intros e (sec & Hs & He). unfold pending. rewrite Ht.
    apply (pending_showSection ns (currentSection (state pg0)) pg0 e HT0 HM0).
    exists sec. rewrite <- Ha. auto. }
  set (pgi := initializeComponents pg0) in *.
  assert (Hh : activeSections (hideLoadingSpinner pgi) = activeSections pgi /\
               (forall cb, pending cb pgi -> pending cb (hideLoadingSpinner pgi)) /\
               (forall bar W, pending (setBarWidth bar W) (hideLoadingSpinner pgi) ->
                              pending (setBarWidth bar W) pgi)).
  { unfold hideLoadingSpinner. destruct (loadingSpinner (elements pgi)); [| auto].
    split; [reflexivity |]. split.
    - intros cb [due Hd]. exists due. cbn. apply elem_of_app. left. exact Hd.
    - intros bar W [due Hd]. exists due. cbn in Hd.
      apply elem_of_app in Hd as [Hd | Hd]; [exact Hd |].
      apply list_elem_of_singleton in Hd. discriminate Hd. }
  destruct Hh as (Hh1 & Hh2 & Hh3).
  assert (Hr : forall e, revealable ns (hideLoadingSpinner pgi) e ->
                         revealable ns pgi e).
  { intros e (sec & Hs & He). exists sec. rewrite <- Hh1. auto. }
  split.
  - exact HT.
  - exact HMc.
  - split.
    + intros e He. right. apply Hh2, Hpend, Hr, He.
    + intros e bar W He _ _ _. right. right. right. apply Hh2, Hpend, Hr, He.
    + intros bar W Hp. apply Hh3 in Hp. destruct Hp as [due Hd].
      rewrite Ht in Hd.
      assert (R3 : forall bar W, pending (setBarWidth bar W) pg0 ->
                                 dataWidth ns bar = Some W).
      { intros b w [d Hd']. rewrite Hnone in Hd'. inversion Hd'. }
      apply (animating_widths _ _
               (Animating_showSection ns (currentSection (state pg0)) pg0 HT0 HM0 R3)).
      exists due. exact Hd.
Qed.

Lemma Sound_domContentLoaded width hash :
  wellFormed ns -> plainSpinner ns ->
  Sound ns (domContentLoaded (loaded ns width hash)).2.
Proof.
  intros HW HP. unfold domContentLoaded.
  apply Sound_andThen.
  - unfold pure. cbn [snd]. apply Sound_constructor; assumption.
  - intros pg' H'. apply Sound_loadHash, H'.
Qed.

(** ** The invariant on every page reached *)

Lemma Sound_step ev pg :
  plainSpinner ns -> Sound ns pg -> Sound ns (step ev pg).
Proof.
  intros HP HS. destruct ev; cbn [step].
  - apply Sound_click, HS.
  - apply Sound_loadHash.
    apply (Sound_fields ns pg); [reflexivity | reflexivity | reflexivity | exact HS].
  - apply Sound_handleKeyNavigation, HS.
  - apply Sound_debouncedResize.
    apply (Sound_fields ns pg); [reflexivity | reflexivity | reflexivity | exact HS].
  - case_bool_decide; [apply Sound_observeEntry, HS | exact HS].
  - pose proof (Tidy_step TimerFires pg (sound_tidy _ _ HS)) as HT.
    assert (HM : Markup ns (step TimerFires pg))
      by (apply (I_step (Markup ns) (Markup_fields ns) (Markup_updNode ns)), HS).
    cbn [step] in HT, HM.
    destruct (nextTimer (timers pg)) as [[k [due cb]] |] eqn:E; [| exact HS].
    split; [exact HT | exact HM |].
    apply Animating_fire; [exact HP | exact HS |].
    exact (nextTimer_Some _ _ _ E).
Qed.

Lemma Sound_run evs pg :
  plainSpinner ns -> Sound ns pg -> Sound ns (run evs pg).
Proof.
  intros HP. revert pg. induction evs as [| ev evs IH]; intros pg H; [exact H |].
  cbn. apply IH, Sound_step; assumption.
Qed.

Lemma Sound_reached width hash evs :
  wellFormed ns -> plainSpinner ns ->
  Sound ns (run evs (domContentLoaded (loaded ns width hash)).2).
Proof.
  intros HW HP. apply Sound_run; [exact HP |].
  apply Sound_domContentLoaded; assumption.
Qed.

End ReachedFacts.

Section DrainFacts.

Import CVApp.

(** ** The timers run out *)

(** ** What a callback leaves to run *)

Lemma load_delete size ts k t :
  ts !! k = Some t -> load size ts = load size (delete k ts) + callbackWeight size t.2.
Proof.
  intros Hk. unfold load.
  rewrite <- (take_drop_middle ts k t Hk) at 1.
  rewrite delete_take_drop, !sum_list_with_app. cbn [sum_list_with]. lia.
Qed.

Lemma callbackWeight_pos size cb : 0 < callbackWeight size cb.
Proof. destruct cb; cbn; lia. Qed.

Lemma load_zero size ts : load size ts = 0 -> ts = [].
Proof.
  destruct ts as [| t ts]; [reflexivity |]. unfold load. cbn [sum_list_with].
  pose proof (callbackWeight_pos size t.2). lia.
Qed.

Lemma length_selectAll p ns : length (selectAll p ns) <= length ns.
Proof.
  transitivity (length (seq 0 (length ns))); [| rewrite length_seq; lia].
  apply submseteq_length, NoDup_submseteq; [apply NoDup_selectAll |].
  intros k Hk. apply elem_of_selectAll in Hk as (n & Hn & _).
  apply elem_of_seq. apply lookup_lt_Some in Hn. lia.
Qed.

Lemma quiet_refl pg : quiet pg pg.
Proof. split; reflexivity. Qed.

Lemma quiet_trans pg1 pg2 pg3 : quiet pg1 pg2 -> quiet pg2 pg3 -> quiet pg1 pg3.
Proof. intros [A1 A2] [B1 B2]. split; congruence. Qed.

Lemma quiet_updNode h f pg : quiet pg (updNode h f pg).
Proof. split; [apply length_alter | reflexivity]. Qed.

Lemma quiet_forEach {A} (f : nat -> A -> Page -> Page) l pg :
  (forall i a pg', quiet pg' (f i a pg')) -> quiet pg (forEach f l pg).
Proof.
  intros Hf. apply (forEach_invariant (quiet pg)); [| apply quiet_refl].
  intros i a pg' H. exact (quiet_trans _ _ _ H (Hf i a pg')).
Qed.

Lemma quiet_closeMobileMenu pg : quiet pg (closeMobileMenu pg).2.
Proof.
  unfold closeMobileMenu. destruct (navMenu (elements pg)); [| apply quiet_refl].
  cbv zeta. destruct (menuToggle _); cbn [snd].
  - split; cbn; rewrite ?length_alter; reflexivity.
  - apply quiet_updNode.
Qed.

Lemma quiet_handleResize pg : quiet pg (handleResize pg).2.
Proof.
  unfold handleResize, andThen.
  assert (H1 : quiet pg
            ((if (768 <? innerWidth pg) && isMenuOpen (state pg)
              then closeMobileMenu else pure (fun pg' => pg')) pg).2).
  { destruct (_ && _); [apply quiet_closeMobileMenu | apply quiet_refl]. }
  destruct ((if (768 <? innerWidth pg) && isMenuOpen (state pg)
             then closeMobileMenu else pure (fun pg' => pg')) pg)
    as [[u | e] pg1]; cbn [snd] in *; [| exact H1].
  apply (quiet_trans _ _ _ H1). unfold pure, recalculateAnimations. cbn [snd].
  cbv zeta. destruct (_ <=? _); [| split; reflexivity].
  apply (quiet_trans _ (set_state (set_hasAnimated [] (state pg1)) pg1));
    [split; reflexivity |].
  unfold adjustMobileAnimations. apply quiet_forEach. intros. apply quiet_updNode.
Qed.

Lemma timers_animateElement by_ e pg :
  length (nodes (animateElement by_ e pg)) = length (nodes pg) /\
  exists extra,
    timers (animateElement by_ e pg) = timers pg ++ extra /\
    load (length (nodes pg)) extra <= length (nodes pg) + 1.
Proof.
  unfold animateElement. cbv zeta.
  set (pg1 := set_animationLog _ _).
  assert (Hlen : length (nodes pg1) = length (nodes pg)) by apply length_alter.
  destruct (querySelectorAllIn (nodes pg1) e (hasClass "skill-progress"))
    as [| b bs] eqn:E.
  - split; [exact Hlen |]. exists []. rewrite app_nil_r. split; [reflexivity |].
    cbn. lia.
  - split; [exact Hlen |].
    exists [(now pg1 + 300, animateSkillBarsLater (b :: bs))].
    split; [reflexivity |]. unfold load. cbn [sum_list_with callbackWeight snd].
    rewrite <- E. unfold querySelectorAllIn.
    pose proof (length_selectAll
                  (fun h n => hasClass "skill-progress" n
                              && descendsFrom (nodes pg1) (length (nodes pg1)) e h)
                  (nodes pg1)) as H.
    lia.
Qed.

Lemma timers_animateSkillBars bars pg :
  nodes (animateSkillBars bars pg) = nodes pg /\
  exists extra,
    timers (animateSkillBars bars pg) = timers pg ++ extra /\
    forall size, load size extra <= length bars.
Proof.
  unfold animateSkillBars.
  induction bars as [| x bars IH] using rev_ind.
  - split; [reflexivity |]. exists []. rewrite app_nil_r. split; [reflexivity |].
    intros size. cbn. lia.
  - rewrite forEach_snoc. destruct IH as [Hn (extra & Ht & Hl)].
    set (pg' := forEach _ bars pg) in *.
    assert (Hno : (nodes pg' = nodes pg /\
                   exists extra0, timers pg' = timers pg ++ extra0 /\
                     forall size, load size extra0 <= length (bars ++ [x]))).
    { split; [exact Hn |]. exists extra. split; [exact Ht |].
      intros size. rewrite length_app. specialize (Hl size). lia. }
    destruct (nodes pg' !! x ≫= _) as [W |]; [| exact Hno].
    case_bool_decide; [exact Hno |].
    split; [exact Hn |].
    exists (extra ++ [(now pg' + length bars * 100, setBarWidth x W)]).
    split.
    + cbn. rewrite Ht, app_assoc. reflexivity.
    + intros size. unfold load. rewrite sum_list_with_app, length_app.
      specialize (Hl size). unfold load in Hl. cbn. lia.
Qed.

Lemma weight_fire pg :
  timers pg <> [] -> weight (step TimerFires pg) < weight pg.
Proof.
  intros Hne. cbn [step].
  destruct (nextTimer_is_Some (timers pg) Hne) as [[k [due cb]] E]. rewrite E.
  pose proof (nextTimer_Some _ _ _ E) as Hk.
  set (pg1 := set_now _ _).
  unfold weight at 2.
  rewrite (load_delete _ _ k _ Hk). cbn [snd].
  change (delete k (timers pg)) with (timers pg1).
  change (nodes pg) with (nodes pg1).
  generalize pg1. clear. intros pg.
  assert (Hq : forall pg', quiet pg pg' ->
                 weight pg' < load (length (nodes pg)) (timers pg)
                              + callbackWeight (length (nodes pg)) cb).
  { intros pg' [Hl Ht]. unfold weight. rewrite Hl, Ht.
    pose proof (callbackWeight_pos (length (nodes pg)) cb). unfold load. lia. }
  destruct cb as [e0 | bars0 | bar0 W0 | link | |]; cbn [runTimer pure snd].
  - destruct (timers_animateElement bySection e0 pg) as [Hl (extra & Ht & Hx)].
    unfold weight. rewrite Hl, Ht.
    fold (load (length (nodes pg)) (timers pg ++ extra)).
    unfold load in *. rewrite sum_list_with_app. cbn [callbackWeight]. lia.
  - destruct (timers_animateSkillBars bars0 pg) as [Hn (extra & Ht & Hx)].
    unfold weight. rewrite Hn, Ht. specialize (Hx (length (nodes pg))).
    unfold load in *. rewrite sum_list_with_app. cbn [callbackWeight]. lia.
  - apply Hq, quiet_updNode.
  - apply Hq. eapply quiet_trans; apply quiet_updNode.
  - apply Hq, quiet_handleResize.
  - apply Hq. destruct (loadingSpinner (elements pg)); cbn [snd];
      [apply quiet_updNode | split; reflexivity].
Qed.

Lemma step_idle pg : timers pg = [] -> step TimerFires pg = pg.
Proof. intros H. cbn [step]. rewrite H. reflexivity. Qed.

Lemma timers_drain n pg :
  weight pg <= n -> timers (run (repeat TimerFires n) pg) = [].
Proof.
  revert pg. induction n as [| n IH]; intros pg Hw.
  - cbn. apply (load_zero (length (nodes pg))). unfold weight in Hw. lia.
  - cbn [repeat run foldl]. apply IH.
    destruct (timers pg) as [| t ts] eqn:E.
    + rewrite step_idle by exact E. unfold weight. rewrite E. cbn. lia.
    + assert (Hne : timers pg <> []) by (rewrite E; discriminate).
      pose proof (weight_fire pg Hne). lia.
Qed.

Lemma timers_settled pg : timers (settled pg) = [].
Proof. apply timers_drain. lia. Qed.

End DrainFacts.

(** ** The waiting calls of the resize handler *)

Section DebounceFacts.

Import CVApp.

Variable X : list (nat * TimerCallback).

Local Abbreviation P pg := (pendingResizes pg = X).

Lemma resizes_timers pg pg' : timers pg' = timers pg -> P pg -> P pg'.
Proof. unfold pendingResizes. intros ->. auto. Qed.

Lemma resizes_quiet pg pg' : quiet pg pg' -> P pg -> P pg'.
Proof. intros [_ H]. apply resizes_timers, H. Qed.

Lemma resizes_updNode h f pg : P pg -> P (updNode h f pg).
Proof. apply resizes_timers. reflexivity. Qed.

Lemma resizes_setTimeout cb d pg : cb <> resizeSettled -> P pg -> P (setTimeout cb d pg).
Proof.
  intros Hcb H. unfold pendingResizes in *. cbn. rewrite filter_app.
  rewrite (filter_cons_False _ _ []).
  - rewrite filter_nil, app_nil_r. exact H.
  - cbn. destruct cb; try discriminate. contradiction.
Qed.

Lemma resizes_showSection i pg : P pg -> P (showSection i pg).
Proof. unfold pendingResizes. rewrite resize_showSection. auto. Qed.

Lemma resizes_andThen (m1 m2 : Run Page) pg :
  P (m1 pg).2 -> (forall pg', P pg' -> P (m2 pg').2) -> P ((m1 >> m2) pg).2.
Proof.
  intros H1 H2. unfold andThen. destruct (m1 pg) as [[u | e] pg1]; cbn in *; auto.
Qed.

Lemma resizes_updateActiveNavLink link pg : P pg -> P (updateActiveNavLink link pg).2.
Proof.
  intros H. unfold updateActiveNavLink. apply resizes_andThen.
  - unfold pure. cbn [snd]. apply forEach_invariant; [| exact H].
    intros i l pg' H'. apply resizes_updNode, H'.
  - intros pg' H'. destruct link; [apply resizes_updNode, H' | exact H'].
Qed.

Lemma resizes_closeMobileMenu pg : P pg -> P (closeMobileMenu pg).2.
Proof. apply resizes_quiet, quiet_closeMobileMenu. Qed.

Lemma resizes_openMobileMenu pg : P pg -> P (openMobileMenu pg).2.
Proof.
  intros H. unfold openMobileMenu. destruct (navMenu (elements pg)); [| exact H].
  cbv zeta. destruct (menuToggle _); cbn [snd]; [| apply resizes_updNode, H].
  apply forEach_invariant.
  - intros i l pg' H'. apply resizes_setTimeout; [discriminate | exact H'].
  - apply (resizes_timers pg); [reflexivity | exact H].
Qed.

Lemma resizes_toggleMobileMenu pg : P pg -> P (toggleMobileMenu pg).2.
Proof.
  intros H. unfold toggleMobileMenu. cbv zeta.
  destruct (isMenuOpen _);
    [apply resizes_openMobileMenu | apply resizes_closeMobileMenu];
    (apply (resizes_timers pg); [reflexivity | exact H]).
Qed.

Lemma resizes_handleOutsideClick target pg : P pg -> P (handleOutsideClick target pg).2.
Proof.
  intros H. unfold handleOutsideClick.
  destruct (negb _); [exact H |].
  destruct (navMenu _); [| exact H].
  destruct (containsNode _ _ _); [exact H |].
  destruct (menuToggle _); [| exact H].
  destruct (containsNode _ _ _); [exact H |].
  apply resizes_closeMobileMenu, H.
Qed.

Lemma resizes_handleNavigation target pg : P pg -> P (handleNavigation target pg).2.
Proof.
  intros H. unfold handleNavigation.
  destruct (_ ≫= _); [| exact H]. cbv zeta.
  destruct (_ && _); [| exact H].
  apply resizes_andThen; [| intros pg1 H1; apply resizes_andThen].
  - unfold pure. cbn [snd]. apply resizes_showSection, H.
  - apply resizes_updateActiveNavLink, H1.
  - intros pg' H'. apply resizes_closeMobileMenu, H'.
Qed.

Lemma resizes_handleKeyNavigation key altKey pg :
  P pg -> P (handleKeyNavigation key altKey pg).2.
Proof.
  intros H. unfold handleKeyNavigation. apply resizes_andThen.
  - destruct (_ && _); [apply resizes_closeMobileMenu |]; exact H.
  - clear pg H. intros pg H. destruct (negb altKey); [exact H |]. cbv zeta.
    assert (Hgo : forall k,
      P (match sections (elements pg) !! k with
         | Some sec =>
             (pure (showSection (sectionId (nodes pg) sec)) >>
              updateActiveNavLink (navLinks (elements pg) !! k)) pg
         | None =>
             (Throw (TypeError "Cannot read properties of undefined (reading 'id')"), pg)
         end).2).
    { intros k. destruct (_ !! k); [| exact H].
      apply resizes_andThen.
      - unfold pure. cbn [snd]. apply resizes_showSection, H.
      - intros pg' H'. apply resizes_updateActiveNavLink, H'. }
    destruct (_ && _); [apply Hgo |].
    destruct (_ && _); [apply Hgo | exact H].
Qed.

Lemma resizes_loadHash hash pg : P pg -> P (loadHash hash pg).2.
Proof.
  intros H. unfold loadHash. destruct (_ && _); [| exact H]. cbv zeta.
  destruct (linkTo _ _); [| apply resizes_showSection, H].
  apply resizes_updateActiveNavLink, resizes_showSection, H.
Qed.

Lemma resizes_click target pg : P pg -> P (click target pg).
Proof.
  intros H. unfold click. cbv zeta.
  set (pg1 := foldl _ pg _).
  assert (H1 : P pg1).
  { subst pg1. apply (foldl_invariant (fun pg' => P pg')); [| exact H].
    intros pg' link H'. destruct (containsNode _ _ _); [| exact H'].
    apply resizes_handleNavigation, H'. }
  apply resizes_handleOutsideClick.
  destruct (menuToggle _); [| exact H1].
  destruct (containsNode _ _ _); [| exact H1].
  apply resizes_toggleMobileMenu, H1.
Qed.

Lemma resizes_animateElement by_ e pg : P pg -> P (animateElement by_ e pg).
Proof.
  intros H. unfold animateElement. cbv zeta.
  set (pg1 := set_animationLog _ _).
  assert (H1 : P pg1) by (apply (resizes_timers pg); [reflexivity | exact H]).
  destruct (querySelectorAllIn _ _ _); [exact H1 |].
  apply resizes_setTimeout; [discriminate | exact H1].
Qed.

Lemma resizes_animateSkillBars bars pg : P pg -> P (animateSkillBars bars pg).
Proof.
  intros H. unfold animateSkillBars. apply forEach_invariant; [| exact H].
  intros i bar pg' H'. destruct (_ ≫= _); [| exact H'].
  case_bool_decide; [exact H' |].
  apply resizes_setTimeout; [discriminate | exact H'].
Qed.

Lemma resizes_observeEntry target isIntersecting pg :
  P pg -> P (observeEntry target isIntersecting pg).
Proof.
  intros H. unfold observeEntry. destruct (_ && _); [| exact H]. cbv zeta.
  apply (resizes_timers (animateElement byObserver target pg)); [reflexivity |].
  apply resizes_animateElement, H.
Qed.

Lemma resizes_runTimer cb pg : P pg -> P (runTimer cb pg).2.
Proof.
  intros H. destruct cb; cbn [runTimer pure snd].
  - apply resizes_animateElement, H.
  - apply resizes_animateSkillBars, H.
  - apply resizes_updNode, H.
  - apply resizes_updNode, resizes_updNode, H.
  - apply (resizes_quiet pg); [apply quiet_handleResize | exact H].
  - destruct (loadingSpinner (elements pg)); cbn [snd];
      [apply resizes_updNode, H | exact H].
Qed.

End DebounceFacts.

Section DebounceRun.

Import CVApp.

Lemma filter_sublist {A} (Q : A -> Prop) `{!forall x, Decision (Q x)}
    (l1 l2 : list A) :
  l1 `sublist_of` l2 -> filter Q l1 `sublist_of` filter Q l2.
Proof.
  induction 1 as [| x l1 l2 _ IH | x l1 l2 _ IH]; [constructor | |].
  - rewrite !filter_cons. destruct (decide (Q x)); [constructor |]; exact IH.
  - rewrite filter_cons. destruct (decide (Q x)); [constructor |]; exact IH.
Qed.

Lemma pendingResizes_constructor ns width hash :
  pendingResizes (constructor (loaded ns width hash)) = [].
Proof.
  unfold constructor.
  set (pgc := set_state _ _).
  assert (H0 : pendingResizes (showLoadingSpinner pgc) = []).
  { unfold showLoadingSpinner. destruct (loadingSpinner (elements pgc)); reflexivity. }
  set (pg0 := showLoadingSpinner pgc) in *.
  destruct (initializeComponents_keeps pg0) as [_ Ht]. cbv zeta in Ht.
  assert (H1 : pendingResizes (initializeComponents pg0) = []).
  { unfold pendingResizes. rewrite Ht.
    apply (resizes_showSection [] _ pg0). exact H0. }
  unfold hideLoadingSpinner.
  destruct (loadingSpinner (elements (initializeComponents pg0))); [| exact H1].
  apply resizes_setTimeout; [discriminate | exact H1].
Qed.

Lemma pendingResizes_debounced pg :
  pendingResizes (debouncedResize pg) = [(now pg + 250, resizeSettled)].
Proof.
  unfold pendingResizes, debouncedResize. cbn. rewrite filter_app.
  assert (E : filter (fun t => isResizeSettled t = true)
                (filter (fun t => isResizeSettled t = false) (timers pg)) = []).
  { apply elem_of_nil_inv. intros t Ht.
    apply list_elem_of_filter in Ht as [Ht1 Ht2].
    apply list_elem_of_filter in Ht2 as [Ht2 _]. congruence. }
  rewrite E. reflexivity.
Qed.

Lemma pendingResizes_step ev pg :
  length (pendingResizes pg) <= 1 -> length (pendingResizes (step ev pg)) <= 1.
Proof.
  intros H.
  assert (Hkeep : forall pg', pendingResizes pg' = pendingResizes pg ->
                              length (pendingResizes pg') <= 1).
  { intros pg' ->. exact H. }
  destruct ev; cbn [step].
  - apply Hkeep, resizes_click. reflexivity.
  - apply Hkeep, resizes_loadHash. reflexivity.
  - apply Hkeep, resizes_handleKeyNavigation. reflexivity.
  - rewrite pendingResizes_debounced. cbn. lia.
  - case_bool_decide; [| exact H]. apply Hkeep, resizes_observeEntry. reflexivity.
  - destruct (nextTimer (timers pg)) as [[k [due cb]] |]; [| exact H].
    set (pg1 := set_now _ _).
    rewrite (resizes_runTimer (pendingResizes pg1) cb pg1 eq_refl).
    etransitivity; [| exact H]. apply sublist_length.
    unfold pendingResizes. cbn. apply filter_sublist, sublist_delete.
Qed.

Lemma pendingResizes_reached ns width hash evs :
  length (pendingResizes (run evs (domContentLoaded (loaded ns width hash)).2)) <= 1.
Proof.
  assert (H0 : length (pendingResizes (domContentLoaded (loaded ns width hash)).2) <= 1).
  { unfold domContentLoaded.
    rewrite (resizes_andThen [] (pure constructor) _ (loaded ns width hash)).
    - cbn. lia.
    - unfold pure. cbn [snd]. apply pendingResizes_constructor.
    - intros pg' H'. apply resizes_loadHash, H'. }
  revert H0. generalize (domContentLoaded (loaded ns width hash)).2.
  induction evs as [| ev evs IH]; intros pg H; [exact H |].
  cbn. apply IH, pendingResizes_step, H.
Qed.

End DebounceRun.

(** ** Reveals, skill bars and resizes *)

Lemma Sound_settled ns width hash evs :
  CVApp.wellFormed ns -> CVApp.plainSpinner ns ->
  CVApp.Sound ns
    (CVApp.settled
       (CVApp.run evs (CVApp.domContentLoaded (CVApp.loaded ns width hash)).2)).
Proof.
  intros HW HP. unfold CVApp.settled. apply Sound_run; [exact HP |].
  apply Sound_reached; assumption.
Qed.

Lemma plainSpinner_skills : CVApp.plainSpinner Demo.skills.
Proof. intros spinner H. vm_compute in H. discriminate. Qed.

Lemma wellFormed_skills : CVApp.wellFormed Demo.skills.
Proof.
  split; [vm_compute; lia |].
  repeat (apply Forall_cons_2;
          [intros H; vm_compute in H; try discriminate; repeat split;
           reflexivity |]).
  apply Forall_nil_2.
Qed.

(** X21. Once the pending timers have run, every animatable element of
    the section on display carries a reveal animation class. Take
    well-formed markup (at most one section marked active, no section
    that is also a nav link, the nav menu or a link) whose spinner, if
    any, is not a section: whatever clicks, hash changes, key presses,
    resizes, observer entries and timers came after start-up, the timers
    run out, and none of the elements [animateSection] scheduled is left
    without its class. *)
Theorem reveal_completes
    (ns : list CVApp.Node) (width : nat) (hash : string)
    (evs : list CVApp.Event) :
  CVApp.wellFormed ns ->
  CVApp.plainSpinner ns ->
  let pg :=
    CVApp.settled
      (CVApp.run evs (CVApp.domContentLoaded (CVApp.loaded ns width hash)).2) in
  CVApp.timers pg = [] /\
  forall sec e,
    sec ∈ CVApp.activeSections pg ->
    e ∈ CVApp.querySelectorAllIn (CVApp.nodes pg) sec CVApp.animatable ->
    CVApp.animated pg e = true.
Proof.
  intros HW HP pg.
  pose proof (Sound_settled ns width hash evs HW HP) as [_ HM [R1 _ _]].
  fold pg in HM, R1.
  assert (Ht : CVApp.timers pg = []) by apply timers_settled.
  split; [exact Ht |]. intros sec e Hs He.
  rewrite (querySelectorAllIn_markup ns pg sec _ HM animatable_markup) in He.
  destruct (R1 e) as [H | [due H]]; [exists sec; auto | exact H |].
  rewrite Ht in H. inversion H.
Qed.

Lemma reveal_completes_witness :
  CVApp.wellFormed Demo.markup /\
  CVApp.animated
    (CVApp.settled
       (CVApp.run [CVApp.Click 2]
          (CVApp.domContentLoaded (CVApp.loaded Demo.markup 1200 EmptyString)).2))
    8 = true.
Proof.
  split; [exact wellFormed_markup |].
  assert (Hs : 6 ∈ CVApp.activeSections
                 (CVApp.settled
                    (CVApp.run [CVApp.Click 2]
                       (CVApp.domContentLoaded
                          (CVApp.loaded Demo.markup 1200 EmptyString)).2)))
    by (vm_compute; left).
  assert (He : 8 ∈ CVApp.querySelectorAllIn
                 (CVApp.nodes
                    (CVApp.settled
                       (CVApp.run [CVApp.Click 2]
                          (CVApp.domContentLoaded
                             (CVApp.loaded Demo.markup 1200 EmptyString)).2)))
                 6 CVApp.animatable)
    by (vm_compute; right; left).
  exact (proj2 (reveal_completes Demo.markup 1200 EmptyString [CVApp.Click 2]
                  wellFormed_markup plainSpinner_markup) 6 8 Hs He).
Defined.

(** X22. Once the pending timers have run, every skill bar inside an
    animatable element of the section on display is as wide as its
    [data-width] says. Take well-formed markup (at most one section
    marked active, no section that is also a nav link, the nav menu or a
    link) whose spinner, if any, is not a section: the width
    [initializeSkillBars] set to zero has been replaced by the
    attribute's value followed by a percent sign, for each bar whose
    attribute is a whole number written in digits only, without leading
    zero and of at most six digits, the values the style object keeps as
    written. *)
Theorem skill_bars_reach_their_width
    (ns : list CVApp.Node) (width : nat) (hash : string)
    (evs : list CVApp.Event) :
  CVApp.wellFormed ns ->
  CVApp.plainSpinner ns ->
  let pg :=
    CVApp.settled
      (CVApp.run evs (CVApp.domContentLoaded (CVApp.loaded ns width hash)).2) in
  forall sec e bar W,
    sec ∈ CVApp.activeSections pg ->
    e ∈ CVApp.querySelectorAllIn (CVApp.nodes pg) sec CVApp.animatable ->
    bar ∈ CVApp.querySelectorAllIn (CVApp.nodes pg) e
            (CVApp.hasClass "skill-progress") ->
    CVApp.dataWidth (CVApp.nodes pg) bar = Some W ->
    CVApp.wholeNumber W = true ->
    CVApp.barWidth pg bar = Some (W +:+ "%").
Proof.
  intros HW HP pg sec e bar W Hs He Hb HW' Hne.
  pose proof (Sound_settled ns width hash evs HW HP) as [_ HM [_ R2 _]].
  fold pg in HM, R2.
  assert (Ht : CVApp.timers pg = []) by apply timers_settled.
  rewrite (querySelectorAllIn_markup ns pg sec _ HM animatable_markup) in He.
  rewrite (querySelectorAllIn_markup ns pg e _ HM skillProgress_markup) in Hb.
  rewrite (Markup_dataWidth ns pg bar HM) in HW'.
  assert (Hnone : forall cb, ~ CVApp.pending cb pg).
  { intros cb [due H]. rewrite Ht in H. inversion H. }
  destruct (R2 e bar W) as [H | [H | [(bars & _ & H) | H]]];
    try assumption; try (exists sec; auto); exfalso; exact (Hnone _ H).
Qed.

Lemma skill_bars_reach_their_width_witness :
  CVApp.wellFormed Demo.skills /\
  CVApp.barWidth
    (CVApp.settled
       (CVApp.run []
          (CVApp.domContentLoaded (CVApp.loaded Demo.skills 1200 EmptyString)).2))
    2 = Some ("85" +:+ "%").
Proof.
  split; [exact wellFormed_skills |].
  assert (Hs : 0 ∈ CVApp.activeSections
                 (CVApp.settled
                    (CVApp.run []
                       (CVApp.domContentLoaded
                          (CVApp.loaded Demo.skills 1200 EmptyString)).2)))
    by (vm_compute; left).
  assert (He : 1 ∈ CVApp.querySelectorAllIn
                 (CVApp.nodes
                    (CVApp.settled
                       (CVApp.run []
                          (CVApp.domContentLoaded
                             (CVApp.loaded Demo.skills 1200 EmptyString)).2)))
                 0 CVApp.animatable)
    by (vm_compute; left).
  assert (Hb : 2 ∈ CVApp.querySelectorAllIn
                 (CVApp.nodes
                    (CVApp.settled
                       (CVApp.run []
                          (CVApp.domContentLoaded
                             (CVApp.loaded Demo.skills 1200 EmptyString)).2)))
                 1 (CVApp.hasClass "skill-progress"))
    by (vm_compute; left).
  assert (Hw : CVApp.dataWidth
                 (CVApp.nodes
                    (CVApp.settled
                       (CVApp.run []
                          (CVApp.domContentLoaded
                             (CVApp.loaded Demo.skills 1200 EmptyString)).2)))
                 2 = Some "85")
    by (vm_compute; reflexivity).
  assert (Hne : CVApp.wholeNumber "85" = true) by (vm_compute; reflexivity).
  exact (skill_bars_reach_their_width Demo.skills 1200 EmptyString []
           wellFormed_skills plainSpinner_skills 0 1 2 "85" Hs He Hb Hw Hne).
Defined.

(** X23. Resize events are debounced: on every page the script reaches,
    at most one call of [handleResize] is waiting, and a resize event
    leaves exactly one, due 250 ms after it, whatever was waiting before:
    a burst of resize events runs the handler once. *)
Theorem resize_calls_are_debounced
    (ns : list CVApp.Node) (width : nat) (hash : string)
    (evs : list CVApp.Event) :
  let pg := CVApp.run evs (CVApp.domContentLoaded (CVApp.loaded ns width hash)).2 in
  length (CVApp.pendingResizes pg) <= 1 /\
  forall w,
    CVApp.pendingResizes (CVApp.step (CVApp.Resize w) pg)
    = [(CVApp.now pg + 250, CVApp.resizeSettled)].
Proof.
  intros pg. split; [apply pendingResizes_reached |].
  intros w. cbn [CVApp.step]. rewrite pendingResizes_debounced. reflexivity.
Qed.

(** * The mobile menu *)

Section MenuFacts.

Import CVApp.

Variable ns : list Node.
Variables menu toggle : nat.
Variable m : Node.
Hypothesis Hmenu : navMenu (queryElements ns) = Some menu.
Hypothesis Htoggle : menuToggle (queryElements ns) = Some toggle.
Hypothesis Hm : ns !! menu = Some m.
Hypothesis Hplain : plainMenu m.

Ltac markup_of lem :=
  first [ apply (lem (Markup ns) (Markup_fields ns) (Markup_updNode ns))
        | apply (lem (Markup ns) (Markup_updNode ns))
        | apply (lem (Markup ns) (Markup_fields ns)) ].

(** ** The menu element on every page *)

Lemma menu_not_section pg :
  Markup ns pg -> nodeHasClass (nodes pg) menu "section" = false.
Proof.
  intros HM. rewrite (Markup_class ns pg menu "section" HM) by static_class.
  unfold nodeHasClass. rewrite Hm. apply Hplain.
Qed.

Lemma menu_not_link pg :
  Markup ns pg -> menu ∉ navLinks (elements pg).
Proof.
  intros HM Hin. destruct (navLink_markup ns pg menu HM Hin) as (n & Hn & Hc).
  assert (n = m) as -> by congruence.
  destruct Hplain as (_ & _ & H & _). congruence.
Qed.

Lemma menu_without_href pg n :
  Markup ns pg -> nodes pg !! menu = Some n -> attributes n !! "href" = None.
Proof.
  intros HM Hn. pose proof (Markup_href ns pg menu HM) as H.
  rewrite Hn, Hm in H. cbn in H. rewrite H. apply Hplain.
Qed.

Lemma menu_without_id pg i :
  Markup ns pg -> getElementById (nodes pg) i <> Some menu.
Proof.
  intros HM H. rewrite (Markup_getElementById ns pg i HM) in H.
  apply getElementById_Some in H as (n & Hn & Hid & Hi).
  assert (n = m) as -> by congruence.
  destruct Hplain as (H0 & _). congruence.
Qed.

Lemma spinner_not_menu pg spinner :
  Markup ns pg -> loadingSpinner (elements pg) = Some spinner -> spinner <> menu.
Proof.
  intros HM Hs ->. apply (menu_without_id pg "loadingSpinner" HM).
  rewrite (Markup_getElementById ns pg _ HM).
  destruct HM as [_ He]. rewrite He in Hs. exact Hs.
Qed.

Lemma menu_node pg : Markup ns pg -> is_Some (nodes pg !! menu).
Proof.
  intros HM. destruct (Markup_lookup ns pg menu m HM Hm) as (n' & Hn' & _). eauto.
Qed.

Lemma menu_cached pg :
  Markup ns pg ->
  navMenu (elements pg) = Some menu /\ menuToggle (elements pg) = Some toggle.
Proof. intros [_ He]. rewrite He. split; assumption. Qed.

(** ** Steps that leave the menu alone *)

Lemma MenuKept_refl pg : MenuKept menu pg pg.
Proof. split; reflexivity. Qed.

Lemma MenuKept_trans pg1 pg2 pg3 :
  MenuKept menu pg1 pg2 -> MenuKept menu pg2 pg3 -> MenuKept menu pg1 pg3.
Proof. intros [A1 A2 A3] [B1 B2 B3]. split; congruence. Qed.

Lemma MenuKept_updNode h f pg :
  (h = menu -> forall n, hasClass "active" (f n) = hasClass "active" n) ->
  MenuKept menu pg (updNode h f pg).
Proof.
  intros Hf. split; try reflexivity.
  rewrite nodeHasClass_updNode. destruct (decide (h = menu)) as [E | _]; [| reflexivity].
  unfold nodeHasClass. destruct (nodes pg !! menu); cbn; [apply Hf, E | reflexivity].
Qed.

Lemma MenuKept_forEach {A} (f : nat -> A -> Page -> Page) l pg :
  (forall i a pg', MenuKept menu pg' (f i a pg')) ->
  MenuKept menu pg (forEach f l pg).
Proof.
  intros Hf. apply (forEach_invariant (MenuKept menu pg)); [| apply MenuKept_refl].
  intros i a pg' H. exact (MenuKept_trans _ _ _ H (Hf i a pg')).
Qed.

Lemma MenuAgrees_kept pg pg' :
  MenuAgrees menu pg -> MenuKept menu pg pg' -> MenuAgrees menu pg'.
Proof.
  intros [A1 A2] [K1 K2 K3]. split; [congruence |]. rewrite K2, K3. exact A2.
Qed.

Lemma MenuKept_showSection i pg :
  Markup ns pg -> MenuKept menu pg (showSection i pg).
Proof.
  intros HM. split.
  - apply class_showSection; [apply menu_not_section, HM | apply menu_without_id, HM].
  - destruct (getElementById (nodes pg) i) as [target |] eqn:E.
    + apply (showSection_fields i pg target E).
    + rewrite (showSection_unknown i pg E).
      destruct (activeSection (nodes pg)); reflexivity.
  - destruct (getElementById (nodes pg) i) as [target |] eqn:E.
    + apply (showSection_fields i pg target E).
    + rewrite (showSection_unknown i pg E).
      destruct (activeSection (nodes pg)); reflexivity.
Qed.

Lemma MenuKept_cleared pg : Markup ns pg -> MenuKept menu pg (cleared pg).
Proof.
  intros HM. split.
  - rewrite active_cleared.
    rewrite bool_decide_eq_false_2; [reflexivity | apply menu_not_link, HM].
  - rewrite cleared_only_nodes. reflexivity.
  - rewrite cleared_only_nodes. reflexivity.
Qed.

Lemma MenuKept_updateActiveNavLink link pg :
  Markup ns pg -> link <> Some menu ->
  MenuKept menu pg (updateActiveNavLink link pg).2.
Proof.
  intros HM Hl. destruct link as [l |].
  - rewrite updateActiveNavLink_Some. cbn [snd].
    apply (MenuKept_trans _ (cleared pg)); [apply MenuKept_cleared, HM |].
    apply MenuKept_updNode. intros ->. congruence.
  - rewrite updateActiveNavLink_None. cbn [snd]. apply MenuKept_cleared, HM.
Qed.

Lemma MenuKept_animateElement by_ e pg : MenuKept menu pg (animateElement by_ e pg).
Proof.
  unfold animateElement. cbv zeta.
  set (pg1 := set_animationLog _ _).
  assert (H1 : MenuKept menu pg pg1).
  { subst pg1.
    apply (MenuKept_trans _ (updNode e (addClass (getAnimationClass (nodes pg) e)) pg));
      [| split; reflexivity].
    apply MenuKept_updNode. intros _ n. apply hasClass_addClass_ne.
    intros Ha. pose proof (getAnimationClass_cases (nodes pg) e) as Hc.
    rewrite <- Ha in Hc.
    repeat (apply elem_of_cons in Hc as [Hc | Hc]; [discriminate |]).
    inversion Hc. }
  destruct (querySelectorAllIn _ _ _); [exact H1 |].
  apply (MenuKept_trans _ pg1 _ H1). split; reflexivity.
Qed.

Lemma MenuKept_animateSkillBars bars pg : MenuKept menu pg (animateSkillBars bars pg).
Proof.
  unfold animateSkillBars. apply MenuKept_forEach. intros i bar pg'.
  destruct (_ ≫= _); [| apply MenuKept_refl].
  case_bool_decide; [apply MenuKept_refl | split; reflexivity].
Qed.

Lemma MenuKept_observeEntry target isIntersecting pg :
  MenuKept menu pg (observeEntry target isIntersecting pg).
Proof.
  unfold observeEntry. destruct (_ && _); [| apply MenuKept_refl]. cbv zeta.
  apply (MenuKept_trans _ (animateElement byObserver target pg));
    [apply MenuKept_animateElement | split; reflexivity].
Qed.

Lemma MenuKept_recalculateAnimations pg :
  MenuKept menu pg (recalculateAnimations pg).
Proof.
  unfold recalculateAnimations. cbv zeta.
  set (pg1 := set_state _ pg).
  assert (H1 : MenuKept menu pg pg1) by (split; reflexivity).
  destruct (_ <=? _); [| exact H1].
  apply (MenuKept_trans _ pg1 _ H1). unfold adjustMobileAnimations.
  apply MenuKept_forEach. intros i item pg'. apply MenuKept_updNode. intros _ n.
  rewrite hasClass_addClass_ne, !hasClass_removeClass_ne by discriminate.
  reflexivity.
Qed.

(** ** Opening and closing *)

Lemma MenuAgrees_closeMobileMenu pg :
  Markup ns pg -> MenuAgrees menu (closeMobileMenu pg).2.
Proof.
  intros HM. destruct (menu_cached pg HM) as [E1 E2].
  split.
  - rewrite closeMobileMenu_class.
    rewrite bool_decide_eq_true_2 by (split; [exact E1 | reflexivity]).
    pose proof (closeMobileMenu_cases pg) as E. rewrite E1, E2 in E.
    rewrite E. reflexivity.
  - pose proof (closeMobileMenu_cases pg) as E. rewrite E1, E2 in E.
    rewrite E. reflexivity.
Qed.

Lemma MenuAgrees_openMobileMenu pg :
  Markup ns pg -> isMenuOpen (state pg) = true ->
  MenuAgrees menu (openMobileMenu pg).2.
Proof.
  intros HM Hopen. destruct (menu_cached pg HM) as [E1 E2].
  unfold openMobileMenu. rewrite E1. cbv zeta.
  change (elements (updNode menu (addClass "active") pg)) with (elements pg).
  rewrite E2. cbn [snd].
  set (pg3 := set_bodyOverflow "hidden" _).
  assert (Ho : isMenuOpen (state pg3) = true) by exact Hopen.
  assert (H3 : MenuAgrees menu pg3).
  { split; rewrite Ho; [| reflexivity].
    assert (Hc : nodeHasClass (nodes (updNode menu (addClass "active") pg)) menu
                   "active" = true).
    { rewrite nodeHasClass_updNode, decide_True by reflexivity.
      destruct (menu_node pg HM) as [n ->]. cbn.
      unfold hasClass, addClass. cbn. apply contains_classAdd. }
    subst pg3. cbn [nodes set_bodyOverflow].
    rewrite nodeHasClass_updNode.
    destruct (decide (toggle = menu)) as [-> | _]; [| exact Hc].
    unfold nodeHasClass in Hc.
    destruct (nodes (updNode menu (addClass "active") pg) !! menu); exact Hc. }
  apply (MenuAgrees_kept pg3); [exact H3 |].
  apply MenuKept_forEach. intros i link pg'. split; reflexivity.
Qed.

Lemma MenuAgrees_toggleMobileMenu pg :
  Markup ns pg -> MenuAgrees menu (toggleMobileMenu pg).2.
Proof.
  intros HM. unfold toggleMobileMenu. cbv zeta.
  set (pg1 := set_state _ pg).
  assert (HM1 : Markup ns pg1)
    by (apply (Markup_fields ns pg); [reflexivity | reflexivity | exact HM]).
  destruct (isMenuOpen (state pg1)) eqn:E.
  - apply MenuAgrees_openMobileMenu; assumption.
  - apply MenuAgrees_closeMobileMenu, HM1.
Qed.

Lemma MenuAgrees_handleOutsideClick target pg :
  Markup ns pg -> MenuAgrees menu pg ->
  MenuAgrees menu (handleOutsideClick target pg).2.
Proof.
  intros HM HA. unfold handleOutsideClick.
  destruct (negb _); [exact HA |].
  destruct (navMenu (elements pg)); [| exact HA].
  destruct (containsNode _ _ _); [exact HA |].
  destruct (menuToggle (elements pg)); [| exact HA].
  destruct (containsNode _ _ _); [exact HA |].
  apply MenuAgrees_closeMobileMenu, HM.
Qed.

Lemma MenuAgrees_handleNavigation target pg :
  Markup ns pg -> MenuAgrees menu pg ->
  MenuAgrees menu (handleNavigation target pg).2.
Proof.
  intros HM HA. unfold handleNavigation.
  destruct (_ ≫= _); [| exact HA]. cbv zeta.
  destruct (_ && _); [| exact HA].
  unfold andThen, pure. rewrite updateActiveNavLink_Some.
  apply MenuAgrees_closeMobileMenu.
  apply Markup_updNode; [apply cosmetic_addClass; dynamic_class |].
  apply Markup_cleared.
  markup_of I_showSection. exact HM.
Qed.

Lemma MenuAgrees_handleKeyNavigation key altKey pg :
  Markup ns pg -> MenuAgrees menu pg ->
  MenuAgrees menu (handleKeyNavigation key altKey pg).2.
Proof.
  intros HM HA. unfold handleKeyNavigation.
  set (first := fun pg : Page =>
         if bool_decide (key = "Escape") && isMenuOpen (state pg)
         then closeMobileMenu pg else (Normal tt, pg)).
  assert (H1 : Markup ns (first pg).2 /\ MenuAgrees menu (first pg).2).
  { subst first. cbn beta. destruct (_ && _).
    - split; [markup_of I_closeMobileMenu; exact HM |
              apply MenuAgrees_closeMobileMenu, HM].
    - split; assumption. }
  unfold andThen. destruct (first pg) as [[u | e] pg1]; cbn [snd] in *;
    [| apply H1].
  destruct H1 as [HM1 HA1]. clear first.
  destruct (negb altKey); [exact HA1 |]. cbv zeta.
  assert (Hgo : forall k,
    MenuAgrees menu
      (match sections (elements pg1) !! k with
       | Some sec =>
           (pure (showSection (sectionId (nodes pg1) sec)) >>
            updateActiveNavLink (navLinks (elements pg1) !! k)) pg1
       | None =>
           (Throw (TypeError "Cannot read properties of undefined (reading 'id')"), pg1)
       end).2).
  { intros k. destruct (_ !! k) as [sec |]; [| exact HA1].
    unfold andThen, pure.
    set (pg2 := showSection _ pg1).
    assert (HM2 : Markup ns pg2) by (subst pg2; markup_of I_showSection; exact HM1).
    assert (HA2 : MenuAgrees menu pg2)
      by (apply (MenuAgrees_kept pg1); [exact HA1 | apply MenuKept_showSection, HM1]).
    apply (MenuAgrees_kept pg2); [exact HA2 |].
    apply MenuKept_updateActiveNavLink; [exact HM2 |].
    intros Hk. apply list_elem_of_lookup_2 in Hk.
    exact (menu_not_link pg1 HM1 Hk). }
  destruct (_ && _); [apply Hgo |].
  destruct (_ && _); [apply Hgo | exact HA1].
Qed.

Lemma MenuAgrees_loadHash hash pg :
  Markup ns pg -> MenuAgrees menu pg -> MenuAgrees menu (loadHash hash pg).2.
Proof.
  intros HM HA. unfold loadHash. destruct (_ && _); [| exact HA]. cbv zeta.
  set (pg1 := showSection hash pg).
  assert (HM1 : Markup ns pg1) by (subst pg1; markup_of I_showSection; exact HM).
  assert (HA1 : MenuAgrees menu pg1)
    by (apply (MenuAgrees_kept pg); [exact HA | apply MenuKept_showSection, HM]).
  destruct (linkTo _ _) as [link |] eqn:Hl; [| exact HA1].
  apply (MenuAgrees_kept pg1); [exact HA1 |].
  apply MenuKept_updateActiveNavLink; [exact HM1 |].
  intros [= ->]. destruct (menu_node pg1 HM1) as [n Hn].
  exact (linkTo_href _ _ _ _ Hl Hn (menu_without_href pg1 n HM1 Hn)).
Qed.

Lemma MenuAgrees_click target pg :
  Markup ns pg -> MenuAgrees menu pg -> MenuAgrees menu (click target pg).
Proof.
  intros HM HA. unfold click. cbv zeta.
  set (pg1 := foldl _ pg _).
  assert (H1 : Markup ns pg1 /\ MenuAgrees menu pg1).
  { subst pg1.
    apply (foldl_invariant (fun pg' => Markup ns pg' /\ MenuAgrees menu pg'));
      [| split; assumption].
    intros pg' link [HM' HA']. destruct (containsNode _ _ _); [| split; assumption].
    split; [markup_of I_handleNavigation; exact HM' |
            apply MenuAgrees_handleNavigation; assumption]. }
  destruct H1 as [HM1 HA1].
  set (pg2 := match menuToggle (elements pg1) with Some _ => _ | None => pg1 end).
  assert (H2 : Markup ns pg2 /\ MenuAgrees menu pg2).
  { subst pg2. destruct (menuToggle (elements pg1)); [| split; assumption].
    destruct (containsNode _ _ _); [| split; assumption].
    split; [markup_of I_toggleMobileMenu; exact HM1 |
            apply MenuAgrees_toggleMobileMenu, HM1]. }
  destruct H2 as [HM2 HA2].
  apply MenuAgrees_handleOutsideClick; assumption.
Qed.

Lemma MenuAgrees_handleResize pg :
  Markup ns pg -> MenuAgrees menu pg -> MenuAgrees menu (handleResize pg).2.
Proof.
  intros HM HA. unfold handleResize, andThen.
  set (first := (if (768 <? innerWidth pg) && isMenuOpen (state pg)
                 then closeMobileMenu else pure (fun pg' => pg')) pg).
  assert (H1 : MenuAgrees menu first.2).
  { subst first. destruct (_ && _);
      [apply MenuAgrees_closeMobileMenu, HM | exact HA]. }
  destruct first as [[u | e] pg1]; cbn [snd] in *; [| exact H1].
  unfold pure. cbn [snd].
  apply (MenuAgrees_kept pg1); [exact H1 | apply MenuKept_recalculateAnimations].
Qed.

Lemma MenuAgrees_step ev pg :
  Markup ns pg -> MenuAgrees menu pg -> MenuAgrees menu (step ev pg).
Proof.
  intros HM HA. destruct ev; cbn [step].
  - apply MenuAgrees_click; assumption.
  - apply MenuAgrees_loadHash.
    + apply (Markup_fields ns pg); [reflexivity | reflexivity | exact HM].
    + apply (MenuAgrees_kept pg); [exact HA | split; reflexivity].
  - apply MenuAgrees_handleKeyNavigation; assumption.
  - apply (MenuAgrees_kept pg); [exact HA | split; reflexivity].
  - case_bool_decide; [| exact HA].
    apply (MenuAgrees_kept pg); [exact HA | apply MenuKept_observeEntry].
  - destruct (nextTimer (timers pg)) as [[k [due cb]] |]; [| exact HA].
    set (pg1 := set_now _ _).
    assert (HM1 : Markup ns pg1)
      by (apply (Markup_fields ns pg); [reflexivity | reflexivity | exact HM]).
    assert (HA1 : MenuAgrees menu pg1)
      by (apply (MenuAgrees_kept pg); [exact HA | split; reflexivity]).
    destruct cb; cbn [runTimer pure snd].
    + apply (MenuAgrees_kept pg1); [exact HA1 | apply MenuKept_animateElement].
    + apply (MenuAgrees_kept pg1); [exact HA1 | apply MenuKept_animateSkillBars].
    + apply (MenuAgrees_kept pg1); [exact HA1 |].
      apply MenuKept_updNode. intros _ n. unfold setWidth.
      destruct (wholePercent _); reflexivity.
    + apply (MenuAgrees_kept pg1); [exact HA1 |].
      eapply MenuKept_trans; apply MenuKept_updNode; reflexivity.
    + apply MenuAgrees_handleResize; assumption.
    + destruct (loadingSpinner (elements pg1)) as [spinner |] eqn:Es;
        cbn [snd]; [| exact HA1].
      apply (MenuAgrees_kept pg1); [exact HA1 |].
      apply MenuKept_updNode. intros E.
      destruct (spinner_not_menu pg1 spinner HM1 Es E).
Qed.

Lemma MenuAgrees_constructor width hash :
  MenuAgrees menu (constructor (loaded ns width hash)).
Proof.
  unfold constructor. change (nodes (loaded ns width hash)) with ns.
  set (pgc := set_state _ _).
  assert (HMc : Markup ns pgc) by (split; [apply Forall2_sameMarkup_refl | reflexivity]).
  assert (HAc : MenuAgrees menu pgc).
  { split; [| reflexivity]. subst pgc. cbn. unfold nodeHasClass. rewrite Hm. cbn.
    apply Hplain. }
  assert (HM0 : Markup ns (showLoadingSpinner pgc)).
  { unfold showLoadingSpinner. destruct (loadingSpinner (elements pgc)); [| exact HMc].
    apply Markup_updNode; [| exact HMc]. apply cosmetic_addClass. dynamic_class. }
  assert (HA0 : MenuAgrees menu (showLoadingSpinner pgc)).
  { unfold showLoadingSpinner.
    destruct (loadingSpinner (elements pgc)) as [spinner |] eqn:Es; [| exact HAc].
    apply (MenuAgrees_kept pgc); [exact HAc |].
    apply MenuKept_updNode. intros E.
    destruct (spinner_not_menu pgc spinner HMc Es E). }
  set (pg0 := showLoadingSpinner pgc) in *.
  apply (MenuAgrees_kept (initializeComponents pg0));
    [| unfold hideLoadingSpinner;
       destruct (loadingSpinner (elements (initializeComponents pg0)));
       split; reflexivity].
  apply (MenuAgrees_kept pg0); [exact HA0 |].
  unfold initializeComponents, setupAccessibility. cbv zeta.
  set (pg1 := showSection _ pg0).
  assert (H1 : MenuKept menu pg0 pg1) by apply MenuKept_showSection, HM0.
  apply (MenuKept_trans _ pg1 _ H1).
  set (pg2 := initializeSkillBars (setupIntersectionObserver pg1)).
  assert (H2 : MenuKept menu pg1 pg2).
  { subst pg2. unfold initializeSkillBars.
    apply (MenuKept_trans _ (setupIntersectionObserver pg1)); [split; reflexivity |].
    apply MenuKept_forEach. intros i bar pg'. apply MenuKept_updNode. reflexivity. }
  apply (MenuKept_trans _ pg2 _ H2).
  apply (MenuKept_trans _
           (forEach (fun _ link pg' => updNode link (setAttribute "tabindex" "0") pg')
              (navLinks (elements pg2)) pg2)); [| split; reflexivity].
  apply MenuKept_forEach. intros i link pg'. apply MenuKept_updNode. reflexivity.
Qed.

Lemma MenuAgrees_reached width hash evs :
  MenuAgrees menu (run evs (domContentLoaded (loaded ns width hash)).2).
Proof.
  assert (H0 : Markup ns (domContentLoaded (loaded ns width hash)).2 /\
               MenuAgrees menu (domContentLoaded (loaded ns width hash)).2).
  { split; [apply Markup_domContentLoaded |].
    unfold domContentLoaded, andThen, pure. cbn [snd].
    apply MenuAgrees_loadHash;
      [apply Markup_constructor | apply MenuAgrees_constructor]. }
  revert H0. generalize (domContentLoaded (loaded ns width hash)).2.
  induction evs as [| ev evs IH]; intros pg [HM HA]; [exact HA |].
  cbn. apply IH. split.
  - apply (I_step (Markup ns) (Markup_fields ns) (Markup_updNode ns)), HM.
  - apply MenuAgrees_step; assumption.
Qed.

End MenuFacts.

(** X24. The mobile menu is displayed as the state says, and the scroll
    lock follows it. In a document that has the toggle button and whose
    menu element starts closed, has no id and no [href], and is neither a
    nav link nor a section: on every page the script reaches, the menu
    carries the class [active] exactly when [state.isMenuOpen] is set,
    and the body's [overflow] is [hidden] exactly then and empty
    otherwise. *)
Theorem menu_display_follows_state
    (ns : list CVApp.Node) (width : nat) (hash : string)
    (evs : list CVApp.Event) (menu toggle : nat) (m : CVApp.Node) :
  CVApp.navMenu (CVApp.queryElements ns) = Some menu ->
  CVApp.menuToggle (CVApp.queryElements ns) = Some toggle ->
  ns !! menu = Some m ->
  CVApp.plainMenu m ->
  let pg := CVApp.run evs (CVApp.domContentLoaded (CVApp.loaded ns width hash)).2 in
  CVApp.nodeHasClass (CVApp.nodes pg) menu "active"
  = CVApp.isMenuOpen (CVApp.state pg) /\
  CVApp.bodyOverflow pg
  = (if CVApp.isMenuOpen (CVApp.state pg) then "hidden" else EmptyString).
Proof.
  intros Hmenu Htoggle Hm Hplain pg.
  destruct (MenuAgrees_reached ns menu toggle m Hmenu Htoggle Hm Hplain
              width hash evs) as [H1 H2].
  split; [exact H1 | exact H2].
Qed.

Lemma menu_display_follows_state_witness :
  CVApp.navMenu (CVApp.queryElements Demo.markup) = Some 0 /\
  CVApp.menuToggle (CVApp.queryElements Demo.markup) = Some 3 /\
  CVApp.plainMenu (Demo.element "ul" "" ["nav-menu"] None None) /\
  CVApp.bodyOverflow
    (CVApp.run [CVApp.Click 3]
       (CVApp.domContentLoaded (CVApp.loaded Demo.markup 1200 EmptyString)).2)
  = (if CVApp.isMenuOpen
          (CVApp.state
             (CVApp.run [CVApp.Click 3]
                (CVApp.domContentLoaded
                   (CVApp.loaded Demo.markup 1200 EmptyString)).2))
     then "hidden" else EmptyString).
Proof.
  assert (H1 : CVApp.navMenu (CVApp.queryElements Demo.markup) = Some 0)
    by (vm_compute; reflexivity).
  assert (H2 : CVApp.menuToggle (CVApp.queryElements Demo.markup) = Some 3)
    by (vm_compute; reflexivity).
  assert (H3 : Demo.markup !! 0 = Some (Demo.element "ul" "" ["nav-menu"] None None))
    by reflexivity.
  assert (H4 : CVApp.plainMenu (Demo.element "ul" "" ["nav-menu"] None None))
    by (repeat split; vm_compute; reflexivity).
  split; [exact H1 |]. split; [exact H2 |]. split; [exact H4 |].
  exact (proj2 (menu_display_follows_state Demo.markup 1200 EmptyString
                  [CVApp.Click 3] 0 3 _ H1 H2 H3 H4)).
Defined.

(** * The reveal is applied once *)

Section RevealFacts.

Import CVApp.

Variable ns : list Node.

Lemma keepsReveal_addClass c : keepsReveal (addClass c).
Proof.
  intros n c' _ H. unfold hasClass, addClass in *. cbn.
  destruct (decide (c' = c)) as [-> | Hne];
    [apply contains_classAdd | rewrite contains_classAdd_ne by exact Hne; exact H].
Qed.

Lemma keepsReveal_removeClass c : c ∉ animationClasses -> keepsReveal (removeClass c).
Proof.
  intros Hc n c' Hc' H. unfold hasClass, removeClass in *. cbn.
  rewrite contains_classRemove_ne; [exact H |]. intros ->. contradiction.
Qed.

Lemma keepsReveal_classes f :
  (forall n, classList (f n) = classList n) -> keepsReveal f.
Proof. intros Hf n c _ H. unfold hasClass in *. rewrite Hf. exact H. Qed.

Lemma active_not_animation : "active" ∉ animationClasses.
Proof.
  unfold animationClasses. intros H.
  repeat (apply elem_of_cons in H as [H | H]; [discriminate |]). inversion H.
Qed.

Lemma Revealed_same pg pg' :
  nodes pg' = nodes pg -> animationLog pg' = animationLog pg ->
  Revealed ns pg -> Revealed ns pg'.
Proof. intros Hn Hl H by_ h. rewrite Hn, Hl. apply H. Qed.

Lemma Revealed_updNode h f pg :
  keepsReveal f -> Revealed ns pg -> Revealed ns (updNode h f pg).
Proof.
  intros Hf H by_ e He. destruct (H by_ e He) as [Hc | Hlen]; [left | right; exact Hlen].
  rewrite nodeHasClass_updNode. destruct (decide (h = e)) as [-> | _]; [| exact Hc].
  unfold nodeHasClass in Hc. destruct (nodes pg !! e) as [n |]; [| discriminate].
  cbn in *. apply Hf; [apply animation_getAnimationClass | exact Hc].
Qed.

Lemma Revealed_forEach {A} (f : nat -> A -> Page -> Page) l pg :
  (forall i a pg', Revealed ns pg' -> Revealed ns (f i a pg')) ->
  Revealed ns pg -> Revealed ns (forEach f l pg).
Proof. intros Hf. apply (forEach_invariant (Revealed ns)). exact Hf. Qed.

Lemma Revealed_setTimeout cb d pg :
  Revealed ns pg -> Revealed ns (setTimeout cb d pg).
Proof. apply Revealed_same; reflexivity. Qed.

Lemma Revealed_andThen (m1 m2 : Run Page) pg :
  Revealed ns (m1 pg).2 -> (forall pg', Revealed ns pg' -> Revealed ns (m2 pg').2) ->
  Revealed ns ((m1 >> m2) pg).2.
Proof.
  intros H1 H2. unfold andThen. destruct (m1 pg) as [[u | e] pg1]; cbn in *; auto.
Qed.

Lemma Revealed_updateURL i pg : Revealed ns pg -> Revealed ns (updateURL i pg).
Proof.
  apply Revealed_same; unfold updateURL; cbv zeta; destruct (announcer _);
    reflexivity.
Qed.

Ltac restyle :=
  first [ apply keepsReveal_addClass
        | apply keepsReveal_removeClass, active_not_animation
        | apply keepsReveal_classes; intros; reflexivity ].

Lemma Revealed_showSection i pg : Revealed ns pg -> Revealed ns (showSection i pg).
Proof.
  intros H. unfold showSection.
  set (pg1 := match activeSection (nodes pg) with
              | Some current => _ | None => pg end).
  assert (H1 : Revealed ns pg1)
    by (subst pg1; destruct (activeSection (nodes pg));
        [apply Revealed_updNode; [restyle |] |]; exact H).
  destruct (getElementById (nodes pg1) i) as [target |]; [| exact H1].
  apply Revealed_updateURL. unfold animateSection. apply Revealed_forEach.
  { intros i0 a pg' H'. apply Revealed_setTimeout, H'. }
  apply (Revealed_same (updNode target (addClass "active") pg1));
    [reflexivity | reflexivity |].
  apply Revealed_updNode; [restyle | exact H1].
Qed.

Lemma Revealed_updateActiveNavLink link pg :
  Revealed ns pg -> Revealed ns (updateActiveNavLink link pg).2.
Proof.
  intros H. unfold updateActiveNavLink. apply Revealed_andThen.
  - unfold pure. cbn [snd]. apply Revealed_forEach; [| exact H].
    intros i l pg' H'. apply Revealed_updNode; [restyle | exact H'].
  - intros pg' H'. destruct link; [| exact H'].
    unfold pure. cbn [snd]. apply Revealed_updNode; [restyle | exact H'].
Qed.

Lemma Revealed_closeMobileMenu pg :
  Revealed ns pg -> Revealed ns (closeMobileMenu pg).2.
Proof.
  intros H. unfold closeMobileMenu.
  destruct (navMenu (elements pg)); [| exact H].
  cbn [elements updNode set_nodes].
  destruct (menuToggle (elements pg)); cbn [snd].
  - apply (Revealed_same (updNode n0 (setInnerHTML (icon "fa-bars"))
                            (updNode n (removeClass "active") pg)));
      [reflexivity | reflexivity |].
    apply Revealed_updNode; [restyle |].
    apply Revealed_updNode; [restyle | exact H].
  - apply Revealed_updNode; [restyle | exact H].
Qed.

Lemma Revealed_openMobileMenu pg :
  Revealed ns pg -> Revealed ns (openMobileMenu pg).2.
Proof.
  intros H. unfold openMobileMenu.
  destruct (navMenu (elements pg)); [| exact H].
  cbn [elements updNode set_nodes].
  destruct (menuToggle (elements pg)); cbn [snd].
  - apply Revealed_forEach.
    + intros i a pg' H'. apply Revealed_setTimeout, H'.
    + apply (Revealed_same (updNode n0 (setInnerHTML (icon "fa-times"))
                              (updNode n (addClass "active") pg)));
        [reflexivity | reflexivity |].
      apply Revealed_updNode; [restyle |].
      apply Revealed_updNode; [restyle | exact H].
  - apply Revealed_updNode; [restyle | exact H].
Qed.

Lemma Revealed_toggleMobileMenu pg :
  Revealed ns pg -> Revealed ns (toggleMobileMenu pg).2.
Proof.
  intros H. unfold toggleMobileMenu.
  set (pg1 := set_state _ pg).
  assert (H1 : Revealed ns pg1)
    by (apply (Revealed_same pg); [reflexivity | reflexivity | exact H]).
  destruct (isMenuOpen (state pg1));
    [apply Revealed_openMobileMenu | apply Revealed_closeMobileMenu]; exact H1.
Qed.

Lemma Revealed_handleOutsideClick target pg :
  Revealed ns pg -> Revealed ns (handleOutsideClick target pg).2.
Proof.
  intros H. unfold handleOutsideClick.
  destruct (negb _); [exact H |].
  destruct (navMenu _); [| exact H].
  destruct (containsNode _ _ _); [exact H |].
  destruct (menuToggle _); [| exact H].
  destruct (containsNode _ _ _); [exact H |].
  apply Revealed_closeMobileMenu, H.
Qed.

Lemma Revealed_handleNavigation target pg :
  Revealed ns pg -> Revealed ns (handleNavigation target pg).2.
Proof.
  intros H. unfold handleNavigation.
  destruct (_ ≫= _); [| exact H].
  destruct (_ && _); [| exact H].
  apply Revealed_andThen; [| intros pg1 H1; apply Revealed_andThen].
  - unfold pure. cbn [snd]. apply Revealed_showSection, H.
  - apply Revealed_updateActiveNavLink, H1.
  - intros pg' H'. apply Revealed_closeMobileMenu, H'.
Qed.

Lemma Revealed_handleKeyNavigation key altKey pg :
  Revealed ns pg -> Revealed ns (handleKeyNavigation key altKey pg).2.
Proof.
  intros H. unfold handleKeyNavigation. apply Revealed_andThen.
  - destruct (_ && _); [apply Revealed_closeMobileMenu |]; exact H.
  - clear pg H. intros pg H. destruct (negb altKey); [exact H |]. cbv zeta.
    assert (Hgo : forall k,
      Revealed ns
        (match sections (elements pg) !! k with
         | Some sec =>
             (pure (showSection (sectionId (nodes pg) sec)) >>
              updateActiveNavLink (navLinks (elements pg) !! k)) pg
         | None =>
             (Throw (TypeError "Cannot read properties of undefined (reading 'id')"), pg)
         end).2).
    { intros k. destruct (_ !! k); [| exact H].
      apply Revealed_andThen.
      - unfold pure. cbn [snd]. apply Revealed_showSection, H.
      - intros pg' H'. apply Revealed_updateActiveNavLink, H'. }
    destruct (_ && _); [apply Hgo |].
    destruct (_ && _); [apply Hgo | exact H].
Qed.

Lemma Revealed_loadHash hash pg :
  Revealed ns pg -> Revealed ns (loadHash hash pg).2.
Proof.
  intros H. unfold loadHash. destruct (_ && _); [| exact H]. cbv zeta.
  destruct (linkTo _ _); [| apply Revealed_showSection, H].
  apply Revealed_updateActiveNavLink, Revealed_showSection, H.
Qed.

Lemma Revealed_click target pg : Revealed ns pg -> Revealed ns (click target pg).
Proof.
  intros H. unfold click. cbv zeta.
  set (pg1 := foldl _ pg _).
  assert (H1 : Revealed ns pg1).
  { subst pg1. apply (foldl_invariant (Revealed ns)); [| exact H].
    intros pg' link H'. destruct (containsNode _ _ _); [| exact H'].
    apply Revealed_handleNavigation, H'. }
  apply Revealed_handleOutsideClick.
  destruct (menuToggle _); [| exact H1].
  destruct (containsNode _ _ _); [| exact H1].
  apply Revealed_toggleMobileMenu, H1.
Qed.

Lemma Revealed_animateSkillBars bars pg :
  Revealed ns pg -> Revealed ns (animateSkillBars bars pg).
Proof.
  intros H. unfold animateSkillBars. apply Revealed_forEach; [| exact H].
  intros i bar pg' H'. destruct (_ ≫= _); [| exact H'].
  case_bool_decide; [exact H' |]. apply Revealed_setTimeout, H'.
Qed.

(** The class [getAnimationClass] picks is decided by the markup. *)
Lemma Markup_getAnimationClass pg h :
  Markup ns pg -> getAnimationClass (nodes pg) h = getAnimationClass ns h.
Proof.
  intros HM. unfold getAnimationClass.
  rewrite !(Markup_class ns pg h _ HM) by static_class.
  assert (Hs : siblings (nodes pg) h = siblings ns h).
  { unfold siblings.
    assert (Hp : from_option parent None (nodes pg !! h)
                 = from_option parent None (ns !! h)).
    { destruct (ns !! h) as [n |] eqn:E.
      - destruct (Markup_lookup ns pg h n HM E) as (n' & -> & Hsm). cbn.
        apply (same_parent _ _ Hsm).
      - destruct (nodes pg !! h) as [n' |] eqn:E'; [| reflexivity].
        destruct (Markup_lookup_r ns pg h n' HM E') as (n & Hn & _). congruence. }
    rewrite Hp. apply selectAll_pointwise; [apply (Markup_length ns pg HM) |].
    intros i n n' Hn Hn'.
    destruct (Markup_lookup ns pg i n HM Hn) as (n2 & Hn2 & Hsm).
    assert (n2 = n') as -> by congruence.
    rewrite (same_parent _ _ Hsm). reflexivity. }
  rewrite Hs. reflexivity.
Qed.

Lemma Revealed_animateElement by_ e pg :
  Markup ns pg -> Revealed ns pg -> Revealed ns (animateElement by_ e pg).
Proof.
  intros HM H. unfold animateElement. cbv zeta.
  set (pg1 := set_animationLog _ _).
  assert (H1 : Revealed ns pg1).
  { subst pg1. intros b h Hin. cbn [animationLog set_animationLog] in Hin.
    cbn [nodes set_animationLog].
    apply elem_of_app in Hin as [Hin | Hin].
    - exact (Revealed_updNode e _ pg (keepsReveal_addClass _) H b h Hin).
    - apply list_elem_of_singleton in Hin as [= -> ->].
      rewrite (Markup_getAnimationClass pg e HM).
      rewrite nodeHasClass_updNode, decide_True by reflexivity.
      destruct (nodes pg !! e) as [n |] eqn:E.
      + left. cbn. unfold hasClass, addClass. cbn. apply contains_classAdd.
      + right. apply lookup_ge_None in E.
        rewrite (Markup_length ns pg HM) in E. exact E. }
  destruct (querySelectorAllIn _ _ _); [exact H1 |].
  apply Revealed_setTimeout, H1.
Qed.

Lemma Revealed_observeEntry target isIntersecting pg :
  Markup ns pg -> Revealed ns pg ->
  Revealed ns (observeEntry target isIntersecting pg).
Proof.
  intros HM H. unfold observeEntry. destruct (_ && _); [| exact H]. cbv zeta.
  apply (Revealed_same (animateElement byObserver target pg));
    [reflexivity | reflexivity |].
  apply Revealed_animateElement; assumption.
Qed.

Lemma Revealed_step ev pg :
  isResize ev = false -> Seen pg -> Markup ns pg ->
  Revealed ns pg -> Revealed ns (step ev pg).
Proof.
  intros Hev HS HM H. destruct ev; cbn [step]; try discriminate.
  - apply Revealed_click, H.
  - apply Revealed_loadHash.
    apply (Revealed_same pg); [reflexivity | reflexivity | exact H].
  - apply Revealed_handleKeyNavigation, H.
  - case_bool_decide; [apply Revealed_observeEntry |]; assumption.
  - destruct (nextTimer (timers pg)) as [[k [due cb]] |] eqn:E; [| exact H].
    pose proof (nextTimer_Some _ _ _ E) as Hk.
    set (pg1 := set_now _ _).
    assert (H1 : Revealed ns pg1)
      by (apply (Revealed_same pg); [reflexivity | reflexivity | exact H]).
    assert (HM1 : Markup ns pg1)
      by (apply (Markup_fields ns pg); [reflexivity | reflexivity | exact HM]).
    assert (Hcb : isResizeSettled (due, cb) = false).
    { destruct HS as [_ _ Q]. unfold quietResize in Q.
      apply (proj1 (Forall_forall _ _) Q), list_elem_of_lookup. eauto. }
    destruct cb; cbn [runTimer pure snd]; try discriminate.
    + apply Revealed_animateElement; assumption.
    + apply Revealed_animateSkillBars, H1.
    + apply Revealed_updNode; [| exact H1].
      apply keepsReveal_classes. intros n. unfold setWidth.
      destruct (wholePercent _); reflexivity.
    + apply Revealed_updNode; [restyle |].
      apply Revealed_updNode; [restyle | exact H1].
    + destruct (loadingSpinner (elements pg1)); cbn [snd]; [| exact H1].
      apply Revealed_updNode; [restyle | exact H1].
Qed.

Lemma Revealed_domContentLoaded width hash :
  Revealed ns (domContentLoaded (loaded ns width hash)).2.
Proof.
  unfold domContentLoaded, andThen, pure. cbn [fst snd].
  apply Revealed_loadHash. unfold constructor.
  set (pg0 := set_state _ _).
  assert (H0 : Revealed ns pg0) by (intros b h Hin; inversion Hin).
  assert (H1 : Revealed ns (showLoadingSpinner pg0)).
  { unfold showLoadingSpinner. destruct (loadingSpinner (elements pg0));
      [apply Revealed_updNode; [restyle |] |]; exact H0. }
  assert (H2 : Revealed ns (initializeComponents (showLoadingSpinner pg0))).
  { unfold initializeComponents, setupAccessibility. cbv zeta.
    apply (Revealed_same
             (forEach (fun _ link pg' => updNode link (setAttribute "tabindex" "0") pg')
                (navLinks (elements (initializeSkillBars (setupIntersectionObserver
                   (showSection (currentSection (state (showLoadingSpinner pg0)))
                      (showLoadingSpinner pg0))))))
                (initializeSkillBars (setupIntersectionObserver
                   (showSection (currentSection (state (showLoadingSpinner pg0)))
                      (showLoadingSpinner pg0))))));
      [reflexivity | reflexivity |].
    apply Revealed_forEach.
    { intros i a pg' H'. apply Revealed_updNode; [restyle | exact H']. }
    unfold initializeSkillBars. apply Revealed_forEach.
    { intros i a pg' H'. apply Revealed_updNode; [restyle | exact H']. }
    unfold setupIntersectionObserver.
    apply (Revealed_same (showSection (currentSection (state (showLoadingSpinner pg0)))
                            (showLoadingSpinner pg0)));
      [reflexivity | reflexivity |].
    apply Revealed_showSection, H1. }
  unfold hideLoadingSpinner.
  destruct (loadingSpinner (elements (initializeComponents (showLoadingSpinner pg0))));
    [apply Revealed_setTimeout |]; exact H2.
Qed.

Lemma Revealed_run evs pg :
  Forall (fun ev => isResize ev = false) evs ->
  Seen pg -> Markup ns pg -> Revealed ns pg ->
  Revealed ns (run evs pg).
Proof.
  intros Hevs. revert pg. induction Hevs as [| ev evs Hev _ IH]; intros pg HS HM H;
    [exact H |].
  cbn. apply IH.
  - apply Seen_step; assumption.
  - apply (I_step (Markup ns) (Markup_fields ns) (Markup_updNode ns)), HM.
  - apply Revealed_step; assumption.
Qed.

(** Running [animateElement] on an element that carries its class leaves
    the document as it is. *)
Lemma animateElement_again by_ h pg :
  Markup ns pg ->
  nodeHasClass (nodes pg) h (getAnimationClass ns h) = true \/ length ns <= h ->
  nodes (animateElement by_ h pg) = nodes pg.
Proof.
  intros HM Hc.
  assert (E : nodes (animateElement by_ h pg)
              = alter (addClass (getAnimationClass ns h)) h (nodes pg)).
  { unfold animateElement. cbv zeta. rewrite (Markup_getAnimationClass pg h HM).
    destruct (querySelectorAllIn _ _ _); reflexivity. }
  rewrite E. apply list_eq. intros i. rewrite list_lookup_alter.
  destruct (decide (h = i)) as [<- | _]; [| reflexivity].
  destruct Hc as [Hc | Hlen].
  - unfold nodeHasClass in Hc. destruct (nodes pg !! h) as [n |]; [| reflexivity].
    cbn in *. f_equal. unfold addClass, hasClass, classAdd in *. rewrite Hc.
    destruct n. reflexivity.
  - rewrite <- (Markup_length ns pg HM) in Hlen.
    apply lookup_ge_None in Hlen. rewrite Hlen. reflexivity.
Qed.

End RevealFacts.

(** C3. For every sequence of navigation events (clicks on nav links
    and elsewhere, hash changes, key presses), with the entries of the
    reveal observer and the timers in any order among them and no resize:
    the seen-set [hasAnimated] holds at most one entry per element; the
    observer has applied the reveal animation to an element once if the
    element is in the seen-set and never otherwise, so at most once; its
    callback leaves the page as it is for an element in the seen-set; and
    once [animateElement] has run on an element, from the observer or
    from the staggered animation of its section, the element carries its
    animation class and running [animateElement] on it again changes
    nothing in the document: navigation re-runs the entry animation of a
    section without a second assignment of the class. (The resize
    handler, which empties the seen-set, is not a navigation call.) *)
Theorem reveal_applied_once
    (ns : list CVApp.Node) (width : nat) (hash : string)
    (evs : list CVApp.Event) (h : nat) :
  Forall (fun ev => CVApp.isResize ev = false) evs ->
  let pg := CVApp.run evs (CVApp.domContentLoaded (CVApp.loaded ns width hash)).2 in
  NoDup (CVApp.hasAnimated (CVApp.state pg)) /\
  CVApp.applications CVApp.byObserver h pg
  = (if bool_decide (h ∈ CVApp.hasAnimated (CVApp.state pg)) then 1 else 0) /\
  (h ∈ CVApp.hasAnimated (CVApp.state pg) ->
   forall isIntersecting,
     CVApp.step (CVApp.Intersect h isIntersecting) pg = pg) /\
  ((exists by_, (by_, h) ∈ CVApp.animationLog pg) ->
   forall by_,
     CVApp.nodes (CVApp.animateElement by_ h pg) = CVApp.nodes pg).
Proof.
  intros Hevs pg.
  pose proof (Seen_run evs _ Hevs (Seen_domContentLoaded ns width hash)) as HS.
  pose proof (Markup_reached ns width hash evs) as HM.
  pose proof (Revealed_run ns evs _ Hevs (Seen_domContentLoaded ns width hash)
                (Markup_domContentLoaded ns width hash)
                (Revealed_domContentLoaded ns width hash)) as HR.
  fold pg in HS, HM, HR. destruct HS as [N R _].
  split; [exact N |]. split; [apply R |]. split.
  - intros Hin b. cbn [CVApp.step]. case_bool_decide; [| reflexivity].
    unfold CVApp.observeEntry.
    rewrite (bool_decide_eq_true_2 _ Hin), andb_false_r. reflexivity.
  - intros [b Hb] b'. apply (animateElement_again ns); [exact HM |].
    exact (HR b h Hb).
Qed.

Lemma reveal_applied_once_witness :
  let evs := [CVApp.Intersect 7 true; CVApp.Click 2; CVApp.TimerFires;
              CVApp.TimerFires; CVApp.Intersect 7 true] in
  let pg := CVApp.run evs
              (CVApp.domContentLoaded (CVApp.loaded Demo.markup 1200 EmptyString)).2 in
  Forall (fun ev => CVApp.isResize ev = false) evs /\
  CVApp.hasAnimated (CVApp.state pg) = [7] /\
  CVApp.applications CVApp.byObserver 7 pg = 1 /\
  CVApp.nodes (CVApp.animateElement CVApp.bySection 7 pg) = CVApp.nodes pg.
Proof.
  cbv zeta.
  assert (H : Forall (fun ev => CVApp.isResize ev = false)
                [CVApp.Intersect 7 true; CVApp.Click 2; CVApp.TimerFires;
                 CVApp.TimerFires; CVApp.Intersect 7 true])
    by (repeat constructor).
  split; [exact H |]. split; [vm_compute; reflexivity |].
  destruct (reveal_applied_once Demo.markup 1200 EmptyString _ 7 H)
    as (_ & Ha & _ & Hn).
  split.
  - rewrite Ha. vm_compute. reflexivity.
  - apply Hn. exists CVApp.byObserver. vm_compute. left.
Defined.
